(** * NoteG: scanner, parser and language server of eclipse-ssg

    A shallow embedding of

    - [noteg-lang/src/lexer.ts]   (class [Lexer]),
    - [noteg-lang/src/parser.ts]  (class [Parser]),
    - [noteg-lang/src/lsp/server.ts] (classes [DocumentStore],
      [NoteGLanguageServer] and the function [runStdio]),

    followed by the properties of the specification that are settled on
    it.  Each TypeScript method is one definition of the same name; state
    held in [this] is passed explicitly; [throw] is an outcome of the
    [result] type; loops and recursive methods take a fuel argument, and
    the entry points ([tokenize], [parse], [analyze]) are shown never to
    run out of it. *)

From Stdlib Require Import String Ascii List ZArith Lia Bool.
From Stdlib Require Import DecimalString DecimalPos.
From stdpp Require Import base option list gmap strings.

Set Warnings "-register-all,-non-full-mutual".

Local Open Scope string_scope.
Local Open Scope list_scope.

(** ** JavaScript outcomes *)

(** What a JavaScript [throw] carries in this program: an [Error] built
    by the code itself, or the [TypeError] the engine raises when a
    property of [undefined] is read.  Both are [instanceof Error] and both
    have a [message]. *)
Inductive exn : Type :=
| Error (message : string)
| TypeError (message : string).

Definition exn_message (e : exn) : string :=
  match e with
  | Error m => m
  | TypeError m => m
  end.

(** The [TypeError] of V8 for [undefined.name]. *)
Definition undefined_property (name : string) : exn :=
  TypeError ("Cannot read properties of undefined (reading '"
             +:+ name +:+ "')").

(** The outcome of running a method from a state of type [S]: it returns
    [a] and leaves the state [s], or throws, or the model's fuel is
    exhausted. *)
Inductive result (S A : Type) : Type :=
| Ok (a : A) (s : S)
| Throw (e : exn)
| OutOfFuel.

Arguments Ok {S A} a s.
Arguments Throw {S A} e.
Arguments OutOfFuel {S A}.

Definition M (S A : Type) : Type := S -> result S A.

Definition ret {S A} (a : A) : M S A := fun s => Ok a s.

Definition throw {S A} (e : exn) : M S A := fun _ => Throw e.

Definition out_of_fuel {S A} : M S A := fun _ => OutOfFuel.

Definition bind {S A B} (m : M S A) (k : A -> M S B) : M S B :=
  fun s =>
    match m s with
    | Ok a s' => k a s'
    | Throw e => Throw e
    | OutOfFuel => OutOfFuel
    end.

Definition get {S} : M S S := fun s => Ok s s.

Definition put {S} (s : S) : M S unit := fun _ => Ok tt s.

Declare Scope js_scope.
Delimit Scope js_scope with js.
Notation "'let*' x := m 'in' k" := (bind m (fun x => k))
  (at level 10, x name, m at level 100, k at level 200) : js_scope.
Local Open Scope js_scope.

(** [String(n)] for an integer-valued number. *)
Definition string_of_Z (z : Z) : string := NilZero.string_of_int (Z.to_int z).

(** [s.length] as a number. *)
Definition strlen (s : string) : Z := Z.of_nat (String.length s).

(** ** Tokens (lexer.ts) *)

Module TokenType.
Inductive t : Type :=
| STRING | NUMBER | BOOLEAN | IDENTIFIER
| LET | IF | ELSE | FOR | WHILE | FN | RETURN | TRUE | FALSE
| PLUS | MINUS | STAR | SLASH | PERCENT
| EQ | NEQ | LT | GT | LTE | GTE | AND | OR | NOT | ASSIGN
| LPAREN | RPAREN | LBRACE | RBRACE | LBRACKET | RBRACKET
| COMMA | DOT | COLON | SEMICOLON | ARROW
| TEMPLATE_START | TEMPLATE_END
| NEWLINE | EOF | ERROR.

Definition eqb (a b : t) : bool :=
  match a, b with
  | STRING, STRING | NUMBER, NUMBER | BOOLEAN, BOOLEAN
  | IDENTIFIER, IDENTIFIER
  | LET, LET | IF, IF | ELSE, ELSE | FOR, FOR | WHILE, WHILE | FN, FN
  | RETURN, RETURN | TRUE, TRUE | FALSE, FALSE
  | PLUS, PLUS | MINUS, MINUS | STAR, STAR | SLASH, SLASH
  | PERCENT, PERCENT
  | EQ, EQ | NEQ, NEQ | LT, LT | GT, GT | LTE, LTE | GTE, GTE
  | AND, AND | OR, OR | NOT, NOT | ASSIGN, ASSIGN
  | LPAREN, LPAREN | RPAREN, RPAREN | LBRACE, LBRACE | RBRACE, RBRACE
  | LBRACKET, LBRACKET | RBRACKET, RBRACKET
  | COMMA, COMMA | DOT, DOT | COLON, COLON | SEMICOLON, SEMICOLON
  | ARROW, ARROW
  | TEMPLATE_START, TEMPLATE_START | TEMPLATE_END, TEMPLATE_END
  | NEWLINE, NEWLINE | EOF, EOF | ERROR, ERROR => true
  | _, _ => false
  end.

(** The enum is a string enum: each member's value is its name. *)
Definition to_string (a : t) : string :=
  match a with
  | STRING => "STRING" | NUMBER => "NUMBER" | BOOLEAN => "BOOLEAN"
  | IDENTIFIER => "IDENTIFIER"
  | LET => "LET" | IF => "IF" | ELSE => "ELSE" | FOR => "FOR"
  | WHILE => "WHILE" | FN => "FN" | RETURN => "RETURN"
  | TRUE => "TRUE" | FALSE => "FALSE"
  | PLUS => "PLUS" | MINUS => "MINUS" | STAR => "STAR"
  | SLASH => "SLASH" | PERCENT => "PERCENT"
  | EQ => "EQ" | NEQ => "NEQ" | LT => "LT" | GT => "GT"
  | LTE => "LTE" | GTE => "GTE" | AND => "AND" | OR => "OR"
  | NOT => "NOT" | ASSIGN => "ASSIGN"
  | LPAREN => "LPAREN" | RPAREN => "RPAREN" | LBRACE => "LBRACE"
  | RBRACE => "RBRACE" | LBRACKET => "LBRACKET"
  | RBRACKET => "RBRACKET"
  | COMMA => "COMMA" | DOT => "DOT" | COLON => "COLON"
  | SEMICOLON => "SEMICOLON" | ARROW => "ARROW"
  | TEMPLATE_START => "TEMPLATE_START" | TEMPLATE_END => "TEMPLATE_END"
  | NEWLINE => "NEWLINE" | EOF => "EOF" | ERROR => "ERROR"
  end.
End TokenType.

Module Token.
Record t : Type := mk {
  type : TokenType.t;
  value : string;
  line : Z;
  column : Z
}.
End Token.

(** ** The scanner (lexer.ts, class [Lexer]) *)

Module Lexer.

(** The mutable fields of a [Lexer]; [source] never changes and is a
    parameter of the section below. *)
Record state : Type := mkState {
  pos : nat;
  line : Z;
  column : Z
}.

Definition char_code (c : ascii) : nat := nat_of_ascii c.

(** [a === b] on one-character strings. *)
Definition char_eqb (a b : ascii) : bool := Ascii.eqb a b.

(** [char >= "0" && char <= "9"] *)
Definition isDigit (char : ascii) : bool :=
  (char_code "0" <=? char_code char)%nat && (char_code char <=? char_code "9")%nat.

Definition isAlpha (char : ascii) : bool :=
  ((char_code "a" <=? char_code char)%nat && (char_code char <=? char_code "z")%nat)
  || ((char_code "A" <=? char_code char)%nat && (char_code char <=? char_code "Z")%nat)
  || char_eqb char "_".

Definition isAlphaNumeric (char : ascii) : bool :=
  isAlpha char || isDigit char.

(** The static table [Lexer.keywords]. *)
Definition keywords : list (string * TokenType.t) :=
  [ ("let", TokenType.LET); ("if", TokenType.IF); ("else", TokenType.ELSE);
    ("for", TokenType.FOR); ("while", TokenType.WHILE); ("fn", TokenType.FN);
    ("return", TokenType.RETURN); ("true", TokenType.TRUE);
    ("false", TokenType.FALSE); ("and", TokenType.AND);
    ("or", TokenType.OR); ("not", TokenType.NOT) ].

(** [Lexer.keywords.get(value)] *)
Fixpoint keywords_get (table : list (string * TokenType.t)) (value : string)
  : option TokenType.t :=
  match table with
  | [] => None
  | (k, ty) :: table' =>
      if String.eqb k value then Some ty else keywords_get table' value
  end.

(** [value += c], where [c] is [source[i]]: a one-character string, or
    [undefined], which JavaScript appends as the text "undefined". *)
Definition append_char (value : string) (c : option ascii) : string :=
  match c with
  | Some a => value +:+ String a EmptyString
  | None => value +:+ "undefined"
  end.

Definition newline : ascii := "010".
Definition tab : ascii := "009".
Definition carriage_return : ascii := "013".
Definition nul : ascii := "000".
Definition double_quote : ascii := "034".
Definition single_quote : ascii := "039".

Section WithSource.
Variable source : string.

Definition L : Type -> Type := M state.

Definition isAtEnd : L bool :=
  fun s => Ok (String.length source <=? pos s)%nat s.

(** [this.source[this.pos] ?? "\0"] *)
Definition peek : L ascii :=
  fun s => Ok (default nul (String.get (pos s) source)) s.

Definition peekNext : L ascii :=
  fun s => Ok (default nul (String.get (pos s + 1) source)) s.

Definition advance : L (option ascii) :=
  fun s => Ok (String.get (pos s) source)
              (mkState (pos s + 1) (line s) (column s + 1)).

Definition makeToken (type : TokenType.t) (value : string) : L Token.t :=
  fun s => Ok (Token.mk type value (line s) (column s - strlen value)) s.

(** [this.line++; this.column = 1] *)
Definition next_line : L unit :=
  fun s => Ok tt (mkState (pos s) (line s + 1) 1).

Fixpoint skipWhitespace (fuel : nat) : L unit :=
  match fuel with
  | O => out_of_fuel
  | S fuel =>
      let* e := isAtEnd in
      if e then ret tt
      else
        let* char := peek in
        if char_eqb char " " || char_eqb char tab
           || char_eqb char carriage_return
        then let* _ := advance in skipWhitespace fuel
        else ret tt
  end.

Fixpoint skipLineComment (fuel : nat) : L unit :=
  match fuel with
  | O => out_of_fuel
  | S fuel =>
      let* e := isAtEnd in
      let* char := peek in
      if negb e && negb (char_eqb char newline)
      then let* _ := advance in skipLineComment fuel
      else ret tt
  end.

(** The [while] loop of the method [string]. *)
Fixpoint string_loop (fuel : nat) (quote : ascii) (value : string)
  : L string :=
  match fuel with
  | O => out_of_fuel
  | S fuel =>
      let* e := isAtEnd in
      let* char := peek in
      if negb e && negb (char_eqb char quote) then
        let* _ := (if char_eqb char newline then next_line else ret tt) in
        let* next := peekNext in
        let* _ := (if char_eqb char "\" && char_eqb next quote
             then let* _ := advance in ret tt else ret tt) in
        let* c := advance in
        string_loop fuel quote (append_char value c)
      else ret value
  end.

(** The method [string]; the name is taken by the type. *)
Definition string_ (fuel : nat) (quote : ascii) : L Token.t :=
  let* value := string_loop fuel quote "" in
  let* e := isAtEnd in
  if e then makeToken TokenType.ERROR "Unterminated string"
  else
    let* _ := advance in
    makeToken TokenType.STRING value.

(** [while (this.isDigit(this.peek())) value += this.advance()] *)
Fixpoint digits_loop (fuel : nat) (value : string) : L string :=
  match fuel with
  | O => out_of_fuel
  | S fuel =>
      let* char := peek in
      if isDigit char then
        let* c := advance in
        digits_loop fuel (append_char value c)
      else ret value
  end.

Definition number (fuel : nat) (first : ascii) : L Token.t :=
  let* value := digits_loop fuel (String first EmptyString) in
  let* char := peek in
  let* next := peekNext in
  let* value :=
    if char_eqb char "." && isDigit next then
      let* c := advance in
      digits_loop fuel (append_char value c)
    else ret value in
  makeToken TokenType.NUMBER value.

Fixpoint identifier_loop (fuel : nat) (value : string) : L string :=
  match fuel with
  | O => out_of_fuel
  | S fuel =>
      let* char := peek in
      if isAlphaNumeric char then
        let* c := advance in
        identifier_loop fuel (append_char value c)
      else ret value
  end.

Definition identifier (fuel : nat) (first : ascii) : L Token.t :=
  let* value := identifier_loop fuel (String first EmptyString) in
  let type := default TokenType.IDENTIFIER (keywords_get keywords value) in
  makeToken type value.

(** [if (this.peek() === c) { this.advance(); return makeToken(two, ..) }
    return makeToken(one, char)] *)
Definition one_or_two (c : ascii) (two : TokenType.t) (text2 : string)
    (one : TokenType.t) (text1 : string) : L Token.t :=
  let* next := peek in
  if char_eqb next c then let* _ := advance in makeToken two text2
  else makeToken one text1.

Fixpoint nextToken (fuel : nat) : L Token.t :=
  match fuel with
  | O => out_of_fuel
  | S fuel =>
      let* _ := skipWhitespace fuel in
      let* e := isAtEnd in
      if e then makeToken TokenType.EOF ""
      else
        let* c := advance in
        match c with
        | None =>
            (* every comparison with [undefined] fails, and
               [makeToken(ERROR, undefined)] reads [value.length] *)
            throw (undefined_property "length")
        | Some char =>
            let text := String char EmptyString in
            let* next := peek in
            if char_eqb char "{" && char_eqb next "{" then
              let* _ := advance in makeToken TokenType.TEMPLATE_START "{{"
            else if char_eqb char "}" && char_eqb next "}" then
              let* _ := advance in makeToken TokenType.TEMPLATE_END "}}"
            else if char_eqb char "(" then makeToken TokenType.LPAREN text
            else if char_eqb char ")" then makeToken TokenType.RPAREN text
            else if char_eqb char "{" then makeToken TokenType.LBRACE text
            else if char_eqb char "}" then makeToken TokenType.RBRACE text
            else if char_eqb char "[" then makeToken TokenType.LBRACKET text
            else if char_eqb char "]" then makeToken TokenType.RBRACKET text
            else if char_eqb char "," then makeToken TokenType.COMMA text
            else if char_eqb char "." then makeToken TokenType.DOT text
            else if char_eqb char ":" then makeToken TokenType.COLON text
            else if char_eqb char ";" then makeToken TokenType.SEMICOLON text
            else if char_eqb char "+" then makeToken TokenType.PLUS text
            else if char_eqb char "-" then
              one_or_two ">" TokenType.ARROW "->" TokenType.MINUS text
            else if char_eqb char "*" then makeToken TokenType.STAR text
            else if char_eqb char "/" then
              if char_eqb next "/" then
                let* _ := skipLineComment fuel in nextToken fuel
              else makeToken TokenType.SLASH text
            else if char_eqb char "%" then makeToken TokenType.PERCENT text
            else if char_eqb char "=" then
              one_or_two "=" TokenType.EQ "==" TokenType.ASSIGN text
            else if char_eqb char "!" then
              one_or_two "=" TokenType.NEQ "!=" TokenType.NOT text
            else if char_eqb char "<" then
              one_or_two "=" TokenType.LTE "<=" TokenType.LT text
            else if char_eqb char ">" then
              one_or_two "=" TokenType.GTE ">=" TokenType.GT text
            else if char_eqb char newline then
              let* _ := next_line in makeToken TokenType.NEWLINE text
            else if char_eqb char double_quote
                    || char_eqb char single_quote then
              string_ fuel char
            else if isDigit char then number fuel char
            else if isAlpha char then identifier fuel char
            else makeToken TokenType.ERROR text
        end
  end.

(** The [while] loop of [tokenize]; [tokens] is the array built so
    far. *)
Fixpoint tokenize_loop (fuel : nat) (tokens : list Token.t)
  : L (list Token.t) :=
  match fuel with
  | O => out_of_fuel
  | S fuel =>
      let* e := isAtEnd in
      if e then
        let* eof := makeToken TokenType.EOF "" in
        ret (tokens ++ [eof])
      else
        let* token := nextToken fuel in
        if TokenType.eqb (Token.type token) TokenType.NEWLINE
        then tokenize_loop fuel tokens
        else tokenize_loop fuel (tokens ++ [token])
  end.

Definition tokenize_fuel : nat := String.length source + 3.

(** [new Lexer(source).tokenize()] *)
Definition tokenize : result state (list Token.t) :=
  tokenize_loop tokenize_fuel [] (mkState 0 1 1).

End WithSource.
End Lexer.

(** ** Syntax trees (parser.ts) *)

(** A number literal is [parseFloat(lexeme)]; the floating-point value is
    not computed, the node records the lexeme it is the value of. *)
Inductive number : Type :=
| parseFloat (lexeme : string).

(** [string | number | boolean | null] *)
Inductive LiteralValue : Type :=
| LString (s : string)
| LNumber (n : number)
| LBoolean (b : bool)
| LNull.

Inductive ASTNode : Type :=
| Program (body : list ASTNode)
| Let (name : string) (value : ASTNode)
| Function (name : string) (params : list string) (body : ASTNode)
| If (condition thenBranch : ASTNode) (elseBranch : option ASTNode)
| For (variable : string) (iterable body : ASTNode)
| While (condition body : ASTNode)
| Return (value : option ASTNode)
| BinaryExpr (operator : string) (left right : ASTNode)
| UnaryExpr (operator : string) (operand : ASTNode)
| Call (callee : ASTNode) (args : list ASTNode)
| Identifier (name : string)
| Literal (value : LiteralValue)
| Array (elements : list ASTNode)
| Object (properties : list (string * ASTNode))
| Template (variable : string)
| Block (statements : list ASTNode).

(** ** The parser (parser.ts, class [Parser]) *)

Module Parser.

Section WithTokens.
(** [this.tokens]; the only mutable field is [this.pos], the state. *)
Variable tokens : list Token.t.

Definition P : Type -> Type := M nat.

(** Reading a property of a value that may be [undefined]. *)
Definition prop {A} (name : string) (f : Token.t -> A)
    (t : option Token.t) : P A :=
  match t with
  | Some t => ret (f t)
  | None => throw (undefined_property name)
  end.

(** [this.tokens[this.pos]] *)
Definition peek : P (option Token.t) :=
  fun pos => Ok (tokens !! pos) pos.

(** [this.tokens[this.pos - 1]]; index [-1] is [undefined]. *)
Definition previous : P (option Token.t) :=
  fun pos =>
    Ok (match pos with O => None | S i => tokens !! i end) pos.

Definition isAtEnd : P bool :=
  let* t := peek in
  let* type := prop "type" Token.type t in
  ret (TokenType.eqb type TokenType.EOF).

(** [!this.isAtEnd() && this.peek().type === type] *)
Definition check (type : TokenType.t) : P bool :=
  let* e := isAtEnd in
  if e then ret false
  else
    let* t := peek in
    let* type' := prop "type" Token.type t in
    ret (TokenType.eqb type' type).

Definition advance : P (option Token.t) :=
  let* e := isAtEnd in
  let* _ := (if e then ret tt else fun pos => Ok tt (S pos)) in
  previous.

Definition consume (type : TokenType.t) (message : string)
  : P (option Token.t) :=
  let* c := check type in
  if c then advance
  else
    let* t := peek in
    let* line := prop "line" Token.line t in
    throw (Error (message +:+ " at line " +:+ string_of_Z line)).

(** [match(...types)] *)
Fixpoint match_ (types : list TokenType.t) : P bool :=
  match types with
  | [] => ret false
  | type :: types =>
      let* c := check type in
      if c then let* _ := advance in ret true
      else match_ types
  end.

(** [this.previous().value] *)
Definition previous_value : P string :=
  let* t := previous in prop "value" Token.value t.

(** [this.consume(type, message).value] *)
Definition consume_value (type : TokenType.t) (message : string)
  : P string :=
  let* t := consume type message in prop "value" Token.value t.

(** [do { xs.push(elem()) } while (this.match(COMMA))] *)
Fixpoint do_while_comma {A} (elem : P A) (fuel : nat) (xs : list A)
  : P (list A) :=
  match fuel with
  | O => out_of_fuel
  | S fuel =>
      let* x := elem in
      let xs := xs ++ [x] in
      let* m := match_ [TokenType.COMMA] in
      if m then do_while_comma elem fuel xs else ret xs
  end.

(** [if (!this.check(close)) { do { .. } while (..) }] *)
Definition comma_list {A} (close : TokenType.t) (elem : P A)
    (fuel : nat) : P (list A) :=
  let* c := check close in
  if negb c then do_while_comma elem fuel [] else ret [].

(** The loop of the six binary levels:
    [while (this.match(...types)) { const operator = ..;
       const right = operand(); left = {BinaryExpr ..} }] *)
Fixpoint binary_loop (types : list TokenType.t) (operator : P string)
    (operand : P ASTNode) (fuel : nat) (left : ASTNode) : P ASTNode :=
  match fuel with
  | O => out_of_fuel
  | S fuel =>
      let* m := match_ types in
      if m then
        let* op := operator in
        let* right := operand in
        binary_loop types operator operand fuel (BinaryExpr op left right)
      else ret left
  end.

(** The loop of [call]:
    [while (true) { if (this.match(LPAREN)) {..} else break }] *)
Fixpoint call_loop (expression : P ASTNode) (fuel : nat) (expr : ASTNode)
  : P ASTNode :=
  match fuel with
  | O => out_of_fuel
  | S fuel =>
      let* m := match_ [TokenType.LPAREN] in
      if m then
        let* args := comma_list TokenType.RPAREN expression fuel in
        let* _ := consume TokenType.RPAREN "Expected ')' after arguments" in
        call_loop expression fuel (Call expr args)
      else ret expr
  end.

(** The loop of [block]:
    [while (!this.check(RBRACE) && !this.isAtEnd())] *)
Fixpoint block_loop (declaration : P ASTNode) (fuel : nat)
    (statements : list ASTNode) : P (list ASTNode) :=
  match fuel with
  | O => out_of_fuel
  | S fuel =>
      let* c := check TokenType.RBRACE in
      let* e := (if negb c then isAtEnd else ret true) in
      if negb c && negb e then
        let* stmt := declaration in
        block_loop declaration fuel (statements ++ [stmt])
      else ret statements
  end.

(** The loop of [parse]: [while (!this.isAtEnd())] *)
Fixpoint parse_loop (declaration : P ASTNode) (fuel : nat)
    (body : list ASTNode) : P (list ASTNode) :=
  match fuel with
  | O => out_of_fuel
  | S fuel =>
      let* e := isAtEnd in
      if negb e then
        let* stmt := declaration in
        parse_loop declaration fuel (body ++ [stmt])
      else ret body
  end.

Fixpoint declaration (fuel : nat) : P ASTNode :=
  match fuel with
  | O => out_of_fuel
  | S fuel =>
      let* c := check TokenType.LET in
      if c then letDeclaration fuel
      else
        let* c := check TokenType.FN in
        if c then functionDeclaration fuel
        else statement fuel
  end

with letDeclaration (fuel : nat) : P ASTNode :=
  match fuel with
  | O => out_of_fuel
  | S fuel =>
      let* _ := advance in
      let* name := consume_value TokenType.IDENTIFIER "Expected variable name" in
      let* _ := consume TokenType.ASSIGN "Expected '=' after variable name" in
      let* value := expression fuel in
      ret (Let name value)
  end

with functionDeclaration (fuel : nat) : P ASTNode :=
  match fuel with
  | O => out_of_fuel
  | S fuel =>
      let* _ := advance in
      let* name := consume_value TokenType.IDENTIFIER "Expected function name" in
      let* _ := consume TokenType.LPAREN "Expected '(' after function name" in
      let* params :=
        comma_list TokenType.RPAREN
          (consume_value TokenType.IDENTIFIER "Expected parameter name")
          fuel in
      let* _ := consume TokenType.RPAREN "Expected ')' after parameters" in
      let* body := block fuel in
      ret (Function name params body)
  end

with statement (fuel : nat) : P ASTNode :=
  match fuel with
  | O => out_of_fuel
  | S fuel =>
      let* c := check TokenType.IF in
      if c then ifStatement fuel
      else
        let* c := check TokenType.FOR in
        if c then forStatement fuel
        else
          let* c := check TokenType.WHILE in
          if c then whileStatement fuel
          else
            let* c := check TokenType.RETURN in
            if c then returnStatement fuel
            else
              let* c := check TokenType.LBRACE in
              if c then block fuel
              else expression fuel
  end

with ifStatement (fuel : nat) : P ASTNode :=
  match fuel with
  | O => out_of_fuel
  | S fuel =>
      let* _ := advance in
      let* condition := expression fuel in
      let* thenBranch := block fuel in
      let* m := match_ [TokenType.ELSE] in
      let* elseBranch :=
        if m then
          let* c := check TokenType.IF in
          if c then
            let* e := ifStatement fuel in ret (Some e)
          else
            let* e := block fuel in ret (Some e)
        else ret None in
      ret (If condition thenBranch elseBranch)
  end

with forStatement (fuel : nat) : P ASTNode :=
  match fuel with
  | O => out_of_fuel
  | S fuel =>
      let* _ := advance in
      let* variable := consume_value TokenType.IDENTIFIER "Expected variable name" in
      let* _ := consume TokenType.IDENTIFIER "Expected 'in'" in
      let* iterable := expression fuel in
      let* body := block fuel in
      ret (For variable iterable body)
  end

with whileStatement (fuel : nat) : P ASTNode :=
  match fuel with
  | O => out_of_fuel
  | S fuel =>
      let* _ := advance in
      let* condition := expression fuel in
      let* body := block fuel in
      ret (While condition body)
  end

with returnStatement (fuel : nat) : P ASTNode :=
  match fuel with
  | O => out_of_fuel
  | S fuel =>
      let* _ := advance in
      let* c := check TokenType.RBRACE in
      let* e := (if negb c then isAtEnd else ret true) in
      let* value :=
        if negb c && negb e then
          let* v := expression fuel in ret (Some v)
        else ret None in
      ret (Return value)
  end

with block (fuel : nat) : P ASTNode :=
  match fuel with
  | O => out_of_fuel
  | S fuel =>
      let* _ := consume TokenType.LBRACE "Expected '{'" in
      let* statements := block_loop (declaration fuel) fuel [] in
      let* _ := consume TokenType.RBRACE "Expected '}'" in
      ret (Block statements)
  end

with expression (fuel : nat) : P ASTNode :=
  match fuel with
  | O => out_of_fuel
  | S fuel => or fuel
  end

with or (fuel : nat) : P ASTNode :=
  match fuel with
  | O => out_of_fuel
  | S fuel =>
      let* left := and fuel in
      binary_loop [TokenType.OR] (ret "or") (and fuel) fuel left
  end

with and (fuel : nat) : P ASTNode :=
  match fuel with
  | O => out_of_fuel
  | S fuel =>
      let* left := equality fuel in
      binary_loop [TokenType.AND] (ret "and") (equality fuel) fuel left
  end

with equality (fuel : nat) : P ASTNode :=
  match fuel with
  | O => out_of_fuel
  | S fuel =>
      let* left := comparison fuel in
      binary_loop [TokenType.EQ; TokenType.NEQ] previous_value
        (comparison fuel) fuel left
  end

with comparison (fuel : nat) : P ASTNode :=
  match fuel with
  | O => out_of_fuel
  | S fuel =>
      let* left := term fuel in
      binary_loop
        [TokenType.LT; TokenType.GT; TokenType.LTE; TokenType.GTE]
        previous_value (term fuel) fuel left
  end

with term (fuel : nat) : P ASTNode :=
  match fuel with
  | O => out_of_fuel
  | S fuel =>
      let* left := factor fuel in
      binary_loop [TokenType.PLUS; TokenType.MINUS] previous_value
        (factor fuel) fuel left
  end

with factor (fuel : nat) : P ASTNode :=
  match fuel with
  | O => out_of_fuel
  | S fuel =>
      let* left := unary fuel in
      binary_loop [TokenType.STAR; TokenType.SLASH; TokenType.PERCENT]
        previous_value (unary fuel) fuel left
  end

with unary (fuel : nat) : P ASTNode :=
  match fuel with
  | O => out_of_fuel
  | S fuel =>
      let* m := match_ [TokenType.NOT; TokenType.MINUS] in
      if m then
        let* operator := previous_value in
        let* operand := unary fuel in
        ret (UnaryExpr operator operand)
      else call fuel
  end

with call (fuel : nat) : P ASTNode :=
  match fuel with
  | O => out_of_fuel
  | S fuel =>
      let* expr := primary fuel in
      call_loop (expression fuel) fuel expr
  end

with primary (fuel : nat) : P ASTNode :=
  match fuel with
  | O => out_of_fuel
  | S fuel =>
      let* m := match_ [TokenType.TRUE] in
      if m then ret (Literal (LBoolean true)) else
      let* m := match_ [TokenType.FALSE] in
      if m then ret (Literal (LBoolean false)) else
      let* m := match_ [TokenType.NUMBER] in
      if m then
        let* v := previous_value in ret (Literal (LNumber (parseFloat v)))
      else
      let* m := match_ [TokenType.STRING] in
      if m then
        let* v := previous_value in ret (Literal (LString v))
      else
      let* m := match_ [TokenType.IDENTIFIER] in
      if m then
        let* v := previous_value in ret (Identifier v)
      else
      let* m := match_ [TokenType.TEMPLATE_START] in
      if m then
        let* variable := consume_value TokenType.IDENTIFIER "Expected variable name" in
        let* _ := consume TokenType.TEMPLATE_END "Expected '}}'" in
        ret (Template variable)
      else
      let* m := match_ [TokenType.LBRACKET] in
      if m then
        let* elements := comma_list TokenType.RBRACKET (expression fuel) fuel in
        let* _ := consume TokenType.RBRACKET "Expected ']'" in
        ret (Array elements)
      else
      let* m := match_ [TokenType.LPAREN] in
      if m then
        let* expr := expression fuel in
        let* _ := consume TokenType.RPAREN "Expected ')'" in
        ret expr
      else
      let* t := peek in
      let* type := prop "type" Token.type t in
      throw (Error ("Unexpected token: " +:+ TokenType.to_string type))
  end.

(** [parse()] with the given fuel. *)
Definition parse_with (fuel : nat) : P ASTNode :=
  let* body := parse_loop (declaration fuel) fuel [] in
  ret (Program body).

Definition parse_fuel : nat := 16 * (length tokens + 1).

(** [new Parser(tokens).parse()]: the tree, or the error thrown. *)
Definition parse : result nat ASTNode := parse_with parse_fuel 0.

End WithTokens.
End Parser.

(** [parse(source)] of tests/parser_test.ts:
    [new Parser(new Lexer(source).tokenize()).parse()]. *)
Definition parse_source (source : string) : result nat ASTNode :=
  match Lexer.tokenize source with
  | Ok tokens _ => Parser.parse tokens
  | Throw e => Throw e
  | OutOfFuel => OutOfFuel
  end.

(** ** Regular expressions of server.ts

    Both regular expressions of the server are a literal followed by
    [(\d+)].  [regex_digits lit s] is the capture group of the leftmost
    match in [s], if there is a match.  Text is a list of characters of
    any type, with its test for a decimal digit. *)

Section Regex.
Context {C : Type} (eqb : C -> C -> bool) (digit : C -> option Z).

(** [s] without the prefix [lit], when it has that prefix. *)
Fixpoint strip_prefix (lit s : list C) : option (list C) :=
  match lit, s with
  | [], _ => Some s
  | _ :: _, [] => None
  | a :: lit', b :: s' => if eqb a b then strip_prefix lit' s' else None
  end.

(** The longest prefix of digits, greedy as [\d+] is. *)
Fixpoint take_digits (s : list C) : list C :=
  match s with
  | [] => []
  | c :: s' =>
      match digit c with
      | Some _ => c :: take_digits s'
      | None => []
      end
  end.

(** A match that starts at the first character of [s]. *)
Definition match_here (lit s : list C) : option (list C) :=
  match strip_prefix lit s with
  | Some rest =>
      match take_digits rest with
      | [] => None
      | ds => Some ds
      end
  | None => None
  end.

Fixpoint regex_digits (lit s : list C) : option (list C) :=
  match match_here lit s with
  | Some ds => Some ds
  | None =>
      match s with
      | [] => None
      | _ :: s' => regex_digits lit s'
      end
  end.

(** [parseInt] of a run of decimal digits. *)
Definition parseInt (ds : list C) : Z :=
  fold_left (fun acc c => 10 * acc + default 0 (digit c))%Z ds 0%Z.
End Regex.

Definition ascii_digit (c : ascii) : option Z :=
  if Lexer.isDigit c
  then Some (Z.of_nat (nat_of_ascii c) - 48)%Z
  else None.

(** [message.match(/at line (\d+)/)] followed by [parseInt(match[1])]. *)
Definition match_at_line (message : string) : option Z :=
  option_map (parseInt ascii_digit)
    (regex_digits Ascii.eqb ascii_digit
       (list_ascii_of_string "at line ") (list_ascii_of_string message)).

(** ** The language server (server.ts) *)

Module Position.
Record t : Type := mk { line : Z; character : Z }.
End Position.

Module Range.
Record t : Type := mk { start : Position.t; end_ : Position.t }.
End Range.

Module Diagnostic.
Record t : Type := mk {
  range : Range.t;
  message : string;
  severity : Z;
  source : string
}.
End Diagnostic.

Module CompletionItem.
Record t : Type := mk {
  label : string;
  kind : Z;
  detail : option string;
  documentation : option string
}.
End CompletionItem.

Module TextDocumentItem.
Record t : Type := mk {
  uri : string;
  languageId : string;
  version : Z;
  text : string
}.
End TextDocumentItem.

(** Documents are JavaScript objects: the store holds references, and
    [update] assigns to the fields of the object it finds.  [ref] is the
    type of references and [heap] maps each to the object it
    denotes. *)
Abbreviation ref := positive.

Module DocumentStore.

Record t : Type := mk {
  heap : gmap ref TextDocumentItem.t;
  documents : gmap string ref
}.

Definition empty : t := mk ∅ ∅.

(** [this.documents.set(doc.uri, doc)] *)
Definition open (doc : ref) (st : t) : t :=
  match heap st !! doc with
  | Some item => mk (heap st) (<[TextDocumentItem.uri item := doc]> (documents st))
  | None => st
  end.

Definition update (uri : string) (text : string) (version : Z) (st : t) : t :=
  match documents st !! uri with
  | Some doc =>
      match heap st !! doc with
      | Some item =>
          mk (<[doc := TextDocumentItem.mk (TextDocumentItem.uri item)
                         (TextDocumentItem.languageId item) version text]>
                (heap st))
             (documents st)
      | None => st
      end
  | None => st
  end.

Definition close (uri : string) (st : t) : t :=
  mk (heap st) (delete uri (documents st)).

(** [this.documents.get(uri)], read through the reference. *)
Definition get (uri : string) (st : t) : option TextDocumentItem.t :=
  match documents st !! uri with
  | Some doc => heap st !! doc
  | None => None
  end.

End DocumentStore.

Module NoteGLanguageServer.

(** The diagnostic pushed for one token of the [for] loop over
    [tokens]. *)
Definition lexer_diagnostic (token : Token.t) : list Diagnostic.t :=
  if TokenType.eqb (Token.type token) TokenType.ERROR then
    [ Diagnostic.mk
        (Range.mk
           (Position.mk (Token.line token - 1) (Token.column token - 1))
           (Position.mk (Token.line token - 1)
              (Token.column token + strlen (Token.value token) - 1)))
        ("Unexpected character: " +:+ Token.value token)
        1
        "noteg" ]
  else [].

Definition lexer_diagnostics (tokens : list Token.t) : list Diagnostic.t :=
  concat (map lexer_diagnostic tokens).

(** The diagnostic pushed by the [catch] clause. *)
Definition error_diagnostic (error : exn) : Diagnostic.t :=
  let line :=
    match match_at_line (exn_message error) with
    | Some n => (n - 1)%Z
    | None => 0%Z
    end in
  Diagnostic.mk
    (Range.mk (Position.mk line 0) (Position.mk line 100))
    (exn_message error)
    1
    "noteg".

(** [analyze(uri)].  The [try] block pushes the scanner's diagnostics
    and then parses; the [catch] clause pushes one more diagnostic.
    The store is only read. *)
Definition analyze (uri : string) : M DocumentStore.t (list Diagnostic.t) :=
  fun st =>
    match DocumentStore.get uri st with
    | None => Ok [] st
    | Some doc =>
        match Lexer.tokenize (TextDocumentItem.text doc) with
        | Ok tokens _ =>
            let diagnostics := lexer_diagnostics tokens in
            match Parser.parse tokens with
            | Ok _ _ => Ok diagnostics st
            | Throw error => Ok (diagnostics ++ [error_diagnostic error]) st
            | OutOfFuel => OutOfFuel
            end
        | Throw error => Ok [error_diagnostic error] st
        | OutOfFuel => OutOfFuel
        end
    end.

Definition keywords : list (string * string) :=
  [ ("let", "Variable declaration");
    ("fn", "Function definition");
    ("if", "Conditional statement");
    ("else", "Else branch");
    ("for", "For loop");
    ("while", "While loop");
    ("return", "Return statement");
    ("true", "Boolean true");
    ("false", "Boolean false");
    ("and", "Logical AND");
    ("or", "Logical OR");
    ("not", "Logical NOT") ].

Definition builtins : list (string * string * string) :=
  [ ("print", "Print to console", "print(value) - Outputs value to console");
    ("len", "Get length", "len(array|string) - Returns the length") ].

(** [getCompletions(uri, position)]; neither argument nor the store is
    read. *)
Definition getCompletions (uri : string) (position : Position.t)
    (st : DocumentStore.t) : list CompletionItem.t :=
  let completions := [] in
  let completions :=
    fold_left
      (fun completions kw =>
         completions ++ [CompletionItem.mk (fst kw) 14 (Some (snd kw)) None])
      keywords completions in
  let completions :=
    fold_left
      (fun completions fn =>
         completions ++
           [CompletionItem.mk (fst (fst fn)) 3 (Some (snd (fst fn)))
              (Some (snd fn))])
      builtins completions in
  completions.

(** [/\w/.test(c)] for a character [c]. *)
Definition is_word_char (c : ascii) : bool := Lexer.isAlphaNumeric c.

(** [/\w/.test(line[i])]: out of range [line[i]] is [undefined], which
    [test] converts to the text "undefined", and that matches. *)
Definition word_test (line : string) (i : Z) : bool :=
  if (i <? 0)%Z then true
  else
    match String.get (Z.to_nat i) line with
    | Some c => is_word_char c
    | None => true
    end.

(** [while (start > 0 && /\w/.test(line[start - 1])) start--] *)
Fixpoint word_start (fuel : nat) (line : string) (start : Z) : Z :=
  match fuel with
  | O => start
  | S fuel =>
      if (0 <? start)%Z && word_test line (start - 1)
      then word_start fuel line (start - 1)
      else start
  end.

(** [while (end < line.length && /\w/.test(line[end])) end++] *)
Fixpoint word_end (fuel : nat) (line : string) (end_ : Z) : Z :=
  match fuel with
  | O => end_
  | S fuel =>
      if (end_ <? strlen line)%Z && word_test line end_
      then word_end fuel line (end_ + 1)
      else end_
  end.

(** [line.substring(start, end)]: both indices are clamped to
    [0 .. line.length] and swapped when out of order. *)
Definition substring (line : string) (start end_ : Z) : string :=
  let clamp i := Z.to_nat (Z.max 0 (Z.min i (strlen line))) in
  let a := clamp start in
  let b := clamp end_ in
  String.substring (Nat.min a b) (Nat.max a b - Nat.min a b) line.

(** The loops run at most [start] and [line.length - end] times. *)
Definition getWordAtPosition (line : string) (character : Z) : string :=
  let start := word_start (Z.to_nat character) line character in
  let end_ := word_end (Z.to_nat (strlen line - character)) line character in
  substring line start end_.

(** [text.split("\n")] *)
Fixpoint split_lines (current : string) (text : string) : list string :=
  match text with
  | EmptyString => [current]
  | String c text' =>
      if Ascii.eqb c Lexer.newline
      then current :: split_lines "" text'
      else split_lines (current +:+ String c EmptyString) text'
  end.

Definition docs : list (string * string) :=
  [ ("let", "Variable declaration: `let name = value`");
    ("fn", "Function definition: `fn name(params) { body }`");
    ("if", "Conditional: `if condition { then } else { else }`");
    ("for", "For loop: `for item in array { body }`");
    ("while", "While loop: `while condition { body }`");
    ("return", "Return from function: `return value`");
    ("print", "Built-in function: `print(value)` - Output to console");
    ("len", "Built-in function: `len(array|string)` - Get length") ].

(** The members every object literal inherits from
    [Object.prototype]; [docs[word]] finds them too.  The server runs
    under Deno, which deletes the accessor [__proto__] from
    [Object.prototype]: it is not among them. *)
Definition object_prototype : list string :=
  [ "constructor"; "toString"; "toLocaleString"; "valueOf";
    "hasOwnProperty"; "isPrototypeOf"; "propertyIsEnumerable";
    "__defineGetter__"; "__defineSetter__";
    "__lookupGetter__"; "__lookupSetter__" ].

(** What [getHover] returns: the declared [string | null], or, for a
    word naming an inherited member, that member. *)
Inductive hover : Type :=
| HoverText (s : string)
| HoverInherited (member : string)
| HoverNull.

Fixpoint assoc (table : list (string * string)) (key : string)
  : option string :=
  match table with
  | [] => None
  | (k, v) :: table' => if String.eqb k key then Some v else assoc table' key
  end.

(** [docs[word] || null] *)
Definition docs_get (word : string) : hover :=
  match assoc docs word with
  | Some s => HoverText s
  | None =>
      if existsb (String.eqb word) object_prototype
      then HoverInherited word
      else HoverNull
  end.

Definition getHover (uri : string) (position : Position.t)
    (st : DocumentStore.t) : hover :=
  match DocumentStore.get uri st with
  | None => HoverNull
  | Some doc =>
      let lines := split_lines "" (TextDocumentItem.text doc) in
      let line :=
        if (Position.line position <? 0)%Z then ""
        else default "" (lines !! Z.to_nat (Position.line position)) in
      let word := getWordAtPosition line (Position.character position) in
      docs_get word
  end.

(** [openDocument(doc)], [updateDocument], [closeDocument] *)
Definition openDocument (doc : ref) : DocumentStore.t -> DocumentStore.t :=
  DocumentStore.open doc.

Definition updateDocument (uri text : string) (version : Z)
  : DocumentStore.t -> DocumentStore.t :=
  DocumentStore.update uri text version.

Definition closeDocument (uri : string) : DocumentStore.t -> DocumentStore.t :=
  DocumentStore.close uri.

End NoteGLanguageServer.

(** The document life cycle as [LSPServer.handleRequest] drives it.
    [params] comes out of [JSON.parse], so the document of a
    [textDocument/didOpen] is an object no one else refers to. *)
Module LSPServer.

Inductive notification : Type :=
| DidOpen (textDocument : TextDocumentItem.t)
| DidChange (uri : string) (version : Z) (contentChanges : list string)
| DidClose (uri : string).

(** The reference of the object [JSON.parse] allocates. *)
Definition new_ref (st : DocumentStore.t) : ref :=
  fresh (dom (DocumentStore.heap st)).

Definition handleRequest (message : notification) (st : DocumentStore.t)
  : DocumentStore.t :=
  match message with
  | DidOpen textDocument =>
      let doc := new_ref st in
      NoteGLanguageServer.openDocument doc
        (DocumentStore.mk (<[doc := textDocument]> (DocumentStore.heap st))
           (DocumentStore.documents st))
  | DidChange uri version contentChanges =>
      match contentChanges with
      | text :: _ => NoteGLanguageServer.updateDocument uri text version st
      | [] => st
      end
  | DidClose uri => NoteGLanguageServer.closeDocument uri st
  end.

(** The store after a sequence of notifications, from the empty store
    of [new LSPServer()]. *)
Definition run (messages : list notification) : DocumentStore.t :=
  fold_left (fun st message => handleRequest message st) messages
    DocumentStore.empty.

(** The states the document store can be in. *)
Definition reachable (st : DocumentStore.t) : Prop :=
  exists messages, st = run messages.

End LSPServer.

(** ** The transport loop (server.ts, [runStdio])

    A chunk is a sequence of bytes; the buffer is a JavaScript string, a
    sequence of UTF-16 code units.  Bytes, code points and code units are
    numbers of type [N]. *)

Module Transport.

Definition byte : Type := N.
Definition code_unit : Type := N.
Definition jsstring : Type := list code_unit.

(** A string literal of the source as code units. *)
Definition units (s : string) : jsstring :=
  map (fun c => N.of_nat (nat_of_ascii c)) (list_ascii_of_string s).

(** *** [new TextDecoder().decode(chunk)]

    The UTF-8 decoder of the Encoding standard, with the default
    options: errors are replaced by U+FFFD, a leading byte order mark
    is dropped, and, [stream] not being set, every call starts from
    the initial state and flushes at the end of the chunk. *)

Record decoder : Type := mkDecoder {
  code_point : N;
  bytes_seen : N;
  bytes_needed : N;
  lower_boundary : N;
  upper_boundary : N
}.

Definition initial : decoder := mkDecoder 0 0 0 128 191.

Definition replacement : N := 65533.

Definition in_range (lo hi b : N) : bool := (lo <=? b)%N && (b <=? hi)%N.

(** The decoder's step when no bytes are needed: the code points it
    emits and its next state. *)
Definition lead (b : byte) : list N * decoder :=
  if in_range 0 127 b then ([b], initial)
  else if in_range 194 223 b then
    ([], mkDecoder (N.land b 31) 0 1 128 191)
  else if in_range 224 239 b then
    ([], mkDecoder (N.land b 15) 0 2
           (if (b =? 224)%N then 160 else 128)
           (if (b =? 237)%N then 159 else 191))
  else if in_range 240 244 b then
    ([], mkDecoder (N.land b 7) 0 3
           (if (b =? 240)%N then 144 else 128)
           (if (b =? 244)%N then 143 else 191))
  else ([replacement], initial).

Fixpoint utf8_decode (d : decoder) (bytes : list byte) : list N :=
  match bytes with
  | [] => if (bytes_needed d =? 0)%N then [] else [replacement]
  | b :: bytes' =>
      if (bytes_needed d =? 0)%N then
        let '(out, d') := lead b in out ++ utf8_decode d' bytes'
      else if negb (in_range (lower_boundary d) (upper_boundary d) b) then
        (* error; the byte is read again from the initial state *)
        let '(out, d') := lead b in
        replacement :: out ++ utf8_decode d' bytes'
      else
        let cp := N.lor (N.shiftl (code_point d) 6) (N.land b 63) in
        let seen := (bytes_seen d + 1)%N in
        if (seen =? bytes_needed d)%N then cp :: utf8_decode initial bytes'
        else utf8_decode (mkDecoder cp seen (bytes_needed d) 128 191) bytes'
  end.

(** A code point as UTF-16. *)
Definition utf16 (cp : N) : list code_unit :=
  if (cp <? 65536)%N then [cp]
  else
    let v := (cp - 65536)%N in
    [ (55296 + N.shiftr v 10)%N; (56320 + N.land v 1023)%N ].

Definition strip_bom (cps : list N) : list N :=
  match cps with
  | cp :: cps' => if (cp =? 65279)%N then cps' else cps
  | [] => []
  end.

Definition decode (chunk : list byte) : jsstring :=
  flat_map utf16 (strip_bom (utf8_decode initial chunk)).

(** *** The framing loop *)

Definition unit_eqb (a b : code_unit) : bool := (a =? b)%N.

Definition unit_digit (c : code_unit) : option Z :=
  if in_range 48 57 c then Some (Z.of_N c - 48)%Z else None.

(** [s.indexOf(pat)], [None] for [-1]. *)
Fixpoint indexOf (pat s : jsstring) : option nat :=
  match strip_prefix unit_eqb pat s with
  | Some _ => Some 0
  | None =>
      match s with
      | [] => None
      | _ :: s' => option_map S (indexOf pat s')
      end
  end.

Definition header_separator : jsstring := [13; 10; 13; 10]%N.

(** *** [JSON.parse(messageStr)]

    The JSON grammar of ECMAScript, on code units: white space is
    space, tab, line feed and carriage return; a string has no code
    unit below 32 and the escapes of the grammar; a number is an
    optional minus, an integer without leading zero, an optional
    fraction and an optional exponent.  Of a key that is repeated
    the members keep every occurrence, in order. *)
Module JSON.

Inductive json : Type :=
| JNull
| JBoolean (b : bool)
| JNumber (text : jsstring)
| JString (s : jsstring)
| JArray (elements : list json)
| JObject (members : list (jsstring * json)).

(** What a parser makes of a text: a value and the text after it,
    a [SyntaxError], or the model's fuel is exhausted. *)
Inductive parsed (A : Type) : Type :=
| Parsed (a : A) (rest : jsstring)
| SyntaxError
| Fuel.

Arguments Parsed {A} a rest.
Arguments SyntaxError {A}.
Arguments Fuel {A}.

Definition whitespace (c : code_unit) : bool :=
  (c =? 32)%N || (c =? 9)%N || (c =? 10)%N || (c =? 13)%N.

Fixpoint skip (s : jsstring) : jsstring :=
  match s with
  | c :: s' => if whitespace c then skip s' else s
  | [] => []
  end.

Definition hex (c : code_unit) : option N :=
  if in_range 48 57 c then Some (c - 48)%N
  else if in_range 97 102 c then Some (c - 87)%N
  else if in_range 65 70 c then Some (c - 55)%N
  else None.

(** The character of a one-letter escape. *)
Definition escape (c : code_unit) : option code_unit :=
  if (c =? 34)%N then Some 34%N
  else if (c =? 92)%N then Some 92%N
  else if (c =? 47)%N then Some 47%N
  else if (c =? 98)%N then Some 8%N
  else if (c =? 102)%N then Some 12%N
  else if (c =? 110)%N then Some 10%N
  else if (c =? 114)%N then Some 13%N
  else if (c =? 116)%N then Some 9%N
  else None.

(** A string, from after its opening quote: its code units and the
    text after the closing quote. *)
Fixpoint string_ (s : jsstring) (value : jsstring)
  : option (jsstring * jsstring) :=
  match s with
  | [] => None
  | c :: s' =>
      if (c =? 34)%N then Some (value, s')
      else if (c =? 92)%N then
        match s' with
        | [] => None
        | e :: s'' =>
            if (e =? 117)%N then
              match s'' with
              | h1 :: h2 :: h3 :: h4 :: s5 =>
                  match hex h1, hex h2, hex h3, hex h4 with
                  | Some a, Some b, Some c, Some d =>
                      string_ s5
                        (value ++ [4096 * a + 256 * b + 16 * c + d]%N)
                  | _, _, _, _ => None
                  end
              | _ => None
              end
            else
              match escape e with
              | Some u => string_ s'' (value ++ [u])
              | None => None
              end
        end
      else if (c <? 32)%N then None
      else string_ s' (value ++ [c])
  end.

Fixpoint digits (s : jsstring) : jsstring :=
  match s with
  | c :: s' => if in_range 48 57 c then digits s' else s
  | [] => []
  end.

(** One digit at least. *)
Definition digits1 (s : jsstring) : option jsstring :=
  match s with
  | c :: s' => if in_range 48 57 c then Some (digits s') else None
  | [] => None
  end.

(** A number: the text after it. *)
Definition number (s : jsstring) : option jsstring :=
  let s :=
    match s with
    | c :: s' => if (c =? 45)%N then s' else s
    | [] => s
    end in
  let int :=
    match s with
    | c :: s' =>
        if (c =? 48)%N then Some s'
        else if in_range 49 57 c then Some (digits s')
        else None
    | [] => None
    end in
  match int with
  | None => None
  | Some s =>
      let frac :=
        match s with
        | c :: s' => if (c =? 46)%N then digits1 s' else Some s
        | [] => Some s
        end in
      match frac with
      | None => None
      | Some s =>
          match s with
          | c :: s' =>
              if (c =? 101)%N || (c =? 69)%N then
                match s' with
                | sign :: s'' =>
                    if (sign =? 43)%N || (sign =? 45)%N then digits1 s''
                    else digits1 s'
                | [] => None
                end
              else Some s
          | [] => Some s
          end
      end
  end.

Definition literal (word : string) (v : json) (s : jsstring)
  : parsed json :=
  match strip_prefix unit_eqb (units word) s with
  | Some rest => Parsed v rest
  | None => SyntaxError
  end.

(** A value, the elements of an array from after a bracket or a
    comma, and the members of an object likewise. *)
Fixpoint value (fuel : nat) (s : jsstring) : parsed json :=
  match fuel with
  | O => Fuel
  | S fuel =>
      match skip s with
      | [] => SyntaxError
      | c :: s' =>
          if (c =? 34)%N then
            match string_ s' [] with
            | Some (str, rest) => Parsed (JString str) rest
            | None => SyntaxError
            end
          else if (c =? 123)%N then
            match skip s' with
            | d :: rest =>
                if (d =? 125)%N then Parsed (JObject []) rest
                else members fuel s' []
            | [] => SyntaxError
            end
          else if (c =? 91)%N then
            match skip s' with
            | d :: rest =>
                if (d =? 93)%N then Parsed (JArray []) rest
                else elements fuel s' []
            | [] => SyntaxError
            end
          else if (c =? 116)%N then
            literal "true" (JBoolean true) (c :: s')
          else if (c =? 102)%N then
            literal "false" (JBoolean false) (c :: s')
          else if (c =? 110)%N then literal "null" JNull (c :: s')
          else
            match number (c :: s') with
            | Some rest =>
                Parsed
                  (JNumber (firstn (length (c :: s') - length rest)
                              (c :: s')))
                  rest
            | None => SyntaxError
            end
      end
  end

with elements (fuel : nat) (s : jsstring) (found : list json)
  : parsed json :=
  match fuel with
  | O => Fuel
  | S fuel =>
      match value fuel s with
      | Parsed v rest =>
          match skip rest with
          | c :: rest' =>
              if (c =? 44)%N then elements fuel rest' (found ++ [v])
              else if (c =? 93)%N then Parsed (JArray (found ++ [v])) rest'
              else SyntaxError
          | [] => SyntaxError
          end
      | SyntaxError => SyntaxError
      | Fuel => Fuel
      end
  end

with members (fuel : nat) (s : jsstring)
    (found : list (jsstring * json)) : parsed json :=
  match fuel with
  | O => Fuel
  | S fuel =>
      match skip s with
      | c :: s' =>
          if (c =? 34)%N then
            match string_ s' [] with
            | Some (key, rest) =>
                match skip rest with
                | d :: rest' =>
                    if (d =? 58)%N then
                      match value fuel rest' with
                      | Parsed v rest =>
                          match skip rest with
                          | e :: rest' =>
                              if (e =? 44)%N then
                                members fuel rest' (found ++ [(key, v)])
                              else if (e =? 125)%N then
                                Parsed (JObject (found ++ [(key, v)])) rest'
                              else SyntaxError
                          | [] => SyntaxError
                          end
                      | SyntaxError => SyntaxError
                      | Fuel => Fuel
                      end
                    else SyntaxError
                | [] => SyntaxError
                end
            | None => SyntaxError
            end
          else SyntaxError
      | [] => SyntaxError
      end
  end.

(** [JSON.parse(text)]: one value, and white space around it.  Two
    units of fuel for every code unit are enough. *)
Definition parse (text : jsstring) : parsed json :=
  match value (S (2 * length text)) text with
  | Parsed v rest =>
      match skip rest with
      | [] => Parsed v []
      | _ :: _ => SyntaxError
      end
  | SyntaxError => SyntaxError
  | Fuel => Fuel
  end.

Fixpoint eqb (a b : jsstring) : bool :=
  match a, b with
  | [], [] => true
  | x :: a', y :: b' => unit_eqb x y && eqb a' b'
  | _, _ => false
  end.

(** [object[name]] for an object that [parse] made: the last member
    of that name, or [None] for [undefined]. *)
Definition property (name : jsstring) (members : list (jsstring * json))
  : option json :=
  fold_left (fun found member =>
               if eqb (fst member) name then Some (snd member) else found)
    members None.

End JSON.

(** What [server.handleMessage(message)] means to the loop: whether
    it reaches [Deno.exit(0)], which it does when [message.method] is
    the string [exit].  (For [null] the access throws, inside the
    [try]; a string, a number, a boolean and an array have no
    [method].) *)
Definition handleMessage (message : JSON.json) : bool :=
  match message with
  | JSON.JObject members =>
      match JSON.property (units "method") members with
      | Some (JSON.JString method) => JSON.eqb method (units "exit")
      | _ => false
      end
  | _ => false
  end.

(** The body of the [try] in the loop: [JSON.parse] and
    [handleMessage]; what either throws is caught.  It returns
    whether the process has exited. *)
Definition dispatch (messageStr : jsstring) : M jsstring bool :=
  match JSON.parse messageStr with
  | JSON.Parsed message _ => ret (handleMessage message)
  | JSON.SyntaxError => ret false
  | JSON.Fuel => out_of_fuel
  end.

(** The [while (true)] loop of [runStdio] on the buffer: the payloads
    it hands to [JSON.parse] and [handleMessage], in order, and
    whether the last of them made the process exit.  The state is the
    buffer. *)
Fixpoint drain (fuel : nat) : M jsstring (list jsstring * bool) :=
  match fuel with
  | O => out_of_fuel
  | S fuel =>
      let* buffer := get in
      match indexOf header_separator buffer with
      | None => ret ([], false)
      | Some headerEnd =>
          let header := firstn headerEnd buffer in
          match regex_digits unit_eqb unit_digit
                  (units "Content-Length: ") header with
          | None => ret ([], false)
          | Some digits =>
              let contentLength := parseInt unit_digit digits in
              let messageStart := (Z.of_nat headerEnd + 4)%Z in
              let messageEnd := (messageStart + contentLength)%Z in
              if (Z.of_nat (length buffer) <? messageEnd)%Z
              then ret ([], false)
              else
                let messageStr :=
                  firstn (Z.to_nat messageEnd - Z.to_nat messageStart)
                    (skipn (Z.to_nat messageStart) buffer) in
                let* _ := put (skipn (Z.to_nat messageEnd) buffer) in
                let* exited := dispatch messageStr in
                if exited then ret ([messageStr], true)
                else
                  let* rest := drain fuel in
                  ret (messageStr :: fst rest, snd rest)
          end
      end
  end.

(** One iteration of [for await (const chunk of Deno.stdin.readable)].
    Every message removes at least the four units of its separator
    from the buffer. *)
Definition on_chunk (chunk : list byte)
  : M jsstring (list jsstring * bool) :=
  let* buffer := get in
  let buffer := buffer ++ decode chunk in
  let* _ := put buffer in
  drain (S (length buffer)).

(** The chunks that arrive; none is read after the process has
    exited. *)
Fixpoint on_chunks (chunks : list (list byte))
  : M jsstring (list jsstring * bool) :=
  match chunks with
  | [] => ret ([], false)
  | chunk :: chunks' =>
      let* dispatched := on_chunk chunk in
      if snd dispatched then ret dispatched
      else
        let* later := on_chunks chunks' in
        ret (fst dispatched ++ fst later, snd later)
  end.

(** [runStdio()] on the chunks that arrive on standard input: the
    messages dispatched, and the buffer left, at the end of the input
    or when the process exits. *)
Definition runStdio (chunks : list (list byte))
  : result jsstring (list jsstring) :=
  (let* dispatched := on_chunks chunks in ret (fst dispatched)) [].

End Transport.

(** * The vocabulary of the properties

    The predicates in which the lemmas and theorems below are stated. *)

(** ** What a run returns *)

(** [outcome R E B r]: a returned position satisfies [R], a thrown
    exception satisfies [E], and fuel runs out only when the budget [B]
    is not met. *)
Definition outcome {A} (R : nat -> Prop) (E : exn -> Prop) (B : Prop)
    (r : result nat A) : Prop :=
  match r with
  | Ok _ p' => R p'
  | Throw e => E e
  | OutOfFuel => ~ B
  end.

(** [lex_outcome R B r]: the scanner returned, in a state that
    satisfies [R]; it did not throw; fuel runs out only when the budget
    [B] is not met. *)
Definition lex_outcome {A} (R : A -> Lexer.state -> Prop) (B : Prop)
    (r : result Lexer.state A) : Prop :=
  match r with
  | Ok a s' => R a s'
  | Throw _ => False
  | OutOfFuel => ~ B
  end.

(** [extends r' r]: [r'] is [r], unless [r] ran out of fuel. *)
Definition extends {S A} (r' r : result S A) : Prop :=
  r <> OutOfFuel -> r' = r.

(** ** Token arrays *)

(** The invariant of section 3 of the specification that the parser
    relies on: the last token is the end-of-input token. *)
Definition ends_with_eof (tokens : list Token.t) : Prop :=
  exists t, last tokens = Some t /\ Token.type t = TokenType.EOF.

(** The messages the parser passes to [consume]. *)
Definition consume_messages : list string :=
  [ "Expected variable name";
    "Expected '=' after variable name";
    "Expected function name";
    "Expected '(' after function name";
    "Expected parameter name";
    "Expected ')' after parameters";
    "Expected 'in'";
    "Expected '{'";
    "Expected '}'";
    "Expected ')' after arguments";
    "Expected '}}'";
    "Expected ']'";
    "Expected ')'" ].

(** The error of a failed [consume] at the token [t]: one of the
    messages, followed by the line of [t]. *)
Definition consume_error (t : Token.t) (e : exn) : Prop :=
  exists message,
    e = Error (message +:+ " at line " +:+ string_of_Z (Token.line t))
    /\ In message consume_messages.

(** The error of [primary] at the token [t]: the type of [t], and no
    line. *)
Definition primary_error (t : Token.t) (e : exn) : Prop :=
  e = Error ("Unexpected token: " +:+ TokenType.to_string (Token.type t)).

(** The errors the parser raises itself. *)
Definition parser_error (tokens : list Token.t) (e : exn) : Prop :=
  exists q t,
    tokens !! q = Some t /\ (consume_error t e \/ primary_error t e).

(** A position reached by the parser is inside the array; it is the
    position of a token when the array ends with the end-of-input
    token. *)
Definition inside (tokens : list Token.t) (p : nat) : Prop :=
  p <= length tokens /\ (ends_with_eof tokens -> p < length tokens).

(** What is thrown from a position that holds a token is a parser
    error. *)
Definition raised (tokens : list Token.t) (p : nat) (e : exn) : Prop :=
  ends_with_eof tokens -> p < length tokens -> parser_error tokens e.

(** ** Trees that nest to the left *)

(** The tree a binary level builds from its first operand and the
    (operator, right operand) pairs that follow: it nests to the
    left. *)
Definition fold_binary (first : ASTNode) (rest : list (string * ASTNode))
  : ASTNode :=
  fold_left (fun left x => BinaryExpr (fst x) left (snd x)) rest first.

(** The tree [call] builds from the callee and the argument lists that
    follow. *)
Definition fold_call (first : ASTNode) (rest : list (list ASTNode)) : ASTNode :=
  fold_left (fun callee args => Call callee args) rest first.

(** ** The parser's helper methods, by cases

    What the helper methods do at position [p], by cases on the token
    there. *)

Section ParserVocabulary.
Variable tokens : list Token.t.
#[local] Abbreviation len := (length tokens).

Inductive isAtEnd_view (p : nat) : result nat bool -> Prop :=
| isAtEnd_undefined :
    tokens !! p = None ->
    isAtEnd_view p (Throw (undefined_property "type"))
| isAtEnd_true t :
    tokens !! p = Some t -> Token.type t = TokenType.EOF ->
    isAtEnd_view p (Ok true p)
| isAtEnd_false t :
    tokens !! p = Some t -> Token.type t <> TokenType.EOF ->
    isAtEnd_view p (Ok false p).

Inductive check_view (type : TokenType.t) (p : nat)
  : result nat bool -> Prop :=
| check_undefined :
    tokens !! p = None ->
    check_view type p (Throw (undefined_property "type"))
| check_true t :
    tokens !! p = Some t -> Token.type t = type ->
    Token.type t <> TokenType.EOF ->
    check_view type p (Ok true p)
| check_false t :
    tokens !! p = Some t ->
    Token.type t = TokenType.EOF \/ Token.type t <> type ->
    check_view type p (Ok false p).

Inductive advance_view (p : nat)
  : result nat (option Token.t) -> Prop :=
| advance_undefined :
    tokens !! p = None ->
    advance_view p (Throw (undefined_property "type"))
| advance_stay t v :
    tokens !! p = Some t -> Token.type t = TokenType.EOF ->
    advance_view p (Ok v p)
| advance_move t :
    tokens !! p = Some t -> Token.type t <> TokenType.EOF ->
    advance_view p (Ok (Some t) (S p)).

Inductive consume_view (type : TokenType.t) (message : string) (p : nat)
  : result nat (option Token.t) -> Prop :=
| consume_undefined :
    tokens !! p = None ->
    consume_view type message p (Throw (undefined_property "type"))
| consume_mismatch t :
    tokens !! p = Some t ->
    Token.type t = TokenType.EOF \/ Token.type t <> type ->
    consume_view type message p
      (Throw (Error (message +:+ " at line " +:+ string_of_Z (Token.line t))))
| consume_ok t :
    tokens !! p = Some t -> Token.type t = type ->
    Token.type t <> TokenType.EOF ->
    consume_view type message p (Ok (Some t) (S p)).

Inductive match_view (types : list TokenType.t) (p : nat)
  : result nat bool -> Prop :=
| match_undefined :
    tokens !! p = None ->
    match_view types p (Throw (undefined_property "type"))
| match_true t :
    tokens !! p = Some t -> In (Token.type t) types ->
    Token.type t <> TokenType.EOF ->
    match_view types p (Ok true (S p))
| match_false t :
    tokens !! p = Some t ->
    Token.type t = TokenType.EOF \/ ~ In (Token.type t) types ->
    match_view types p (Ok false p).

Inductive consume_value_view (type : TokenType.t) (message : string)
    (p : nat) : result nat string -> Prop :=
| consume_value_undefined :
    tokens !! p = None ->
    consume_value_view type message p (Throw (undefined_property "type"))
| consume_value_mismatch t :
    tokens !! p = Some t ->
    Token.type t = TokenType.EOF \/ Token.type t <> type ->
    consume_value_view type message p
      (Throw (Error (message +:+ " at line " +:+ string_of_Z (Token.line t))))
| consume_value_ok t :
    tokens !! p = Some t -> Token.type t = type ->
    Token.type t <> TokenType.EOF ->
    consume_value_view type message p (Ok (Token.value t) (S p)).

(** *** Progress *)

(** What is asked of the argument of a loop: from any position [q] it
    consumes a token, or raises a parser error. *)
Definition consuming {A} (p : nat) (B : Prop) (elem : Parser.P A) : Prop :=
  forall q, p <= q ->
    outcome (fun q' => q < q' /\ inside tokens q') (raised tokens q) B (elem q).

(** What the loops guarantee in return. *)
Definition loop_outcome {A} (p k : nat) (B : Prop) (r : result nat A) : Prop :=
  outcome (fun p' => p <= p' /\ inside tokens p') (raised tokens p) (B /\ len - p < k) r.

(** The fuel that suffices at position [p] for a method of rank
    [rank]: sixteen units for each token left, and [rank] more for the
    calls made before the next token is consumed. *)
Definition budget (p rank n : nat) : Prop := 16 * (len - p) + rank <= n.

(** With fuel [n] the method [f] either consumes at least one token,
    or throws, or had less than its budget. *)
Definition strict (rank : nat) (f : nat -> Parser.P ASTNode) (n : nat) : Prop :=
  forall p,
    outcome (fun p' => p < p' /\ inside tokens p') (raised tokens p)
      (budget p rank n) (f n p).

(** [returnStatement] consumes the token it is called on unless that
    is the end of input. *)
Definition strict_unless_eof (rank : nat) (f : nat -> Parser.P ASTNode)
    (n : nat) : Prop :=
  forall p,
    outcome
      (fun p' => (p <= p' /\ inside tokens p') /\
                 forall t, tokens !! p = Some t ->
                           Token.type t <> TokenType.EOF -> p < p')
      (raised tokens p) (budget p rank n) (f n p).

Record progress (n : nat) : Prop := {
  pr_primary : strict 1 (Parser.primary tokens) n;
  pr_call : strict 2 (Parser.call tokens) n;
  pr_unary : strict 3 (Parser.unary tokens) n;
  pr_factor : strict 4 (Parser.factor tokens) n;
  pr_term : strict 5 (Parser.term tokens) n;
  pr_comparison : strict 6 (Parser.comparison tokens) n;
  pr_equality : strict 7 (Parser.equality tokens) n;
  pr_and : strict 8 (Parser.and tokens) n;
  pr_or : strict 9 (Parser.or tokens) n;
  pr_expression : strict 10 (Parser.expression tokens) n;
  pr_block : strict 1 (Parser.block tokens) n;
  pr_returnStatement : strict_unless_eof 11 (Parser.returnStatement tokens) n;
  pr_whileStatement : strict 11 (Parser.whileStatement tokens) n;
  pr_forStatement : strict 11 (Parser.forStatement tokens) n;
  pr_ifStatement : strict 11 (Parser.ifStatement tokens) n;
  pr_statement : strict 12 (Parser.statement tokens) n;
  pr_functionDeclaration : strict 11 (Parser.functionDeclaration tokens) n;
  pr_letDeclaration : strict 11 (Parser.letDeclaration tokens) n;
  pr_declaration : strict 13 (Parser.declaration tokens) n
}.

(** *** Precedence levels *)

(** A token at which a loop over [types] goes on, and one at which it
    stops. *)
Definition operator_token (types : list TokenType.t) (t : Token.t) : Prop :=
  In (Token.type t) types /\ Token.type t <> TokenType.EOF.

Definition other_token (types : list TokenType.t) (t : Token.t) : Prop :=
  Token.type t = TokenType.EOF \/ ~ In (Token.type t) types.

(** [operators types operator_of higher p rest p']: the (operator,
    right operand) pairs [rest] stand one after the other from
    position [p] to position [p'].  Each operator is a token of one of
    [types], each operand is what [higher] parses right after its
    operator, and the token at [p'] is not of [types]: no pair more
    could follow. *)
Inductive operators (types : list TokenType.t)
    (operator_of : Token.t -> string) (higher : Parser.P ASTNode)
  : nat -> list (string * ASTNode) -> nat -> Prop :=
| operators_end p t :
    tokens !! p = Some t -> other_token types t ->
    operators types operator_of higher p [] p
| operators_more p t right p1 rest p' :
    tokens !! p = Some t -> operator_token types t ->
    higher (S p) = Ok right p1 ->
    operators types operator_of higher p1 rest p' ->
    operators types operator_of higher p ((operator_of t, right) :: rest) p'.

(** With fuel [S n], [level] returns exactly the left fold of the
    pairs that follow a first operand parsed by [higher]: what it
    returns is such a fold, and every such fold is returned, given
    fuel for the loop. *)
Definition binary_level (types : list TokenType.t)
    (operator_of : Token.t -> string) (level higher : Parser.P ASTNode)
    (n : nat) : Prop :=
  (forall p e p',
      level p = Ok e p' ->
      exists first p1 rest,
        higher p = Ok first p1 /\
        operators types operator_of higher p1 rest p' /\
        e = fold_binary first rest)
  /\ (forall p first p1 rest p',
         higher p = Ok first p1 ->
         operators types operator_of higher p1 rest p' ->
         length rest < n ->
         level p = Ok (fold_binary first rest) p').

(** [unary] at a [not], [!] or [-] token is that operator applied to
    the [unary] that follows; at any other token it is [call]. *)
Definition unary_level (n : nat) : Prop :=
  forall p,
    Parser.unary tokens (S n) p
    = match tokens !! p with
      | None => Throw (undefined_property "type")
      | Some t =>
          if TokenType.eqb (Token.type t) TokenType.NOT
             || TokenType.eqb (Token.type t) TokenType.MINUS
          then
            match Parser.unary tokens n (S p) with
            | Ok operand p' => Ok (UnaryExpr (Token.value t) operand) p'
            | Throw e => Throw e
            | OutOfFuel => OutOfFuel
            end
          else Parser.call tokens n p
      end.

(** [separated elem p xs p']: the elements [xs], at least one, parsed
    by [elem] and separated by commas, stand from [p] to [p'], where
    no comma follows. *)
Inductive separated {A} (elem : Parser.P A) : nat -> list A -> nat -> Prop :=
| separated_last p x p' t :
    elem p = Ok x p' ->
    tokens !! p' = Some t -> other_token [TokenType.COMMA] t ->
    separated elem p [x] p'
| separated_more p x p1 t xs p' :
    elem p = Ok x p1 ->
    tokens !! p1 = Some t -> operator_token [TokenType.COMMA] t ->
    separated elem (S p1) xs p' ->
    separated elem p (x :: xs) p'.

(** What stands before the token [close] at [p']: nothing, or
    elements separated by commas. *)
Definition listed {A} (close : TokenType.t) (elem : Parser.P A)
    (p : nat) (xs : list A) (p' : nat) : Prop :=
  exists t,
    tokens !! p = Some t
    /\ ((operator_token [close] t /\ xs = [] /\ p' = p)
        \/ (other_token [close] t /\ separated elem p xs p')).

(** [arguments expression p rest p']: the argument lists [rest], each
    in parentheses, stand one after the other from [p] to [p'], where
    no opening parenthesis follows. *)
Inductive arguments (expression : Parser.P ASTNode)
  : nat -> list (list ASTNode) -> nat -> Prop :=
| arguments_end p t :
    tokens !! p = Some t -> other_token [TokenType.LPAREN] t ->
    arguments expression p [] p
| arguments_more p t args p1 t1 rest p' :
    tokens !! p = Some t -> operator_token [TokenType.LPAREN] t ->
    listed TokenType.RPAREN expression (S p) args p1 ->
    tokens !! p1 = Some t1 -> operator_token [TokenType.RPAREN] t1 ->
    arguments expression (S p1) rest p' ->
    arguments expression p (args :: rest) p'.

(** [call] returns exactly the calls, nested to the left, of a
    [primary] on the argument lists that follow it. *)
Definition call_level (n : nat) : Prop :=
  (forall p e p',
      Parser.call tokens (S n) p = Ok e p' ->
      exists first p1 rest,
        Parser.primary tokens n p = Ok first p1 /\
        arguments (Parser.expression tokens n) p1 rest p' /\
        e = fold_call first rest)
  /\ (forall p first p1 rest p',
         Parser.primary tokens n p = Ok first p1 ->
         arguments (Parser.expression tokens n) p1 rest p' ->
         length rest < n ->
         Forall (fun args => length rest + length args < n) rest ->
         Parser.call tokens (S n) p = Ok (fold_call first rest) p').

(** [primary], by the token it is called on. *)
Definition primary_level (n : nat) : Prop :=
  forall p,
    Parser.primary tokens (S n) p
    = match tokens !! p with
      | None => Throw (undefined_property "type")
      | Some t =>
          match Token.type t with
          | TokenType.TRUE => Ok (Literal (LBoolean true)) (S p)
          | TokenType.FALSE => Ok (Literal (LBoolean false)) (S p)
          | TokenType.NUMBER =>
              Ok (Literal (LNumber (parseFloat (Token.value t)))) (S p)
          | TokenType.STRING => Ok (Literal (LString (Token.value t))) (S p)
          | TokenType.IDENTIFIER => Ok (Identifier (Token.value t)) (S p)
          | TokenType.TEMPLATE_START =>
              (let* variable :=
                 Parser.consume_value tokens TokenType.IDENTIFIER
                   "Expected variable name" in
               let* _ :=
                 Parser.consume tokens TokenType.TEMPLATE_END
                   "Expected '}}'" in
               ret (Template variable)) (S p)
          | TokenType.LBRACKET =>
              (let* elements :=
                 Parser.comma_list tokens TokenType.RBRACKET
                   (Parser.expression tokens n) n in
               let* _ :=
                 Parser.consume tokens TokenType.RBRACKET "Expected ']'" in
               ret (Array elements)) (S p)
          | TokenType.LPAREN =>
              (let* expr := Parser.expression tokens n in
               let* _ :=
                 Parser.consume tokens TokenType.RPAREN "Expected ')'" in
               ret expr) (S p)
          | type =>
              Throw (Error ("Unexpected token: "
                            +:+ TokenType.to_string type))
          end
      end.

(** *** Fuel *)

(** [m'] extends [m] at every position. *)
Definition extends_at {A} (m' m : Parser.P A) : Prop :=
  forall p, extends (m' p) (m p).

(** Fuel [n'] instead of [n], for every method. *)
Record more_fuel (n n' : nat) : Prop := {
  mf_primary : extends_at (Parser.primary tokens n') (Parser.primary tokens n);
  mf_call : extends_at (Parser.call tokens n') (Parser.call tokens n);
  mf_unary : extends_at (Parser.unary tokens n') (Parser.unary tokens n);
  mf_factor : extends_at (Parser.factor tokens n') (Parser.factor tokens n);
  mf_term : extends_at (Parser.term tokens n') (Parser.term tokens n);
  mf_comparison : extends_at (Parser.comparison tokens n') (Parser.comparison tokens n);
  mf_equality : extends_at (Parser.equality tokens n') (Parser.equality tokens n);
  mf_and : extends_at (Parser.and tokens n') (Parser.and tokens n);
  mf_or : extends_at (Parser.or tokens n') (Parser.or tokens n);
  mf_expression : extends_at (Parser.expression tokens n') (Parser.expression tokens n);
  mf_block : extends_at (Parser.block tokens n') (Parser.block tokens n);
  mf_returnStatement : extends_at (Parser.returnStatement tokens n') (Parser.returnStatement tokens n);
  mf_whileStatement : extends_at (Parser.whileStatement tokens n') (Parser.whileStatement tokens n);
  mf_forStatement : extends_at (Parser.forStatement tokens n') (Parser.forStatement tokens n);
  mf_ifStatement : extends_at (Parser.ifStatement tokens n') (Parser.ifStatement tokens n);
  mf_statement : extends_at (Parser.statement tokens n') (Parser.statement tokens n);
  mf_functionDeclaration : extends_at (Parser.functionDeclaration tokens n') (Parser.functionDeclaration tokens n);
  mf_letDeclaration : extends_at (Parser.letDeclaration tokens n') (Parser.letDeclaration tokens n);
  mf_declaration : extends_at (Parser.declaration tokens n') (Parser.declaration tokens n)
}.

End ParserVocabulary.

(** ** Reading forward *)

(** Two computations that do the same from [p] on. *)
Definition alike {A} (p : nat) (m' m : Parser.P A) : Prop :=
  forall p1, p <= p1 -> m' p1 = m p1.

(** A computation that never moves backwards. *)
Definition forward {A} (m : Parser.P A) : Prop :=
  forall p a p1, m p = Ok a p1 -> p <= p1.

Section ForwardVocabulary.
Variables tokens tokens' : list Token.t.
Variable q : nat.

(** With fuel [n], every method does the same on the two arrays from
    [q] on. *)
Record reads_forward (n : nat) : Prop := {
  rf_primary : alike q (Parser.primary tokens' n) (Parser.primary tokens n);
  rf_call : alike q (Parser.call tokens' n) (Parser.call tokens n);
  rf_unary : alike q (Parser.unary tokens' n) (Parser.unary tokens n);
  rf_factor : alike q (Parser.factor tokens' n) (Parser.factor tokens n);
  rf_term : alike q (Parser.term tokens' n) (Parser.term tokens n);
  rf_comparison : alike q (Parser.comparison tokens' n) (Parser.comparison tokens n);
  rf_equality : alike q (Parser.equality tokens' n) (Parser.equality tokens n);
  rf_and : alike q (Parser.and tokens' n) (Parser.and tokens n);
  rf_or : alike q (Parser.or tokens' n) (Parser.or tokens n);
  rf_expression : alike q (Parser.expression tokens' n) (Parser.expression tokens n);
  rf_block : alike q (Parser.block tokens' n) (Parser.block tokens n);
  rf_returnStatement : alike q (Parser.returnStatement tokens' n) (Parser.returnStatement tokens n);
  rf_whileStatement : alike q (Parser.whileStatement tokens' n) (Parser.whileStatement tokens n);
  rf_forStatement : alike q (Parser.forStatement tokens' n) (Parser.forStatement tokens n);
  rf_ifStatement : alike q (Parser.ifStatement tokens' n) (Parser.ifStatement tokens n);
  rf_statement : alike q (Parser.statement tokens' n) (Parser.statement tokens n);
  rf_functionDeclaration : alike q (Parser.functionDeclaration tokens' n) (Parser.functionDeclaration tokens n);
  rf_letDeclaration : alike q (Parser.letDeclaration tokens' n) (Parser.letDeclaration tokens n);
  rf_declaration : alike q (Parser.declaration tokens' n) (Parser.declaration tokens n)
}.

End ForwardVocabulary.

(** ** The scanner *)

Section LexerVocabulary.
Variable source : string.

(** The characters left to scan. *)
Definition remaining (s : Lexer.state) : nat :=
  String.length source - Lexer.pos s.

(** A loop that consumes a character per iteration. *)
Definition scans {A} (fuel : nat) (s : Lexer.state)
    (r : result Lexer.state A) : Prop :=
  lex_outcome (fun _ s' => remaining s' <= remaining s)
    (remaining s < fuel) r.

(** [nextToken] consumes a character unless none is left. *)
Definition scans_token (fuel : nat) (s : Lexer.state)
    (r : result Lexer.state Token.t) : Prop :=
  lex_outcome
    (fun _ s' => remaining s' <= remaining s /\
                 (0 < remaining s -> remaining s' < remaining s))
    (remaining s + 1 < fuel) r.

End LexerVocabulary.

(** The scanner never moves to an earlier line. *)
Definition keeps_line {A} (s : Lexer.state) (r : result Lexer.state A)
  : Prop :=
  match r with
  | Ok _ s' => (Lexer.line s <= Lexer.line s')%Z
  | _ => True
  end.

(** A token is on the line where its scan started, or on a later
    one. *)
Definition token_line (s : Lexer.state) (r : result Lexer.state Token.t)
  : Prop :=
  match r with
  | Ok token s' =>
      (Lexer.line s <= Token.line token)%Z /\ (Lexer.line s <= Lexer.line s')%Z
  | _ => True
  end.

(** Lines are counted from 1. *)
Definition lines_from_one (tokens : list Token.t) : Prop :=
  Forall (fun t => (1 <= Token.line t)%Z) tokens.

(** ** The document store *)

(** No two URIs refer to the same object, and every reference of the
    store denotes an object. *)
Definition unshared (st : DocumentStore.t) : Prop :=
  (forall uri1 uri2 doc,
      DocumentStore.documents st !! uri1 = Some doc ->
      DocumentStore.documents st !! uri2 = Some doc -> uri1 = uri2)
  /\ (forall uri doc,
         DocumentStore.documents st !! uri = Some doc ->
         is_Some (DocumentStore.heap st !! doc)).

Definition two_documents : DocumentStore.t :=
  LSPServer.run
    [ LSPServer.DidOpen (TextDocumentItem.mk "file:///a.noteg" "noteg" 1 "let x = 1");
      LSPServer.DidOpen (TextDocumentItem.mk "file:///b.noteg" "noteg" 1 "let y = 2") ].

Definition broken_document : DocumentStore.t :=
  LSPServer.run
    [ LSPServer.DidOpen
        (TextDocumentItem.mk "file:///a.noteg" "noteg" 1
           (String.concat (String Lexer.newline EmptyString)
              ["let x = 1"; "let y = 2"; "let = 3 @"])) ].

(** ** Invariants of the parser's position *)

(** [related_at I f' f p]: from position [p] the two runs do the same,
    and a position they return at satisfies [I]. *)
Definition related_at {A} (I : nat -> Prop) (f' f : M nat A) (p : nat)
  : Prop :=
  f' p = f p /\ forall a p', f p = Ok a p' -> I p'.

(** The two runs do the same from every position that satisfies [I],
    and keep [I]. *)
Definition related {A} (I : nat -> Prop) (f' f : M nat A) : Prop :=
  forall p, I p -> related_at I f' f p.

(** The same for a method that starts with an unchecked [advance]: it
    is called where the guard [G] holds. *)
Definition guarded {A} (I G : nat -> Prop) (f' f : M nat A) : Prop :=
  forall p, I p -> G p -> related_at I f' f p.

(** The types of token that the parser passes to [check], [match] and
    [consume]; the others are [BOOLEAN], [DOT], [COLON], [SEMICOLON],
    [ARROW], [NEWLINE], [EOF] and [ERROR]. *)
Definition grammar_type (type : TokenType.t) : bool :=
  negb (existsb (TokenType.eqb type)
          [ TokenType.BOOLEAN; TokenType.DOT; TokenType.COLON;
            TokenType.SEMICOLON; TokenType.ARROW; TokenType.NEWLINE;
            TokenType.EOF; TokenType.ERROR ]).

(** What the nineteen methods keep, with fuel [n]. *)
Record invariant (tokens tokens' : list Token.t) (I G : nat -> Prop)
    (n : nat) : Prop := {
  inv_primary : related I (Parser.primary tokens' n) (Parser.primary tokens n);
  inv_call : related I (Parser.call tokens' n) (Parser.call tokens n);
  inv_unary : related I (Parser.unary tokens' n) (Parser.unary tokens n);
  inv_factor : related I (Parser.factor tokens' n) (Parser.factor tokens n);
  inv_term : related I (Parser.term tokens' n) (Parser.term tokens n);
  inv_comparison :
    related I (Parser.comparison tokens' n) (Parser.comparison tokens n);
  inv_equality :
    related I (Parser.equality tokens' n) (Parser.equality tokens n);
  inv_and : related I (Parser.and tokens' n) (Parser.and tokens n);
  inv_or : related I (Parser.or tokens' n) (Parser.or tokens n);
  inv_expression :
    related I (Parser.expression tokens' n) (Parser.expression tokens n);
  inv_block : related I (Parser.block tokens' n) (Parser.block tokens n);
  inv_returnStatement :
    guarded I G (Parser.returnStatement tokens' n)
      (Parser.returnStatement tokens n);
  inv_whileStatement :
    guarded I G (Parser.whileStatement tokens' n)
      (Parser.whileStatement tokens n);
  inv_forStatement :
    guarded I G (Parser.forStatement tokens' n) (Parser.forStatement tokens n);
  inv_ifStatement :
    guarded I G (Parser.ifStatement tokens' n) (Parser.ifStatement tokens n);
  inv_statement :
    related I (Parser.statement tokens' n) (Parser.statement tokens n);
  inv_functionDeclaration :
    guarded I G (Parser.functionDeclaration tokens' n)
      (Parser.functionDeclaration tokens n);
  inv_letDeclaration :
    guarded I G (Parser.letDeclaration tokens' n)
      (Parser.letDeclaration tokens n);
  inv_declaration :
    related I (Parser.declaration tokens' n) (Parser.declaration tokens n)
}.

(** Every token before position [p] has a type of the grammar: none is
    the end of input, and none is of a type that the parser never
    accepts. *)
Definition grammar_prefix (tokens : list Token.t) (p : nat) : Prop :=
  forall i t,
    i < p -> tokens !! i = Some t -> grammar_type (Token.type t) = true.

(** ** The scanner's tokens *)

(** What a method that builds a token returns: the token is on the
    line where the scan stops, and it is the end-of-input token only
    when nothing is left to scan. *)
Definition token_spec (source : string) (s : Lexer.state)
    (r : result Lexer.state Token.t) : Prop :=
  match r with
  | Ok token s' =>
      Token.line token = Lexer.line s'
      /\ (Token.type token = TokenType.EOF ->
          Token.value token = "" /\ String.length source <= Lexer.pos s')
  | _ => True
  end.

(** The tokens before the end of input: none is an end-of-input or a
    [NEWLINE] token. *)
Definition proper_token (t : Token.t) : Prop :=
  Token.type t <> TokenType.EOF /\ Token.type t <> TokenType.NEWLINE.

Definition eof_token (t : Token.t) : Prop :=
  Token.type t = TokenType.EOF /\ Token.value t = "".

(** The shape of a token array of [tokenize]: proper tokens, then one
    or two end-of-input tokens. *)
Definition scanner_output (tokens : list Token.t) : Prop :=
  exists body eofs,
    tokens = body ++ eofs
    /\ (length eofs = 1 \/ length eofs = 2)
    /\ Forall eof_token eofs
    /\ Forall proper_token body.

(** The lines of the tokens never decrease. *)
Definition lines_sorted (tokens : list Token.t) : Prop :=
  forall i j ti tj,
    i <= j -> tokens !! i = Some ti -> tokens !! j = Some tj ->
    (Token.line ti <= Token.line tj)%Z.

(** None of the tokens is an ERROR token. *)
Definition lexer_diagnostics_empty (tokens : list Token.t) : Prop :=
  Forall (fun t => Token.type t <> TokenType.ERROR) tokens.

(** ** Words of a line *)

(** The characters of [line] from [start] up to [end_] are word
    characters, and the characters next to them, if any, are not. *)
Definition word_at (line : string) (start end_ : nat) : Prop :=
  start <= end_ <= String.length line
  /\ (forall i, start <= i < end_ ->
        exists c, String.get i line = Some c
                  /\ NoteGLanguageServer.is_word_char c = true)
  /\ (forall c, 0 < start -> String.get (start - 1) line = Some c ->
                NoteGLanguageServer.is_word_char c = false)
  /\ (forall c, String.get end_ line = Some c ->
                NoteGLanguageServer.is_word_char c = false).

(** A position moved into the line: [0] when negative, the length of
    the line when beyond it. *)
Definition clamp (line : string) (character : Z) : Z :=
  Z.max 0 (Z.min character (strlen line)).

(** ** Frames of the transport *)

(** One iteration of the loop of [runStdio] on the buffer: the payload
    it cuts off and the buffer it leaves, or [None] where it
    breaks. *)
Definition next_message (buffer : Transport.jsstring)
  : option (Transport.jsstring * Transport.jsstring) :=
  match Transport.indexOf Transport.header_separator buffer with
  | None => None
  | Some headerEnd =>
      match regex_digits Transport.unit_eqb Transport.unit_digit
              (Transport.units "Content-Length: ") (firstn headerEnd buffer) with
      | None => None
      | Some digits =>
          let contentLength := parseInt Transport.unit_digit digits in
          let messageStart := (Z.of_nat headerEnd + 4)%Z in
          let messageEnd := (messageStart + contentLength)%Z in
          if (Z.of_nat (length buffer) <? messageEnd)%Z then None
          else
            Some (firstn (Z.to_nat messageEnd - Z.to_nat messageStart)
                    (skipn (Z.to_nat messageStart) buffer),
                  skipn (Z.to_nat messageEnd) buffer)
      end
  end.

(** The payloads the loop would cut off a buffer if none made the
    process exit, and the buffer that would be left. *)
Fixpoint cut_messages (fuel : nat) (buffer : Transport.jsstring)
  : result Transport.jsstring (list Transport.jsstring) :=
  match fuel with
  | O => OutOfFuel
  | S fuel =>
      match next_message buffer with
      | None => Ok [] buffer
      | Some (message, rest) =>
          match cut_messages fuel rest with
          | Ok messages buffer' => Ok (message :: messages) buffer'
          | Throw e => Throw e
          | OutOfFuel => OutOfFuel
          end
      end
  end.

(** The payload is an exit message: [JSON.parse] accepts it and
    [handleMessage] exits on the value. *)
Definition exits (payload : Transport.jsstring) : bool :=
  match Transport.JSON.parse payload with
  | Transport.JSON.Parsed message _ => Transport.handleMessage message
  | _ => false
  end.

(** The payloads up to the first exit message, with it. *)
Fixpoint until_exit (payloads : list Transport.jsstring)
  : list Transport.jsstring :=
  match payloads with
  | [] => []
  | payload :: payloads' =>
      if exits payload then [payload] else payload :: until_exit payloads'
  end.

(** A frame: the header [Content-Length: n], the blank line, and the
    [n] units of the payload. *)
Definition frame (payload : list N) : list N :=
  Transport.units "Content-Length: "
  ++ Transport.units (string_of_Z (Z.of_nat (length payload)))
  ++ Transport.header_separator
  ++ payload.

(** Bytes that are characters of ASCII. *)
Definition ascii_bytes (bytes : list N) : Prop :=
  Forall (fun b => (b < 128)%N) bytes.

(** ** Runs of characters *)

(** Every character of [s] satisfies [P]. *)
Definition all_chars (P : ascii -> bool) (s : string) : bool :=
  forallb P (list_ascii_of_string s).

(** [s] is empty or starts with a character that does not satisfy
    [P]. *)
Definition starts_outside (P : ascii -> bool) (s : string) : Prop :=
  match s with
  | EmptyString => True
  | String c _ => P c = false
  end.

(** The type of the token of a word: its entry in the table of
    keywords, or [IDENTIFIER]. *)
Definition word_type (word : string) : TokenType.t :=
  default TokenType.IDENTIFIER (Lexer.keywords_get Lexer.keywords word).

(** A character of a plain string literal: not the quote, not a
    backslash, not a newline. *)
Definition plain_char (quote c : ascii) : bool :=
  negb (Lexer.char_eqb c quote)
  && negb (Lexer.char_eqb c "\")
  && negb (Lexer.char_eqb c Lexer.newline).

(** The two quotes that start a string. *)
Definition is_quote (c : ascii) : Prop :=
  c = Lexer.double_quote \/ c = Lexer.single_quote.

(** ** Counting lines *)

(** The number of newline characters among the first [n] characters of
    [s]. *)
Fixpoint newlines (s : string) (n : nat) : Z :=
  match n, s with
  | S n', String c s' =>
      ((if Ascii.eqb c Lexer.newline then 1 else 0) + newlines s' n')%Z
  | _, _ => 0%Z
  end.

(** The scanner's line is one more than the number of newline
    characters behind its position. *)
Definition line_counted (source : string) (s : Lexer.state) : Prop :=
  Lexer.line s = (1 + newlines source (Lexer.pos s))%Z.

Definition keeps_count {A} (source : string)
    (r : result Lexer.state A) : Prop :=
  match r with
  | Ok _ s' => line_counted source s'
  | _ => True
  end.

(** The character ahead of the scanner, as [peek] returns it. *)
Definition ahead (source : string) (s : Lexer.state) : ascii :=
  default Lexer.nul (String.get (Lexer.pos s) source).

(** * The interpreter's environments

    [noteg-lang/src/interpreter.ts], class [Environment]: the scopes of
    a running program.  An environment is an object that inner scopes
    and closures share through their [parent] and [closure] fields, so
    the state is the heap of environments and the methods take the
    reference they are called on.  The class never looks into a value:
    the type of values is a parameter. *)
Module Environment.

Section Values.

Context {Value : Type}.

(** [private values: Map<string, Value>] and
    [private parent: Environment | null]. *)
Record t : Type := mk {
  values : gmap string Value;
  parent : option ref
}.

Definition heap : Type := gmap ref t.

Definition E (A : Type) : Type := M heap A.

(** [new Environment(parent)]: a new object with an empty map. *)
Definition new (parent : option ref) : E ref :=
  fun h =>
    let this := fresh (dom h) in
    Ok this (<[this := mk ∅ parent]> h).

(** The object [this] denotes.  A reference that denotes no object
    is JavaScript's [undefined], whose fields cannot be read. *)
Definition deref (this : ref) : E t :=
  fun h =>
    match h !! this with
    | Some env => Ok env h
    | None => Throw (undefined_property "values")
    end.

(** [this.values.set(name, value)] *)
Definition values_set (this : ref) (name : string) (value : Value)
  : E unit :=
  let* env := deref this in
  fun h =>
    Ok tt (<[this := mk (<[name := value]> (values env)) (parent env)]> h).

Definition define (this : ref) (name : string) (value : Value)
  : E unit :=
  values_set this name value.

Definition undefined_variable (name : string) : exn :=
  Error ("Undefined variable: " +:+ name).

(** [get(name)]; the fuel bounds the calls on the parents. *)
Fixpoint get (fuel : nat) (this : ref) (name : string) : E Value :=
  match fuel with
  | 0 => out_of_fuel
  | S fuel =>
      let* env := deref this in
      match values env !! name with
      | Some value => ret value
      | None =>
          match parent env with
          | Some parent => get fuel parent name
          | None => throw (undefined_variable name)
          end
      end
  end.

(** [assign(name, value)] *)
Fixpoint assign (fuel : nat) (this : ref) (name : string)
    (value : Value) : E unit :=
  match fuel with
  | 0 => out_of_fuel
  | S fuel =>
      let* env := deref this in
      match values env !! name with
      | Some _ => values_set this name value
      | None =>
          match parent env with
          | Some parent => assign fuel parent name value
          | None => throw (undefined_variable name)
          end
      end
  end.

End Values.

Arguments t : clear implicits.
Arguments heap : clear implicits.
Arguments E : clear implicits.

End Environment.

(** ** Scope chains *)

(** [scopes h this l]: the environments from [this] outwards, through
    the [parent] fields up to the one without a parent, are [l]. *)
Inductive scopes {Value} (h : Environment.heap Value)
  : ref -> list ref -> Prop :=
| scopes_global this env :
    h !! this = Some env ->
    Environment.parent env = None ->
    scopes h this [this]
| scopes_inner this env parent l :
    h !! this = Some env ->
    Environment.parent env = Some parent ->
    scopes h parent l ->
    scopes h this (this :: l).

(** Every environment of the heap has a chain of scopes: the [parent]
    fields lead to an environment without a parent. *)
Definition closed {Value} (h : Environment.heap Value) : Prop :=
  forall this env, h !! this = Some env -> exists l, scopes h this l.

(** What the map of the environment [this] holds for [name]. *)
Definition value_at {Value} (h : Environment.heap Value) (name : string)
    (this : ref) : option Value :=
  match h !! this with
  | Some env => Environment.values env !! name
  | None => None
  end.

Definition parent_at {Value} (h : Environment.heap Value) (this : ref)
  : option (option ref) :=
  match h !! this with
  | Some env => Some (Environment.parent env)
  | None => None
  end.

Definition defines {Value} (h : Environment.heap Value) (name : string)
    (this : ref) : bool :=
  match value_at h name this with
  | Some _ => true
  | None => false
  end.

(** The first environment of the chain [l] whose map has [name]. *)
Definition resolve {Value} (h : Environment.heap Value) (name : string)
    (l : list ref) : option ref :=
  List.find (defines h name) l.

(** The value [name] has along the chain [l]: the one of the first
    environment that has it. *)
Definition visible {Value} (h : Environment.heap Value) (name : string)
    (l : list ref) : option Value :=
  match resolve h name l with
  | Some this => value_at h name this
  | None => None
  end.

(** What a call returned or threw, whatever state it left. *)
Definition answer {S A} (r : result S A) : result unit A :=
  match r with
  | Ok a _ => Ok a tt
  | Throw e => Throw e
  | OutOfFuel => OutOfFuel
  end.

(** ** Number literals *)

(** [frac] is the fractional part of a number literal that [post]
    follows: a dot and at least one digit, or nothing when what follows
    is not a dot and a digit. *)
Definition fraction (frac post : string) : Prop :=
  match frac with
  | EmptyString =>
      match post with
      | String dot (String d _) =>
          Lexer.char_eqb dot "." = true -> Lexer.isDigit d = false
      | _ => True
      end
  | String dot (String d run) =>
      Lexer.char_eqb dot "." = true
      /\ Lexer.isDigit d = true
      /\ all_chars Lexer.isDigit run = true
  | String _ EmptyString => False
  end.

(** * Facts about the parser *)

Lemma TokenType_eqb_eq (a b : TokenType.t) :
  TokenType.eqb a b = true <-> a = b.
Proof.
  split.
  - destruct a, b; simpl; intros H; try reflexivity; discriminate H.
  - intros <-. destruct a; reflexivity.
Qed.

Lemma TokenType_eqb_neq (a b : TokenType.t) :
  TokenType.eqb a b = false <-> a <> b.
Proof.
  rewrite <- TokenType_eqb_eq. destruct (TokenType.eqb a b); split; congruence.
Qed.

Lemma TokenType_eqb_refl (a : TokenType.t) : TokenType.eqb a a = true.
Proof. now apply TokenType_eqb_eq. Qed.

Section ParserHelpers.
Variable tokens : list Token.t.
#[local] Abbreviation isAtEnd_view := (isAtEnd_view tokens).
#[local] Abbreviation check_view := (check_view tokens).
#[local] Abbreviation advance_view := (advance_view tokens).
#[local] Abbreviation consume_view := (consume_view tokens).
#[local] Abbreviation match_view := (match_view tokens).
#[local] Abbreviation consume_value_view := (consume_value_view tokens).

(** What the helper methods do at position [p], by cases on the token
    there. *)

Lemma isAtEndP p : isAtEnd_view p (Parser.isAtEnd tokens p).
Proof.
  unfold Parser.isAtEnd, Parser.peek, Parser.prop, bind, ret, throw.
  destruct (tokens !! p) as [t|] eqn:Ht.
  - destruct (TokenType.eqb (Token.type t) TokenType.EOF) eqn:E.
    + apply isAtEnd_true with t; [done|]. now apply TokenType_eqb_eq.
    + apply isAtEnd_false with t; [done|]. now apply TokenType_eqb_neq.
  - now apply isAtEnd_undefined.
Qed.

Lemma checkP type p : check_view type p (Parser.check tokens type p).
Proof.
  unfold Parser.check, bind at 1.
  destruct (isAtEndP p) as [He|t Ht Hty|t Ht Hty].
  - now apply check_undefined.
  - apply check_false with t; auto.
  - unfold Parser.peek, Parser.prop, bind, ret. rewrite Ht.
    destruct (TokenType.eqb (Token.type t) type) eqn:E.
    + apply check_true with t; auto. now apply TokenType_eqb_eq.
    + apply check_false with t; auto. right. now apply TokenType_eqb_neq.
Qed.

Lemma advanceP p : advance_view p (Parser.advance tokens p).
Proof.
  unfold Parser.advance, bind at 1.
  destruct (isAtEndP p) as [He|t Ht Hty|t Ht Hty].
  - now apply advance_undefined.
  - unfold bind, ret, Parser.previous. now apply advance_stay with t.
  - unfold bind, Parser.previous. cbv beta iota. rewrite Ht.
    now apply advance_move.
Qed.

Lemma consumeP type message p :
  consume_view type message p (Parser.consume tokens type message p).
Proof.
  unfold Parser.consume, bind at 1.
  destruct (checkP type p) as [He|t Ht Hty Hne|t Ht Hty].
  - now apply consume_undefined.
  - destruct (advanceP p) as [He|t' v Ht' Hty'|t' Ht' Hty'].
    + congruence.
    + congruence.
    + apply consume_ok; congruence.
  - unfold Parser.peek, Parser.prop, bind, ret, throw. rewrite Ht.
    now apply consume_mismatch.
Qed.

Lemma matchP types p :
  types <> [] -> match_view types p (Parser.match_ tokens types p).
Proof.
  induction types as [|type types IH]; [congruence|]. intros _.
  cbn [Parser.match_]. unfold bind at 1.
  destruct (checkP type p) as [He|t Ht Hty Hne|t Ht Hty].
  - now apply match_undefined.
  - unfold bind. destruct (advanceP p) as [He|t' v Ht' Hty'|t' Ht' Hty'].
    + congruence.
    + congruence.
    + unfold ret. apply match_true with t; auto. left; auto.
  - destruct types as [|type' types].
    + cbn. unfold ret. apply match_false with t; auto.
      destruct Hty as [?|?]; [now left|right]. intros [?|[]]. congruence.
    + destruct IH as [He|t' Ht' Hin Hne|t' Ht' Hor]; [congruence|..].
      * now apply match_undefined.
      * apply match_true with t'; auto. now right.
      * apply match_false with t'; auto.
        destruct Hor as [?|Hn]; [now left|].
        destruct Hty as [?|Hty]; [left; congruence|right].
        intros [?|?]; [congruence|auto].
Qed.

Lemma previous_value_S p t :
  tokens !! p = Some t ->
  Parser.previous_value tokens (S p) = Ok (Token.value t) (S p).
Proof.
  intros Ht. unfold Parser.previous_value, Parser.previous, bind.
  now rewrite Ht.
Qed.

Lemma consume_valueP type message p :
  consume_value_view type message p
    (Parser.consume_value tokens type message p).
Proof.
  unfold Parser.consume_value, bind.
  destruct (consumeP type message p) as [He|t Ht Hty|t Ht Hty Hne].
  - now apply consume_value_undefined.
  - now apply consume_value_mismatch.
  - cbn. now apply consume_value_ok.
Qed.

End ParserHelpers.

(** ** Termination and progress of the parser *)

Lemma not_last tokens p t :
  ends_with_eof tokens ->
  tokens !! p = Some t -> Token.type t <> TokenType.EOF ->
  S p < length tokens.
Proof.
  intros (t' & Hlast & Hty) Ht Hne.
  pose proof (lookup_lt_Some _ _ _ Ht) as Hlt.
  rewrite last_lookup in Hlast.
  destruct (decide (S p = length tokens)) as [E|E]; [|lia].
  rewrite <- E in Hlast. simpl in Hlast. congruence.
Qed.

Lemma outcome_weaken {A} (R R' : nat -> Prop) (E E' : exn -> Prop)
    (B B' : Prop) (r : result nat A) :
  outcome R E B r ->
  (forall p, R p -> R' p) -> (forall e, E e -> E' e) -> (B' -> B) ->
  outcome R' E' B' r.
Proof. destruct r; simpl; auto. Qed.

Ltac parser_step :=
  match goal with
  | |- context [Parser.check ?ts ?ty ?p] => destruct (checkP ts ty p)
  | |- context [Parser.match_ ?ts ?tys ?p] =>
      destruct (matchP ts tys p ltac:(discriminate))
  | |- context [Parser.consume_value ?ts ?ty ?m ?p] =>
      destruct (consume_valueP ts ty m p)
  | |- context [Parser.consume ?ts ?ty ?m ?p] =>
      destruct (consumeP ts ty m p)
  | |- context [Parser.advance ?ts ?p] => destruct (advanceP ts p)
  | |- context [Parser.isAtEnd ?ts ?p] => destruct (isAtEndP ts p)
  | H : ?ts !! ?p = Some ?t |- context [Parser.previous_value ?ts (S ?p)] =>
      rewrite (previous_value_S ts p t H)
  end; cbv beta iota.

(** Bounds on the positions that are known to hold a token, or not. *)
Ltac bound_facts :=
  repeat match goal with
  | H : ?ts !! ?p = Some _ |- _ =>
      lazymatch goal with
      | _ : p < length ts |- _ => fail
      | _ => pose proof (lookup_lt_Some _ _ _ H)
      end
  | H : ?ts !! ?p = None |- _ =>
      lazymatch goal with
      | _ : length ts <= p |- _ => fail
      | _ => pose proof (proj1 (lookup_ge_None _ _) H)
      end
  | Heof : ends_with_eof ?ts, H : ?ts !! ?p = Some ?t,
    Hne : Token.type ?t <> TokenType.EOF |- _ =>
      lazymatch goal with
      | _ : S p < length ts |- _ => fail
      | _ => pose proof (not_last ts p t Heof H Hne)
      end
  end.

Ltac use_eof :=
  repeat match goal with
  | X : ends_with_eof ?ts -> _, Heof : ends_with_eof ?ts |- _ =>
      specialize (X Heof)
  | X : _ /\ _ |- _ => destruct X
  end.

Ltac parser_error_here :=
  lazymatch goal with
  | |- ends_with_eof _ -> _ -> parser_error _ _ =>
      let Heof := fresh "Heof" in
      let Hp := fresh in
      intros Heof Hp; use_eof; bound_facts;
      first
        [ exfalso; lia
        | match goal with
          | H : _ !! _ = Some _ |- _ =>
              do 2 eexists; split;
              [ exact H
              | first [ left; eexists; split;
                        [ reflexivity
                        | cbn [In consume_messages];
                          repeat first [ left; reflexivity | right ] ]
                      | right; reflexivity ] ]
          end
        | match goal with
          | X : _ -> parser_error _ _ |- _ => apply X; lia
          end ]
  end.

Ltac inside_here :=
  repeat match goal with
  | |- _ /\ _ => split
  | |- ends_with_eof _ -> _ => let Heof := fresh "Heof" in intros Heof
  end; use_eof; bound_facts; lia.

Ltac finish :=
  bound_facts; unfold outcome, inside, raised in *; cbv beta iota;
  first [ exact I | lia | parser_error_here | tauto | inside_here
        | (intuition lia) ].

Section ParserProgress.
Variable tokens : list Token.t.
#[local] Abbreviation consuming := (consuming tokens).
#[local] Abbreviation loop_outcome := (loop_outcome tokens).
#[local] Abbreviation len := (length tokens).

Lemma consuming_later {A} p q B (elem : Parser.P A) :
  consuming p B elem -> p <= q -> consuming q B elem.
Proof. intros H Hpq r Hr. apply H. lia. Qed.

Lemma do_while_comma_outcome {A} (elem : Parser.P A) (B : Prop) :
  forall k xs p,
    consuming p B elem ->
    outcome (fun p' => p < p' /\ inside tokens p') (raised tokens p) (B /\ len - p < k)
      (Parser.do_while_comma tokens elem k xs p).
Proof.
  induction k as [|k IH]; intros xs p Helem; cbn [Parser.do_while_comma].
  - unfold out_of_fuel. finish.
  - unfold bind at 1.
    pose proof (Helem p (le_n _)) as X. unfold outcome in X. revert X.
    destruct (elem p) as [x p1| |]; intros X; [|finish..].
    unfold bind, ret. parser_step; [finish| |finish].
    eapply outcome_weaken; [apply (IH (xs ++ [x]) (S p1))|..].
    + eapply consuming_later; [eassumption|lia].
    + cbv beta. intros. finish.
    + intros e He. finish.
    + bound_facts. intros [? ?]. split; [auto|lia].
Qed.

Lemma comma_list_outcome {A} close (elem : Parser.P A) (B : Prop) k p :
  consuming p B elem ->
  loop_outcome p k B (Parser.comma_list tokens close elem k p).
Proof.
  intros Helem. unfold loop_outcome, Parser.comma_list, bind, ret.
  parser_step; cbn [negb]; cbv iota; [finish|finish|].
  eapply outcome_weaken; [apply do_while_comma_outcome, Helem|..].
  - cbv beta. intros. finish.
  - auto.
  - tauto.
Qed.

Lemma binary_loop_outcome types operator operand (B : Prop) :
  types <> [] ->
  (forall q t, tokens !! q = Some t ->
               exists v, operator (S q) = Ok v (S q)) ->
  forall k left p,
    consuming p B operand ->
    loop_outcome p k B
      (Parser.binary_loop tokens types operator operand k left p).
Proof.
  intros Hne Hop. unfold loop_outcome.
  induction k as [|k IH]; intros left p Hoperand;
    cbn [Parser.binary_loop].
  - unfold out_of_fuel. finish.
  - unfold bind at 1.
    destruct (matchP tokens types p Hne) as [He|t Ht Hin Hty|t Ht Hor];
      cbv beta iota; [finish| |unfold ret; finish].
    unfold bind at 1. destruct (Hop p t Ht) as [v ->].
    unfold bind at 1.
    pose proof (Hoperand (S p) ltac:(lia)) as X. unfold outcome in X.
    revert X. destruct (operand (S p)) as [right p1| |]; intros X; [|finish..].
    eapply outcome_weaken; [apply (IH _ p1)|..].
    + eapply consuming_later; [eassumption|lia].
    + cbv beta. intros. finish.
    + intros e He. finish.
    + bound_facts. intros [? ?]. split; [auto|lia].
Qed.

Lemma call_loop_outcome expression (B : Prop) :
  forall k expr p,
    consuming p B expression ->
    loop_outcome p k B (Parser.call_loop tokens expression k expr p).
Proof.
  unfold loop_outcome.
  induction k as [|k IH]; intros expr p Hexpr; cbn [Parser.call_loop].
  - unfold out_of_fuel. finish.
  - unfold bind at 1. parser_step; [finish| |unfold ret; finish].
    unfold bind at 1.
    pose proof (comma_list_outcome TokenType.RPAREN expression B k (S p)) as X.
    unfold loop_outcome, outcome in X. revert X.
    destruct (Parser.comma_list tokens TokenType.RPAREN expression k (S p))
      as [args p1| |]; intros X.
    + specialize (X ltac:(eapply consuming_later; [eassumption|lia])).
      unfold bind at 1. parser_step; [finish|finish|].
      eapply outcome_weaken; [apply (IH _ (S p1))|..].
      * eapply consuming_later; [eassumption|lia].
      * cbv beta. intros. finish.
      * intros e He. finish.
      * bound_facts. intros [? ?]. split; [auto|lia].
    + specialize (X ltac:(eapply consuming_later; [eassumption|lia])).
      finish.
    + intros [HB Hk]. apply X.
      * eapply consuming_later; [eassumption|lia].
      * bound_facts. split; [auto|lia].
Qed.

Lemma block_loop_outcome declaration (B : Prop) :
  forall k statements p,
    consuming p B declaration ->
    loop_outcome p k B
      (Parser.block_loop tokens declaration k statements p).
Proof.
  unfold loop_outcome.
  induction k as [|k IH]; intros statements p Hdecl; cbn [Parser.block_loop].
  - unfold out_of_fuel. finish.
  - unfold bind at 1. parser_step; cbn [negb andb]; cbv iota;
      [finish|unfold bind, ret; finish|].
    unfold bind at 1. parser_step; cbn [negb andb]; cbv iota;
      [finish|unfold ret; finish|].
    unfold bind at 1.
    pose proof (Hdecl p (le_n _)) as X. unfold outcome in X. revert X.
    destruct (declaration p) as [stmt p1| |]; intros X; [|finish..].
    eapply outcome_weaken; [apply (IH _ p1)|..].
    + eapply consuming_later; [eassumption|lia].
    + cbv beta. intros. finish.
    + intros e He. finish.
    + bound_facts. intros [? ?]. split; [auto|lia].
Qed.

Lemma parse_loop_outcome declaration (B : Prop) :
  forall k body p,
    consuming p B declaration ->
    loop_outcome p k B (Parser.parse_loop tokens declaration k body p).
Proof.
  unfold loop_outcome.
  induction k as [|k IH]; intros body p Hdecl; cbn [Parser.parse_loop].
  - unfold out_of_fuel. finish.
  - unfold bind at 1. parser_step; cbn [negb]; cbv iota;
      [finish|unfold ret; finish|].
    unfold bind at 1.
    pose proof (Hdecl p (le_n _)) as X. unfold outcome in X. revert X.
    destruct (declaration p) as [stmt p1| |]; intros X; [|finish..].
    eapply outcome_weaken; [apply (IH _ p1)|..].
    + eapply consuming_later; [eassumption|lia].
    + cbv beta. intros. finish.
    + intros e He. finish.
    + bound_facts. intros [? ?]. split; [auto|lia].
Qed.

End ParserProgress.

Section ParserTermination.
Variable tokens : list Token.t.
#[local] Abbreviation budget := (budget tokens).
#[local] Abbreviation strict := (strict tokens).
#[local] Abbreviation strict_unless_eof := (strict_unless_eof tokens).
#[local] Abbreviation progress := (progress tokens).
#[local] Abbreviation len := (length tokens).

Ltac call_step :=
  match goal with
  | H : strict ?r ?f ?n |- context [?f ?n ?p] =>
      let X := fresh "X" in
      pose proof (H p) as X; unfold outcome, budget in X; revert X;
      destruct (f n p); intros X; cbv beta iota
  | H : strict_unless_eof ?r ?f ?n |- context [?f ?n ?p] =>
      let X := fresh "X" in
      pose proof (H p) as X; unfold outcome, budget in X; revert X;
      destruct (f n p); intros X; cbv beta iota
  end.

Ltac start f :=
  intros [] p; unfold budget; cbn [f];
  unfold bind, ret, throw, out_of_fuel; cbv beta iota.

Ltac use_unless_eof :=
  match goal with
  | X : _ /\ (forall t, ?ts !! ?p = Some t -> _ -> _),
    H : ?ts !! ?p = Some ?t0,
    Hne : Token.type ?t0 <> TokenType.EOF |- _ =>
      let X1 := fresh "X" in
      let X2 := fresh "X" in
      destruct X as [X1 X2]; pose proof (X2 t0 H Hne); clear X2
  end.

Ltac step := first [parser_step | call_step].
Ltac done_here :=
  bound_facts; unfold outcome, budget, inside, raised in *; cbv beta iota;
  first [ exact I | lia | parser_error_here | tauto | inside_here
        | (intuition lia) ].
Ltac crunch := repeat (first [done_here | step]).

Ltac operator_hyp :=
  intros ? ? ?;
  first [ eexists; reflexivity
        | eexists; apply previous_value_S; eassumption ].

Ltac operand_hyp H :=
  intros ? ?; eapply outcome_weaken;
  [ apply H | cbv beta; intros; finish | auto | unfold budget; lia ].

Ltac elem_hyp :=
  intros ? ?; unfold outcome; parser_step; finish.

Ltac use X r :=
  unfold loop_outcome, outcome, budget in X; revert X; destruct r;
  intros X; cbv beta iota.

Ltac loop_step :=
  match goal with
  | H : strict ?r ?f ?n
    |- context [Parser.binary_loop ?ts ?tys ?op (?f ?n) ?k ?l ?p] =>
      let X := fresh "X" in
      assert (X := binary_loop_outcome ts tys op (f n) (budget p r n)
                     ltac:(discriminate) ltac:(operator_hyp) k l p
                     ltac:(operand_hyp H));
      use X (Parser.binary_loop ts tys op (f n) k l p)
  | H : strict ?r ?f ?n
    |- context [Parser.call_loop ?ts (?f ?n) ?k ?e ?p] =>
      let X := fresh "X" in
      assert (X := call_loop_outcome ts (f n) (budget p r n) k e p
                     ltac:(operand_hyp H));
      use X (Parser.call_loop ts (f n) k e p)
  | H : strict ?r ?f ?n
    |- context [Parser.comma_list ?ts ?c (?f ?n) ?k ?p] =>
      let X := fresh "X" in
      assert (X := comma_list_outcome ts c (f n) (budget p r n) k p
                     ltac:(operand_hyp H));
      use X (Parser.comma_list ts c (f n) k p)
  | |- context [Parser.comma_list ?ts ?c (Parser.consume_value ?ts ?ty ?m) ?k ?p] =>
      let X := fresh "X" in
      assert (X := comma_list_outcome ts c (Parser.consume_value ts ty m)
                     True k p ltac:(elem_hyp));
      use X (Parser.comma_list ts c (Parser.consume_value ts ty m) k p)
  | H : strict ?r ?f ?n
    |- context [Parser.block_loop ?ts (?f ?n) ?k ?l ?p] =>
      let X := fresh "X" in
      assert (X := block_loop_outcome ts (f n) (budget p r n) k l p
                     ltac:(operand_hyp H));
      use X (Parser.block_loop ts (f n) k l p)
  end.

Ltac step ::= first [parser_step | call_step | loop_step | use_unless_eof].

Lemma progress_0 : progress 0.
Proof.
  split; intros p; cbn; unfold out_of_fuel, budget; cbn; lia.
Qed.

Lemma primary_S n : progress n -> strict 1 (Parser.primary tokens) (S n).
Proof.
  start Parser.primary. crunch.
  unfold Parser.peek, Parser.prop, ret. rewrite H. cbv beta iota.
  done_here.
Qed.

Lemma call_S n : progress n -> strict 2 (Parser.call tokens) (S n).
Proof. start Parser.call. crunch. Qed.

Lemma unary_S n : progress n -> strict 3 (Parser.unary tokens) (S n).
Proof. start Parser.unary. crunch. Qed.

Lemma factor_S n : progress n -> strict 4 (Parser.factor tokens) (S n).
Proof. start Parser.factor. crunch. Qed.

Lemma term_S n : progress n -> strict 5 (Parser.term tokens) (S n).
Proof. start Parser.term. crunch. Qed.

Lemma comparison_S n : progress n -> strict 6 (Parser.comparison tokens) (S n).
Proof. start Parser.comparison. crunch. Qed.

Lemma equality_S n : progress n -> strict 7 (Parser.equality tokens) (S n).
Proof. start Parser.equality. crunch. Qed.

Lemma and_S n : progress n -> strict 8 (Parser.and tokens) (S n).
Proof. start Parser.and. crunch. Qed.

Lemma or_S n : progress n -> strict 9 (Parser.or tokens) (S n).
Proof. start Parser.or. crunch. Qed.

Lemma expression_S n : progress n -> strict 10 (Parser.expression tokens) (S n).
Proof. start Parser.expression. crunch. Qed.

Lemma block_S n : progress n -> strict 1 (Parser.block tokens) (S n).
Proof. start Parser.block. crunch. Qed.

Lemma returnStatement_S n :
  progress n -> strict_unless_eof 11 (Parser.returnStatement tokens) (S n).
Proof.
  start Parser.returnStatement.
  repeat (first [done_here | step | progress cbn [negb andb]]).
  all: unfold outcome, inside in *; bound_facts; simplify_eq.
  all: split; [inside_here|intros; simplify_eq; first [lia|congruence]].
Qed.

Lemma whileStatement_S n :
  progress n -> strict 11 (Parser.whileStatement tokens) (S n).
Proof. start Parser.whileStatement. crunch. Qed.

Lemma forStatement_S n :
  progress n -> strict 11 (Parser.forStatement tokens) (S n).
Proof. start Parser.forStatement. crunch. Qed.

Lemma ifStatement_S n :
  progress n -> strict 11 (Parser.ifStatement tokens) (S n).
Proof. start Parser.ifStatement. crunch. Qed.

Lemma statement_S n :
  progress n -> strict 12 (Parser.statement tokens) (S n).
Proof.
  start Parser.statement. crunch.
Qed.

Lemma functionDeclaration_S n :
  progress n -> strict 11 (Parser.functionDeclaration tokens) (S n).
Proof. start Parser.functionDeclaration. crunch. Qed.

Lemma letDeclaration_S n :
  progress n -> strict 11 (Parser.letDeclaration tokens) (S n).
Proof. start Parser.letDeclaration. crunch. Qed.

Lemma declaration_S n :
  progress n -> strict 13 (Parser.declaration tokens) (S n).
Proof. start Parser.declaration. crunch. Qed.

Lemma progress_all n : progress n.
Proof.
  induction n as [|n IH]; [apply progress_0|].
  split.
  - now apply primary_S.
  - now apply call_S.
  - now apply unary_S.
  - now apply factor_S.
  - now apply term_S.
  - now apply comparison_S.
  - now apply equality_S.
  - now apply and_S.
  - now apply or_S.
  - now apply expression_S.
  - now apply block_S.
  - now apply returnStatement_S.
  - now apply whileStatement_S.
  - now apply forStatement_S.
  - now apply ifStatement_S.
  - now apply statement_S.
  - now apply functionDeclaration_S.
  - now apply letDeclaration_S.
  - now apply declaration_S.
Qed.

End ParserTermination.

(** [parse] never runs out of the fuel it gives itself, and what it
    throws on an array that ends with the end-of-input token is a parser
    error. *)
Lemma parse_outcome (tokens : list Token.t) :
  outcome (fun p' => inside tokens p') (raised tokens 0) True
    (Parser.parse tokens).
Proof.
  unfold Parser.parse, Parser.parse_with, bind, ret.
  pose proof (parse_loop_outcome tokens
                (Parser.declaration tokens (Parser.parse_fuel tokens))
                (budget tokens 0 13 (Parser.parse_fuel tokens))
                (Parser.parse_fuel tokens) [] 0) as X.
  unfold loop_outcome, outcome in X. revert X.
  destruct (Parser.parse_loop tokens _ _ [] 0) as [body p'| |]; intros X.
  - cbn. apply X. intros q Hq. eapply outcome_weaken.
    + apply (pr_declaration _ _ (progress_all tokens _)).
    + auto.
    + auto.
    + unfold budget, Parser.parse_fuel. lia.
  - cbn. apply X. intros q Hq. eapply outcome_weaken.
    + apply (pr_declaration _ _ (progress_all tokens _)).
    + auto.
    + auto.
    + unfold budget, Parser.parse_fuel. lia.
  - cbn. intros _. apply X.
    + intros q Hq. eapply outcome_weaken.
      * apply (pr_declaration _ _ (progress_all tokens _)).
      * auto.
      * auto.
      * unfold budget, Parser.parse_fuel. lia.
    + unfold budget, Parser.parse_fuel. lia.
Qed.

Lemma parse_not_out_of_fuel (tokens : list Token.t) :
  Parser.parse tokens <> OutOfFuel.
Proof.
  pose proof (parse_outcome tokens) as X. intros E. rewrite E in X.
  cbn in X. tauto.
Qed.

Lemma ends_with_eof_nonempty tokens : ends_with_eof tokens -> 0 < length tokens.
Proof.
  intros (t & Hl & _). destruct tokens; [discriminate|]. cbn. lia.
Qed.

(** What [parse] throws on an array that ends with the end-of-input
    token is one of the parser's own errors. *)
Lemma parse_throws (tokens : list Token.t) (e : exn) :
  ends_with_eof tokens ->
  Parser.parse tokens = Throw e -> parser_error tokens e.
Proof.
  intros Heof E. pose proof (parse_outcome tokens) as X. rewrite E in X.
  apply X; [assumption|]. now apply ends_with_eof_nonempty.
Qed.

(** ** More fuel, same result

    A run that does not exhaust its fuel returns the same with any
    larger amount: what [parse] returns does not depend on the amount
    it gives itself. *)

Lemma extends_refl {S A} (r : result S A) : extends r r.
Proof. intros _. reflexivity. Qed.

Lemma extends_bind {S A B} (m' m : M S A) (k' k : A -> M S B) (s : S) :
  extends (m' s) (m s) ->
  (forall a s1, m s = Ok a s1 -> extends (k' a s1) (k a s1)) ->
  extends (bind m' k' s) (bind m k s).
Proof.
  unfold extends, bind. intros Hm Hk.
  destruct (m s) as [a s1| |] eqn:E.
  - rewrite Hm by discriminate. now apply Hk.
  - rewrite Hm by discriminate. reflexivity.
  - congruence.
Qed.

Section MoreFuel.
Variable tokens : list Token.t.
#[local] Abbreviation more_fuel := (more_fuel tokens).

Lemma do_while_comma_extends {A} (elem' elem : Parser.P A) :
  extends_at elem' elem ->
  forall k k' xs p,
    k <= k' ->
    extends (Parser.do_while_comma tokens elem' k' xs p)
      (Parser.do_while_comma tokens elem k xs p).
Proof.
  intros He. induction k as [|k IH]; intros k' xs p Hk; [intros H; now destruct H|].
  destruct k' as [|k']; [lia|]. cbn [Parser.do_while_comma].
  apply extends_bind; [apply He|]. intros x p1 _.
  apply extends_bind; [apply extends_refl|]. intros [] p2 _.
  - apply IH. lia.
  - apply extends_refl.
Qed.

Lemma comma_list_extends {A} close (elem' elem : Parser.P A) k k' p :
  extends_at elem' elem -> k <= k' ->
  extends (Parser.comma_list tokens close elem' k' p)
    (Parser.comma_list tokens close elem k p).
Proof.
  intros He Hk. unfold Parser.comma_list.
  apply extends_bind; [apply extends_refl|]. intros [] p1 _; cbn [negb].
  - apply extends_refl.
  - now apply do_while_comma_extends.
Qed.

Lemma binary_loop_extends types operator (operand' operand : Parser.P ASTNode) :
  extends_at operand' operand ->
  forall k k' left p,
    k <= k' ->
    extends (Parser.binary_loop tokens types operator operand' k' left p)
      (Parser.binary_loop tokens types operator operand k left p).
Proof.
  intros He. induction k as [|k IH]; intros k' left p Hk;
    [intros H; now destruct H|].
  destruct k' as [|k']; [lia|]. cbn [Parser.binary_loop].
  apply extends_bind; [apply extends_refl|]. intros [] p1 _.
  - apply extends_bind; [apply extends_refl|]. intros op p2 _.
    apply extends_bind; [apply He|]. intros right p3 _.
    apply IH. lia.
  - apply extends_refl.
Qed.

Lemma call_loop_extends (expression' expression : Parser.P ASTNode) :
  extends_at expression' expression ->
  forall k k' expr p,
    k <= k' ->
    extends (Parser.call_loop tokens expression' k' expr p)
      (Parser.call_loop tokens expression k expr p).
Proof.
  intros He. induction k as [|k IH]; intros k' expr p Hk;
    [intros H; now destruct H|].
  destruct k' as [|k']; [lia|]. cbn [Parser.call_loop].
  apply extends_bind; [apply extends_refl|]. intros [] p1 _.
  - apply extends_bind; [apply comma_list_extends; [assumption|lia]|].
    intros args p2 _.
    apply extends_bind; [apply extends_refl|]. intros t p3 _.
    apply IH. lia.
  - apply extends_refl.
Qed.

Lemma block_loop_extends (declaration' declaration : Parser.P ASTNode) :
  extends_at declaration' declaration ->
  forall k k' statements p,
    k <= k' ->
    extends (Parser.block_loop tokens declaration' k' statements p)
      (Parser.block_loop tokens declaration k statements p).
Proof.
  intros He. induction k as [|k IH]; intros k' statements p Hk;
    [intros H; now destruct H|].
  destruct k' as [|k']; [lia|]. cbn [Parser.block_loop].
  apply extends_bind; [apply extends_refl|]. intros c p1 _.
  apply extends_bind; [apply extends_refl|]. intros e p2 _.
  destruct (negb c && negb e); [|apply extends_refl].
  apply extends_bind; [apply He|]. intros stmt p3 _.
  apply IH. lia.
Qed.

Lemma parse_loop_extends (declaration' declaration : Parser.P ASTNode) :
  extends_at declaration' declaration ->
  forall k k' body p,
    k <= k' ->
    extends (Parser.parse_loop tokens declaration' k' body p)
      (Parser.parse_loop tokens declaration k body p).
Proof.
  intros He. induction k as [|k IH]; intros k' body p Hk;
    [intros H; now destruct H|].
  destruct k' as [|k']; [lia|]. cbn [Parser.parse_loop].
  apply extends_bind; [apply extends_refl|]. intros e p1 _.
  destruct (negb e); [|apply extends_refl].
  apply extends_bind; [apply He|]. intros stmt p2 _.
  apply IH. lia.
Qed.

Ltac more_step :=
  lazymatch goal with
  | |- extends (bind _ _ _) (bind _ _ _) =>
      apply extends_bind; [|intros ? ? _]
  | |- extends ((if ?c then _ else _) _) _ => destruct c
  | |- extends (Parser.binary_loop _ _ _ _ _ _ _) _ =>
      apply binary_loop_extends; [assumption|lia]
  | |- extends (Parser.call_loop _ _ _ _ _) _ =>
      apply call_loop_extends; [assumption|lia]
  | |- extends (Parser.block_loop _ _ _ _ _) _ =>
      apply block_loop_extends; [assumption|lia]
  | |- extends (Parser.comma_list _ _ (Parser.consume_value _ _ _) _ _) _ =>
      apply comma_list_extends; [intros ?; apply extends_refl|lia]
  | |- extends (Parser.comma_list _ _ _ _ _) _ =>
      apply comma_list_extends; [assumption|lia]
  | H : extends_at (?f ?n') (?f ?n) |- extends (?f ?n' _) (?f ?n _) =>
      apply H
  | |- extends _ _ => apply extends_refl
  end.

Ltac more f := intros [] Hle p; cbn [f]; repeat more_step.

Lemma primary_more n n' :
  more_fuel n n' -> n <= n' ->
  extends_at (Parser.primary tokens (S n')) (Parser.primary tokens (S n)).
Proof. more Parser.primary. Qed.

Lemma call_more n n' :
  more_fuel n n' -> n <= n' ->
  extends_at (Parser.call tokens (S n')) (Parser.call tokens (S n)).
Proof. more Parser.call. Qed.

Lemma unary_more n n' :
  more_fuel n n' -> n <= n' ->
  extends_at (Parser.unary tokens (S n')) (Parser.unary tokens (S n)).
Proof. more Parser.unary. Qed.

Lemma factor_more n n' :
  more_fuel n n' -> n <= n' ->
  extends_at (Parser.factor tokens (S n')) (Parser.factor tokens (S n)).
Proof. more Parser.factor. Qed.

Lemma term_more n n' :
  more_fuel n n' -> n <= n' ->
  extends_at (Parser.term tokens (S n')) (Parser.term tokens (S n)).
Proof. more Parser.term. Qed.

Lemma comparison_more n n' :
  more_fuel n n' -> n <= n' ->
  extends_at (Parser.comparison tokens (S n')) (Parser.comparison tokens (S n)).
Proof. more Parser.comparison. Qed.

Lemma equality_more n n' :
  more_fuel n n' -> n <= n' ->
  extends_at (Parser.equality tokens (S n')) (Parser.equality tokens (S n)).
Proof. more Parser.equality. Qed.

Lemma and_more n n' :
  more_fuel n n' -> n <= n' ->
  extends_at (Parser.and tokens (S n')) (Parser.and tokens (S n)).
Proof. more Parser.and. Qed.

Lemma or_more n n' :
  more_fuel n n' -> n <= n' ->
  extends_at (Parser.or tokens (S n')) (Parser.or tokens (S n)).
Proof. more Parser.or. Qed.

Lemma expression_more n n' :
  more_fuel n n' -> n <= n' ->
  extends_at (Parser.expression tokens (S n')) (Parser.expression tokens (S n)).
Proof. more Parser.expression. Qed.

Lemma block_more n n' :
  more_fuel n n' -> n <= n' ->
  extends_at (Parser.block tokens (S n')) (Parser.block tokens (S n)).
Proof. more Parser.block. Qed.

Lemma returnStatement_more n n' :
  more_fuel n n' -> n <= n' ->
  extends_at (Parser.returnStatement tokens (S n')) (Parser.returnStatement tokens (S n)).
Proof. more Parser.returnStatement. Qed.

Lemma whileStatement_more n n' :
  more_fuel n n' -> n <= n' ->
  extends_at (Parser.whileStatement tokens (S n')) (Parser.whileStatement tokens (S n)).
Proof. more Parser.whileStatement. Qed.

Lemma forStatement_more n n' :
  more_fuel n n' -> n <= n' ->
  extends_at (Parser.forStatement tokens (S n')) (Parser.forStatement tokens (S n)).
Proof. more Parser.forStatement. Qed.

Lemma ifStatement_more n n' :
  more_fuel n n' -> n <= n' ->
  extends_at (Parser.ifStatement tokens (S n')) (Parser.ifStatement tokens (S n)).
Proof. more Parser.ifStatement. Qed.

Lemma statement_more n n' :
  more_fuel n n' -> n <= n' ->
  extends_at (Parser.statement tokens (S n')) (Parser.statement tokens (S n)).
Proof. more Parser.statement. Qed.

Lemma functionDeclaration_more n n' :
  more_fuel n n' -> n <= n' ->
  extends_at (Parser.functionDeclaration tokens (S n')) (Parser.functionDeclaration tokens (S n)).
Proof. more Parser.functionDeclaration. Qed.

Lemma letDeclaration_more n n' :
  more_fuel n n' -> n <= n' ->
  extends_at (Parser.letDeclaration tokens (S n')) (Parser.letDeclaration tokens (S n)).
Proof. more Parser.letDeclaration. Qed.

Lemma declaration_more n n' :
  more_fuel n n' -> n <= n' ->
  extends_at (Parser.declaration tokens (S n')) (Parser.declaration tokens (S n)).
Proof. more Parser.declaration. Qed.

Lemma more_fuel_all n : forall n', n <= n' -> more_fuel n n'.
Proof.
  induction n as [|n IH]; intros n' Hle.
  { split; intros p H; now destruct H. }
  destruct n' as [|n']; [lia|].
  assert (Hle' : n <= n') by lia. specialize (IH n' Hle').
  split.
  - now apply primary_more.
  - now apply call_more.
  - now apply unary_more.
  - now apply factor_more.
  - now apply term_more.
  - now apply comparison_more.
  - now apply equality_more.
  - now apply and_more.
  - now apply or_more.
  - now apply expression_more.
  - now apply block_more.
  - now apply returnStatement_more.
  - now apply whileStatement_more.
  - now apply forStatement_more.
  - now apply ifStatement_more.
  - now apply statement_more.
  - now apply functionDeclaration_more.
  - now apply letDeclaration_more.
  - now apply declaration_more.
Qed.

(** [parse] with more fuel than it gives itself returns the same. *)
Lemma parse_more_fuel m :
  Parser.parse_fuel tokens <= m ->
  Parser.parse_with tokens m 0 = Parser.parse tokens.
Proof.
  intros Hm. unfold Parser.parse.
  assert (H : extends (Parser.parse_with tokens m 0)
                (Parser.parse_with tokens (Parser.parse_fuel tokens) 0)).
  { unfold Parser.parse_with. apply extends_bind; [|intros; apply extends_refl].
    apply parse_loop_extends; [|assumption].
    apply (mf_declaration _ _ _ (more_fuel_all _ _ Hm)). }
  apply H. apply parse_not_out_of_fuel.
Qed.

End MoreFuel.

(** C9: on a token array that ends with the end-of-input token,
    [parse] terminates.  In the model: [parse] does not exhaust the fuel
    [16 * (length tokens + 1)] it gives itself, and returns the same
    with any larger amount; what it throws is one of the parser's own
    errors, never the [TypeError] of reading past the array; and with
    any fuel [n] each of the nineteen methods ([progress]) either
    returns at a strictly later position (for [returnStatement]: unless
    it was called on the end-of-input token), or throws, or had less
    fuel than [16] units per token left plus its rank, so that every
    iteration of every loop consumes a token or throws. *)
Theorem parse_terminates (tokens : list Token.t) :
  ends_with_eof tokens ->
  Parser.parse tokens <> OutOfFuel /\
  (forall m, Parser.parse_fuel tokens <= m ->
             Parser.parse_with tokens m 0 = Parser.parse tokens) /\
  (forall e, Parser.parse tokens = Throw e -> parser_error tokens e) /\
  (forall n, progress tokens n).
Proof.
  intros Heof. split; [apply parse_not_out_of_fuel|].
  split; [apply parse_more_fuel|]. split.
  - intros e. now apply parse_throws.
  - apply progress_all.
Qed.

Lemma parse_terminates_witness :
  exists tokens,
    Lexer.tokenize "fn f(a) { return a + 1 }" = Ok tokens (Lexer.mkState 24 1 25) /\
    ends_with_eof tokens /\
    Parser.parse tokens <> OutOfFuel.
Proof.
  eexists. split; [vm_compute; reflexivity|].
  assert (H : ends_with_eof
                [Token.mk TokenType.FN "fn" 1 1;
                 Token.mk TokenType.IDENTIFIER "f" 1 4;
                 Token.mk TokenType.LPAREN "(" 1 5;
                 Token.mk TokenType.IDENTIFIER "a" 1 6;
                 Token.mk TokenType.RPAREN ")" 1 7;
                 Token.mk TokenType.LBRACE "{" 1 9;
                 Token.mk TokenType.RETURN "return" 1 11;
                 Token.mk TokenType.IDENTIFIER "a" 1 18;
                 Token.mk TokenType.PLUS "+" 1 20;
                 Token.mk TokenType.NUMBER "1" 1 22;
                 Token.mk TokenType.RBRACE "}" 1 24;
                 Token.mk TokenType.EOF "" 1 25]).
  { eexists. split; reflexivity. }
  split; [exact H|]. exact (proj1 (parse_terminates _ H)).
Defined.

(** * The line in an error message *)

(** ** Decimal numerals *)

Lemma list_ascii_of_string_app (a b : string) :
  list_ascii_of_string (a +:+ b)
  = list_ascii_of_string a ++ list_ascii_of_string b.
Proof.
  induction a as [|c a IH]; [reflexivity|].
  change (c :: list_ascii_of_string (a +:+ b)
          = c :: (list_ascii_of_string a ++ list_ascii_of_string b)).
  now f_equal.
Qed.

Lemma take_digits_uint (d : Decimal.uint) :
  take_digits ascii_digit (list_ascii_of_string (NilEmpty.string_of_uint d))
  = list_ascii_of_string (NilEmpty.string_of_uint d).
Proof.
  induction d; cbn [NilEmpty.string_of_uint list_ascii_of_string take_digits];
    [reflexivity|..].
  all: match goal with
       | |- context [ascii_digit ?c] =>
           let v := eval vm_compute in (ascii_digit c) in
           change (ascii_digit c) with v
       end; cbv iota; now rewrite IHd.
Qed.

Lemma parseInt_uint_acc (d : Decimal.uint) (acc : positive) :
  fold_left (fun acc c => 10 * acc + default 0 (ascii_digit c))%Z
    (list_ascii_of_string (NilEmpty.string_of_uint d)) (Z.pos acc)
  = Z.pos (Pos.of_uint_acc d acc).
Proof.
  revert acc.
  induction d; intros acc;
    cbn [NilEmpty.string_of_uint list_ascii_of_string fold_left
           Pos.of_uint_acc];
    [reflexivity|..].
  all: rewrite <- IHd; f_equal;
    match goal with
    | |- context [ascii_digit ?c] =>
        let v := eval vm_compute in (default 0%Z (ascii_digit c)) in
        change (default 0%Z (ascii_digit c)) with v
    end; lia.
Qed.

Lemma parseInt_uint (d : Decimal.uint) :
  parseInt ascii_digit (list_ascii_of_string (NilEmpty.string_of_uint d))
  = Z.of_N (Pos.of_uint d).
Proof.
  unfold parseInt.
  induction d;
    cbn [NilEmpty.string_of_uint list_ascii_of_string fold_left Pos.of_uint];
    [reflexivity|..].
  all: match goal with
       | |- context [ascii_digit ?c] =>
           let v := eval vm_compute in (10 * 0 + default 0 (ascii_digit c))%Z in
           change (10 * 0 + default 0 (ascii_digit c))%Z with v
       end.
  all: first [ exact IHd | apply parseInt_uint_acc ].
Qed.

(** The text of a line number that is not negative: a run of digits,
    not empty, that [parseInt] reads back. *)
Lemma line_digits (z : Z) :
  (0 <= z)%Z ->
  let ds := list_ascii_of_string (string_of_Z z) in
  ds <> [] /\ take_digits ascii_digit ds = ds /\ parseInt ascii_digit ds = z.
Proof.
  intros Hz. destruct z as [|p|p]; [now vm_compute| |lia].
  unfold string_of_Z, Z.to_int.
  cbn [NilZero.string_of_int]. unfold NilZero.string_of_uint.
  pose proof (Unsigned.to_uint_nonnil p) as Hnil.
  pose proof (Unsigned.of_to p) as Hof.
  destruct (Pos.to_uint p) eqn:E; [congruence|..].
  all: rewrite <- E in *; cbv zeta; rewrite take_digits_uint, parseInt_uint, Hof.
  all: split; [|split; reflexivity].
  all: rewrite E; discriminate.
Qed.

(** The text of a negative line number: a minus sign, then digits. *)
Lemma negative_line_digits (z : Z) :
  (z < 0)%Z ->
  exists ds,
    list_ascii_of_string (string_of_Z z) = "-"%char :: ds
    /\ take_digits ascii_digit ds = ds.
Proof.
  intros Hz. destruct z as [|p|p]; [lia..|].
  unfold string_of_Z, Z.to_int. cbn [NilZero.string_of_int].
  unfold NilZero.string_of_uint.
  pose proof (Unsigned.to_uint_nonnil p) as Hnil.
  destruct (Pos.to_uint p) eqn:E; [congruence|..].
  all: rewrite <- E; eexists; split; [reflexivity|apply take_digits_uint].
Qed.

(** ** The pattern *)

Lemma strip_prefix_app {C} (eqb : C -> C -> bool) (lit s : list C) :
  (forall x, eqb x x = true) ->
  strip_prefix eqb lit (lit ++ s) = Some s.
Proof.
  intros Hrefl. induction lit as [|x lit IH]; cbn; [now destruct s|].
  now rewrite Hrefl.
Qed.

Lemma regex_digits_unfold {C} (eqb : C -> C -> bool) (digit : C -> option Z)
    (lit s : list C) :
  regex_digits eqb digit lit s
  = match match_here eqb digit lit s with
    | Some ds => Some ds
    | None =>
        match s with
        | [] => None
        | _ :: s' => regex_digits eqb digit lit s'
        end
    end.
Proof. now destruct s. Qed.

(** No match starts inside [pre] when the literal is found at none of
    its positions. *)
Lemma regex_digits_skip {C} (eqb : C -> C -> bool) (digit : C -> option Z)
    (lit pre rest : list C) :
  Forall (fun i => match_here eqb digit lit (drop i (pre ++ rest)) = None)
    (seq 0 (length pre)) ->
  regex_digits eqb digit lit (pre ++ rest) = regex_digits eqb digit lit rest.
Proof.
  induction pre as [|c pre IH]; [reflexivity|].
  cbn [length seq]. intros H. apply Forall_cons in H as [H0 H].
  cbn [app regex_digits]. cbn [drop app] in H0. rewrite H0. apply IH.
  rewrite <- seq_shift in H. rewrite Forall_map in H.
  eapply Forall_impl; [exact H|]. intros i Hi. exact Hi.
Qed.

(** A run of digits holds no match: the literal starts with a
    letter. *)
Lemma regex_digits_digits (ds : list ascii) :
  take_digits ascii_digit ds = ds ->
  regex_digits Ascii.eqb ascii_digit (list_ascii_of_string "at line ") ds = None.
Proof.
  induction ds as [|c ds IH]; [reflexivity|].
  cbn [take_digits]. destruct (ascii_digit c) as [v|] eqn:Hc; [|discriminate].
  intros [= Hds]. cbn [regex_digits]. unfold match_here.
  cbn [list_ascii_of_string strip_prefix].
  destruct (Ascii.eqb_spec "a" c) as [<-|_]; [discriminate Hc|].
  now apply IH.
Qed.

(** ** The two kinds of message *)

Ltac no_match_inside :=
  match goal with
  | |- Forall _ ?l =>
      let l' := eval vm_compute in l in
      change l with l'
  end;
  repeat (constructor; [reflexivity|]); constructor.

(** The message of a failed [consume]: the pattern finds the line of
    the token, unless it is negative. *)
Lemma match_at_line_consume (message : string) (z : Z) :
  In message consume_messages ->
  match_at_line (message +:+ " at line " +:+ string_of_Z z)
  = if (0 <=? z)%Z then Some z else None.
Proof.
  intros Hin. unfold match_at_line.
  rewrite !list_ascii_of_string_app.
  set (lit := list_ascii_of_string "at line ").
  change (list_ascii_of_string " at line ") with ([" "%char] ++ lit).
  destruct (Z.leb_spec 0 z) as [Hz|Hz].
  - destruct (line_digits z Hz) as (Hne & Htake & Hparse).
    set (ds := list_ascii_of_string (string_of_Z z)) in *.
    rewrite <- app_assoc, (app_assoc _ [" "%char]).
    rewrite regex_digits_skip.
    + destruct ds as [|c ds']; [congruence|].
      rewrite regex_digits_unfold. unfold match_here.
      rewrite strip_prefix_app by apply Ascii.eqb_refl.
      rewrite Htake. cbn [option_map]. now rewrite Hparse.
    + clearbody ds. clear -Hin.
      cbn [In consume_messages] in Hin.
      repeat (destruct Hin as [<-|Hin]; [no_match_inside|]).
      contradiction.
  - destruct (negative_line_digits z Hz) as (ds & -> & Htake).
    change ("-"%char :: ds) with (["-"%char] ++ ds).
    rewrite <- app_assoc, !app_assoc, <- (app_assoc _ [" "%char]).
    rewrite <- (app_assoc _ _ ["-"%char]).
    rewrite regex_digits_skip.
    + now rewrite regex_digits_digits.
    + clear -Hin.
      cbn [In consume_messages] in Hin.
      repeat (destruct Hin as [<-|Hin]; [no_match_inside|]).
      contradiction.
Qed.

(** The message of [primary]: the pattern finds no line. *)
Lemma match_at_line_primary (type : TokenType.t) :
  match_at_line ("Unexpected token: " +:+ TokenType.to_string type) = None.
Proof. destruct type; vm_compute; reflexivity. Qed.

(** The line the language server reads in a parser error: the line of
    the token for a failed [consume], none for [primary]. *)
Lemma parser_error_line (tokens : list Token.t) (e : exn) :
  parser_error tokens e ->
  exists q t,
    tokens !! q = Some t /\
    (consume_error t e /\
     match_at_line (exn_message e)
     = (if (0 <=? Token.line t)%Z then Some (Token.line t) else None)
     \/ primary_error t e /\ match_at_line (exn_message e) = None).
Proof.
  intros (q & t & Ht & [Hc|Hp]); exists q, t; (split; [assumption|]).
  - left. split; [assumption|]. destruct Hc as (message & -> & Hin).
    now apply match_at_line_consume.
  - right. split; [assumption|]. rewrite Hp. apply match_at_line_primary.
Qed.

(** ** Precedence and associativity *)

Section Levels.
Variable tokens : list Token.t.
#[local] Abbreviation operators := (operators tokens).
#[local] Abbreviation binary_level := (binary_level tokens).
#[local] Abbreviation unary_level := (unary_level tokens).
#[local] Abbreviation call_level := (call_level tokens).
#[local] Abbreviation primary_level := (primary_level tokens).
#[local] Abbreviation separated := (separated tokens).
#[local] Abbreviation listed := (listed tokens).
#[local] Abbreviation arguments := (arguments tokens).

(** A token is an operator of [types] or is not, never both. *)
Lemma operator_not_other types t :
  operator_token types t -> other_token types t -> False.
Proof. intros [Hin Hne] [He|Hn]; auto. Qed.

Lemma other_token_one type t :
  Token.type t = TokenType.EOF \/ Token.type t <> type ->
  other_token [type] t.
Proof.
  intros [He|Hne]; [now left|right]. intros [E|[]]. now apply Hne.
Qed.

Lemma operator_token_one type t :
  Token.type t = type -> Token.type t <> TokenType.EOF ->
  operator_token [type] t.
Proof. intros E Hne. split; [now left|assumption]. Qed.

(** The first token decides alone. *)
Ltac same_token :=
  repeat match goal with
         | H : tokens !! ?p = None, H' : tokens !! ?p = Some _ |- _ =>
             rewrite H in H'; discriminate H'
         | H : tokens !! ?p = Some ?t, H' : tokens !! ?p = Some ?t' |- _ =>
             assert (t' = t) by congruence; subst t'; clear H'
         end.

Ltac other_operator :=
  match goal with
  | H : operator_token ?types ?t, H' : other_token ?types ?t |- _ =>
      destruct (operator_not_other types t H H')
  | Hin : In (Token.type ?t) ?types, Hne : Token.type ?t <> TokenType.EOF,
    H' : other_token ?types ?t |- _ =>
      destruct (operator_not_other types t (conj Hin Hne) H')
  | H : operator_token ?types ?t,
    H' : Token.type ?t = TokenType.EOF \/ ~ In (Token.type ?t) ?types |- _ =>
      destruct (operator_not_other types t H H')
  end.

(** ** The binary levels *)

Section Binary.
Variables (types : list TokenType.t) (operator : Parser.P string)
  (operator_of : Token.t -> string) (operand : Parser.P ASTNode).
Hypothesis Htypes : types <> [].
Hypothesis Hoperator :
  forall i t, tokens !! i = Some t ->
              operator (S i) = Ok (operator_of t) (S i).

Lemma binary_loop_fold :
  forall k left p e p',
    Parser.binary_loop tokens types operator operand k left p = Ok e p' ->
    exists rest,
      operators types operator_of operand p rest p' /\
      e = fold_binary left rest.
Proof.
  induction k as [|k IH]; intros left p e p';
    cbn [Parser.binary_loop]; [discriminate|].
  unfold bind at 1.
  destruct (matchP tokens types p Htypes) as [He|t Ht Hin Hty|t Ht Hor];
    cbv beta iota; [discriminate| |].
  - unfold bind at 1. rewrite (Hoperator p t Ht). unfold bind at 1.
    destruct (operand (S p)) as [right p1| |] eqn:Hr; [|discriminate..].
    intros H. apply IH in H as (rest & Hrest & ->).
    exists ((operator_of t, right) :: rest). split; [|reflexivity].
    eapply operators_more; eauto. now split.
  - unfold ret. intros [= <- <-]. exists [].
    split; [|reflexivity]. now apply operators_end with t.
Qed.

Lemma binary_loop_run p rest p' :
  operators types operator_of operand p rest p' ->
  forall k left,
    length rest < k ->
    Parser.binary_loop tokens types operator operand k left p
    = Ok (fold_binary left rest) p'.
Proof.
  induction 1 as [p t Ht Hother|p t right p1 rest p' Ht Hop Hright _ IH];
    intros [|k] left Hk; cbn [length] in Hk; try lia;
    cbn [Parser.binary_loop]; unfold bind at 1;
    destruct (matchP tokens types p Htypes) as [He|t' Ht' Hin Hty|t' Ht' Hor];
    cbv beta iota; same_token; try other_operator.
  - reflexivity.
  - unfold bind at 1. rewrite (Hoperator p t Ht). unfold bind at 1.
    rewrite Hright. apply IH. lia.
Qed.

End Binary.

Ltac operator_value :=
  intros ? ? ?; first [ reflexivity | apply previous_value_S; eassumption ].

Ltac level f :=
  split;
  [ let H := fresh "H" in
    intros ? ? ?; cbn [f]; unfold bind at 1;
    match goal with
    | |- context [match ?h ?q with _ => _ end] =>
        destruct (h q) eqn:?; [|discriminate..]
    end;
    intros H; eapply binary_loop_fold in H as (? & ? & ->);
    [ do 3 eexists; split; [reflexivity|split; [eassumption|reflexivity]]
    | discriminate
    | operator_value ]
  | let Hfirst := fresh "H" in
    intros ? ? ? ? ? Hfirst ? ?; cbn [f]; unfold bind at 1;
    rewrite Hfirst;
    eapply binary_loop_run; [discriminate|operator_value|eassumption|assumption] ].

Lemma or_level n :
  binary_level [TokenType.OR] (fun _ => "or")
    (Parser.or tokens (S n)) (Parser.and tokens n) n.
Proof. level Parser.or. Qed.

Lemma and_level n :
  binary_level [TokenType.AND] (fun _ => "and")
    (Parser.and tokens (S n)) (Parser.equality tokens n) n.
Proof. level Parser.and. Qed.

Lemma equality_level n :
  binary_level [TokenType.EQ; TokenType.NEQ] Token.value
    (Parser.equality tokens (S n)) (Parser.comparison tokens n) n.
Proof. level Parser.equality. Qed.

Lemma comparison_level n :
  binary_level [TokenType.LT; TokenType.GT; TokenType.LTE; TokenType.GTE]
    Token.value (Parser.comparison tokens (S n)) (Parser.term tokens n) n.
Proof. level Parser.comparison. Qed.

Lemma term_level n :
  binary_level [TokenType.PLUS; TokenType.MINUS] Token.value
    (Parser.term tokens (S n)) (Parser.factor tokens n) n.
Proof. level Parser.term. Qed.

Lemma factor_level n :
  binary_level [TokenType.STAR; TokenType.SLASH; TokenType.PERCENT]
    Token.value (Parser.factor tokens (S n)) (Parser.unary tokens n) n.
Proof. level Parser.factor. Qed.

(** ** Prefix operators *)

Lemma unary_level_holds n : unary_level n.
Proof.
  intros p. cbn [Parser.unary]. unfold bind at 1.
  destruct (matchP tokens [TokenType.NOT; TokenType.MINUS] p
              ltac:(discriminate)) as [He|t Ht Hin Hty|t Ht Hor];
    cbv beta iota.
  - now rewrite He.
  - rewrite Ht.
    assert (TokenType.eqb (Token.type t) TokenType.NOT
            || TokenType.eqb (Token.type t) TokenType.MINUS = true) as ->.
    { destruct Hin as [<-|[<-|[]]]; reflexivity. }
    unfold bind at 1. rewrite (previous_value_S tokens p t Ht).
    unfold bind, ret. now destruct (Parser.unary tokens n (S p)).
  - rewrite Ht.
    assert (TokenType.eqb (Token.type t) TokenType.NOT
            || TokenType.eqb (Token.type t) TokenType.MINUS = false) as ->.
    { apply orb_false_iff. split; apply TokenType_eqb_neq; intros E;
        (destruct Hor as [He|Hn]; [congruence|apply Hn; rewrite E; cbn; auto]). }
    reflexivity.
Qed.

(** ** Calls *)

Section Lists.
Context {A : Type} (elem : Parser.P A).

Lemma do_while_comma_separated :
  forall k xs p ys p',
    Parser.do_while_comma tokens elem k xs p = Ok ys p' ->
    exists zs, ys = xs ++ zs /\ separated elem p zs p'.
Proof.
  induction k as [|k IH]; intros xs p ys p';
    cbn [Parser.do_while_comma]; [discriminate|].
  unfold bind at 1.
  destruct (elem p) as [x p1| |] eqn:Hx; [|discriminate..].
  unfold bind at 1.
  destruct (matchP tokens [TokenType.COMMA] p1 ltac:(discriminate))
    as [He|t Ht Hin Hty|t Ht Hor]; cbv beta iota; [discriminate| |].
  - intros H. apply IH in H as (zs & -> & Hzs).
    exists (x :: zs). rewrite <- app_assoc. split; [reflexivity|].
    eapply separated_more; eauto. now split.
  - unfold ret. intros [= <- <-]. exists [x]. split; [reflexivity|].
    now apply separated_last with t.
Qed.

Lemma do_while_comma_run p zs p' :
  separated elem p zs p' ->
  forall k xs,
    length zs <= k ->
    Parser.do_while_comma tokens elem k xs p = Ok (xs ++ zs) p'.
Proof.
  induction 1 as [p x p' t Hx Ht Hother|p x p1 t zs p' Hx Ht Hop _ IH];
    intros [|k] xs Hk; cbn [length] in Hk; try lia;
    cbn [Parser.do_while_comma]; unfold bind at 1; rewrite Hx;
    unfold bind at 1;
    match goal with
    | |- context [Parser.match_ tokens ?tys ?q] =>
        destruct (matchP tokens tys q ltac:(discriminate))
          as [He|t' Ht' Hin Hty|t' Ht' Hor]
    end; cbv beta iota; same_token; try other_operator.
  - reflexivity.
  - rewrite (IH k (xs ++ [x])) by lia. now rewrite <- app_assoc.
Qed.

Lemma comma_list_listed close k p xs p' :
  Parser.comma_list tokens close elem k p = Ok xs p' ->
  listed close elem p xs p'.
Proof.
  unfold Parser.comma_list, bind at 1.
  destruct (checkP tokens close p) as [He|t Ht Hty Hne|t Ht Hty];
    cbv beta iota; [discriminate| |].
  - cbn [negb]. unfold ret. intros [= <- <-]. exists t.
    split; [assumption|]. left. split; [|now split].
    now apply operator_token_one.
  - cbn [negb]. intros H.
    apply do_while_comma_separated in H as (zs & -> & Hzs).
    exists t. split; [assumption|]. right. split; [|assumption].
    now apply other_token_one.
Qed.

Lemma comma_list_run close k p xs p' :
  listed close elem p xs p' ->
  length xs <= k ->
  Parser.comma_list tokens close elem k p = Ok xs p'.
Proof.
  intros (t & Ht & [(Hop & -> & ->)|(Hother & Hsep)]) Hk;
    unfold Parser.comma_list, bind at 1;
    destruct (checkP tokens close p) as [He|t' Ht' Hty Hne|t' Ht' Hty];
    cbv beta iota; same_token; cbn [negb].
  - reflexivity.
  - destruct (operator_not_other _ _ Hop (other_token_one _ _ Hty)).
  - destruct (operator_not_other _ _ (operator_token_one _ _ Hty Hne)
                Hother).
  - now apply (do_while_comma_run p xs p' Hsep k []).
Qed.

End Lists.

Section Call.
Variable expression : Parser.P ASTNode.

Lemma call_loop_fold :
  forall k expr p e p',
    Parser.call_loop tokens expression k expr p = Ok e p' ->
    exists rest,
      arguments expression p rest p' /\ e = fold_call expr rest.
Proof.
  induction k as [|k IH]; intros expr p e p'; cbn [Parser.call_loop];
    [discriminate|].
  unfold bind at 1.
  destruct (matchP tokens [TokenType.LPAREN] p ltac:(discriminate))
    as [He|t Ht Hin Hty|t Ht Hor]; cbv beta iota; [discriminate| |].
  - unfold bind at 1.
    destruct (Parser.comma_list _ _ _ _ _) as [args p1| |] eqn:Hargs;
      [|discriminate..].
    apply comma_list_listed in Hargs.
    unfold bind at 1.
    destruct (consumeP tokens TokenType.RPAREN
                "Expected ')' after arguments" p1)
      as [He|t1 Ht1 Hty1|t1 Ht1 Hty1 Hne1]; [discriminate..|].
    intros Hk. apply IH in Hk as (rest & Hrest & ->).
    exists (args :: rest). split; [|reflexivity].
    eapply arguments_more; eauto; [now split|].
    now apply operator_token_one.
  - unfold ret. intros [= <- <-]. exists []. split; [|reflexivity].
    now apply arguments_end with t.
Qed.

Lemma call_loop_run p rest p' :
  arguments expression p rest p' ->
  forall k expr,
    length rest < k ->
    Forall (fun args => length rest + length args < k) rest ->
    Parser.call_loop tokens expression k expr p
    = Ok (fold_call expr rest) p'.
Proof.
  induction 1
    as [p t Ht Hother|p t args p1 t1 rest p' Ht Hop Hargs Ht1 Hop1 _ IH];
    intros [|k] expr Hk Hall; cbn [length] in Hk; try lia;
    cbn [Parser.call_loop]; unfold bind at 1;
    destruct (matchP tokens [TokenType.LPAREN] p ltac:(discriminate))
      as [He|t' Ht' Hin Hty|t' Ht' Hor];
    cbv beta iota; same_token; try other_operator.
  - reflexivity.
  - apply Forall_cons in Hall as [Hargs_k Hall]. cbn [length] in *.
    unfold bind at 1.
    rewrite (comma_list_run expression TokenType.RPAREN k (S p) args p1
               Hargs ltac:(lia)).
    unfold bind at 1.
    destruct (consumeP tokens TokenType.RPAREN
                "Expected ')' after arguments" p1)
      as [He|t1' Ht1' Hty1|t1' Ht1' Hty1 Hne1]; same_token.
    + destruct (operator_not_other _ _ Hop1 (other_token_one _ _ Hty1)).
    + apply IH; [lia|].
      eapply Forall_impl; [exact Hall|]. cbv beta. intros; lia.
Qed.

End Call.

Lemma call_level_holds n : call_level n.
Proof.
  split.
  - intros p e p'. cbn [Parser.call]. unfold bind at 1.
    destruct (Parser.primary tokens n p) as [first p1| |]; [|discriminate..].
    intros Hk. apply call_loop_fold in Hk as (rest & Hrest & ->).
    now exists first, p1, rest.
  - intros p first p1 rest p' Hfirst Hrest Hk Hall.
    cbn [Parser.call]. unfold bind at 1. rewrite Hfirst.
    now apply call_loop_run.
Qed.

(** ** Primary expressions *)

Ltac not_this :=
  match goal with
  | Hin : In (Token.type ?t) _, E : Token.type ?t = _ |- _ =>
      rewrite E in Hin; cbn in Hin; intuition discriminate
  | Hor : Token.type ?t = TokenType.EOF \/ ~ In (Token.type ?t) _,
    E : Token.type ?t = _ |- _ =>
      rewrite E in Hor; cbn in Hor; intuition discriminate
  end.

Lemma primary_level_holds n : primary_level n.
Proof.
  intros p. cbn [Parser.primary].
  destruct (tokens !! p) as [t|] eqn:Ht.
  - destruct (Token.type t) eqn:E;
      repeat (unfold bind at 1;
              match goal with
              | |- context [Parser.match_ tokens ?tys p] =>
                  destruct (matchP tokens tys p ltac:(discriminate))
                    as [?|? ? ? ?|? ? ?];
                  cbv beta iota; same_token; try not_this
              end);
      try (unfold bind at 1; rewrite (previous_value_S tokens p t Ht);
           reflexivity);
      try reflexivity;
      unfold bind, Parser.peek, Parser.prop, ret, throw; rewrite Ht, E;
      reflexivity.
  - unfold bind at 1.
    destruct (matchP tokens [TokenType.TRUE] p ltac:(discriminate))
      as [He|t' Ht' Hin Hty|t' Ht' Hor]; same_token.
    reflexivity.
Qed.

End Levels.

(** C5: in the tree of [let x = 1 + 2 * 3] the right child of [+]
    is the [*] node, and in the tree of [let x = a and b or c] the
    left child of [or] is the [and] node.  On every token array the
    levels are, from the loosest: [expression] is [or]; each binary
    level ([or], [and], equality, comparison, additive,
    multiplicative) returns exactly the left folds of its own
    operators over operands parsed by the next tighter level, taking
    every operator of the level that follows an operand (whatever the
    level returns is such a fold, and every such fold is returned); a
    prefix operator applies to a unary expression and anything else at
    that level is a call; a call is exactly a primary expression
    followed by all the argument lists in parentheses that stand after
    it, nested to the left; and a primary expression is a literal, an
    identifier, a template marker, a bracketed array or an expression
    in parentheses, decided by its first token. *)
Theorem expression_precedence :
  parse_source "let x = 1 + 2 * 3"
  = Ok (Program
          [Let "x"
             (BinaryExpr "+" (Literal (LNumber (parseFloat "1")))
                (BinaryExpr "*" (Literal (LNumber (parseFloat "2")))
                   (Literal (LNumber (parseFloat "3")))))]) 8
  /\ parse_source "let x = a and b or c"
     = Ok (Program
             [Let "x"
                (BinaryExpr "or"
                   (BinaryExpr "and" (Identifier "a") (Identifier "b"))
                   (Identifier "c"))]) 8
  /\ forall tokens n,
       (forall p,
           Parser.expression tokens (S n) p = Parser.or tokens n p)
       /\ binary_level tokens [TokenType.OR] (fun _ => "or")
            (Parser.or tokens (S n)) (Parser.and tokens n) n
       /\ binary_level tokens [TokenType.AND] (fun _ => "and")
            (Parser.and tokens (S n)) (Parser.equality tokens n) n
       /\ binary_level tokens [TokenType.EQ; TokenType.NEQ] Token.value
            (Parser.equality tokens (S n)) (Parser.comparison tokens n) n
       /\ binary_level tokens
            [TokenType.LT; TokenType.GT; TokenType.LTE; TokenType.GTE]
            Token.value (Parser.comparison tokens (S n))
            (Parser.term tokens n) n
       /\ binary_level tokens [TokenType.PLUS; TokenType.MINUS] Token.value
            (Parser.term tokens (S n)) (Parser.factor tokens n) n
       /\ binary_level tokens
            [TokenType.STAR; TokenType.SLASH; TokenType.PERCENT] Token.value
            (Parser.factor tokens (S n)) (Parser.unary tokens n) n
       /\ unary_level tokens n
       /\ call_level tokens n
       /\ primary_level tokens n.
Proof.
  split; [vm_compute; reflexivity|]. split; [vm_compute; reflexivity|].
  intros tokens n. split; [reflexivity|].
  repeat (split; [solve [auto using or_level, and_level, equality_level,
                           comparison_level, term_level, factor_level,
                           unary_level_holds, call_level_holds]|]).
  apply primary_level_holds.
Qed.

(** ** [return] *)

(** C7: from a [return] token, [returnStatement] gives a [Return]
    node with no value when the next token is a closing brace or the
    end of input, and otherwise the [Return] node of the expression
    parsed from the next token (or that expression's error). *)
Theorem returnStatement_value (tokens : list Token.t) (n p : nat)
    (t next : Token.t) :
  tokens !! p = Some t ->
  Token.type t = TokenType.RETURN ->
  tokens !! S p = Some next ->
  Parser.returnStatement tokens (S n) p =
    if TokenType.eqb (Token.type next) TokenType.RBRACE
       || TokenType.eqb (Token.type next) TokenType.EOF
    then Ok (Return None) (S p)
    else
      match Parser.expression tokens n (S p) with
      | Ok v p' => Ok (Return (Some v)) p'
      | Throw e => Throw e
      | OutOfFuel => OutOfFuel
      end.
Proof.
  intros Ht Hty Hnext. cbn [Parser.returnStatement].
  unfold bind at 1.
  destruct (advanceP tokens p) as [Hn|t' v Ht' Heof|t' Ht' Hne];
    simplify_eq; [congruence|].
  unfold bind at 1.
  destruct (checkP tokens TokenType.RBRACE (S p))
    as [Hn|t' Ht' Hrb Hne'|t' Ht' Hrb]; simplify_eq; cbv beta iota.
  - rewrite Hrb. reflexivity.
  - cbn [negb]. cbv iota. unfold bind at 1.
    destruct (isAtEndP tokens (S p)) as [Hn|t' Ht' Hend|t' Ht' Hend];
      simplify_eq; cbv beta iota.
    + rewrite Hend. rewrite orb_true_r. reflexivity.
    + destruct Hrb as [Hrb|Hrb]; [congruence|].
      apply TokenType_eqb_neq in Hrb. apply TokenType_eqb_neq in Hend.
      rewrite Hrb, Hend. cbn [negb andb orb]. cbv iota.
      unfold bind, ret.
      destruct (Parser.expression tokens n (S p)); reflexivity.
Qed.

Lemma returnStatement_value_witness :
  let tokens :=
    [Token.mk TokenType.RETURN "return" 1 1;
     Token.mk TokenType.RBRACE "}" 1 8;
     Token.mk TokenType.EOF "" 1 9] in
  Parser.returnStatement tokens 1 0 = Ok (Return None) 1.
Proof.
  intros tokens.
  exact (returnStatement_value tokens 0 0
           (Token.mk TokenType.RETURN "return" 1 1)
           (Token.mk TokenType.RBRACE "}" 1 8)
           eq_refl eq_refl eq_refl).
Defined.

(** * The scanner is total *)

Lemma string_get_lt (s : string) (i : nat) :
  i < String.length s -> exists c, String.get i s = Some c.
Proof.
  revert i. induction s as [|a s IH]; intros i Hi; cbn in Hi; [lia|].
  destruct i as [|i]; cbn; [eauto|]. apply IH. lia.
Qed.

Lemma string_get_ge (s : string) (i : nat) :
  String.length s <= i -> String.get i s = None.
Proof.
  revert i. induction s as [|a s IH]; intros i Hi; cbn in *.
  - now destruct i.
  - destruct i as [|i]; [lia|]. apply IH. lia.
Qed.

Lemma isDigit_not_nul : Lexer.isDigit Lexer.nul = false.
Proof. reflexivity. Qed.

Lemma isAlphaNumeric_not_nul : Lexer.isAlphaNumeric Lexer.nul = false.
Proof. reflexivity. Qed.

Section LexerTotal.
Variable source : string.
#[local] Abbreviation remaining := (remaining source).
#[local] Abbreviation scans := (scans source).
#[local] Abbreviation scans_token := (scans_token source).

Ltac lex_unfold :=
  unfold scans, lex_outcome, remaining, bind, ret, out_of_fuel,
    Lexer.isAtEnd, Lexer.peek, Lexer.peekNext, Lexer.advance,
    Lexer.makeToken, Lexer.next_line in *;
  cbn [Lexer.pos Lexer.line Lexer.column] in *.

Ltac use_loop IH s' :=
  let X := fresh "X" in
  pose proof (IH s') as X; lex_unfold; revert X;
  match goal with
  | |- context [match ?r with Ok _ _ => _ | Throw _ => _ | OutOfFuel => _ end] =>
      destruct r
  end; intros X; cbn [Lexer.pos] in *; try lia
.

Lemma peek_nul_at_end (s : Lexer.state) c :
  default Lexer.nul (String.get (Lexer.pos s) source) = c ->
  c <> Lexer.nul -> Lexer.pos s < String.length source.
Proof.
  intros E Hc.
  destruct (Nat.lt_ge_cases (Lexer.pos s) (String.length source)) as [?|Hge];
    [assumption|].
  rewrite (string_get_ge _ _ Hge) in E. cbn in E. congruence.
Qed.

Lemma skipWhitespace_scans fuel s :
  scans fuel s (Lexer.skipWhitespace source fuel s).
Proof.
  revert s. induction fuel as [|fuel IH]; intros s;
    cbn [Lexer.skipWhitespace]; lex_unfold; [lia|].
  destruct (String.length source <=? Lexer.pos s)%nat eqn:E; [lia|].
  apply Nat.leb_gt in E.
  destruct (_ || _); [|lia].
  use_loop IH (Lexer.mkState (Lexer.pos s + 1) (Lexer.line s)
                 (Lexer.column s + 1)).
Qed.

Lemma skipLineComment_scans fuel s :
  scans fuel s (Lexer.skipLineComment source fuel s).
Proof.
  revert s. induction fuel as [|fuel IH]; intros s;
    cbn [Lexer.skipLineComment]; lex_unfold; [lia|].
  destruct (String.length source <=? Lexer.pos s)%nat eqn:E;
    cbn [negb andb]; [lia|].
  apply Nat.leb_gt in E.
  destruct (negb _); [|lia].
  use_loop IH (Lexer.mkState (Lexer.pos s + 1) (Lexer.line s)
                 (Lexer.column s + 1)).
Qed.

Lemma string_loop_scans fuel quote value s :
  scans fuel s (Lexer.string_loop source fuel quote value s).
Proof.
  revert value s. induction fuel as [|fuel IH]; intros value s;
    cbn [Lexer.string_loop]; lex_unfold; [lia|].
  destruct (String.length source <=? Lexer.pos s)%nat eqn:E;
    cbn [negb andb]; [lia|].
  apply Nat.leb_gt in E.
  destruct (negb _); [|lia].
  destruct (Lexer.char_eqb _ Lexer.newline);
    destruct (_ && _); lex_unfold.
  all: match goal with
       | |- context [Lexer.string_loop ?src ?f ?q ?v ?s'] =>
           pose proof (IH v s') as X; lex_unfold; revert X;
           destruct (Lexer.string_loop src f q v s');
           intros X; cbn [Lexer.pos] in *; lia
       end.
Qed.

Lemma digits_loop_scans fuel value s :
  scans fuel s (Lexer.digits_loop source fuel value s).
Proof.
  revert value s. induction fuel as [|fuel IH]; intros value s;
    cbn [Lexer.digits_loop]; lex_unfold; [lia|].
  destruct (Lexer.isDigit _) eqn:E; [|lia].
  assert (Lexer.pos s < String.length source).
  { eapply peek_nul_at_end; [reflexivity|]. intros Hn. rewrite Hn in E.
    discriminate. }
  match goal with
  | |- context [Lexer.digits_loop ?src ?f ?v ?s'] =>
      pose proof (IH v s') as X; lex_unfold; revert X;
      destruct (Lexer.digits_loop src f v s');
      intros X; cbn [Lexer.pos] in *; lia
  end.
Qed.

Lemma identifier_loop_scans fuel value s :
  scans fuel s (Lexer.identifier_loop source fuel value s).
Proof.
  revert value s. induction fuel as [|fuel IH]; intros value s;
    cbn [Lexer.identifier_loop]; lex_unfold; [lia|].
  destruct (Lexer.isAlphaNumeric _) eqn:E; [|lia].
  assert (Lexer.pos s < String.length source).
  { eapply peek_nul_at_end; [reflexivity|]. intros Hn. rewrite Hn in E.
    discriminate. }
  match goal with
  | |- context [Lexer.identifier_loop ?src ?f ?v ?s'] =>
      pose proof (IH v s') as X; lex_unfold; revert X;
      destruct (Lexer.identifier_loop src f v s');
      intros X; cbn [Lexer.pos] in *; lia
  end.
Qed.

Lemma string_scans fuel quote s :
  scans fuel s (Lexer.string_ source fuel quote s).
Proof.
  unfold Lexer.string_. unfold bind at 1.
  pose proof (string_loop_scans fuel quote "" s) as X. revert X.
  destruct (Lexer.string_loop source fuel quote "" s) as [v s'| |];
    lex_unfold; intros X; [|assumption..].
  destruct (_ <=? _)%nat; cbn [Lexer.pos]; lia.
Qed.

Lemma number_scans fuel first s :
  scans fuel s (Lexer.number source fuel first s).
Proof.
  unfold Lexer.number. unfold bind at 1.
  pose proof (digits_loop_scans fuel (String first EmptyString) s) as X.
  revert X.
  destruct (Lexer.digits_loop source fuel _ s) as [v s'| |];
    lex_unfold; intros X; [|assumption..].
  destruct (_ && _).
  - match goal with
    | |- context [Lexer.digits_loop ?src ?f ?v ?s'] =>
        pose proof (digits_loop_scans f v s') as Y; lex_unfold; revert Y;
        destruct (Lexer.digits_loop src f v s');
        intros Y; cbn [Lexer.pos] in *; lia
    end.
  - lia.
Qed.

Lemma identifier_scans fuel first s :
  scans fuel s (Lexer.identifier source fuel first s).
Proof.
  unfold Lexer.identifier. unfold bind at 1.
  pose proof (identifier_loop_scans fuel (String first EmptyString) s) as X.
  revert X.
  destruct (Lexer.identifier_loop source fuel _ s) as [v s'| |];
    lex_unfold; intros X; [|assumption..]. lia.
Qed.

Lemma one_or_two_scans c two text2 one text1 s :
  lex_outcome (fun _ s' => remaining s' <= remaining s) True
    (Lexer.one_or_two source c two text2 one text1 s).
Proof.
  unfold Lexer.one_or_two. lex_unfold.
  destruct (Lexer.char_eqb _ c); cbn [Lexer.pos]; lia.
Qed.

Ltac leaf :=
  match goal with
  | |- context [Lexer.string_ ?src ?f ?q ?s'] =>
      let X := fresh "X" in
      pose proof (string_scans f q s') as X; lex_unfold; revert X;
      destruct (Lexer.string_ src f q s'); intros X
  | |- context [Lexer.number ?src ?f ?c ?s'] =>
      let X := fresh "X" in
      pose proof (number_scans f c s') as X; lex_unfold; revert X;
      destruct (Lexer.number src f c s'); intros X
  | |- context [Lexer.identifier ?src ?f ?c ?s'] =>
      let X := fresh "X" in
      pose proof (identifier_scans f c s') as X; lex_unfold; revert X;
      destruct (Lexer.identifier src f c s'); intros X
  | |- context [Lexer.one_or_two ?src ?c ?a ?b ?d ?e ?s'] =>
      let X := fresh "X" in
      pose proof (one_or_two_scans c a b d e s') as X; lex_unfold; revert X;
      destruct (Lexer.one_or_two src c a b d e s'); intros X
  end.

Lemma nextToken_scans fuel s :
  scans_token fuel s (Lexer.nextToken source fuel s).
Proof.
  revert s. induction fuel as [|fuel IH]; intros s; unfold scans_token;
    cbn [Lexer.nextToken]; [lex_unfold; lia|].
  unfold bind at 1.
  pose proof (skipWhitespace_scans fuel s) as X. revert X.
  destruct (Lexer.skipWhitespace source fuel s) as [[] s1| |];
    lex_unfold; intros X; [|contradiction|lia].
  destruct (String.length source <=? Lexer.pos s1)%nat eqn:E.
  { apply Nat.leb_le in E. lia. }
  apply Nat.leb_gt in E.
  destruct (string_get_lt source (Lexer.pos s1) E) as [char Hc].
  rewrite Hc.
  repeat match goal with
         | |- context [if ?b then _ else _] => destruct b
         end;
    cbn [Lexer.pos]; try lia.
  all: try (leaf; cbn [Lexer.pos] in *; first [lia|tauto]).
  (* a line comment, and the token after it *)
  pose proof (skipLineComment_scans fuel
                (Lexer.mkState (Lexer.pos s1 + 1) (Lexer.line s1)
                   (Lexer.column s1 + 1))) as Y.
  revert Y.
  destruct (Lexer.skipLineComment source fuel _) as [[] s2| |];
    lex_unfold; intros Y; [|contradiction|lia].
  pose proof (IH s2) as Z. unfold scans_token in Z. lex_unfold. revert Z.
  destruct (Lexer.nextToken source fuel s2) as [tok s3| |]; intros Z;
    cbn [Lexer.pos] in *; lia.
Qed.

Lemma tokenize_loop_total fuel tokens s :
  lex_outcome (fun tokens' _ => ends_with_eof tokens')
    (remaining s + 2 < fuel)
    (Lexer.tokenize_loop source fuel tokens s).
Proof.
  revert tokens s. induction fuel as [|fuel IH]; intros tokens s;
    cbn [Lexer.tokenize_loop]; [lex_unfold; lia|].
  unfold bind at 1. unfold Lexer.isAtEnd at 1.
  destruct (String.length source <=? Lexer.pos s)%nat eqn:E.
  - unfold Lexer.makeToken, bind, ret, lex_outcome.
    eexists. rewrite last_snoc. split; reflexivity.
  - apply Nat.leb_gt in E. unfold bind at 1.
    pose proof (nextToken_scans fuel s) as X. unfold scans_token in X.
    revert X.
    destruct (Lexer.nextToken source fuel s) as [token s1| |];
      lex_unfold; intros X; [|contradiction|lia].
    destruct (TokenType.eqb _ _).
    + pose proof (IH tokens s1) as Y. lex_unfold. revert Y.
      destruct (Lexer.tokenize_loop source fuel tokens s1); intros Y;
        [assumption|contradiction|lia].
    + pose proof (IH (tokens ++ [token]) s1) as Y. lex_unfold. revert Y.
      destruct (Lexer.tokenize_loop source fuel _ s1); intros Y;
        [assumption|contradiction|lia].
Qed.

End LexerTotal.

(** [tokenize] returns, for every source text, and the token array ends
    with the end-of-input token. *)
Lemma tokenize_total (source : string) :
  exists tokens s,
    Lexer.tokenize source = Ok tokens s /\ ends_with_eof tokens.
Proof.
  unfold Lexer.tokenize.
  pose proof (tokenize_loop_total source (Lexer.tokenize_fuel source) []
                (Lexer.mkState 0 1 1)) as X.
  revert X.
  destruct (Lexer.tokenize_loop source _ [] _) as [tokens s| |];
    unfold lex_outcome, remaining, Lexer.tokenize_fuel; cbn [Lexer.pos];
    intros X.
  - eauto.
  - contradiction.
  - lia.
Qed.

(** The scanner with more fuel returns the same. *)
Section LexerMoreFuel.
Variable source : string.

Ltac lex_more_step IH :=
  lazymatch goal with
  | |- extends (bind _ _ _) (bind _ _ _) =>
      apply extends_bind; [|intros ? ? _]
  | |- extends ((if ?c then _ else _) _) _ => destruct c
  | |- extends (match ?c with Some _ => _ | None => _ end _) _ => destruct c
  | |- extends (?f ?src ?k' _) (?f ?src ?k _) =>
      first [ apply IH; lia | apply extends_refl ]
  | |- extends (?f ?src ?k' _ _) (?f ?src ?k _ _) =>
      first [ apply IH; lia | apply extends_refl ]
  | |- extends (?f ?src ?k' _ _ _) (?f ?src ?k _ _ _) =>
      first [ apply IH; lia | apply extends_refl ]
  | |- extends _ _ => apply extends_refl
  end.

Lemma skipWhitespace_extends k :
  forall k' s, k <= k' ->
    extends (Lexer.skipWhitespace source k' s) (Lexer.skipWhitespace source k s).
Proof.
  induction k as [|k IH]; intros k'; intros; [intros Hne; now destruct Hne|].
  destruct k' as [|k']; [lia|]. cbn [Lexer.skipWhitespace].
  repeat lex_more_step IH.
Qed.

Lemma skipLineComment_extends k :
  forall k' s, k <= k' ->
    extends (Lexer.skipLineComment source k' s)
      (Lexer.skipLineComment source k s).
Proof.
  induction k as [|k IH]; intros k'; intros; [intros Hne; now destruct Hne|].
  destruct k' as [|k']; [lia|]. cbn [Lexer.skipLineComment].
  repeat lex_more_step IH.
Qed.

Lemma string_loop_extends quote k :
  forall k' value s, k <= k' ->
    extends (Lexer.string_loop source k' quote value s)
      (Lexer.string_loop source k quote value s).
Proof.
  induction k as [|k IH]; intros k'; intros; [intros Hne; now destruct Hne|].
  destruct k' as [|k']; [lia|]. cbn [Lexer.string_loop].
  repeat lex_more_step IH.
Qed.

Lemma digits_loop_extends k :
  forall k' value s, k <= k' ->
    extends (Lexer.digits_loop source k' value s)
      (Lexer.digits_loop source k value s).
Proof.
  induction k as [|k IH]; intros k'; intros; [intros Hne; now destruct Hne|].
  destruct k' as [|k']; [lia|]. cbn [Lexer.digits_loop].
  repeat lex_more_step IH.
Qed.

Lemma identifier_loop_extends k :
  forall k' value s, k <= k' ->
    extends (Lexer.identifier_loop source k' value s)
      (Lexer.identifier_loop source k value s).
Proof.
  induction k as [|k IH]; intros k'; intros; [intros Hne; now destruct Hne|].
  destruct k' as [|k']; [lia|]. cbn [Lexer.identifier_loop].
  repeat lex_more_step IH.
Qed.

Lemma string_extends k k' quote s :
  k <= k' ->
  extends (Lexer.string_ source k' quote s) (Lexer.string_ source k quote s).
Proof.
  intros Hk. unfold Lexer.string_.
  apply extends_bind; [now apply string_loop_extends|].
  intros; apply extends_refl.
Qed.

Lemma number_extends k k' first s :
  k <= k' ->
  extends (Lexer.number source k' first s) (Lexer.number source k first s).
Proof.
  intros Hk. unfold Lexer.number.
  apply extends_bind; [now apply digits_loop_extends|]. intros ? ? _.
  apply extends_bind; [apply extends_refl|]. intros ? ? _.
  apply extends_bind; [apply extends_refl|]. intros ? ? _.
  apply extends_bind; [|intros; apply extends_refl].
  destruct (_ && _); [|apply extends_refl].
  apply extends_bind; [apply extends_refl|]. intros ? ? _.
  now apply digits_loop_extends.
Qed.

Lemma identifier_extends k k' first s :
  k <= k' ->
  extends (Lexer.identifier source k' first s)
    (Lexer.identifier source k first s).
Proof.
  intros Hk. unfold Lexer.identifier.
  apply extends_bind; [now apply identifier_loop_extends|].
  intros; apply extends_refl.
Qed.

Ltac token_more_step IH :=
  lazymatch goal with
  | |- extends (bind _ _ _) (bind _ _ _) =>
      apply extends_bind; [|intros ? ? _]
  | |- extends ((if ?c then _ else _) _) _ => destruct c
  | |- extends (match ?c with Some _ => _ | None => _ end _) _ => destruct c
  | |- extends (Lexer.skipWhitespace _ _ _) _ =>
      apply skipWhitespace_extends; lia
  | |- extends (Lexer.skipLineComment _ _ _) _ =>
      apply skipLineComment_extends; lia
  | |- extends (Lexer.string_ _ _ _ _) _ => apply string_extends; lia
  | |- extends (Lexer.number _ _ _ _) _ => apply number_extends; lia
  | |- extends (Lexer.identifier _ _ _ _) _ => apply identifier_extends; lia
  | |- extends (Lexer.nextToken _ _ _) _ => apply IH; lia
  | |- extends (Lexer.tokenize_loop _ _ _ _) _ => apply IH; lia
  | |- extends _ _ => apply extends_refl
  end.

Lemma nextToken_extends k :
  forall k' s, k <= k' ->
    extends (Lexer.nextToken source k' s) (Lexer.nextToken source k s).
Proof.
  induction k as [|k IH]; intros k' s Hk; [intros H; now destruct H|].
  destruct k' as [|k']; [lia|]. cbn [Lexer.nextToken].
  repeat token_more_step IH.
Qed.

Lemma tokenize_loop_extends k :
  forall k' tokens s, k <= k' ->
    extends (Lexer.tokenize_loop source k' tokens s)
      (Lexer.tokenize_loop source k tokens s).
Proof.
  induction k as [|k IH]; intros k' tokens s Hk; [intros H; now destruct H|].
  destruct k' as [|k']; [lia|]. cbn [Lexer.tokenize_loop].
  repeat first
    [ match goal with
      | |- extends (Lexer.nextToken _ _ _) _ => apply nextToken_extends; lia
      end
    | token_more_step IH ].
Qed.

(** [tokenize] with more fuel than it gives itself returns the same. *)
Lemma tokenize_more_fuel m :
  Lexer.tokenize_fuel source <= m ->
  Lexer.tokenize_loop source m [] (Lexer.mkState 0 1 1)
  = Lexer.tokenize source.
Proof.
  intros Hm.
  pose proof (tokenize_loop_extends (Lexer.tokenize_fuel source) m []
                (Lexer.mkState 0 1 1) Hm) as H.
  destruct (tokenize_total source) as (tokens & s & E & _).
  unfold Lexer.tokenize in *. apply H. rewrite E. discriminate.
Qed.

End LexerMoreFuel.

(** * The lines of the tokens *)

Section LexerLines.
Variable source : string.

Ltac line_unfold :=
  unfold keeps_line, token_line, bind, ret, out_of_fuel,
    Lexer.isAtEnd, Lexer.peek, Lexer.peekNext, Lexer.advance,
    Lexer.makeToken, Lexer.next_line in *;
  cbn [Lexer.pos Lexer.line Lexer.column Token.line] in *.

Ltac branches :=
  repeat match goal with
         | |- context [if ?b then _ else _] => destruct b
         end.

Ltac callee lemma :=
  let X := fresh "X" in
  pose proof lemma as X; line_unfold; revert X;
  match goal with
  | |- match ?r with Ok _ _ => _ | Throw _ => _ | OutOfFuel => _ end -> _ =>
      destruct r
  end; intros X; cbn [Lexer.line Token.line] in *; try exact I; try lia.

Lemma skipWhitespace_line fuel s :
  keeps_line s (Lexer.skipWhitespace source fuel s).
Proof.
  revert s. induction fuel as [|fuel IH]; intros s;
    cbn [Lexer.skipWhitespace]; line_unfold; [exact I|].
  branches; try lia.
  callee (IH (Lexer.mkState (Lexer.pos s + 1) (Lexer.line s)
                (Lexer.column s + 1))).
Qed.

Lemma skipLineComment_line fuel s :
  keeps_line s (Lexer.skipLineComment source fuel s).
Proof.
  revert s. induction fuel as [|fuel IH]; intros s;
    cbn [Lexer.skipLineComment]; line_unfold; [exact I|].
  branches; try lia.
  callee (IH (Lexer.mkState (Lexer.pos s + 1) (Lexer.line s)
                (Lexer.column s + 1))).
Qed.

Lemma string_loop_line fuel quote value s :
  keeps_line s (Lexer.string_loop source fuel quote value s).
Proof.
  revert value s. induction fuel as [|fuel IH]; intros value s;
    cbn [Lexer.string_loop]; line_unfold; [exact I|].
  branches; line_unfold; try lia.
  all: match goal with
       | |- context [Lexer.string_loop _ _ _ ?v ?s'] => callee (IH v s')
       end.
Qed.

Lemma digits_loop_line fuel value s :
  keeps_line s (Lexer.digits_loop source fuel value s).
Proof.
  revert value s. induction fuel as [|fuel IH]; intros value s;
    cbn [Lexer.digits_loop]; line_unfold; [exact I|].
  branches; try lia.
  match goal with
  | |- context [Lexer.digits_loop _ _ ?v ?s'] => callee (IH v s')
  end.
Qed.

Lemma identifier_loop_line fuel value s :
  keeps_line s (Lexer.identifier_loop source fuel value s).
Proof.
  revert value s. induction fuel as [|fuel IH]; intros value s;
    cbn [Lexer.identifier_loop]; line_unfold; [exact I|].
  branches; try lia.
  match goal with
  | |- context [Lexer.identifier_loop _ _ ?v ?s'] => callee (IH v s')
  end.
Qed.

Lemma string_line fuel quote s :
  token_line s (Lexer.string_ source fuel quote s).
Proof.
  unfold Lexer.string_. unfold bind at 1.
  callee (string_loop_line fuel quote "" s).
  branches; cbn [Lexer.line Token.line]; lia.
Qed.

Lemma number_line fuel first s :
  token_line s (Lexer.number source fuel first s).
Proof.
  unfold Lexer.number. unfold bind at 1.
  callee (digits_loop_line fuel (String first EmptyString) s).
  branches; cbn [Lexer.line Token.line]; try lia.
  match goal with
  | |- context [Lexer.digits_loop _ ?f ?v ?s'] =>
      callee (digits_loop_line f v s')
  end.
Qed.

Lemma identifier_line fuel first s :
  token_line s (Lexer.identifier source fuel first s).
Proof.
  unfold Lexer.identifier. unfold bind at 1.
  callee (identifier_loop_line fuel (String first EmptyString) s).
Qed.

Lemma one_or_two_line c two text2 one text1 s :
  token_line s (Lexer.one_or_two source c two text2 one text1 s).
Proof.
  unfold Lexer.one_or_two. line_unfold.
  branches; cbn [Lexer.line Token.line]; lia.
Qed.

Ltac leaf :=
  match goal with
  | |- context [Lexer.string_ _ ?f ?q ?s'] => callee (string_line f q s')
  | |- context [Lexer.number _ ?f ?c ?s'] => callee (number_line f c s')
  | |- context [Lexer.identifier _ ?f ?c ?s'] =>
      callee (identifier_line f c s')
  | |- context [Lexer.one_or_two _ ?c ?a ?b ?d ?e ?s'] =>
      callee (one_or_two_line c a b d e s')
  end.

Lemma nextToken_line fuel s :
  token_line s (Lexer.nextToken source fuel s).
Proof.
  revert s. induction fuel as [|fuel IH]; intros s;
    cbn [Lexer.nextToken]; [exact I|].
  unfold bind at 1.
  callee (skipWhitespace_line fuel s).
  destruct (String.length source <=? Lexer.pos s0)%nat;
    [cbn [Lexer.line Token.line]; lia|].
  destruct (String.get (Lexer.pos s0) source) as [char|]; [|exact I].
  branches; cbn [Lexer.line Token.line]; try lia.
  all: try (leaf; fail).
  match goal with
  | |- context [Lexer.skipLineComment _ ?f ?s'] =>
      callee (skipLineComment_line f s')
  end.
  match goal with
  | |- context [Lexer.nextToken _ _ ?s'] => callee (IH s')
  end.
Qed.

Lemma tokenize_loop_lines fuel tokens s :
  (1 <= Lexer.line s)%Z ->
  lines_from_one tokens ->
  match Lexer.tokenize_loop source fuel tokens s with
  | Ok tokens' _ => lines_from_one tokens'
  | _ => True
  end.
Proof.
  revert tokens s. induction fuel as [|fuel IH]; intros tokens s Hs Htokens;
    cbn [Lexer.tokenize_loop]; [exact I|].
  unfold bind at 1. unfold Lexer.isAtEnd at 1.
  destruct (String.length source <=? Lexer.pos s)%nat.
  - unfold Lexer.makeToken, bind, ret, lines_from_one.
    apply Forall_app. split; [assumption|].
    now repeat constructor.
  - unfold bind at 1.
    pose proof (nextToken_line fuel s) as X. unfold token_line in X.
    destruct (Lexer.nextToken source fuel s) as [token s1| |];
      [|exact I..].
    destruct X as [Htoken Hline].
    destruct (TokenType.eqb _ _).
    + apply IH; [lia|assumption].
    + apply IH; [lia|]. apply Forall_app. split; [assumption|].
      repeat constructor. lia.
Qed.

End LexerLines.

(** The tokens of [tokenize] are on lines counted from 1. *)
Lemma tokenize_lines (source : string) (tokens : list Token.t)
    (s : Lexer.state) :
  Lexer.tokenize source = Ok tokens s -> lines_from_one tokens.
Proof.
  unfold Lexer.tokenize. intros H.
  pose proof (tokenize_loop_lines source (Lexer.tokenize_fuel source) []
                (Lexer.mkState 0 1 1)) as X.
  rewrite H in X. apply X; [cbn; lia|constructor].
Qed.

(** * The language server *)

(** ** The document store *)

Lemma unshared_empty : unshared DocumentStore.empty.
Proof. split; cbn; intros *; rewrite lookup_empty; discriminate. Qed.

Lemma unshared_handleRequest message st :
  unshared st -> unshared (LSPServer.handleRequest message st).
Proof.
  intros [Hinj Hheap]. destruct message as [item|uri version changes|uri];
    unfold LSPServer.handleRequest.
  - unfold NoteGLanguageServer.openDocument, DocumentStore.open,
      LSPServer.new_ref.
    cbn [DocumentStore.heap DocumentStore.documents].
    set (r := fresh (dom (DocumentStore.heap st))).
    assert (Hr : DocumentStore.heap st !! r = None).
    { apply not_elem_of_dom. apply is_fresh. }
    rewrite lookup_insert_eq.
    assert (Hnot : forall u, DocumentStore.documents st !! u <> Some r).
    { intros u Hu. apply Hheap in Hu as [x Hx]. congruence. }
    split; cbn [DocumentStore.heap DocumentStore.documents].
    + intros u1 u2 d. rewrite !lookup_insert.
      repeat case_decide; intros; simplify_eq; eauto;
        exfalso; eapply Hnot; eassumption.
    + intros u d. rewrite lookup_insert. case_decide; intros; simplify_eq.
      * rewrite lookup_insert_eq. eauto.
      * rewrite lookup_insert_ne; [eauto|]. intros <-. eapply Hnot; eassumption.
  - destruct changes as [|text changes]; [split; assumption|].
    unfold NoteGLanguageServer.updateDocument, DocumentStore.update.
    destruct (DocumentStore.documents st !! uri) as [r|] eqn:Hu;
      [|split; assumption].
    destruct (DocumentStore.heap st !! r) as [item|] eqn:Hr;
      [|split; assumption].
    split; cbn [DocumentStore.heap DocumentStore.documents]; [assumption|].
    intros u d Hd. rewrite lookup_insert. case_decide; [eauto|].
    eapply Hheap; eassumption.
  - unfold NoteGLanguageServer.closeDocument, DocumentStore.close.
    split; cbn [DocumentStore.heap DocumentStore.documents].
    + intros u1 u2 d. rewrite !lookup_delete.
      repeat case_decide; try discriminate. apply Hinj.
    + intros u d. rewrite lookup_delete. case_decide; [discriminate|].
      apply Hheap.
Qed.

Lemma reachable_unshared st : LSPServer.reachable st -> unshared st.
Proof.
  intros [messages ->]. unfold LSPServer.run.
  generalize unshared_empty. generalize DocumentStore.empty.
  induction messages as [|m messages IH]; intros st H; cbn; [assumption|].
  apply IH. now apply unshared_handleRequest.
Qed.

(** C6: in every store that the server can reach from the empty one,
    [update] on a URI that is present replaces the text and the
    version of that document, keeps its URI and language, keeps the
    set of URIs, and leaves the document of every other URI as it was;
    on a URI that is absent the store is unchanged. *)
Theorem update_frame (st : DocumentStore.t) (uri text : string) (version : Z) :
  LSPServer.reachable st ->
  (forall doc,
      DocumentStore.get uri st = Some doc ->
      DocumentStore.get uri (DocumentStore.update uri text version st)
      = Some (TextDocumentItem.mk (TextDocumentItem.uri doc)
                (TextDocumentItem.languageId doc) version text)
      /\ DocumentStore.documents (DocumentStore.update uri text version st)
         = DocumentStore.documents st
      /\ forall uri',
           uri' <> uri ->
           DocumentStore.get uri' (DocumentStore.update uri text version st)
           = DocumentStore.get uri' st)
  /\ (DocumentStore.documents st !! uri = None ->
      DocumentStore.update uri text version st = st).
Proof.
  intros Hreach. apply reachable_unshared in Hreach as [Hinj Hheap]. split.
  - intros doc. unfold DocumentStore.get, DocumentStore.update.
    destruct (DocumentStore.documents st !! uri) as [r|] eqn:Hu; [|discriminate].
    intros Hr. rewrite Hr. cbn [DocumentStore.heap DocumentStore.documents].
    rewrite Hu. rewrite lookup_insert_eq.
    split; [reflexivity|]. split; [reflexivity|].
    intros uri' Hne.
    destruct (DocumentStore.documents st !! uri') as [r'|] eqn:Hu';
      [|reflexivity].
    rewrite lookup_insert_ne; [reflexivity|].
    intros <-. apply Hne. eapply Hinj; eassumption.
  - intros Hu. unfold DocumentStore.update. now rewrite Hu.
Qed.

Lemma update_frame_witness :
  DocumentStore.get "file:///a.noteg"
    (DocumentStore.update "file:///a.noteg" "let x = 2" 2 two_documents)
  = Some (TextDocumentItem.mk "file:///a.noteg" "noteg" 2 "let x = 2")
  /\ DocumentStore.get "file:///b.noteg"
       (DocumentStore.update "file:///a.noteg" "let x = 2" 2 two_documents)
     = Some (TextDocumentItem.mk "file:///b.noteg" "noteg" 1 "let y = 2")
  /\ DocumentStore.update "file:///c.noteg" "let x = 2" 2 two_documents
     = two_documents.
Proof.
  assert (Hreach : LSPServer.reachable two_documents) by (eexists; reflexivity).
  pose proof (update_frame two_documents "file:///a.noteg" "let x = 2" 2 Hreach)
    as [Ha _].
  pose proof (update_frame two_documents "file:///c.noteg" "let x = 2" 2 Hreach)
    as [_ Hc].
  specialize (Ha (TextDocumentItem.mk "file:///a.noteg" "noteg" 1 "let x = 1")
                ltac:(vm_compute; reflexivity)) as (Ha1 & _ & Ha2).
  split; [exact Ha1|]. split.
  - rewrite Ha2 by discriminate. vm_compute. reflexivity.
  - apply Hc. vm_compute. reflexivity.
Defined.

(** ** Diagnostics *)

(** [analyze] returns: whatever the scanner and the parser do is caught. *)
Lemma analyze_returns (uri : string) (st : DocumentStore.t) :
  exists diagnostics,
    NoteGLanguageServer.analyze uri st = Ok diagnostics st.
Proof.
  unfold NoteGLanguageServer.analyze.
  destruct (DocumentStore.get uri st) as [doc|]; [|eauto].
  destruct (tokenize_total (TextDocumentItem.text doc)) as (tokens & s & -> & _).
  pose proof (parse_not_out_of_fuel tokens) as Hfuel.
  destruct (Parser.parse tokens); [eauto|eauto|congruence].
Qed.

(** C2: for a document of the store, [analyze] returns (no error
    escapes it, and the store is unchanged); when the parser throws on
    the document's tokens, the result is the scanner's diagnostics
    followed by exactly one diagnostic of severity 1 with the error's
    message, from column 0 to column 100 of the line that the message
    names after [at line] (less one), or of line 0 when it names
    none.  That line is the line of the token at which [consume]
    failed, counted from 0, and it is line 0 when [primary] raised the
    error. *)
Theorem analyze_parse_failure (uri : string) (st : DocumentStore.t)
    (doc : TextDocumentItem.t) :
  DocumentStore.get uri st = Some doc ->
  (exists tokens s,
      Lexer.tokenize (TextDocumentItem.text doc) = Ok tokens s /\
      forall error,
        Parser.parse tokens = Throw error ->
        let line :=
          match match_at_line (exn_message error) with
          | Some n => (n - 1)%Z
          | None => 0%Z
          end in
        NoteGLanguageServer.analyze uri st
        = Ok (NoteGLanguageServer.lexer_diagnostics tokens ++
              [ Diagnostic.mk
                  (Range.mk (Position.mk line 0) (Position.mk line 100))
                  (exn_message error) 1 "noteg" ])
             st
        /\ exists q t,
             tokens !! q = Some t /\
             (consume_error t error /\ line = (Token.line t - 1)%Z
              \/ primary_error t error /\ line = 0%Z))
  /\ exists diagnostics,
       NoteGLanguageServer.analyze uri st = Ok diagnostics st.
Proof.
  intros Hdoc. split; [|apply analyze_returns].
  destruct (tokenize_total (TextDocumentItem.text doc))
    as (tokens & s & Htok & Heof).
  exists tokens, s. split; [assumption|].
  intros error Hparse line. split.
  - unfold NoteGLanguageServer.analyze.
    rewrite Hdoc, Htok, Hparse. reflexivity.
  - pose proof (tokenize_lines _ _ _ Htok) as Hlines.
    destruct (parser_error_line tokens error (parse_throws _ _ Heof Hparse))
      as (q & t & Ht & H).
    exists q, t. split; [assumption|]. subst line.
    pose proof (Forall_lookup_1 _ _ _ _ Hlines Ht) as Hline. cbv beta in Hline.
    destruct H as [[Hc ->]|[Hp ->]]; [left|right]; (split; [assumption|]).
    + destruct (Z.leb_spec 0 (Token.line t)); [reflexivity|lia].
    + reflexivity.
Qed.

Lemma analyze_parse_failure_witness :
  NoteGLanguageServer.analyze "file:///a.noteg" broken_document
  = Ok [ Diagnostic.mk (Range.mk (Position.mk 2 8) (Position.mk 2 9))
           "Unexpected character: @" 1 "noteg";
         Diagnostic.mk (Range.mk (Position.mk 2 0) (Position.mk 2 100))
           "Expected variable name at line 3" 1 "noteg" ]
       broken_document.
Proof.
  pose proof (analyze_parse_failure "file:///a.noteg" broken_document
                (TextDocumentItem.mk "file:///a.noteg" "noteg" 1
                   (String.concat (String Lexer.newline EmptyString)
                      ["let x = 1"; "let y = 2"; "let = 3 @"]))
                ltac:(vm_compute; reflexivity)) as [(tokens & s & Htok & H) _].
  vm_compute in Htok. injection Htok as <- <-.
  rewrite (proj1 (H (Error "Expected variable name at line 3")
                    ltac:(vm_compute; reflexivity))).
  vm_compute. reflexivity.
Defined.

(** ** Completion and hover *)

(** C8: for every URI, position and store, [getCompletions] is the
    same list: the twelve keywords (kind 14) followed by the builtin
    functions [print] and [len] (kind 3). *)
Theorem getCompletions_fixed (uri : string) (position : Position.t)
    (st : DocumentStore.t) :
  NoteGLanguageServer.getCompletions uri position st
  = [ CompletionItem.mk "let" 14 (Some "Variable declaration") None;
      CompletionItem.mk "fn" 14 (Some "Function definition") None;
      CompletionItem.mk "if" 14 (Some "Conditional statement") None;
      CompletionItem.mk "else" 14 (Some "Else branch") None;
      CompletionItem.mk "for" 14 (Some "For loop") None;
      CompletionItem.mk "while" 14 (Some "While loop") None;
      CompletionItem.mk "return" 14 (Some "Return statement") None;
      CompletionItem.mk "true" 14 (Some "Boolean true") None;
      CompletionItem.mk "false" 14 (Some "Boolean false") None;
      CompletionItem.mk "and" 14 (Some "Logical AND") None;
      CompletionItem.mk "or" 14 (Some "Logical OR") None;
      CompletionItem.mk "not" 14 (Some "Logical NOT") None;
      CompletionItem.mk "print" 3 (Some "Print to console")
        (Some "print(value) - Outputs value to console");
      CompletionItem.mk "len" 3 (Some "Get length")
        (Some "len(array|string) - Returns the length") ]
  /\ map CompletionItem.label
       (NoteGLanguageServer.getCompletions uri position st)
     = [ "let"; "fn"; "if"; "else"; "for"; "while"; "return"; "true";
         "false"; "and"; "or"; "not"; "print"; "len" ].
Proof. split; reflexivity. Qed.

(** C10: for a URI that the store does not hold, [analyze] returns
    the empty list of diagnostics and [getHover] returns [null];
    neither throws. *)
Theorem unknown_document (uri : string) (position : Position.t)
    (st : DocumentStore.t) :
  DocumentStore.documents st !! uri = None ->
  NoteGLanguageServer.analyze uri st = Ok [] st
  /\ NoteGLanguageServer.getHover uri position st = NoteGLanguageServer.HoverNull.
Proof.
  intros Hnone.
  unfold NoteGLanguageServer.analyze, NoteGLanguageServer.getHover,
    DocumentStore.get.
  rewrite Hnone. split; reflexivity.
Qed.

Lemma unknown_document_witness :
  NoteGLanguageServer.analyze "file:///b.noteg" broken_document
  = Ok [] broken_document
  /\ NoteGLanguageServer.getHover "file:///b.noteg" (Position.mk 0 2)
       broken_document
     = NoteGLanguageServer.HoverNull.
Proof.
  apply (unknown_document "file:///b.noteg" (Position.mk 0 2) broken_document).
  vm_compute. reflexivity.
Defined.

(** ** Errors without a line *)

(** C3: not every error of the parser carries a line.  The source
    [let x = 1] / [let y = )] fails at the closing parenthesis on line
    2 with the message [Unexpected token: RPAREN], in which the
    language server finds no line, so that it reports the error on its
    first line (line 0).  In general the message of [primary] holds no
    line for any type of token, and on every token array that ends
    with the end-of-input token an error of [parse] is either the
    message of a failed [consume] followed by the line of the token it
    failed at, or the message of [primary], without a line. *)
Theorem primary_error_has_no_line :
  (let source :=
     String.concat (String Lexer.newline EmptyString)
       ["let x = 1"; "let y = )"] in
   parse_source source = Throw (Error "Unexpected token: RPAREN")
   /\ match_at_line "Unexpected token: RPAREN" = None
   /\ (exists tokens s t,
         Lexer.tokenize source = Ok tokens s /\
         tokens !! 7 = Some t /\
         Token.type t = TokenType.RPAREN /\ Token.line t = 2%Z)
   /\ (let st :=
         LSPServer.run
           [LSPServer.DidOpen
              (TextDocumentItem.mk "file:///a.noteg" "noteg" 1 source)] in
       NoteGLanguageServer.analyze "file:///a.noteg" st
       = Ok [ Diagnostic.mk (Range.mk (Position.mk 0 0) (Position.mk 0 100))
                "Unexpected token: RPAREN" 1 "noteg" ] st))
  /\ (forall type,
        match_at_line ("Unexpected token: " +:+ TokenType.to_string type)
        = None)
  /\ (forall tokens e,
        ends_with_eof tokens ->
        Parser.parse tokens = Throw e ->
        exists q t,
          tokens !! q = Some t /\
          (consume_error t e /\
           match_at_line (exn_message e)
           = (if (0 <=? Token.line t)%Z then Some (Token.line t) else None)
           \/ primary_error t e /\ match_at_line (exn_message e) = None)).
Proof.
  split; [|split].
  - intros source. split; [vm_compute; reflexivity|].
    split; [vm_compute; reflexivity|]. split.
    + do 3 eexists. split; [vm_compute; reflexivity|].
      split; [reflexivity|]. split; reflexivity.
    + vm_compute. reflexivity.
  - apply match_at_line_primary.
  - intros tokens e Heof Hparse.
    now apply parser_error_line, parse_throws.
Qed.

(** * The transport loop *)

(** C4: what [runStdio] dispatches depends on where the chunks are
    cut.  The frame is the header [Content-Length: 15] and the 15
    bytes of the JSON object with the one member [method], whose value
    is the letter e with an acute accent (the two bytes 195 169;
    34 is the double quote).  In one chunk the payload decodes to 14
    code units, one fewer than declared, and nothing is dispatched;
    cut between the two bytes of the letter, each half decodes to
    U+FFFD and the payload with the two replacement characters is
    dispatched.  Two such frames in one chunk: the first payload is
    dispatched with the first unit of the next header, and the rest
    stays in the buffer. *)
Theorem runStdio_depends_on_chunks :
  let header :=
    Transport.units "Content-Length: 15" ++ Transport.header_separator in
  let first := [123; 34]%N ++ Transport.units "method" ++ [34; 58; 34; 195]%N in
  let second := [169; 34; 125]%N in
  let decoded :=
    [123; 34]%N ++ Transport.units "method" ++ [34; 58; 34; 233; 34; 125]%N in
  Transport.runStdio [header ++ first ++ second] = Ok [] (header ++ decoded)
  /\ Transport.runStdio [header ++ first; second]
     = Ok [ [123; 34]%N ++ Transport.units "method"
            ++ [34; 58; 34; 65533; 65533; 34; 125]%N ] []
  /\ Transport.runStdio [header ++ first ++ second ++ header ++ first ++ second]
     = Ok [ decoded ++ Transport.units "C" ]
          (Transport.units "ontent-Length: 15" ++ Transport.header_separator
           ++ decoded).
Proof.
  intros header first second decoded.
  repeat split; vm_compute; reflexivity.
Qed.

(** ** The parser reads forward

    From position [p] on, the parser reads the tokens at [p] and after
    it, and none before: two arrays that agree from [q] on are parsed
    alike from every position [p >= q]. *)

Lemma bind_agree {S A B} (m m' : M S A) (k k' : A -> M S B) (s : S) :
  m' s = m s ->
  (forall a s1, m s = Ok a s1 -> k' a s1 = k a s1) ->
  bind m' k' s = bind m k s.
Proof.
  intros Hm Hk. unfold bind. rewrite Hm.
  destruct (m s) as [a s1| |]; auto.
Qed.

Lemma strict_mono tokens rank f n p a p1 :
  strict tokens rank f n -> f n p = Ok a p1 -> p < p1.
Proof.
  intros H E. specialize (H p). rewrite E in H. apply H.
Qed.

Lemma strict_unless_eof_mono tokens rank f n p a p1 :
  strict_unless_eof tokens rank f n -> f n p = Ok a p1 -> p <= p1.
Proof.
  intros H E. specialize (H p). rewrite E in H. apply H.
Qed.

Lemma strict_consuming tokens rank f n p :
  strict tokens rank f n -> consuming tokens p False (f n).
Proof.
  intros H r Hr. eapply outcome_weaken; [apply H|auto|auto|tauto].
Qed.

Section Forward.
Variables tokens tokens' : list Token.t.
Variable q : nat.
Hypothesis Hagree : forall i, q <= i -> tokens' !! i = tokens !! i.

Lemma isAtEnd_agree p :
  q <= p -> Parser.isAtEnd tokens' p = Parser.isAtEnd tokens p.
Proof.
  intros Hp. unfold Parser.isAtEnd, Parser.peek, bind.
  now rewrite Hagree by assumption.
Qed.

Lemma check_agree type p :
  q <= p -> Parser.check tokens' type p = Parser.check tokens type p.
Proof.
  intros Hp. unfold Parser.check. apply bind_agree.
  - now apply isAtEnd_agree.
  - intros e p1. destruct (isAtEndP tokens p); intros; simplify_eq;
      [reflexivity|].
    apply bind_agree; [|reflexivity].
    unfold Parser.peek. now rewrite Hagree by assumption.
Qed.

(** [advance] returns the previous token, which may lie before [q];
    where its value is dropped the two arrays do the same. *)
Lemma advance_bind_agree {B} (k k' : Parser.P B) p :
  q <= p ->
  (forall p1, p <= p1 -> k' p1 = k p1) ->
  bind (Parser.advance tokens') (fun _ => k') p
  = bind (Parser.advance tokens) (fun _ => k) p.
Proof.
  intros Hp Hk. unfold Parser.advance.
  unfold bind at 1 4. unfold bind at 1 3.
  rewrite (isAtEnd_agree p Hp).
  destruct (isAtEndP tokens p); cbv beta iota; unfold ret, Parser.previous,
    bind; auto.
Qed.

Lemma advance_agree p t :
  q <= p -> tokens !! p = Some t -> Token.type t <> TokenType.EOF ->
  Parser.advance tokens' p = Parser.advance tokens p.
Proof.
  intros Hp Ht Hne. unfold Parser.advance. apply bind_agree.
  - now apply isAtEnd_agree.
  - intros e p1. destruct (isAtEndP tokens p); intros; simplify_eq.
    unfold bind, Parser.previous; cbv beta iota.
    now rewrite Hagree by assumption.
Qed.

Lemma consume_agree type message p :
  q <= p ->
  Parser.consume tokens' type message p
  = Parser.consume tokens type message p.
Proof.
  intros Hp. unfold Parser.consume. apply bind_agree.
  - now apply check_agree.
  - intros c p1. destruct (checkP tokens type p); intros; simplify_eq.
    + eapply advance_agree; eassumption.
    + unfold Parser.peek, bind; cbv beta. now rewrite Hagree by assumption.
Qed.

Lemma consume_value_agree type message p :
  q <= p ->
  Parser.consume_value tokens' type message p
  = Parser.consume_value tokens type message p.
Proof.
  intros Hp. unfold Parser.consume_value. apply bind_agree.
  - now apply consume_agree.
  - reflexivity.
Qed.

Lemma match_agree types p :
  q <= p -> Parser.match_ tokens' types p = Parser.match_ tokens types p.
Proof.
  intros Hp. induction types as [|type types IH]; [reflexivity|].
  cbn [Parser.match_]. apply bind_agree.
  - now apply check_agree.
  - intros c p1. destruct (checkP tokens type p); intros; simplify_eq.
    + apply bind_agree; [|reflexivity]. eapply advance_agree; eassumption.
    + exact IH.
Qed.

Lemma previous_value_agree p :
  q <= p ->
  Parser.previous_value tokens' (S p) = Parser.previous_value tokens (S p).
Proof.
  intros Hp. unfold Parser.previous_value, Parser.previous, bind.
  now rewrite Hagree by assumption.
Qed.

Lemma peek_agree p :
  q <= p -> Parser.peek tokens' p = Parser.peek tokens p.
Proof. intros Hp. unfold Parser.peek. now rewrite Hagree by assumption. Qed.

Lemma match_forward types p b p1 :
  Parser.match_ tokens types p = Ok b p1 -> p <= p1.
Proof.
  destruct types as [|type types].
  - cbn. unfold ret. intros [= <- <-]. lia.
  - destruct (matchP tokens (type :: types) p ltac:(discriminate));
      intros; simplify_eq; lia.
Qed.

Lemma do_while_comma_agree {A} (elem' elem : Parser.P A) :
  forward elem ->
  forall k xs p,
    q <= p -> alike p elem' elem ->
    Parser.do_while_comma tokens' elem' k xs p
    = Parser.do_while_comma tokens elem k xs p.
Proof.
  intros Hfw. induction k as [|k IH]; intros xs p Hp Hal; [reflexivity|].
  cbn [Parser.do_while_comma]. apply bind_agree; [now apply Hal|].
  intros x p1 Hx. apply Hfw in Hx as Hp1.
  apply bind_agree; [apply match_agree; lia|].
  intros [] p2 Hm; [|reflexivity]. apply match_forward in Hm.
  apply IH; [lia|]. intros r Hr. apply Hal. lia.
Qed.

Lemma do_while_comma_forward {A} (elem : Parser.P A) :
  forward elem -> forall k xs, forward (Parser.do_while_comma tokens elem k xs).
Proof.
  intros Hfw. induction k as [|k IH]; intros xs p a p'; [discriminate|].
  cbn [Parser.do_while_comma]. unfold bind at 1.
  destruct (elem p) as [x p1| |] eqn:Hx; [|discriminate..].
  apply Hfw in Hx. unfold bind at 1.
  destruct (Parser.match_ tokens [TokenType.COMMA] p1) as [[] p2| |] eqn:Hm;
    [| |discriminate..]; apply match_forward in Hm.
  - intros Hk. apply IH in Hk. lia.
  - unfold ret. intros [= <- <-]. lia.
Qed.

Lemma comma_list_agree {A} close (elem' elem : Parser.P A) k p :
  forward elem -> q <= p -> alike p elem' elem ->
  Parser.comma_list tokens' close elem' k p
  = Parser.comma_list tokens close elem k p.
Proof.
  intros Hfw Hp Hal. unfold Parser.comma_list. apply bind_agree.
  - now apply check_agree.
  - intros c p1. destruct (checkP tokens close p); intros; simplify_eq;
      cbn [negb]; cbv iota; [reflexivity|].
    now apply do_while_comma_agree.
Qed.

Lemma comma_list_forward {A} close (elem : Parser.P A) k :
  forward elem -> forward (Parser.comma_list tokens close elem k).
Proof.
  intros Hfw p a p'. unfold Parser.comma_list, bind.
  destruct (checkP tokens close p); cbn [negb]; cbv iota; try discriminate.
  - unfold ret. intros [= <- <-]. lia.
  - apply do_while_comma_forward, Hfw.
Qed.

Lemma binary_loop_agree types (operator' operator : Parser.P string)
    (operand' operand : Parser.P ASTNode) :
  (forall p, q <= p -> operator' (S p) = operator (S p)) ->
  (forall p v p1, operator p = Ok v p1 -> p1 = p) ->
  forward operand ->
  forall k left p,
    q <= p -> alike p operand' operand ->
    Parser.binary_loop tokens' types operator' operand' k left p
    = Parser.binary_loop tokens types operator operand k left p.
Proof.
  intros Hop Hstay Hfw. induction k as [|k IH]; intros left p Hp Hal;
    [reflexivity|].
  cbn [Parser.binary_loop]. apply bind_agree; [now apply match_agree|].
  intros m p1 Hm.
  destruct types as [|type types].
  { cbn in Hm. unfold ret in Hm. simplify_eq. reflexivity. }
  revert Hm.
  destruct (matchP tokens (type :: types) p ltac:(discriminate));
    intros Hm; simplify_eq; [|reflexivity].
  apply bind_agree; [now apply Hop|].
  intros op p2 Ho. apply Hstay in Ho as ->.
  apply bind_agree; [apply Hal; lia|].
  intros right p3 Hr. apply Hfw in Hr.
  apply IH; [lia|]. intros r Hr'. apply Hal. lia.
Qed.

Lemma call_loop_agree (expression' expression : Parser.P ASTNode) :
  forward expression ->
  forall k expr p,
    q <= p -> alike p expression' expression ->
    Parser.call_loop tokens' expression' k expr p
    = Parser.call_loop tokens expression k expr p.
Proof.
  intros Hfw. induction k as [|k IH]; intros expr p Hp Hal; [reflexivity|].
  cbn [Parser.call_loop]. apply bind_agree; [now apply match_agree|].
  intros m p1 Hm. apply match_forward in Hm as Hp1.
  destruct m; [|reflexivity].
  apply bind_agree.
  { apply comma_list_agree; [assumption|lia|].
    intros r Hr. apply Hal. lia. }
  intros args p2 Hargs. apply comma_list_forward in Hargs; [|assumption].
  apply bind_agree; [apply consume_agree; lia|].
  intros t p3.
  destruct (consumeP tokens TokenType.RPAREN
              "Expected ')' after arguments" p2); intros; simplify_eq.
  apply IH; [lia|]. intros r Hr. apply Hal. lia.
Qed.

Lemma block_loop_agree (declaration' declaration : Parser.P ASTNode) :
  forward declaration ->
  forall k statements p,
    q <= p -> alike p declaration' declaration ->
    Parser.block_loop tokens' declaration' k statements p
    = Parser.block_loop tokens declaration k statements p.
Proof.
  intros Hfw. induction k as [|k IH]; intros statements p Hp Hal;
    [reflexivity|].
  cbn [Parser.block_loop]. apply bind_agree; [now apply check_agree|].
  intros c r Hc.
  assert (r = p) as ->.
  { revert Hc. destruct (checkP tokens TokenType.RBRACE p); congruence. }
  destruct c; cbn [negb andb]; cbv iota; [reflexivity|].
  apply bind_agree; [now apply isAtEnd_agree|].
  intros e r He.
  assert (r = p) as ->.
  { revert He. destruct (isAtEndP tokens p); congruence. }
  destruct e; cbn [negb andb]; cbv iota; [reflexivity|].
  apply bind_agree; [now apply Hal|].
  intros stmt r Hs. apply Hfw in Hs.
  apply IH; [lia|]. intros r' Hr. apply Hal. lia.
Qed.

Lemma block_loop_forward (declaration : Parser.P ASTNode) :
  forward declaration ->
  forall k statements, forward (Parser.block_loop tokens declaration k statements).
Proof.
  intros Hfw. induction k as [|k IH]; intros statements p a p';
    [discriminate|].
  cbn [Parser.block_loop]. unfold bind at 1.
  destruct (checkP tokens TokenType.RBRACE p); cbn [negb andb]; cbv iota;
    try discriminate.
  { unfold bind, ret. intros [= <- <-]. lia. }
  unfold bind at 1.
  destruct (isAtEndP tokens p); cbn [negb andb]; cbv iota; try discriminate.
  { unfold ret. intros [= <- <-]. lia. }
  unfold bind at 1.
  destruct (declaration p) as [stmt p1| |] eqn:Hs; [|discriminate..].
  apply Hfw in Hs. intros Hk. apply IH in Hk. lia.
Qed.

End Forward.

(** Each method moves forward. *)
Section MethodsForward.
Variable tokens : list Token.t.

Lemma forward_of_strict rank f n :
  strict tokens rank f n -> forward (f n).
Proof. intros H p a p1 E. eapply strict_mono in E; [lia|eassumption]. Qed.

Lemma forward_of_strict_unless_eof rank f n :
  strict_unless_eof tokens rank f n -> forward (f n).
Proof.
  intros H p a p1 E. eapply strict_unless_eof_mono in E; eassumption.
Qed.

Lemma primary_forward n : forward (Parser.primary tokens n).
Proof.
  eapply forward_of_strict, (pr_primary _ _ (progress_all tokens n)).
Qed.

Lemma call_forward n : forward (Parser.call tokens n).
Proof.
  eapply forward_of_strict, (pr_call _ _ (progress_all tokens n)).
Qed.

Lemma unary_forward n : forward (Parser.unary tokens n).
Proof.
  eapply forward_of_strict, (pr_unary _ _ (progress_all tokens n)).
Qed.

Lemma factor_forward n : forward (Parser.factor tokens n).
Proof.
  eapply forward_of_strict, (pr_factor _ _ (progress_all tokens n)).
Qed.

Lemma term_forward n : forward (Parser.term tokens n).
Proof.
  eapply forward_of_strict, (pr_term _ _ (progress_all tokens n)).
Qed.

Lemma comparison_forward n : forward (Parser.comparison tokens n).
Proof.
  eapply forward_of_strict, (pr_comparison _ _ (progress_all tokens n)).
Qed.

Lemma equality_forward n : forward (Parser.equality tokens n).
Proof.
  eapply forward_of_strict, (pr_equality _ _ (progress_all tokens n)).
Qed.

Lemma and_forward n : forward (Parser.and tokens n).
Proof.
  eapply forward_of_strict, (pr_and _ _ (progress_all tokens n)).
Qed.

Lemma or_forward n : forward (Parser.or tokens n).
Proof.
  eapply forward_of_strict, (pr_or _ _ (progress_all tokens n)).
Qed.

Lemma expression_forward n : forward (Parser.expression tokens n).
Proof.
  eapply forward_of_strict, (pr_expression _ _ (progress_all tokens n)).
Qed.

Lemma block_forward n : forward (Parser.block tokens n).
Proof.
  eapply forward_of_strict, (pr_block _ _ (progress_all tokens n)).
Qed.

Lemma returnStatement_forward n : forward (Parser.returnStatement tokens n).
Proof.
  eapply forward_of_strict_unless_eof, (pr_returnStatement _ _ (progress_all tokens n)).
Qed.

Lemma whileStatement_forward n : forward (Parser.whileStatement tokens n).
Proof.
  eapply forward_of_strict, (pr_whileStatement _ _ (progress_all tokens n)).
Qed.

Lemma forStatement_forward n : forward (Parser.forStatement tokens n).
Proof.
  eapply forward_of_strict, (pr_forStatement _ _ (progress_all tokens n)).
Qed.

Lemma ifStatement_forward n : forward (Parser.ifStatement tokens n).
Proof.
  eapply forward_of_strict, (pr_ifStatement _ _ (progress_all tokens n)).
Qed.

Lemma statement_forward n : forward (Parser.statement tokens n).
Proof.
  eapply forward_of_strict, (pr_statement _ _ (progress_all tokens n)).
Qed.

Lemma functionDeclaration_forward n : forward (Parser.functionDeclaration tokens n).
Proof.
  eapply forward_of_strict, (pr_functionDeclaration _ _ (progress_all tokens n)).
Qed.

Lemma letDeclaration_forward n : forward (Parser.letDeclaration tokens n).
Proof.
  eapply forward_of_strict, (pr_letDeclaration _ _ (progress_all tokens n)).
Qed.

Lemma declaration_forward n : forward (Parser.declaration tokens n).
Proof.
  eapply forward_of_strict, (pr_declaration _ _ (progress_all tokens n)).
Qed.

Lemma consume_value_forward type message :
  forward (Parser.consume_value tokens type message).
Proof.
  intros p v p1. destruct (consume_valueP tokens type message p);
    intros; simplify_eq. lia.
Qed.

Lemma previous_value_stays p v p1 :
  Parser.previous_value tokens p = Ok v p1 -> p1 = p.
Proof.
  unfold Parser.previous_value, Parser.previous, Parser.prop, bind, ret, throw.
  destruct p as [|i]; [discriminate|].
  destruct (tokens !! i); [|discriminate]. now intros [= _ <-].
Qed.

End MethodsForward.

Create HintDb forward.

#[local] Hint Resolve primary_forward call_forward unary_forward factor_forward
  term_forward comparison_forward equality_forward and_forward or_forward
  expression_forward block_forward returnStatement_forward
  whileStatement_forward forStatement_forward ifStatement_forward
  statement_forward functionDeclaration_forward letDeclaration_forward
  declaration_forward consume_value_forward : forward.

Section MethodsAlike.
Variables tokens tokens' : list Token.t.
Variable q : nat.
#[local] Abbreviation reads_forward := (reads_forward tokens tokens' q).
Hypothesis Hagree : forall i, q <= i -> tokens' !! i = tokens !! i.

Ltac position_is :=
  match goal with
  | H : Parser.check ?ts ?ty ?p = Ok _ ?r |- _ =>
      assert (r = p) as -> by
        (revert H; destruct (checkP ts ty p); congruence);
      clear H
  | H : Parser.isAtEnd ?ts ?p = Ok _ ?r |- _ =>
      assert (r = p) as -> by
        (revert H; destruct (isAtEndP ts p); congruence);
      clear H
  end.

Ltac alike_from H :=
  let r := fresh "r" in
  let Hr := fresh "Hr" in
  intros r Hr; apply H; lia.

Ltac agree_step :=
  lazymatch goal with
  | |- ret _ _ = ret _ _ => reflexivity
  | |- throw _ _ = throw _ _ => reflexivity
  | |- out_of_fuel _ = out_of_fuel _ => reflexivity
  | |- bind (Parser.advance _) (fun _ => _) _ = _ =>
      apply (advance_bind_agree _ _ q Hagree); [lia|intros ? ?]
  | |- bind (Parser.check _ ?ty) _ ?p = _ =>
      apply bind_agree;
      [ apply (check_agree _ _ q Hagree); lia
      | let c := fresh "c" in
        intros c ? ?; position_is; destruct c;
        cbn [negb andb]; cbv iota ]
  | |- bind (Parser.isAtEnd _) _ ?p = _ =>
      apply bind_agree;
      [ apply (isAtEnd_agree _ _ q Hagree); lia
      | let c := fresh "c" in
        intros c ? ?; position_is; destruct c;
        cbn [negb andb]; cbv iota ]
  | |- bind (ret _) _ _ = bind (ret _) _ _ =>
      apply bind_agree; [reflexivity|];
      let H := fresh in
      intros ? ? H; unfold ret in H; injection H as <- <-;
      cbn [negb andb]; cbv iota
  | |- bind (Parser.match_ _ ?tys) _ ?p = bind (Parser.match_ ?ts _) _ _ =>
      apply bind_agree;
      [ apply (match_agree _ _ q Hagree); lia
      | let H := fresh in
        intros ? ? H; revert H;
        destruct (matchP ts tys p ltac:(discriminate));
        intros ?; simplify_eq; cbv iota ]
  | |- bind (Parser.previous_value _) _ (S ?p) = _ =>
      apply bind_agree;
      [ apply (previous_value_agree _ _ q Hagree); lia
      | let H := fresh in
        intros ? ? H; apply previous_value_stays in H as -> ]
  | |- bind (Parser.consume_value _ ?ty ?m) _ ?p
       = bind (Parser.consume_value ?ts _ _) _ _ =>
      apply bind_agree;
      [ apply (consume_value_agree _ _ q Hagree); lia
      | let H := fresh in
        intros ? ? H; revert H; destruct (consume_valueP ts ty m p);
        intros ?; simplify_eq ]
  | |- bind (Parser.consume _ ?ty ?m) _ ?p
       = bind (Parser.consume ?ts _ _) _ _ =>
      apply bind_agree;
      [ apply (consume_agree _ _ q Hagree); lia
      | let H := fresh in
        intros ? ? H; revert H; destruct (consumeP ts ty m p);
        intros ?; simplify_eq ]
  | |- bind (Parser.peek _) _ _ = _ =>
      apply bind_agree;
      [ apply (peek_agree _ _ q Hagree); lia | intros; reflexivity ]
  | |- bind (Parser.comma_list _ _ _ _) _ _ = _ =>
      apply bind_agree;
      [ apply (comma_list_agree _ _ q Hagree);
        [ auto with forward | lia
        | first [ intros ? ?; apply (consume_value_agree _ _ q Hagree); lia
                | match goal with
                  | H : alike _ ?f _ |- alike _ ?f _ => alike_from H
                  end ] ]
      | let H := fresh in
        intros ? ? H; apply comma_list_forward in H;
        [|auto with forward] ]
  | |- bind (Parser.block_loop _ _ _ _) _ _ = _ =>
      apply bind_agree;
      [ apply (block_loop_agree _ _ q Hagree);
        [ auto with forward | lia
        | match goal with
          | H : alike _ ?f _ |- alike _ ?f _ => alike_from H
          end ]
      | let H := fresh in
        intros ? ? H; apply block_loop_forward in H;
        [|auto with forward] ]
  | |- Parser.binary_loop _ _ _ _ _ _ _ = _ =>
      apply (binary_loop_agree _ _ q Hagree);
      [ first [ reflexivity
              | intros ? ?; apply (previous_value_agree _ _ q Hagree);
                assumption ]
      | first [ intros ? ? ? [= _ <-]; reflexivity
              | intros ? ? ?; apply previous_value_stays ]
      | auto with forward
      | lia
      | match goal with
        | H : alike _ ?f _ |- alike _ ?f _ => alike_from H
        end ]
  | |- Parser.call_loop _ _ _ _ _ = _ =>
      apply (call_loop_agree _ _ q Hagree);
      [ auto with forward | lia
      | match goal with
        | H : alike _ ?f _ |- alike _ ?f _ => alike_from H
        end ]
  | |- bind (bind _ _) _ _ = _ =>
      apply bind_agree; [|intros ? ? _]
  | |- bind (?f _ ?n) _ ?p = bind (?f ?ts ?n) _ ?p =>
      apply bind_agree;
      [ match goal with
        | H : alike _ (f _ n) _ |- _ => apply H; lia
        end
      | let H := fresh in
        let Hf := fresh in
        intros ? ? H;
        assert (Hf : forward (f ts n)) by auto with forward;
        apply Hf in H ]
  | |- ?f _ ?n ?p = ?f _ ?n ?p =>
      match goal with
      | H : alike _ (f _ n) _ |- _ => apply H; lia
      end
  end.

Ltac agree f :=
  intros [] p Hp; cbn [f]; repeat agree_step.

Lemma reads_forward_0 : reads_forward 0.
Proof. split; intros p Hp; reflexivity. Qed.

Lemma primary_alike n :
  reads_forward n -> alike q (Parser.primary tokens' (S n)) (Parser.primary tokens (S n)).
Proof. agree Parser.primary. Qed.

Lemma call_alike n :
  reads_forward n -> alike q (Parser.call tokens' (S n)) (Parser.call tokens (S n)).
Proof. agree Parser.call. Qed.

Lemma unary_alike n :
  reads_forward n -> alike q (Parser.unary tokens' (S n)) (Parser.unary tokens (S n)).
Proof. agree Parser.unary. Qed.

Lemma factor_alike n :
  reads_forward n -> alike q (Parser.factor tokens' (S n)) (Parser.factor tokens (S n)).
Proof. agree Parser.factor. Qed.

Lemma term_alike n :
  reads_forward n -> alike q (Parser.term tokens' (S n)) (Parser.term tokens (S n)).
Proof. agree Parser.term. Qed.

Lemma comparison_alike n :
  reads_forward n -> alike q (Parser.comparison tokens' (S n)) (Parser.comparison tokens (S n)).
Proof. agree Parser.comparison. Qed.

Lemma equality_alike n :
  reads_forward n -> alike q (Parser.equality tokens' (S n)) (Parser.equality tokens (S n)).
Proof. agree Parser.equality. Qed.

Lemma and_alike n :
  reads_forward n -> alike q (Parser.and tokens' (S n)) (Parser.and tokens (S n)).
Proof. agree Parser.and. Qed.

Lemma or_alike n :
  reads_forward n -> alike q (Parser.or tokens' (S n)) (Parser.or tokens (S n)).
Proof. agree Parser.or. Qed.

Lemma expression_alike n :
  reads_forward n -> alike q (Parser.expression tokens' (S n)) (Parser.expression tokens (S n)).
Proof. agree Parser.expression. Qed.

Lemma block_alike n :
  reads_forward n -> alike q (Parser.block tokens' (S n)) (Parser.block tokens (S n)).
Proof. agree Parser.block. Qed.

Lemma returnStatement_alike n :
  reads_forward n -> alike q (Parser.returnStatement tokens' (S n)) (Parser.returnStatement tokens (S n)).
Proof. agree Parser.returnStatement. Qed.

Lemma whileStatement_alike n :
  reads_forward n -> alike q (Parser.whileStatement tokens' (S n)) (Parser.whileStatement tokens (S n)).
Proof. agree Parser.whileStatement. Qed.

Lemma forStatement_alike n :
  reads_forward n -> alike q (Parser.forStatement tokens' (S n)) (Parser.forStatement tokens (S n)).
Proof. agree Parser.forStatement. Qed.

Lemma ifStatement_alike n :
  reads_forward n -> alike q (Parser.ifStatement tokens' (S n)) (Parser.ifStatement tokens (S n)).
Proof. agree Parser.ifStatement. Qed.

Lemma statement_alike n :
  reads_forward n -> alike q (Parser.statement tokens' (S n)) (Parser.statement tokens (S n)).
Proof. agree Parser.statement. Qed.

Lemma functionDeclaration_alike n :
  reads_forward n -> alike q (Parser.functionDeclaration tokens' (S n)) (Parser.functionDeclaration tokens (S n)).
Proof. agree Parser.functionDeclaration. Qed.

Lemma letDeclaration_alike n :
  reads_forward n -> alike q (Parser.letDeclaration tokens' (S n)) (Parser.letDeclaration tokens (S n)).
Proof. agree Parser.letDeclaration. Qed.

Lemma declaration_alike n :
  reads_forward n -> alike q (Parser.declaration tokens' (S n)) (Parser.declaration tokens (S n)).
Proof. agree Parser.declaration. Qed.

Lemma reads_forward_all n : reads_forward n.
Proof.
  induction n as [|n IH]; [apply reads_forward_0|].
  split.
  - now apply primary_alike.
  - now apply call_alike.
  - now apply unary_alike.
  - now apply factor_alike.
  - now apply term_alike.
  - now apply comparison_alike.
  - now apply equality_alike.
  - now apply and_alike.
  - now apply or_alike.
  - now apply expression_alike.
  - now apply block_alike.
  - now apply returnStatement_alike.
  - now apply whileStatement_alike.
  - now apply forStatement_alike.
  - now apply ifStatement_alike.
  - now apply statement_alike.
  - now apply functionDeclaration_alike.
  - now apply letDeclaration_alike.
  - now apply declaration_alike.
Qed.

End MethodsAlike.

(** ** The [for] statement *)

(** [forStatement] on [for], an identifier and a second identifier:
    the three tokens are consumed, the text of the third is not read,
    and the statement is built from the expression and the block that
    follow. *)
Lemma forStatement_unfold (tokens : list Token.t) (n p : nat)
    (t_for t_var t_in : Token.t) :
  tokens !! p = Some t_for -> Token.type t_for = TokenType.FOR ->
  tokens !! S p = Some t_var -> Token.type t_var = TokenType.IDENTIFIER ->
  tokens !! S (S p) = Some t_in -> Token.type t_in = TokenType.IDENTIFIER ->
  Parser.forStatement tokens (S n) p
  = (let* iterable := Parser.expression tokens n in
     let* body := Parser.block tokens n in
     ret (For (Token.value t_var) iterable body)) (S (S (S p))).
Proof.
  intros Hfor Tfor Hvar Tvar Hin Tin.
  cbn [Parser.forStatement]. unfold bind at 1.
  destruct (advanceP tokens p) as [Hn|t' v Ht' Heof|t' Ht' Hne];
    simplify_eq; [congruence|].
  unfold bind at 1.
  destruct (consume_valueP tokens TokenType.IDENTIFIER
              "Expected variable name" (S p))
    as [Hn|t' Ht' Hbad|t' Ht' Hty Hne']; simplify_eq.
  { destruct Hbad; congruence. }
  unfold bind at 1.
  destruct (consumeP tokens TokenType.IDENTIFIER "Expected 'in'" (S (S p)))
    as [Hn|t' Ht' Hbad|t' Ht' Hty' Hne'']; simplify_eq.
  { destruct Hbad; congruence. }
  reflexivity.
Qed.

(** C1: [forStatement] takes the token in the third slot, where the
    keyword [in] is expected, by its type alone.  The two sources
    [for x in items { }] and [for x yyy items { }] parse to the same
    [For] node; and for any two token arrays that differ only in that
    slot, with an identifier token there in both, [forStatement] gives
    the same result (node, error or position) from the [for] token. *)
Theorem forStatement_in_slot :
  (parse_source "for x in items { }"
   = Ok (Program [For "x" (Identifier "items") (Block [])]) 6
   /\ parse_source "for x yyy items { }"
      = Ok (Program [For "x" (Identifier "items") (Block [])]) 6)
  /\ forall (tokens tokens' : list Token.t) (n p : nat)
            (t_for t_var t_in t_in' : Token.t),
       (forall i, i <> S (S p) -> tokens' !! i = tokens !! i) ->
       tokens !! p = Some t_for -> Token.type t_for = TokenType.FOR ->
       tokens !! S p = Some t_var -> Token.type t_var = TokenType.IDENTIFIER ->
       tokens !! S (S p) = Some t_in -> Token.type t_in = TokenType.IDENTIFIER ->
       tokens' !! S (S p) = Some t_in' ->
       Token.type t_in' = TokenType.IDENTIFIER ->
       Parser.forStatement tokens' n p = Parser.forStatement tokens n p.
Proof.
  split; [split; vm_compute; reflexivity|].
  intros tokens tokens' n p t_for t_var t_in t_in' Hsame Hfor Tfor Hvar Tvar
    Hin Tin Hin' Tin'.
  destruct n as [|n]; [reflexivity|].
  rewrite (forStatement_unfold tokens n p t_for t_var t_in) by assumption.
  rewrite (forStatement_unfold tokens' n p t_for t_var t_in');
    try assumption; try (rewrite Hsame by lia; assumption).
  assert (Hagree : forall i, S (S (S p)) <= i -> tokens' !! i = tokens !! i).
  { intros i Hi. apply Hsame. lia. }
  pose proof (reads_forward_all tokens tokens' _ Hagree n) as Hrf.
  apply bind_agree; [now apply (rf_expression _ _ _ _ Hrf)|].
  intros iterable p1 He. apply expression_forward in He.
  apply bind_agree; [now apply (rf_block _ _ _ _ Hrf)|].
  reflexivity.
Qed.

Lemma forStatement_in_slot_witness :
  let tokens :=
    [Token.mk TokenType.FOR "for" 1 1;
     Token.mk TokenType.IDENTIFIER "x" 1 5;
     Token.mk TokenType.IDENTIFIER "in" 1 7;
     Token.mk TokenType.IDENTIFIER "items" 1 10;
     Token.mk TokenType.LBRACE "{" 1 16;
     Token.mk TokenType.RBRACE "}" 1 18;
     Token.mk TokenType.EOF "" 1 19] in
  let tokens' :=
    [Token.mk TokenType.FOR "for" 1 1;
     Token.mk TokenType.IDENTIFIER "x" 1 5;
     Token.mk TokenType.IDENTIFIER "yyy" 1 7;
     Token.mk TokenType.IDENTIFIER "items" 1 10;
     Token.mk TokenType.LBRACE "{" 1 16;
     Token.mk TokenType.RBRACE "}" 1 18;
     Token.mk TokenType.EOF "" 1 19] in
  Parser.forStatement tokens' 20 0 = Parser.forStatement tokens 20 0.
Proof.
  intros tokens tokens'.
  apply (proj2 forStatement_in_slot tokens tokens' 20 0
           (Token.mk TokenType.FOR "for" 1 1)
           (Token.mk TokenType.IDENTIFIER "x" 1 5)
           (Token.mk TokenType.IDENTIFIER "in" 1 7)
           (Token.mk TokenType.IDENTIFIER "yyy" 1 7)); try reflexivity.
  intros i Hi.
  do 3 (destruct i as [|i]; [first [reflexivity|congruence]|]).
  reflexivity.
Defined.

(** * Invariants of the parser's position

    The nineteen methods are built from [check], [match], [consume],
    [advance] and [previous]: a property of the position that these
    keep is kept by every method. *)

Lemma related_at_bind {A B} (I : nat -> Prop) (m' m : M nat A)
    (k' k : A -> M nat B) (p : nat) :
  related_at I m' m p ->
  (forall a p1, m p = Ok a p1 -> I p1 -> related_at I (k' a) (k a) p1) ->
  related_at I (bind m' k') (bind m k) p.
Proof.
  intros [Hm HI] Hk. unfold related_at, bind. rewrite Hm.
  destruct (m p) as [a p1| |]; [|split; [reflexivity|discriminate]..].
  apply Hk; [reflexivity|]. now apply (HI a p1).
Qed.

Lemma related_bind {A B} (I : nat -> Prop) (m' m : M nat A)
    (k' k : A -> M nat B) :
  related I m' m -> (forall a, related I (k' a) (k a)) ->
  related I (bind m' k') (bind m k).
Proof.
  intros Hm Hk p Hp. apply related_at_bind; [now apply Hm|].
  intros a p1 _ Hp1. now apply Hk.
Qed.

Lemma related_ret {A} (I : nat -> Prop) (a : A) : related I (ret a) (ret a).
Proof. intros p Hp. split; [reflexivity|]. unfold ret. now intros ? ? [= <- <-]. Qed.

Lemma related_throw {A} (I : nat -> Prop) (e : exn) :
  related I (throw e : M nat A) (throw e).
Proof. intros p Hp. split; [reflexivity|discriminate]. Qed.

Lemma related_out_of_fuel {A} (I : nat -> Prop) :
  related I (out_of_fuel : M nat A) out_of_fuel.
Proof. intros p Hp. split; [reflexivity|discriminate]. Qed.

Lemma related_prop {A} (I : nat -> Prop) (name : string) (f : Token.t -> A)
    (t : option Token.t) :
  related I (Parser.prop name f t) (Parser.prop name f t).
Proof. destruct t; [apply related_ret|apply related_throw]. Qed.

Lemma check_stays (tokens : list Token.t) type p c p1 :
  Parser.check tokens type p = Ok c p1 -> p1 = p.
Proof. destruct (checkP tokens type p); congruence. Qed.

Section ParserInvariant.
Variables tokens tokens' : list Token.t.
Variables I G : nat -> Prop.

Hypothesis H_isAtEnd :
  related I (Parser.isAtEnd tokens') (Parser.isAtEnd tokens).
Hypothesis H_check :
  forall type, related I (Parser.check tokens' type) (Parser.check tokens type).
Hypothesis H_peek : related I (Parser.peek tokens') (Parser.peek tokens).
Hypothesis H_consume :
  forall type message,
    grammar_type type = true ->
    related I (Parser.consume tokens' type message)
      (Parser.consume tokens type message).
Hypothesis H_match :
  forall types,
    forallb grammar_type types = true ->
    related I (Parser.match_ tokens' types) (Parser.match_ tokens types).
Hypothesis H_previous_value :
  related I (Parser.previous_value tokens') (Parser.previous_value tokens).
Hypothesis H_guard :
  forall type p,
    grammar_type type = true ->
    I p -> Parser.check tokens type p = Ok true p -> G p.
Hypothesis H_advance :
  forall p, I p -> G p ->
    related_at I (Parser.advance tokens') (Parser.advance tokens) p.

Lemma related_consume_value type message :
  grammar_type type = true ->
  related I (Parser.consume_value tokens' type message)
    (Parser.consume_value tokens type message).
Proof.
  intros Hty. apply related_bind; [now apply H_consume|].
  intros t. apply related_prop.
Qed.

Ltac rel_step :=
  lazymatch goal with
  | |- related _ (bind _ _) (bind _ _) => apply related_bind; [|intros ?]
  | |- related _ (ret _) (ret _) => apply related_ret
  | |- related _ (throw _) (throw _) => apply related_throw
  | |- related _ out_of_fuel out_of_fuel => apply related_out_of_fuel
  | |- related _ (Parser.prop _ _ _) _ => apply related_prop
  | |- related _ (if ?b then _ else _) (if ?b then _ else _) => destruct b
  | |- related _ (Parser.isAtEnd _) _ => apply H_isAtEnd
  | |- related _ (Parser.check _ _) _ => apply H_check
  | |- related _ (Parser.peek _) _ => apply H_peek
  | |- related _ (Parser.consume _ _ _) _ => apply H_consume; reflexivity
  | |- related _ (Parser.consume_value _ _ _) _ =>
      apply related_consume_value; reflexivity
  | |- related _ (Parser.match_ _ _) _ => apply H_match; reflexivity
  | |- related _ (Parser.previous_value _) _ => apply H_previous_value
  end.

Lemma related_do_while_comma {A} (elem' elem : Parser.P A) fuel xs :
  related I elem' elem ->
  related I (Parser.do_while_comma tokens' elem' fuel xs)
    (Parser.do_while_comma tokens elem fuel xs).
Proof.
  intros Helem. revert xs.
  induction fuel as [|fuel IH]; intros xs; cbn [Parser.do_while_comma];
    [apply related_out_of_fuel|].
  apply related_bind; [assumption|]. intros x. cbv zeta.
  repeat rel_step. apply IH.
Qed.

Lemma related_comma_list {A} close (elem' elem : Parser.P A) fuel :
  related I elem' elem ->
  related I (Parser.comma_list tokens' close elem' fuel)
    (Parser.comma_list tokens close elem fuel).
Proof.
  intros Helem. unfold Parser.comma_list.
  rel_step; [rel_step|]. destruct (negb _); [|rel_step].
  now apply related_do_while_comma.
Qed.

Lemma related_binary_loop types (operator' operator : Parser.P string)
    (operand' operand : Parser.P ASTNode) fuel left :
  forallb grammar_type types = true ->
  related I operator' operator ->
  related I operand' operand ->
  related I (Parser.binary_loop tokens' types operator' operand' fuel left)
    (Parser.binary_loop tokens types operator operand fuel left).
Proof.
  intros Hty Hop Hoperand. revert left.
  induction fuel as [|fuel IH]; intros left; cbn [Parser.binary_loop];
    [apply related_out_of_fuel|].
  apply related_bind; [now apply H_match|]. intros m. destruct m; [|rel_step].
  apply related_bind; [assumption|]. intros op.
  apply related_bind; [assumption|]. intros right. apply IH.
Qed.

Lemma related_call_loop (expression' expression : Parser.P ASTNode) fuel expr :
  related I expression' expression ->
  related I (Parser.call_loop tokens' expression' fuel expr)
    (Parser.call_loop tokens expression fuel expr).
Proof.
  intros Hexpr. revert expr.
  induction fuel as [|fuel IH]; intros expr; cbn [Parser.call_loop];
    [apply related_out_of_fuel|].
  rel_step; [rel_step|]. destruct a; [|rel_step].
  apply related_bind; [now apply related_comma_list|]. intros args.
  rel_step; [rel_step|]. apply IH.
Qed.

Lemma related_block_loop (declaration' declaration : Parser.P ASTNode)
    fuel statements :
  related I declaration' declaration ->
  related I (Parser.block_loop tokens' declaration' fuel statements)
    (Parser.block_loop tokens declaration fuel statements).
Proof.
  intros Hdecl. revert statements.
  induction fuel as [|fuel IH]; intros statements; cbn [Parser.block_loop];
    [apply related_out_of_fuel|].
  rel_step; [rel_step|]. rel_step.
  { destruct (negb a); rel_step. }
  destruct (negb a && negb a0); [|rel_step].
  apply related_bind; [assumption|]. intros stmt. apply IH.
Qed.

Lemma related_parse_loop (declaration' declaration : Parser.P ASTNode)
    fuel body :
  related I declaration' declaration ->
  related I (Parser.parse_loop tokens' declaration' fuel body)
    (Parser.parse_loop tokens declaration fuel body).
Proof.
  intros Hdecl. revert body.
  induction fuel as [|fuel IH]; intros body; cbn [Parser.parse_loop];
    [apply related_out_of_fuel|].
  rel_step; [rel_step|]. destruct (negb a); [|rel_step].
  apply related_bind; [assumption|]. intros stmt. apply IH.
Qed.

(** The methods, with one more unit of fuel. *)

Ltac loops :=
  first
    [ apply related_comma_list | apply related_binary_loop; [reflexivity|..]
    | apply related_call_loop | apply related_block_loop
    | apply related_parse_loop ].

Ltac rel IH :=
  repeat first
    [ rel_step
    | loops
    | apply (inv_primary _ _ _ _ _ IH)
    | apply (inv_call _ _ _ _ _ IH)
    | apply (inv_unary _ _ _ _ _ IH)
    | apply (inv_factor _ _ _ _ _ IH)
    | apply (inv_term _ _ _ _ _ IH)
    | apply (inv_comparison _ _ _ _ _ IH)
    | apply (inv_equality _ _ _ _ _ IH)
    | apply (inv_and _ _ _ _ _ IH)
    | apply (inv_or _ _ _ _ _ IH)
    | apply (inv_expression _ _ _ _ _ IH)
    | apply (inv_block _ _ _ _ _ IH)
    | apply (inv_statement _ _ _ _ _ IH)
    | apply (inv_declaration _ _ _ _ _ IH) ].

(** A method that starts with [advance]: after it, the rest keeps
    [I]. *)
Ltac after_advance :=
  let p := fresh "p" in
  let Hp := fresh "Hp" in
  let Hg := fresh "Hg" in
  intros p Hp Hg;
  apply related_at_bind; [now apply H_advance|];
  let p1 := fresh "p" in
  let Hp1 := fresh "Hp" in
  intros _ p1 _ Hp1; revert p1 Hp1;
  lazymatch goal with
  | |- forall p1, I p1 -> related_at I ?f' ?f p1 => change (related I f' f)
  end.

(** A call of a method that starts with [advance], under the [check]
    of its keyword. *)
Ltac under_check lemma :=
  let p := fresh "p" in
  let Hp := fresh "Hp" in
  intros p Hp;
  apply related_at_bind; [now apply H_check|];
  let c := fresh "c" in
  let p1 := fresh "p" in
  let Hc := fresh "Hc" in
  let Hp1 := fresh "Hp" in
  intros c p1 Hc Hp1;
  pose proof (check_stays _ _ _ _ _ Hc); subst p1;
  destruct c;
  [ apply lemma; [assumption|];
    eapply H_guard; [|exact Hp|exact Hc]; reflexivity
  | revert p Hp Hc Hp1;
    lazymatch goal with
    | |- forall p, I p -> _ -> _ -> related_at I ?f' ?f p =>
        intros p Hp _ _; revert p Hp; change (related I f' f)
    end ].

Section Step.
Variable n : nat.
Hypothesis IH : invariant tokens tokens' I G n.

Lemma primary_inv :
  related I (Parser.primary tokens' (S n)) (Parser.primary tokens (S n)).
Proof. cbn [Parser.primary]. rel IH. Qed.

Lemma call_inv :
  related I (Parser.call tokens' (S n)) (Parser.call tokens (S n)).
Proof. cbn [Parser.call]. rel IH. Qed.

Lemma unary_inv :
  related I (Parser.unary tokens' (S n)) (Parser.unary tokens (S n)).
Proof. cbn [Parser.unary]. rel IH. Qed.

Lemma factor_inv :
  related I (Parser.factor tokens' (S n)) (Parser.factor tokens (S n)).
Proof. cbn [Parser.factor]. rel IH. Qed.

Lemma term_inv :
  related I (Parser.term tokens' (S n)) (Parser.term tokens (S n)).
Proof. cbn [Parser.term]. rel IH. Qed.

Lemma comparison_inv :
  related I (Parser.comparison tokens' (S n))
    (Parser.comparison tokens (S n)).
Proof. cbn [Parser.comparison]. rel IH. Qed.

Lemma equality_inv :
  related I (Parser.equality tokens' (S n)) (Parser.equality tokens (S n)).
Proof. cbn [Parser.equality]. rel IH. Qed.

Lemma and_inv :
  related I (Parser.and tokens' (S n)) (Parser.and tokens (S n)).
Proof. cbn [Parser.and]. rel IH. Qed.

Lemma or_inv :
  related I (Parser.or tokens' (S n)) (Parser.or tokens (S n)).
Proof. cbn [Parser.or]. rel IH. Qed.

Lemma expression_inv :
  related I (Parser.expression tokens' (S n))
    (Parser.expression tokens (S n)).
Proof. cbn [Parser.expression]. rel IH. Qed.

Lemma block_inv :
  related I (Parser.block tokens' (S n)) (Parser.block tokens (S n)).
Proof. cbn [Parser.block]. rel IH. Qed.

Lemma returnStatement_inv :
  guarded I G (Parser.returnStatement tokens' (S n))
    (Parser.returnStatement tokens (S n)).
Proof.
  cbn [Parser.returnStatement]. after_advance. rel IH.
Qed.

Lemma whileStatement_inv :
  guarded I G (Parser.whileStatement tokens' (S n))
    (Parser.whileStatement tokens (S n)).
Proof. cbn [Parser.whileStatement]. after_advance. rel IH. Qed.

Lemma forStatement_inv :
  guarded I G (Parser.forStatement tokens' (S n))
    (Parser.forStatement tokens (S n)).
Proof. cbn [Parser.forStatement]. after_advance. rel IH. Qed.

Lemma ifStatement_inv :
  guarded I G (Parser.ifStatement tokens' (S n))
    (Parser.ifStatement tokens (S n)).
Proof.
  cbn [Parser.ifStatement]. after_advance.
  do 3 (apply related_bind; [rel IH|intros ?]).
  apply related_bind; [|intros ?; rel IH].
  destruct a1; [|rel IH].
  under_check (fun p Hp Hg =>
                 related_at_bind I _ _ _ _ p
                   (inv_ifStatement _ _ _ _ _ IH p Hp Hg)
                   (fun e p1 _ Hp1 => related_ret I (Some e) p1 Hp1)).
  rel IH.
Qed.

Lemma statement_inv :
  related I (Parser.statement tokens' (S n)) (Parser.statement tokens (S n)).
Proof.
  cbn [Parser.statement].
  under_check (inv_ifStatement _ _ _ _ _ IH).
  under_check (inv_forStatement _ _ _ _ _ IH).
  under_check (inv_whileStatement _ _ _ _ _ IH).
  under_check (inv_returnStatement _ _ _ _ _ IH).
  rel IH.
Qed.

Lemma functionDeclaration_inv :
  guarded I G (Parser.functionDeclaration tokens' (S n))
    (Parser.functionDeclaration tokens (S n)).
Proof. cbn [Parser.functionDeclaration]. after_advance. rel IH. Qed.

Lemma letDeclaration_inv :
  guarded I G (Parser.letDeclaration tokens' (S n))
    (Parser.letDeclaration tokens (S n)).
Proof. cbn [Parser.letDeclaration]. after_advance. rel IH. Qed.

Lemma declaration_inv :
  related I (Parser.declaration tokens' (S n))
    (Parser.declaration tokens (S n)).
Proof.
  cbn [Parser.declaration].
  under_check (inv_letDeclaration _ _ _ _ _ IH).
  under_check (inv_functionDeclaration _ _ _ _ _ IH).
  rel IH.
Qed.

End Step.

Lemma invariant_0 : invariant tokens tokens' I G 0.
Proof.
  split;
    first [ exact (related_out_of_fuel I)
          | intros p Hp _; exact (related_out_of_fuel I p Hp) ].
Qed.

Theorem invariant_all n : invariant tokens tokens' I G n.
Proof.
  induction n as [|n IH]; [apply invariant_0|].
  split;
    [ now apply primary_inv | now apply call_inv | now apply unary_inv
    | now apply factor_inv | now apply term_inv | now apply comparison_inv
    | now apply equality_inv | now apply and_inv | now apply or_inv
    | now apply expression_inv | now apply block_inv
    | now apply returnStatement_inv | now apply whileStatement_inv
    | now apply forStatement_inv | now apply ifStatement_inv
    | now apply statement_inv | now apply functionDeclaration_inv
    | now apply letDeclaration_inv | now apply declaration_inv ].
Qed.

(** [parse] itself. *)
Lemma related_parse_with n :
  related I (Parser.parse_with tokens' n) (Parser.parse_with tokens n).
Proof.
  unfold Parser.parse_with. apply related_bind; [|intros; apply related_ret].
  apply related_parse_loop. apply (inv_declaration _ _ _ _ _ (invariant_all n)).
Qed.

End ParserInvariant.

(** ** From the reads and the moves

    It is enough that [I] allows the reads of [peek] and [previous],
    and the move past a token that is not the end of input. *)

Section ParserPrimitives.
Variables tokens tokens' : list Token.t.
Variables I G : nat -> Prop.

Hypothesis H_peek : related I (Parser.peek tokens') (Parser.peek tokens).
Hypothesis H_previous :
  related I (Parser.previous tokens') (Parser.previous tokens).
Hypothesis H_guard :
  forall type p,
    grammar_type type = true ->
    I p -> Parser.check tokens type p = Ok true p -> G p.
Hypothesis H_move :
  forall p t,
    I p -> G p -> tokens !! p = Some t ->
    Token.type t <> TokenType.EOF -> I (S p).

Lemma related_isAtEnd :
  related I (Parser.isAtEnd tokens') (Parser.isAtEnd tokens).
Proof.
  unfold Parser.isAtEnd. apply related_bind; [assumption|]. intros t.
  apply related_bind; [apply related_prop|]. intros. apply related_ret.
Qed.

Lemma related_check type :
  related I (Parser.check tokens' type) (Parser.check tokens type).
Proof.
  unfold Parser.check. apply related_bind; [apply related_isAtEnd|].
  intros e. destruct e; [apply related_ret|].
  apply related_bind; [assumption|]. intros t.
  apply related_bind; [apply related_prop|]. intros. apply related_ret.
Qed.

Lemma related_at_advance p :
  I p -> G p ->
  related_at I (Parser.advance tokens') (Parser.advance tokens) p.
Proof.
  intros Hp Hg. unfold Parser.advance.
  apply related_at_bind; [now apply related_isAtEnd|].
  intros e p1 He _.
  destruct (isAtEndP tokens p) as [Hn|t Ht Hty|t Ht Hty]; simplify_eq.
  - apply related_at_bind; [now apply related_ret|].
    intros _ p2 _ Hp2. now apply H_previous.
  - apply related_at_bind.
    + split; [reflexivity|]. intros a p' [= _ <-].
      eapply H_move; eassumption.
    + intros _ p2 _ Hp2. now apply H_previous.
Qed.

Lemma related_consume type message :
  grammar_type type = true ->
  related I (Parser.consume tokens' type message)
    (Parser.consume tokens type message).
Proof.
  intros Hty p Hp. unfold Parser.consume.
  apply related_at_bind; [now apply related_check|].
  intros c p1 Hc Hp1. pose proof (check_stays _ _ _ _ _ Hc). subst p1.
  destruct c.
  - apply related_at_advance; [assumption|]. eapply H_guard; eassumption.
  - apply related_at_bind; [now apply H_peek|]. intros t p2 _ Hp2.
    apply related_at_bind; [now apply related_prop|]. intros line p3 _ Hp3.
    now apply related_throw.
Qed.

Lemma related_match types :
  forallb grammar_type types = true ->
  related I (Parser.match_ tokens' types) (Parser.match_ tokens types).
Proof.
  induction types as [|type types IH]; [intros; apply related_ret|].
  cbn [forallb]. intros [Hty Htypes]%andb_true_iff p Hp.
  cbn [Parser.match_].
  apply related_at_bind; [now apply related_check|].
  intros c p1 Hc Hp1. pose proof (check_stays _ _ _ _ _ Hc). subst p1.
  destruct c.
  - apply related_at_bind.
    + apply related_at_advance; [assumption|]. eapply H_guard; eassumption.
    + intros _ p2 _ Hp2. now apply related_ret.
  - now apply IH.
Qed.

Lemma related_previous_value :
  related I (Parser.previous_value tokens') (Parser.previous_value tokens).
Proof.
  unfold Parser.previous_value. apply related_bind; [assumption|].
  intros t. apply related_prop.
Qed.

(** Every method keeps [I], and [parse] does. *)
Theorem invariant_of_primitives n : invariant tokens tokens' I G n.
Proof.
  apply invariant_all;
    auto using related_isAtEnd, related_check, related_consume,
      related_match, related_previous_value, related_at_advance.
Qed.

Theorem parse_with_related n :
  related I (Parser.parse_with tokens' n) (Parser.parse_with tokens n).
Proof.
  apply related_parse_with with (G := G);
    auto using related_isAtEnd, related_check, related_consume,
      related_match, related_previous_value, related_at_advance.
Qed.

End ParserPrimitives.

(** * Where the parser stops *)

(** [parse] returns from its loop at an end-of-input token. *)
Lemma parse_loop_stops (tokens : list Token.t) (declaration : Parser.P ASTNode)
    fuel body p body' p' :
  Parser.parse_loop tokens declaration fuel body p = Ok body' p' ->
  exists t, tokens !! p' = Some t /\ Token.type t = TokenType.EOF.
Proof.
  revert body p. induction fuel as [|fuel IH]; intros body p;
    cbn [Parser.parse_loop]; [discriminate|].
  unfold bind at 1.
  destruct (isAtEndP tokens p) as [Hn|t Ht Hty|t Ht Hty]; [discriminate|..];
    cbn [negb].
  - unfold ret. intros [= <- <-]. eauto.
  - unfold bind at 1. destruct (declaration p) as [stmt p1| |];
      [|discriminate..]. apply IH.
Qed.

Lemma grammar_type_not_eof (type : TokenType.t) :
  grammar_type type = true -> type <> TokenType.EOF.
Proof. now intros H ->. Qed.

(** The tokens that the parser has moved past are tokens of the
    grammar. *)
Lemma parse_with_grammar_prefix (tokens : list Token.t) (n : nat) :
  related (grammar_prefix tokens) (Parser.parse_with tokens n)
    (Parser.parse_with tokens n).
Proof.
  apply parse_with_related with (G := fun p => grammar_prefix tokens (S p)).
  - intros p Hp. split; [reflexivity|]. unfold Parser.peek. now intros ? ? [= _ <-].
  - intros p Hp. split; [reflexivity|]. unfold Parser.previous.
    now intros ? ? [= _ <-].
  - intros type p Hty Hp Hc i t Hi Ht.
    destruct (checkP tokens type p) as [Hn|t' Ht' Hty' Hne|t' Ht' Hty'];
      simplify_eq.
    destruct (decide (i = p)) as [->|Hne']; [congruence|].
    apply (Hp i); [lia|assumption].
  - auto.
Qed.

Lemma parse_ok_program (tokens : list Token.t) (tree : ASTNode) (p : nat) :
  Parser.parse tokens = Ok tree p -> exists body, tree = Program body.
Proof.
  unfold Parser.parse, Parser.parse_with, bind.
  destruct (Parser.parse_loop tokens _ _ [] 0) as [body p1| |];
    [|discriminate..].
  unfold ret. intros [= <- <-]. eauto.
Qed.

Lemma parse_ok_eof (tokens : list Token.t) (tree : ASTNode) (p : nat) :
  Parser.parse tokens = Ok tree p ->
  exists t, tokens !! p = Some t /\ Token.type t = TokenType.EOF.
Proof.
  unfold Parser.parse, Parser.parse_with, bind.
  destruct (Parser.parse_loop tokens _ _ [] 0) as [body p1| |] eqn:E;
    [|discriminate..].
  unfold ret. intros [= <- <-]. eapply parse_loop_stops. exact E.
Qed.

Lemma parse_ok_prefix (tokens : list Token.t) (tree : ASTNode) (p : nat) :
  Parser.parse tokens = Ok tree p -> grammar_prefix tokens p.
Proof.
  intros H.
  assert (H0 : grammar_prefix tokens 0) by (intros i t Hi; lia).
  destruct (parse_with_grammar_prefix tokens (Parser.parse_fuel tokens) 0 H0)
    as [_ Hp].
  exact (Hp tree p H).
Qed.

(** X1: When [parse] returns, it has stopped at the first end-of-input
    token: the tree is a [Program], the position holds an end-of-input
    token, and every token before it has a type of the grammar. *)
Theorem parse_stops_at_eof (tokens : list Token.t) (tree : ASTNode) (p : nat) :
  Parser.parse tokens = Ok tree p ->
  (exists body, tree = Program body)
  /\ (exists t, tokens !! p = Some t /\ Token.type t = TokenType.EOF)
  /\ grammar_prefix tokens p.
Proof.
  intros H. split; [|split].
  - eapply parse_ok_program, H.
  - eapply parse_ok_eof, H.
  - eapply parse_ok_prefix, H.
Qed.

Lemma parse_stops_at_eof_witness :
  exists tokens,
    Lexer.tokenize "let x = [1, 2]  " = Ok tokens (Lexer.mkState 16 1 17)
    /\ (exists t, tokens !! 8 = Some t /\ Token.type t = TokenType.EOF)
    /\ length tokens = 10
    /\ grammar_prefix tokens 8.
Proof.
  eexists. split; [vm_compute; reflexivity|].
  match goal with
  | |- context [?ts !! 8] =>
      pose proof
        (parse_stops_at_eof ts
           (Program
              [Let "x"
                 (Array [Literal (LNumber (parseFloat "1"));
                         Literal (LNumber (parseFloat "2"))])])
           8 ltac:(vm_compute; reflexivity))
        as (_ & Heof & Hprefix)
  end.
  split; [exact Heof|]. split; [reflexivity|exact Hprefix].
Defined.

(** A token up to the first end-of-input token of an array that
    [parse] accepts. *)
Lemma parse_ok_token (tokens : list Token.t) (tree : ASTNode) (p i : nat)
    (t : Token.t) :
  Parser.parse tokens = Ok tree p ->
  tokens !! i = Some t ->
  (forall j t', j < i -> tokens !! j = Some t' ->
                Token.type t' <> TokenType.EOF) ->
  Token.type t = TokenType.EOF \/ grammar_type (Token.type t) = true.
Proof.
  intros E Ht Hbefore.
  pose proof (parse_ok_prefix _ _ _ E) as Hprefix.
  apply parse_ok_eof in E as (t' & Ht' & Hty').
  destruct (Nat.lt_trichotomy i p) as [Hlt|[->|Hgt]].
  - right. exact (Hprefix i t Hlt Ht).
  - left. congruence.
  - now destruct (Hbefore p t' Hgt Ht').
Qed.

(** X2: A token that the grammar has no use for, before the first
    end-of-input token, makes [parse] throw. *)
Theorem parse_rejects_other_tokens (tokens : list Token.t) (i : nat)
    (t : Token.t) :
  tokens !! i = Some t ->
  grammar_type (Token.type t) = false ->
  Token.type t <> TokenType.EOF ->
  (forall j t', j < i -> tokens !! j = Some t' ->
                Token.type t' <> TokenType.EOF) ->
  exists e, Parser.parse tokens = Throw e.
Proof.
  intros Ht Hg Hne Hbefore.
  destruct (Parser.parse tokens) as [tree p|e|] eqn:E.
  - exfalso. destruct (parse_ok_token _ _ _ _ _ E Ht Hbefore); congruence.
  - eauto.
  - now apply parse_not_out_of_fuel in E.
Qed.

Lemma parse_rejects_other_tokens_witness :
  exists e,
    Parser.parse
      [ Token.mk TokenType.IDENTIFIER "a" 1 1;
        Token.mk TokenType.SEMICOLON ";" 1 2;
        Token.mk TokenType.IDENTIFIER "b" 1 4;
        Token.mk TokenType.EOF "" 1 5 ]
    = Throw e.
Proof.
  apply (parse_rejects_other_tokens _ 1 (Token.mk TokenType.SEMICOLON ";" 1 2)).
  - reflexivity.
  - reflexivity.
  - discriminate.
  - intros j t' Hj. destruct j as [|j]; [|lia]. now intros [= <-].
Defined.

(** X3: Without an end-of-input token, [parse] throws: the empty array
    included. *)
Theorem parse_needs_eof (tokens : list Token.t) :
  Forall (fun t => Token.type t <> TokenType.EOF) tokens ->
  exists e, Parser.parse tokens = Throw e.
Proof.
  intros Hall.
  destruct (Parser.parse tokens) as [tree p|e|] eqn:E.
  - exfalso. apply parse_ok_eof in E as (t & Ht & Hty).
    apply (Forall_lookup_1 _ _ _ _ Hall Ht). exact Hty.
  - eauto.
  - now apply parse_not_out_of_fuel in E.
Qed.

Lemma parse_needs_eof_witness :
  exists e, Parser.parse [Token.mk TokenType.IDENTIFIER "a" 1 1] = Throw e.
Proof.
  apply parse_needs_eof. repeat constructor. discriminate.
Defined.

(** ** After the end of input *)

(** X4: [parse] reads nothing after the token array's last token when that
    is the end-of-input token: whatever follows it changes neither the
    tree, nor the error, nor the position. *)
Theorem parse_ignores_after_eof (tokens extra : list Token.t) :
  ends_with_eof tokens ->
  Parser.parse (tokens ++ extra) = Parser.parse tokens.
Proof.
  intros Heof.
  rewrite <- (parse_more_fuel tokens (Parser.parse_fuel (tokens ++ extra))).
  2:{ unfold Parser.parse_fuel. rewrite length_app. lia. }
  unfold Parser.parse.
  refine (proj1 (parse_with_related tokens (tokens ++ extra)
                   (fun p => p < length tokens) (fun _ => True)
                   _ _ _ _ _ 0 _)).
  - intros p Hp. split.
    + unfold Parser.peek. now rewrite lookup_app_l.
    + unfold Parser.peek. now intros ? ? [= _ <-].
  - intros p Hp. split.
    + unfold Parser.previous. destruct p as [|i]; [reflexivity|].
      rewrite lookup_app_l by lia. reflexivity.
    + unfold Parser.previous. now intros ? ? [= _ <-].
  - auto.
  - intros p t Hp _ Ht Hne. now apply (not_last tokens p t).
  - now apply ends_with_eof_nonempty.
Qed.

Lemma parse_ignores_after_eof_witness :
  Parser.parse
    ([ Token.mk TokenType.IDENTIFIER "a" 1 1; Token.mk TokenType.EOF "" 1 3 ]
     ++ [ Token.mk TokenType.EOF "" 1 3 ])
  = Ok (Program [Identifier "a"]) 1.
Proof.
  rewrite parse_ignores_after_eof; [reflexivity|].
  eexists. split; reflexivity.
Defined.

(** * The shape of the scanner's output *)

Lemma keywords_not_eof (value : string) (type : TokenType.t) :
  Lexer.keywords_get Lexer.keywords value = Some type ->
  type <> TokenType.EOF /\ type <> TokenType.NEWLINE.
Proof.
  unfold Lexer.keywords. cbn [Lexer.keywords_get].
  repeat match goal with
         | |- context [if ?b then _ else _] => destruct b
         end;
    intros [= <-]; split; discriminate.
Qed.

Section LexerTokens.
Variable source : string.

Ltac tok_unfold :=
  unfold token_spec, bind, ret, out_of_fuel,
    Lexer.isAtEnd, Lexer.peek, Lexer.peekNext, Lexer.advance,
    Lexer.makeToken, Lexer.next_line in *;
  cbn [Lexer.pos Lexer.line Lexer.column Token.line Token.type Token.value]
    in *.

Ltac branches :=
  repeat match goal with
         | |- context [if ?b then _ else _] => destruct b eqn:?
         end.

Ltac done_token :=
  cbn [Lexer.pos Lexer.line Lexer.column Token.line Token.type Token.value];
  first [ exact I
        | split; [reflexivity|]; intros ?; first [discriminate|split; [reflexivity|lia]] ].

Lemma string_token fuel quote s :
  token_spec source s (Lexer.string_ source fuel quote s).
Proof.
  unfold Lexer.string_. unfold bind at 1.
  destruct (Lexer.string_loop source fuel quote "" s) as [value s1| |];
    tok_unfold; [|exact I..].
  branches; done_token.
Qed.

Lemma number_token fuel first s :
  token_spec source s (Lexer.number source fuel first s).
Proof.
  unfold Lexer.number. unfold bind at 1.
  destruct (Lexer.digits_loop source fuel _ s) as [value s1| |];
    tok_unfold; [|exact I..].
  branches; try done_token.
  match goal with
  | |- context [Lexer.digits_loop ?src ?f ?v ?s'] =>
      destruct (Lexer.digits_loop src f v s')
  end; done_token.
Qed.

Lemma identifier_token fuel first s :
  token_spec source s (Lexer.identifier source fuel first s).
Proof.
  unfold Lexer.identifier. unfold bind at 1.
  destruct (Lexer.identifier_loop source fuel _ s) as [value s1| |];
    tok_unfold; [|exact I..].
  split; [reflexivity|].
  destruct (Lexer.keywords_get Lexer.keywords value) as [type|] eqn:E;
    cbn [default]; [|discriminate].
  apply keywords_not_eof in E as [E _]. unfold id. intros ?. congruence.
Qed.

Lemma one_or_two_token c two text2 one text1 s :
  two <> TokenType.EOF -> one <> TokenType.EOF ->
  token_spec source s (Lexer.one_or_two source c two text2 one text1 s).
Proof.
  intros H2 H1. unfold Lexer.one_or_two. tok_unfold.
  branches; cbn [Token.line Token.type Lexer.line]; (split; [reflexivity|]);
    intros ?; congruence.
Qed.

Lemma nextToken_token fuel s :
  token_spec source s (Lexer.nextToken source fuel s).
Proof.
  revert s. induction fuel as [|fuel IH]; intros s;
    cbn [Lexer.nextToken]; [exact I|].
  unfold bind at 1.
  destruct (Lexer.skipWhitespace source fuel s) as [[] s1| |];
    [|exact I..].
  unfold bind at 1. unfold Lexer.isAtEnd at 1.
  destruct (String.length source <=? Lexer.pos s1)%nat eqn:E.
  { apply Nat.leb_le in E. tok_unfold. done_token. }
  unfold bind at 1. unfold Lexer.advance at 1.
  destruct (String.get (Lexer.pos s1) source) as [char|]; [|exact I].
  unfold bind at 1. unfold Lexer.peek at 1.
  cbn [Lexer.pos].
  branches.
  all: try (tok_unfold; done_token).
  all: try (apply one_or_two_token; discriminate).
  all: try apply string_token.
  all: try apply number_token.
  all: try apply identifier_token.
  unfold bind.
  destruct (Lexer.skipLineComment source fuel _) as [[] s2| |];
    [|exact I..].
  pose proof (IH s2) as X. unfold token_spec in *.
  destruct (Lexer.nextToken source fuel s2); [|exact I..]. exact X.
Qed.

Lemma lines_sorted_snoc (tokens : list Token.t) (t : Token.t) :
  lines_sorted tokens ->
  Forall (fun t' => (Token.line t' <= Token.line t)%Z) tokens ->
  lines_sorted (tokens ++ [t]).
Proof.
  intros Hsorted Hall i j ti tj Hij Hi Hj.
  apply lookup_snoc_Some in Hj as [[Hlt Hj]|[-> ->]].
  - apply lookup_snoc_Some in Hi as [[_ Hi]|[-> _]]; [|lia].
    now apply (Hsorted i j).
  - apply lookup_snoc_Some in Hi as [[_ Hi]|[_ ->]]; [|lia].
    apply (Forall_lookup_1 _ _ _ _ Hall Hi).
Qed.

Lemma tokenize_loop_shape fuel acc s :
  Forall proper_token acc ->
  Forall (fun t => (Token.line t <= Lexer.line s)%Z) acc ->
  lines_sorted acc ->
  match Lexer.tokenize_loop source fuel acc s with
  | Ok tokens' _ => scanner_output tokens' /\ lines_sorted tokens'
  | _ => True
  end.
Proof.
  revert acc s. induction fuel as [|fuel IH]; intros acc s Hproper Hlines
    Hsorted; cbn [Lexer.tokenize_loop]; [exact I|].
  unfold bind at 1. unfold Lexer.isAtEnd at 1.
  destruct (String.length source <=? Lexer.pos s)%nat eqn:E.
  - unfold Lexer.makeToken, bind, ret. split.
    + exists acc, [Token.mk TokenType.EOF "" (Lexer.line s)
                     (Lexer.column s - strlen "")].
      split; [reflexivity|]. split; [now left|].
      split; [|assumption]. now repeat constructor.
    + now apply lines_sorted_snoc.
  - unfold bind at 1.
    pose proof (nextToken_token fuel s) as Htok.
    pose proof (nextToken_line source fuel s) as Hline.
    unfold token_spec, token_line in *.
    destruct (Lexer.nextToken source fuel s) as [token s1| |]; [|exact I..].
    destruct Htok as [Htl Heof]. destruct Hline as [Hl1 Hl2].
    assert (Hlines1 : Forall (fun t => (Token.line t <= Lexer.line s1)%Z) acc).
    { eapply Forall_impl; [exact Hlines|]. cbv beta. intros. lia. }
    destruct (TokenType.eqb (Token.type token) TokenType.NEWLINE) eqn:En.
    { now apply IH. }
    apply TokenType_eqb_neq in En.
    assert (Hsorted1 : lines_sorted (acc ++ [token])).
    { apply lines_sorted_snoc; [assumption|]. now rewrite Htl. }
    assert (Hlines2 :
              Forall (fun t => (Token.line t <= Lexer.line s1)%Z)
                (acc ++ [token])).
    { apply Forall_app. split; [assumption|]. repeat constructor. lia. }
    destruct (TokenType.eqb (Token.type token) TokenType.EOF) eqn:Ee.
    + apply TokenType_eqb_eq in Ee. destruct (Heof Ee) as [Hv Hend].
      destruct fuel as [|fuel]; [exact I|].
      cbn [Lexer.tokenize_loop]. unfold bind at 1. unfold Lexer.isAtEnd at 1.
      apply Nat.leb_le in Hend. rewrite Hend.
      unfold Lexer.makeToken, bind, ret. split.
      * exists acc, [token; Token.mk TokenType.EOF "" (Lexer.line s1)
                             (Lexer.column s1 - strlen "")].
        split; [now rewrite <- app_assoc|]. split; [now right|].
        split; [|assumption]. now repeat constructor.
      * apply lines_sorted_snoc; [assumption|].
        eapply Forall_impl; [exact Hlines2|]. cbv beta. intros.
        cbn [Token.line]. lia.
    + apply TokenType_eqb_neq in Ee. apply IH; [|assumption..].
      apply Forall_app. split; [assumption|]. now repeat constructor.
Qed.

End LexerTokens.

Lemma tokenize_shape (source : string) (tokens : list Token.t)
    (s : Lexer.state) :
  Lexer.tokenize source = Ok tokens s ->
  scanner_output tokens /\ lines_sorted tokens /\ lines_from_one tokens.
Proof.
  intros H. pose proof (tokenize_lines _ _ _ H) as Hone.
  unfold Lexer.tokenize in H.
  pose proof (tokenize_loop_shape source (Lexer.tokenize_fuel source) []
                (Lexer.mkState 0 1 1)) as X.
  rewrite H in X. destruct X as [Hshape Hsorted]; [constructor..| |].
  - intros i j ti tj _ Hi. now rewrite lookup_nil in Hi.
  - auto.
Qed.

(** X5: [tokenize] returns on every source text: it never throws, and no
    amount of fuel above [length source + 3] changes what it returns.
    The token array is a sequence of proper tokens followed by one or
    two end-of-input tokens, none a [NEWLINE] token; the lines of the
    tokens start at 1 and never decrease. *)
Theorem tokenize_returns (source : string) :
  exists tokens s,
    Lexer.tokenize source = Ok tokens s
    /\ (forall m, Lexer.tokenize_fuel source <= m ->
                  Lexer.tokenize_loop source m [] (Lexer.mkState 0 1 1)
                  = Ok tokens s)
    /\ scanner_output tokens
    /\ lines_sorted tokens
    /\ lines_from_one tokens.
Proof.
  destruct (tokenize_total source) as (tokens & s & E & _).
  exists tokens, s. split; [assumption|]. split.
  - intros m Hm. now rewrite tokenize_more_fuel.
  - now apply tokenize_shape in E.
Qed.

(** * From source text to tree *)

(** X6: On the tokens of the scanner the parser never reads outside the
    array: [parse(source)] returns a [Program], or throws one of the
    parser's own two kinds of error, at a token of the source. *)
Theorem parse_source_outcome (source : string) :
  (exists body p, parse_source source = Ok (Program body) p)
  \/ (exists tokens s e,
        Lexer.tokenize source = Ok tokens s
        /\ parse_source source = Throw e
        /\ parser_error tokens e).
Proof.
  unfold parse_source.
  destruct (tokenize_total source) as (tokens & s & E & Heof). rewrite E.
  destruct (Parser.parse tokens) as [tree p|e|] eqn:Hp.
  - left. apply parse_ok_program in Hp as Hb. destruct Hb as (body & ->). eauto.
  - right. exists tokens, s, e. split; [reflexivity|]. split; [reflexivity|].
    now apply parse_throws.
  - now apply parse_not_out_of_fuel in Hp.
Qed.

(** * Diagnostics of the scanner and of the parser *)

(** A token of the scanner's output that is not an end-of-input token
    comes before every end-of-input token. *)
Lemma scanner_output_before (tokens : list Token.t) (i j : nat)
    (t t' : Token.t) :
  scanner_output tokens ->
  tokens !! i = Some t -> Token.type t <> TokenType.EOF ->
  j < i -> tokens !! j = Some t' -> Token.type t' <> TokenType.EOF.
Proof.
  intros (body & eofs & -> & _ & Heofs & Hbody) Ht Hne Hj Ht'.
  assert (Hi : i < length body).
  { destruct (Nat.lt_ge_cases i (length body)) as [?|Hge]; [assumption|].
    rewrite lookup_app_r in Ht by assumption.
    now destruct (Forall_lookup_1 _ _ _ _ Heofs Ht). }
  rewrite lookup_app_l in Ht' by lia.
  now destruct (Forall_lookup_1 _ _ _ _ Hbody Ht').
Qed.

Lemma lexer_diagnostics_nil (tokens : list Token.t) :
  lexer_diagnostics_empty tokens <->
  NoteGLanguageServer.lexer_diagnostics tokens = [].
Proof.
  unfold lexer_diagnostics_empty, NoteGLanguageServer.lexer_diagnostics.
  induction tokens as [|t tokens IH]; cbn [map concat].
  - split; [reflexivity|constructor].
  - unfold NoteGLanguageServer.lexer_diagnostic at 1.
    destruct (TokenType.eqb (Token.type t) TokenType.ERROR) eqn:E.
    + apply TokenType_eqb_eq in E. split; [|discriminate].
      intros H. inversion H; subst. congruence.
    + apply TokenType_eqb_neq in E. cbn [app]. rewrite <- IH. split.
      * intros H. now inversion H.
      * intros H. now constructor.
Qed.

(** The scanner's ERROR tokens are never accepted by the parser. *)
Lemma scanner_error_rejected (source : string) (tokens : list Token.t)
    (s : Lexer.state) (i : nat) (t : Token.t) :
  Lexer.tokenize source = Ok tokens s ->
  tokens !! i = Some t -> Token.type t = TokenType.ERROR ->
  exists e, Parser.parse tokens = Throw e.
Proof.
  intros Htok Ht Hty.
  destruct (tokenize_shape _ _ _ Htok) as (Hshape & _).
  destruct (Parser.parse tokens) as [tree p|e|] eqn:E.
  - exfalso.
    destruct (parse_ok_token _ _ _ i t E Ht) as [H|H].
    + intros j t' Hj Ht'.
      eapply (scanner_output_before tokens i j t t'); try eassumption.
      now rewrite Hty.
    + now rewrite Hty in H.
    + now rewrite Hty in H.
  - eauto.
  - now apply parse_not_out_of_fuel in E.
Qed.

(** X7: [analyze] reports nothing exactly when the document parses: a
    document with an error of the scanner also has an error of the
    parser. *)
Theorem analyze_clean (uri : string) (st : DocumentStore.t)
    (doc : TextDocumentItem.t) (tokens : list Token.t) (s : Lexer.state) :
  DocumentStore.get uri st = Some doc ->
  Lexer.tokenize (TextDocumentItem.text doc) = Ok tokens s ->
  (NoteGLanguageServer.analyze uri st = Ok [] st
   <-> exists tree p, Parser.parse tokens = Ok tree p)
  /\ (~ lexer_diagnostics_empty tokens ->
      exists e,
        Parser.parse tokens = Throw e
        /\ NoteGLanguageServer.analyze uri st
           = Ok (NoteGLanguageServer.lexer_diagnostics tokens
                 ++ [NoteGLanguageServer.error_diagnostic e]) st).
Proof.
  intros Hdoc Htok.
  assert (Hno : forall tree p,
             Parser.parse tokens = Ok tree p -> lexer_diagnostics_empty tokens).
  { intros tree p E. apply Forall_lookup_2. intros i t Ht Hty.
    destruct (scanner_error_rejected _ _ _ _ _ Htok Ht Hty) as (e & He).
    congruence. }
  unfold NoteGLanguageServer.analyze. rewrite Hdoc, Htok. split.
  - destruct (Parser.parse tokens) as [tree p|e|] eqn:E.
    + split; [eauto|]. intros _.
      pose proof (Hno tree p eq_refl) as Hempty.
      apply lexer_diagnostics_nil in Hempty. now rewrite Hempty.
    + split.
      * intros [= H]. now apply app_eq_nil in H as [_ H].
      * intros (tree & p & H). discriminate.
    + now apply parse_not_out_of_fuel in E.
  - intros Herr.
    destruct (Parser.parse tokens) as [tree p|e|] eqn:E.
    + now destruct (Herr (Hno tree p eq_refl)).
    + eauto.
    + now apply parse_not_out_of_fuel in E.
Qed.

Lemma analyze_clean_witness :
  NoteGLanguageServer.analyze "file:///a.noteg" two_documents
  = Ok [] two_documents.
Proof.
  pose proof (analyze_clean "file:///a.noteg" two_documents
                (TextDocumentItem.mk "file:///a.noteg" "noteg" 1 "let x = 1")
                _ _
                ltac:(vm_compute; reflexivity)
                ltac:(vm_compute; reflexivity)) as [[_ H] _].
  apply H. do 2 eexists. vm_compute. reflexivity.
Defined.

(** * Opening and closing documents *)

(** X8: In a store that the server can reach: after [textDocument/didOpen]
    the store holds the document of the notification under its URI,
    after [textDocument/didClose] it holds none under the URI, both
    leave the documents of the other URIs as they were, and
    [textDocument/didChange] without content changes does nothing. *)
Theorem open_close_frame (st : DocumentStore.t) :
  LSPServer.reachable st ->
  (forall textDocument,
      let st' := LSPServer.handleRequest (LSPServer.DidOpen textDocument) st in
      DocumentStore.get (TextDocumentItem.uri textDocument) st'
      = Some textDocument
      /\ forall uri,
           uri <> TextDocumentItem.uri textDocument ->
           DocumentStore.get uri st' = DocumentStore.get uri st)
  /\ (forall uri,
         let st' := LSPServer.handleRequest (LSPServer.DidClose uri) st in
         DocumentStore.get uri st' = None
         /\ forall uri',
              uri' <> uri ->
              DocumentStore.get uri' st' = DocumentStore.get uri' st)
  /\ (forall uri version,
         LSPServer.handleRequest (LSPServer.DidChange uri version []) st = st).
Proof.
  intros Hreach. apply reachable_unshared in Hreach as [Hinj Hheap].
  split; [|split].
  - intros textDocument st'. subst st'.
    unfold LSPServer.handleRequest, NoteGLanguageServer.openDocument,
      DocumentStore.open, LSPServer.new_ref, DocumentStore.get.
    cbn [DocumentStore.heap DocumentStore.documents].
    set (r := fresh (dom (DocumentStore.heap st))).
    assert (Hr : DocumentStore.heap st !! r = None).
    { apply not_elem_of_dom. apply is_fresh. }
    rewrite lookup_insert_eq.
    cbn [DocumentStore.heap DocumentStore.documents].
    split.
    + rewrite lookup_insert_eq. now rewrite lookup_insert_eq.
    + intros uri Hne. rewrite lookup_insert_ne by congruence.
      destruct (DocumentStore.documents st !! uri) as [r'|] eqn:Hu;
        [|reflexivity].
      rewrite lookup_insert_ne; [reflexivity|].
      intros <-. apply Hheap in Hu as [x Hx]. congruence.
  - intros uri st'. subst st'.
    unfold LSPServer.handleRequest, NoteGLanguageServer.closeDocument,
      DocumentStore.close, DocumentStore.get.
    cbn [DocumentStore.heap DocumentStore.documents].
    split.
    + now rewrite lookup_delete_eq.
    + intros uri' Hne. now rewrite lookup_delete_ne by congruence.
  - reflexivity.
Qed.

Lemma open_close_frame_witness :
  DocumentStore.get "file:///c.noteg"
    (LSPServer.handleRequest
       (LSPServer.DidOpen (TextDocumentItem.mk "file:///c.noteg" "noteg" 1 "x"))
       two_documents)
  = Some (TextDocumentItem.mk "file:///c.noteg" "noteg" 1 "x")
  /\ DocumentStore.get "file:///a.noteg"
       (LSPServer.handleRequest (LSPServer.DidClose "file:///a.noteg")
          two_documents)
     = None.
Proof.
  assert (Hreach : LSPServer.reachable two_documents) by (eexists; reflexivity).
  destruct (open_close_frame two_documents Hreach) as (Hopen & Hclose & _).
  split.
  - exact (proj1 (Hopen (TextDocumentItem.mk "file:///c.noteg" "noteg" 1 "x"))).
  - exact (proj1 (Hclose "file:///a.noteg")).
Defined.

(** * The word under the cursor *)

Section Words.
Variable line : string.
#[local] Abbreviation len := (String.length line).

Lemma word_test_inside (i : nat) (c : ascii) :
  String.get i line = Some c ->
  NoteGLanguageServer.word_test line (Z.of_nat i)
  = NoteGLanguageServer.is_word_char c.
Proof.
  intros H. unfold NoteGLanguageServer.word_test.
  destruct (Z.ltb_spec (Z.of_nat i) 0); [lia|].
  now rewrite Nat2Z.id, H.
Qed.

Lemma word_test_outside (i : Z) :
  (i < 0 \/ Z.of_nat len <= i)%Z ->
  NoteGLanguageServer.word_test line i = true.
Proof.
  intros H. unfold NoteGLanguageServer.word_test.
  destruct (Z.ltb_spec i 0); [reflexivity|].
  rewrite string_get_ge; [reflexivity|lia].
Qed.

Lemma word_start_spec (start end_ : nat) fuel (c : nat) :
  word_at line start end_ ->
  start <= c <= end_ -> c - start <= fuel ->
  NoteGLanguageServer.word_start fuel line (Z.of_nat c) = Z.of_nat start.
Proof.
  intros (Hbounds & Hword & Hbefore & _). revert c.
  induction fuel as [|fuel IH]; intros c Hc Hfuel;
    cbn [NoteGLanguageServer.word_start].
  { f_equal. lia. }
  destruct (decide (c = start)) as [->|Hne].
  - destruct (Z.ltb_spec 0 (Z.of_nat start)); cbn [andb]; [|reflexivity].
    destruct (string_get_lt line (start - 1)) as [ch Hch]; [lia|].
    replace (Z.of_nat start - 1)%Z with (Z.of_nat (start - 1)) by lia.
    rewrite (word_test_inside _ _ Hch).
    rewrite (Hbefore ch); [reflexivity|lia|assumption].
  - destruct (Z.ltb_spec 0 (Z.of_nat c)); [|lia]. cbn [andb].
    destruct (Hword (c - 1)) as (ch & Hch & Hw); [lia|].
    replace (Z.of_nat c - 1)%Z with (Z.of_nat (c - 1)) by lia.
    rewrite (word_test_inside _ _ Hch), Hw. apply IH; lia.
Qed.

Lemma word_end_spec (start end_ : nat) fuel (c : nat) :
  word_at line start end_ ->
  start <= c <= end_ -> end_ - c <= fuel ->
  NoteGLanguageServer.word_end fuel line (Z.of_nat c) = Z.of_nat end_.
Proof.
  intros (Hbounds & Hword & _ & Hafter). revert c.
  induction fuel as [|fuel IH]; intros c Hc Hfuel;
    cbn [NoteGLanguageServer.word_end].
  { f_equal. lia. }
  unfold strlen.
  destruct (decide (c = end_)) as [->|Hne].
  - destruct (Z.ltb_spec (Z.of_nat end_) (Z.of_nat len)); cbn [andb];
      [|reflexivity].
    destruct (string_get_lt line end_) as [ch Hch]; [lia|].
    rewrite (word_test_inside _ _ Hch).
    now rewrite (Hafter ch).
  - destruct (Z.ltb_spec (Z.of_nat c) (Z.of_nat len)); [|lia]. cbn [andb].
    destruct (Hword c) as (ch & Hch & Hw); [lia|].
    rewrite (word_test_inside _ _ Hch), Hw.
    replace (Z.of_nat c + 1)%Z with (Z.of_nat (S c)) by lia.
    apply IH; lia.
Qed.

Lemma substring_inside (start end_ : nat) :
  start <= end_ <= len ->
  NoteGLanguageServer.substring line (Z.of_nat start) (Z.of_nat end_)
  = String.substring start (end_ - start) line.
Proof.
  intros H. unfold NoteGLanguageServer.substring, strlen.
  replace (Z.to_nat (Z.max 0 (Z.min (Z.of_nat start) (Z.of_nat len))))
    with start by lia.
  replace (Z.to_nat (Z.max 0 (Z.min (Z.of_nat end_) (Z.of_nat len))))
    with end_ by lia.
  now rewrite Nat.min_l, Nat.max_r by lia.
Qed.

(** Beyond the end of the line [line[i]] is [undefined], which the
    pattern accepts: the loop walks back to the end of the line. *)
Lemma word_start_beyond (k fuel : nat) :
  NoteGLanguageServer.word_start (fuel + k) line (Z.of_nat (len + k))
  = NoteGLanguageServer.word_start fuel line (Z.of_nat len).
Proof.
  induction k as [|k IH].
  - now rewrite !Nat.add_0_r.
  - replace (fuel + S k) with (S (fuel + k)) by lia.
    cbn [NoteGLanguageServer.word_start].
    destruct (Z.ltb_spec 0 (Z.of_nat (len + S k))); [|lia]. cbn [andb].
    rewrite word_test_outside by lia.
    replace (Z.of_nat (len + S k) - 1)%Z with (Z.of_nat (len + k)) by lia.
    exact IH.
Qed.

(** Before the start of the line the same happens forwards. *)
Lemma word_end_before (k fuel : nat) :
  NoteGLanguageServer.word_end (fuel + k) line (- Z.of_nat k)
  = NoteGLanguageServer.word_end fuel line 0.
Proof.
  induction k as [|k IH].
  - now rewrite Nat.add_0_r.
  - replace (fuel + S k) with (S (fuel + k)) by lia.
    cbn [NoteGLanguageServer.word_end]. unfold strlen.
    destruct (Z.ltb_spec (- Z.of_nat (S k)) (Z.of_nat len)); [|lia].
    cbn [andb]. rewrite word_test_outside by lia.
    replace (- Z.of_nat (S k) + 1)%Z with (- Z.of_nat k)%Z by lia.
    exact IH.
Qed.

End Words.

(** X9: With the cursor on a word or at one of its ends,
    [getWordAtPosition] returns the word: the longest run of word
    characters there.  (The run is empty when the cursor is between two
    other characters.) *)
Theorem getWordAtPosition_word (line : string) (start end_ : nat)
    (character : Z) :
  word_at line start end_ ->
  (Z.of_nat start <= character <= Z.of_nat end_)%Z ->
  NoteGLanguageServer.getWordAtPosition line character
  = String.substring start (end_ - start) line.
Proof.
  intros Hword Hc. pose proof Hword as (Hbounds & _).
  unfold NoteGLanguageServer.getWordAtPosition.
  rewrite <- (Z2Nat.id character) by lia.
  rewrite (word_start_spec line start end_); [|assumption|lia|lia].
  rewrite (word_end_spec line start end_); [|assumption|lia|unfold strlen; lia].
  now apply substring_inside.
Qed.

Lemma getWordAtPosition_word_witness :
  NoteGLanguageServer.getWordAtPosition "  return x" 5 = "return".
Proof.
  apply (getWordAtPosition_word "  return x" 2 8 5); [|lia].
  split; [cbn; lia|]. split; [|split].
  - intros i Hi.
    do 2 (destruct i as [|i]; [lia|]).
    do 6 (destruct i as [|i]; [eexists; split; reflexivity|]). lia.
  - intros c _. now intros [= <-].
  - intros c. now intros [= <-].
Defined.

Lemma getWordAtPosition_before (line : string) (character : Z) :
  (character < 0)%Z ->
  NoteGLanguageServer.getWordAtPosition line character
  = NoteGLanguageServer.getWordAtPosition line 0.
Proof.
  intros Hneg.
  assert (Hk : character = (- Z.of_nat (Z.to_nat (- character)))%Z) by lia.
  revert Hk. generalize (Z.to_nat (- character)). intros k ->.
  unfold NoteGLanguageServer.getWordAtPosition, strlen.
  replace (Z.to_nat (- Z.of_nat k)) with 0 by lia.
  cbn [NoteGLanguageServer.word_start Z.to_nat].
  replace (Z.to_nat (Z.of_nat (String.length line) - - Z.of_nat k))
    with (String.length line + k) by lia.
  rewrite word_end_before.
  replace (Z.of_nat (String.length line) - 0)%Z
    with (Z.of_nat (String.length line)) by lia.
  rewrite Nat2Z.id.
  unfold NoteGLanguageServer.substring, strlen.
  now replace (Z.max 0 (Z.min (- Z.of_nat k) (Z.of_nat (String.length line))))
    with (Z.max 0 (Z.min 0 (Z.of_nat (String.length line)))) by lia.
Qed.

Lemma getWordAtPosition_beyond (line : string) (character : Z) :
  (Z.of_nat (String.length line) < character)%Z ->
  NoteGLanguageServer.getWordAtPosition line character
  = NoteGLanguageServer.getWordAtPosition line
      (Z.of_nat (String.length line)).
Proof.
  intros Hgt.
  assert (Hk : character
               = Z.of_nat (String.length line
                           + Z.to_nat (character
                                       - Z.of_nat (String.length line))))
    by lia.
  revert Hk.
  generalize (Z.to_nat (character - Z.of_nat (String.length line))).
  intros k ->.
  unfold NoteGLanguageServer.getWordAtPosition, strlen.
  rewrite !Nat2Z.id. rewrite word_start_beyond.
  replace (Z.to_nat (Z.of_nat (String.length line)
                     - Z.of_nat (String.length line + k))) with 0 by lia.
  replace (Z.to_nat (Z.of_nat (String.length line)
                     - Z.of_nat (String.length line))) with 0 by lia.
  cbn [NoteGLanguageServer.word_end].
  unfold NoteGLanguageServer.substring, strlen.
  now replace (Z.max 0 (Z.min (Z.of_nat (String.length line + k))
                          (Z.of_nat (String.length line))))
    with (Z.max 0 (Z.min (Z.of_nat (String.length line))
                     (Z.of_nat (String.length line)))) by lia.
Qed.

(** X10: A cursor outside the line is taken into it: before the line it
    counts as column 0, and beyond the end as the end of the line. *)
Theorem getWordAtPosition_clamps (line : string) (character : Z) :
  NoteGLanguageServer.getWordAtPosition line character
  = NoteGLanguageServer.getWordAtPosition line (clamp line character).
Proof.
  unfold clamp, strlen.
  destruct (Z.lt_trichotomy character 0) as [Hneg|[->|Hpos]].
  - rewrite (getWordAtPosition_before line character Hneg). f_equal. lia.
  - f_equal. lia.
  - destruct (Z.le_gt_cases character (Z.of_nat (String.length line)))
      as [Hle|Hgt].
    + f_equal. lia.
    + rewrite (getWordAtPosition_beyond line character ltac:(lia)).
      f_equal. lia.
Qed.

(** * Hover *)

Lemma getWordAtPosition_empty (character : Z) :
  NoteGLanguageServer.getWordAtPosition "" character = "".
Proof.
  destruct (Z.lt_trichotomy character 0) as [Hneg|[->|Hpos]].
  - now rewrite (getWordAtPosition_before "" character Hneg).
  - reflexivity.
  - now rewrite (getWordAtPosition_beyond "" character Hpos).
Qed.

(** X11: [getHover] looks up the word under the cursor, on the line of the
    cursor, in the documentation table; outside the lines of the
    document it returns [null]. *)
Theorem getHover_word (uri : string) (st : DocumentStore.t)
    (doc : TextDocumentItem.t) :
  DocumentStore.get uri st = Some doc ->
  let lines :=
    NoteGLanguageServer.split_lines "" (TextDocumentItem.text doc) in
  (forall l line start end_ character,
      lines !! l = Some line ->
      word_at line start end_ ->
      (Z.of_nat start <= character <= Z.of_nat end_)%Z ->
      NoteGLanguageServer.getHover uri (Position.mk (Z.of_nat l) character) st
      = NoteGLanguageServer.docs_get
          (String.substring start (end_ - start) line))
  /\ (forall l character,
         (l < 0 \/ Z.of_nat (length lines) <= l)%Z ->
         NoteGLanguageServer.getHover uri (Position.mk l character) st
         = NoteGLanguageServer.HoverNull).
Proof.
  intros Hdoc lines. split.
  - intros l line start end_ character Hl Hword Hc.
    unfold NoteGLanguageServer.getHover. rewrite Hdoc.
    cbn [Position.line Position.character].
    destruct (Z.ltb_spec (Z.of_nat l) 0); [lia|].
    rewrite Nat2Z.id. fold lines. rewrite Hl. cbn [default].
    f_equal. unfold id. clear - Hword Hc. pose proof Hword as (Hbounds & _).
    unfold NoteGLanguageServer.getWordAtPosition.
    rewrite <- (Z2Nat.id character) by lia.
    rewrite (word_start_spec line start end_); [|assumption|lia|lia].
    rewrite (word_end_spec line start end_);
      [|assumption|lia|unfold strlen; lia].
    now apply substring_inside.
  - intros l character Hl.
    unfold NoteGLanguageServer.getHover. rewrite Hdoc.
    cbn [Position.line Position.character]. fold lines.
    destruct (Z.ltb_spec l 0).
    + now rewrite getWordAtPosition_empty.
    + rewrite lookup_ge_None_2 by lia. cbn [default].
      now rewrite getWordAtPosition_empty.
Qed.

(** Over [let] the documentation of [let]; over a variable named
    [__proto__], which the table does not have and, under Deno,
    [Object.prototype] neither, [null]. *)
Lemma getHover_word_witness :
  NoteGLanguageServer.getHover "file:///a.noteg" (Position.mk 0 2) two_documents
  = NoteGLanguageServer.HoverText "Variable declaration: `let name = value`"
  /\ NoteGLanguageServer.getHover "file:///p.noteg" (Position.mk 0 6)
       (LSPServer.run
          [LSPServer.DidOpen
             (TextDocumentItem.mk "file:///p.noteg" "noteg" 1
                "let __proto__ = 1")])
     = NoteGLanguageServer.HoverNull.
Proof.
  split.
  - pose proof (getHover_word "file:///a.noteg" two_documents
                  (TextDocumentItem.mk "file:///a.noteg" "noteg" 1 "let x = 1")
                  ltac:(vm_compute; reflexivity)) as [H _].
    apply (H 0 "let x = 1" 0 3 2%Z); [reflexivity| |lia].
    split; [cbn; lia|]. split; [|split].
    + intros i Hi.
      do 3 (destruct i as [|i]; [eexists; split; reflexivity|]). lia.
    + intros c Hlt. lia.
    + intros c. now intros [= <-].
  - pose proof (getHover_word "file:///p.noteg"
                  (LSPServer.run
                     [LSPServer.DidOpen
                        (TextDocumentItem.mk "file:///p.noteg" "noteg" 1
                           "let __proto__ = 1")])
                  (TextDocumentItem.mk "file:///p.noteg" "noteg" 1
                     "let __proto__ = 1")
                  ltac:(vm_compute; reflexivity)) as [H _].
    apply (H 0 "let __proto__ = 1" 4 13 6%Z); [reflexivity| |lia].
    split; [cbn; lia|]. split; [|split].
    + intros i Hi. do 4 (destruct i as [|i]; [lia|]).
      do 9 (destruct i as [|i]; [eexists; split; reflexivity|]). lia.
    + intros c _. now intros [= <-].
    + intros c. now intros [= <-].
Defined.

(** * [JSON.parse] returns *)

Module JSONFacts.
Import Transport.JSON.

Lemma skip_length (s : Transport.jsstring) : length (skip s) <= length s.
Proof.
  induction s as [|c s IH]; cbn [skip length]; [lia|].
  destruct (whitespace c); cbn [length]; lia.
Qed.

Lemma skip_cons (s s' : Transport.jsstring) (c : Transport.code_unit) :
  skip s = c :: s' -> length s' < length s.
Proof.
  intros E. pose proof (skip_length s) as H. rewrite E in H.
  cbn [length] in H. lia.
Qed.

Lemma string_length (n : nat) :
  forall s value str rest,
    length s <= n ->
    string_ s value = Some (str, rest) -> length rest < length s.
Proof.
  induction n as [|n IH]; intros [|c s] value str rest Hn;
    cbn [string_ length] in *; try discriminate; try lia.
  destruct (c =? 34)%N.
  { intros [= _ <-]. lia. }
  destruct (c =? 92)%N.
  - destruct s as [|e s]; [discriminate|]. cbn [length] in *.
    destruct (e =? 117)%N.
    + destruct s as [|h1 [|h2 [|h3 [|h4 s]]]]; try discriminate.
      cbn [length] in *.
      destruct (hex h1), (hex h2), (hex h3), (hex h4); try discriminate.
      intros H. apply IH in H; lia.
    + destruct (escape e); [|discriminate].
      intros H. apply IH in H; lia.
  - destruct (c <? 32)%N; [discriminate|].
    intros H. apply IH in H; lia.
Qed.

Lemma digits_length (s : Transport.jsstring) : length (digits s) <= length s.
Proof.
  induction s as [|c s IH]; cbn [digits length]; [lia|].
  destruct (Transport.in_range 48 57 c); cbn [length]; lia.
Qed.

Lemma digits1_length (s rest : Transport.jsstring) :
  digits1 s = Some rest -> length rest < length s.
Proof.
  destruct s as [|c s]; cbn [digits1 length]; [discriminate|].
  destruct (Transport.in_range 48 57 c); [|discriminate].
  intros [= <-]. pose proof (digits_length s). lia.
Qed.

Lemma number_length (s rest : Transport.jsstring) :
  number s = Some rest -> length rest < length s.
Proof.
  unfold number.
  set (s1 := match s with
             | c :: s' => if (c =? 45)%N then s' else s
             | [] => s
             end).
  assert (H1 : length s1 <= length s).
  { subst s1. destruct s as [|c s]; [reflexivity|].
    destruct (c =? 45)%N; cbn [length]; lia. }
  clearbody s1.
  destruct s1 as [|c s2]; [discriminate|]. cbn [length] in H1.
  set (int := if (c =? 48)%N then Some s2
              else if Transport.in_range 49 57 c then Some (digits s2)
                   else None).
  assert (H2 : forall s3, int = Some s3 -> length s3 <= length s2).
  { subst int. intros s3. destruct (c =? 48)%N; [now intros [= <-]|].
    destruct (Transport.in_range 49 57 c); [|discriminate].
    intros [= <-]. apply digits_length. }
  clearbody int. destruct int as [s3|]; [|discriminate].
  specialize (H2 s3 eq_refl).
  set (frac := match s3 with
               | c0 :: s' => if (c0 =? 46)%N then digits1 s' else Some s3
               | [] => Some s3
               end).
  assert (H3 : forall s4, frac = Some s4 -> length s4 <= length s3).
  { subst frac. intros s4. destruct s3 as [|c0 s3]; [now intros [= <-]|].
    destruct (c0 =? 46)%N; [|now intros [= <-]].
    intros H. apply digits1_length in H. cbn [length]. lia. }
  clearbody frac. destruct frac as [s4|]; [|discriminate].
  specialize (H3 s4 eq_refl).
  destruct s4 as [|c1 s5]; [intros [= <-]; cbn [length]; lia|].
  cbn [length] in H3.
  destruct ((c1 =? 101)%N || (c1 =? 69)%N).
  - destruct s5 as [|sign s6]; [discriminate|]. cbn [length] in H3.
    destruct ((sign =? 43)%N || (sign =? 45)%N); intros H;
      apply digits1_length in H; cbn [length] in H; lia.
  - intros [= <-]. cbn [length]. lia.
Qed.

Lemma literal_length (a : ascii) (word : string) (v : json)
    (s : Transport.jsstring) (v' : json) (rest : Transport.jsstring) :
  literal (String a word) v s = Parsed v' rest -> length rest < length s.
Proof.
  unfold literal.
  destruct (strip_prefix _ _ s) as [rest'|] eqn:E; [|discriminate].
  intros [= _ <-]. clear v v'.
  assert (H : forall lit s,
             strip_prefix Transport.unit_eqb lit s = Some rest' ->
             length rest' + length lit <= length s).
  { clear. induction lit as [|x lit IH]; intros [|y s]; cbn;
      try discriminate.
    - intros [= <-]. cbn. lia.
    - intros [= <-]. cbn. lia.
    - destruct (Transport.unit_eqb x y); [|discriminate].
      intros H. apply IH in H. lia. }
  apply H in E. unfold Transport.units in E.
  cbn [list_ascii_of_string map length] in E. lia.
Qed.

(** What the parsers consume. *)
Definition consumes (f : Transport.jsstring -> parsed json) : Prop :=
  forall s v rest, f s = Parsed v rest -> length rest < length s.

Ltac facts :=
  repeat match goal with
         | H : skip _ = _ :: _ |- _ => apply skip_cons in H
         | H : string_ _ _ = Some _ |- _ =>
             apply (string_length _ _ _ _ _ (Nat.le_refl _)) in H
         | H : number _ = Some _ |- _ => apply number_length in H
         | H : literal _ _ _ = Parsed _ _ |- _ => apply literal_length in H
         end.

Ltac cases :=
  repeat match goal with
         | |- context [match ?x with _ => _ end] =>
             lazymatch x with
             | context [match _ with _ => _ end] => fail
             | _ => destruct x eqn:?
             end
         end.

Lemma consumes_all (fuel : nat) :
  consumes (value fuel)
  /\ (forall found, consumes (fun s => elements fuel s found))
  /\ (forall found, consumes (fun s => members fuel s found)).
Proof.
  induction fuel as [|fuel (IHv & IHe & IHm)].
  { repeat split; intros; intros s v rest; discriminate. }
  split; [|split].
  - intros s v rest. cbn [value]. cases; try discriminate;
      try (intros [= _ <-]);
      try (let H := fresh in
           intros H;
           first [apply IHm in H | apply IHe in H | idtac]);
      facts; cbn [length] in *; lia.
  - intros found s v rest. cbv beta. cbn [elements].
    destruct (value fuel s) as [v1 rest1| |] eqn:Hv; [|discriminate..].
    apply IHv in Hv. cases; try discriminate; facts.
    + intros H. apply IHe in H. lia.
    + intros [= _ <-]. lia.
  - intros found s v rest. cbv beta. cbn [members]. cases; try discriminate;
      facts;
      repeat match goal with
             | H : value fuel _ = Parsed _ _ |- _ => apply IHv in H
             end.
    + intros H. apply IHm in H. cbn [length] in *. lia.
    + intros [= _ <-]. cbn [length] in *. lia.
Qed.

Lemma fuel_all (fuel : nat) :
  (forall s, 2 * length s < fuel -> value fuel s <> Fuel)
  /\ (forall s found, 2 * length s + 1 < fuel -> elements fuel s found <> Fuel)
  /\ (forall s found, 2 * length s + 1 < fuel -> members fuel s found <> Fuel).
Proof.
  induction fuel as [|fuel (IHv & IHe & IHm)].
  { repeat split; intros; lia. }
  pose proof (consumes_all fuel) as (Cv & Ce & Cm).
  split; [|split].
  - intros s Hs. cbn [value]. cases; try discriminate; facts;
      cbn [length] in *.
    + apply IHm. lia.
    + apply IHe. lia.
    + unfold literal. now destruct (strip_prefix _ _ _).
    + unfold literal. now destruct (strip_prefix _ _ _).
    + unfold literal. now destruct (strip_prefix _ _ _).
  - intros s found Hs. cbn [elements].
    destruct (value fuel s) as [v1 rest1| |] eqn:Hv; [|discriminate|].
    + apply Cv in Hv. cases; try discriminate; facts.
      apply IHe. lia.
    + exfalso. revert Hv. apply IHv. lia.
  - intros s found Hs. cbn [members]. cases; try discriminate; facts;
      cbn [length] in *;
      repeat match goal with
             | H : value fuel _ = Parsed _ _ |- _ => apply Cv in H
             end.
    + apply IHm. lia.
    + match goal with
      | H : value fuel _ = Fuel |- _ => exfalso; revert H; apply IHv; lia
      end.
Qed.

End JSONFacts.

(** [JSON.parse] returns a value or throws a [SyntaxError], on every
    text. *)
Lemma parse_returns (text : Transport.jsstring) :
  Transport.JSON.parse text <> Transport.JSON.Fuel.
Proof.
  unfold Transport.JSON.parse.
  pose proof (proj1 (JSONFacts.fuel_all (S (2 * length text))) text
                ltac:(lia)) as H.
  destruct (Transport.JSON.value _ text) as [v rest| |];
    [|discriminate|congruence].
  now destruct (Transport.JSON.skip rest).
Qed.

(** * The framing loop *)

Lemma dispatch_exits (message buffer : Transport.jsstring) :
  Transport.dispatch message buffer = Ok (exits message) buffer.
Proof.
  unfold Transport.dispatch, exits.
  pose proof (parse_returns message) as H.
  destruct (Transport.JSON.parse message); [reflexivity..|congruence].
Qed.

Lemma drain_unfold (fuel : nat) (buffer : Transport.jsstring) :
  Transport.drain (S fuel) buffer
  = match next_message buffer with
    | None => Ok ([], false) buffer
    | Some (message, rest) =>
        if exits message then Ok ([message], true) rest
        else
          match Transport.drain fuel rest with
          | Ok dispatched buffer' =>
              Ok (message :: fst dispatched, snd dispatched) buffer'
          | Throw e => Throw e
          | OutOfFuel => OutOfFuel
          end
    end.
Proof.
  cbn [Transport.drain]. unfold next_message, bind at 1, get.
  destruct (Transport.indexOf _ buffer) as [headerEnd|]; [|reflexivity].
  destruct (regex_digits _ _ _ _) as [digits|]; [|reflexivity].
  cbv zeta. destruct (_ <? _)%Z; [reflexivity|].
  unfold bind at 1, put. unfold bind at 1. rewrite dispatch_exits.
  destruct (exits _); [reflexivity|]. unfold bind, ret.
  now destruct (Transport.drain fuel _).
Qed.

(** ** Searching a buffer that grows *)

Section Search.
Context {C : Type} (eqb : C -> C -> bool).

Lemma strip_prefix_length (lit s rest : list C) :
  strip_prefix eqb lit s = Some rest -> length s = length lit + length rest.
Proof.
  revert s. induction lit as [|x lit IH]; intros [|y s]; cbn;
    try discriminate.
  - now intros [= <-].
  - now intros [= <-].
  - destruct (eqb x y); [|discriminate]. intros H. apply IH in H. lia.
Qed.

Lemma strip_prefix_grow (lit s rest more : list C) :
  strip_prefix eqb lit s = Some rest ->
  strip_prefix eqb lit (s ++ more) = Some (rest ++ more).
Proof.
  revert s. induction lit as [|x lit IH]; intros [|y s]; cbn;
    try discriminate.
  - now intros [= <-].
  - now intros [= <-].
  - destruct (eqb x y); [|discriminate]. apply IH.
Qed.

Lemma strip_prefix_grow_None (lit s more : list C) :
  strip_prefix eqb lit s = None -> length lit <= length s ->
  strip_prefix eqb lit (s ++ more) = None.
Proof.
  revert s. induction lit as [|x lit IH]; intros [|y s]; cbn;
    try discriminate; try lia.
  destruct (eqb x y); [|reflexivity]. intros H Hlen. apply IH; [assumption|lia].
Qed.
End Search.

Lemma indexOf_bound (pat s : Transport.jsstring) (i : nat) :
  Transport.indexOf pat s = Some i -> i + length pat <= length s.
Proof.
  revert i. induction s as [|c s IH]; intros i; cbn [Transport.indexOf].
  - destruct (strip_prefix _ pat []) as [rest|] eqn:E; [|discriminate].
    intros [= <-]. apply strip_prefix_length in E. cbn in *. lia.
  - destruct (strip_prefix _ pat (c :: s)) as [rest|] eqn:E.
    + intros [= <-]. apply strip_prefix_length in E. cbn in *. lia.
    + destruct (Transport.indexOf pat s) as [j|]; [|discriminate].
      intros [= <-]. specialize (IH j eq_refl). cbn. lia.
Qed.

(** The first occurrence stays the first when the buffer grows. *)
Lemma indexOf_grow (pat s more : Transport.jsstring) (i : nat) :
  Transport.indexOf pat s = Some i ->
  Transport.indexOf pat (s ++ more) = Some i.
Proof.
  revert i. induction s as [|c s IH]; intros i.
  - cbn [Transport.indexOf].
    destruct (strip_prefix _ pat []) as [rest|] eqn:E; [|discriminate].
    intros [= <-]. cbn [app].
    apply (strip_prefix_grow _ _ _ _ more) in E. cbn [app] in E.
    destruct more; cbn [Transport.indexOf]; now rewrite E.
  - cbn [Transport.indexOf app].
    destruct (strip_prefix _ pat (c :: s)) as [rest|] eqn:E.
    + intros [= <-].
      apply (strip_prefix_grow _ _ _ _ more) in E. cbn [app] in E.
      now rewrite E.
    + destruct (Transport.indexOf pat s) as [j|] eqn:Ej; [|discriminate].
      intros [= <-].
      pose proof (indexOf_bound _ _ _ Ej) as Hb.
      apply (strip_prefix_grow_None _ _ _ more) in E; [|cbn; lia].
      cbn [app] in E. rewrite E. now rewrite (IH j eq_refl).
Qed.

Lemma parseInt_nonneg (digits : Transport.jsstring) :
  (0 <= parseInt Transport.unit_digit digits)%Z.
Proof.
  unfold parseInt.
  assert (H : forall acc, (0 <= acc)%Z ->
              (0 <= fold_left
                      (fun acc c =>
                         10 * acc + default 0 (Transport.unit_digit c))
                      digits acc)%Z).
  { induction digits as [|c digits IH]; intros acc Hacc; cbn [fold_left];
      [assumption|].
    apply IH. unfold Transport.unit_digit, Transport.in_range.
    destruct (_ && _) eqn:E; cbn [default from_option id]; [|lia].
    apply andb_true_iff in E as [E1 E2].
    apply N.leb_le in E1. lia. }
  now apply H.
Qed.

(** ** One message *)

(** What the loop cuts off: the buffer shrinks by the separator at
    least. *)
Lemma next_message_shrinks (buffer message rest : Transport.jsstring) :
  next_message buffer = Some (message, rest) ->
  length rest + 4 <= length buffer.
Proof.
  unfold next_message.
  destruct (Transport.indexOf _ buffer) as [headerEnd|] eqn:Ei; [|discriminate].
  destruct (regex_digits _ _ _ _) as [digits|]; [|discriminate].
  cbv zeta. pose proof (parseInt_nonneg digits) as Hn.
  destruct (Z.ltb_spec (Z.of_nat (length buffer))
              (Z.of_nat headerEnd + 4 + parseInt Transport.unit_digit digits));
    [discriminate|].
  intros [= _ <-]. rewrite length_skipn. lia.
Qed.

(** The same message is cut off when the buffer has grown. *)
Lemma next_message_grow (buffer message rest more : Transport.jsstring) :
  next_message buffer = Some (message, rest) ->
  next_message (buffer ++ more) = Some (message, rest ++ more).
Proof.
  unfold next_message.
  destruct (Transport.indexOf _ buffer) as [headerEnd|] eqn:Ei; [|discriminate].
  rewrite (indexOf_grow _ _ more _ Ei).
  pose proof (indexOf_bound _ _ _ Ei) as Hb. cbn [length Transport.header_separator] in Hb.
  rewrite (take_app_le buffer more headerEnd) by lia.
  destruct (regex_digits _ _ _ _) as [digits|]; [|discriminate].
  cbv zeta. pose proof (parseInt_nonneg digits) as Hn.
  destruct (Z.ltb_spec (Z.of_nat (length buffer))
              (Z.of_nat headerEnd + 4 + parseInt Transport.unit_digit digits));
    [discriminate|].
  intros [= <- <-].
  destruct (Z.ltb_spec (Z.of_nat (length (buffer ++ more)))
              (Z.of_nat headerEnd + 4 + parseInt Transport.unit_digit digits)).
  { rewrite length_app in *. lia. }
  f_equal. f_equal.
  - change (@skipn) with (@drop). change (@firstn) with (@take).
    rewrite drop_app_le by lia. rewrite take_app_le; [reflexivity|].
    rewrite length_drop. lia.
  - change (@skipn) with (@drop). rewrite drop_app_le by lia. reflexivity.
Qed.

(** ** The loop *)

(** One unit of fuel per unit of the buffer is enough to cut off every
    message, and what is left is no more than there was. *)
Lemma cut_messages_returns (fuel : nat) (buffer : Transport.jsstring) :
  length buffer < fuel ->
  exists messages rest,
    cut_messages fuel buffer = Ok messages rest
    /\ length rest <= length buffer.
Proof.
  revert buffer. induction fuel as [|fuel IH]; intros buffer Hfuel; [lia|].
  cbn [cut_messages].
  destruct (next_message buffer) as [[message rest]|] eqn:E; [|eauto].
  apply next_message_shrinks in E.
  destruct (IH rest) as (messages & rest' & -> & Hlen); [lia|].
  exists (message :: messages), rest'. split; [reflexivity|lia].
Qed.

Lemma cut_messages_fuel (fuel fuel' : nat) (buffer : Transport.jsstring) :
  length buffer < fuel -> length buffer < fuel' ->
  cut_messages fuel buffer = cut_messages fuel' buffer.
Proof.
  revert fuel' buffer.
  induction fuel as [|fuel IH]; intros fuel' buffer Hfuel Hfuel'; [lia|].
  destruct fuel' as [|fuel']; [lia|].
  cbn [cut_messages].
  destruct (next_message buffer) as [[message rest]|] eqn:E; [|reflexivity].
  apply next_message_shrinks in E. rewrite (IH fuel' rest) by lia.
  reflexivity.
Qed.

(** Cutting the messages off a buffer and then off what is left of it
    with more input is cutting them off the buffer with the input
    appended. *)
Lemma cut_messages_app (fuel : nat) (buffer more : Transport.jsstring)
    (messages1 rest1 messages2 rest2 : _) :
  length buffer < fuel ->
  cut_messages fuel buffer = Ok messages1 rest1 ->
  cut_messages (S (length (rest1 ++ more))) (rest1 ++ more)
  = Ok messages2 rest2 ->
  cut_messages (S (length (buffer ++ more))) (buffer ++ more)
  = Ok (messages1 ++ messages2) rest2.
Proof.
  revert buffer messages1.
  induction fuel as [|fuel IH]; intros buffer messages1 Hfuel; [lia|].
  cbn [cut_messages].
  destruct (next_message buffer) as [[message rest]|] eqn:E.
  - pose proof (next_message_shrinks _ _ _ E) as Hshrink.
    destruct (cut_messages fuel rest) as [messages rest'| |] eqn:Ed;
      [|discriminate..].
    intros [= <- <-] H2.
    rewrite (next_message_grow _ _ _ more E).
    rewrite (cut_messages_fuel _ (S (length (rest ++ more)))).
    2,3: rewrite !length_app in *; lia.
    rewrite (IH rest messages ltac:(lia) Ed H2). reflexivity.
  - intros [= <- <-] H2. exact H2.
Qed.

Lemma until_exit_app (payloads more : list Transport.jsstring) :
  until_exit (payloads ++ more)
  = if existsb exits payloads then until_exit payloads
    else payloads ++ until_exit more.
Proof.
  induction payloads as [|payload payloads IH]; [reflexivity|].
  cbn [app until_exit existsb]. destruct (exits payload); [reflexivity|].
  cbn [orb]. rewrite IH. now destruct (existsb exits payloads).
Qed.

Lemma until_exit_none (payloads : list Transport.jsstring) :
  existsb exits payloads = false -> until_exit payloads = payloads.
Proof.
  intros H. rewrite <- (app_nil_r payloads) at 1. rewrite until_exit_app, H.
  cbn [until_exit]. apply app_nil_r.
Qed.


(** The loop dispatches the messages it cuts off, up to the first exit
    message; without one it leaves the buffer they leave. *)
Lemma drain_cut (fuel : nat) (buffer : Transport.jsstring)
    (messages rest : _) :
  cut_messages fuel buffer = Ok messages rest ->
  exists rest',
    Transport.drain fuel buffer
    = Ok (until_exit messages, existsb exits messages) rest'
    /\ (existsb exits messages = false -> rest' = rest).
Proof.
  revert buffer messages.
  induction fuel as [|fuel IH]; intros buffer messages; [discriminate|].
  cbn [cut_messages]. rewrite drain_unfold.
  destruct (next_message buffer) as [[message rest0]|] eqn:E.
  - destruct (cut_messages fuel rest0) as [messages0 rest1| |] eqn:Ec;
      [|discriminate..].
    intros [= <- <-]. cbn [until_exit existsb].
    destruct (exits message) eqn:Ex.
    + exists rest0. split; [reflexivity|discriminate].
    + destruct (IH _ _ Ec) as (rest' & -> & Hrest).
      exists rest'. split; [reflexivity|]. exact Hrest.
  - intros [= <- <-]. exists buffer. split; [reflexivity|reflexivity].
Qed.

(** ** The chunks *)

(** [on_chunks] does with the chunks what the loop does with their
    decoded texts, joined, as long as the process has not exited. *)
Lemma on_chunks_joined (chunks : list (list N))
    (buffer : Transport.jsstring) (messages0 rest0 : _) :
  cut_messages (S (length buffer)) buffer = Ok messages0 rest0 ->
  exists messages rest dispatched rest',
    cut_messages
      (S (length (buffer ++ concat (map Transport.decode chunks))))
      (buffer ++ concat (map Transport.decode chunks))
    = Ok (messages0 ++ messages) rest
    /\ Transport.on_chunks chunks rest0 = Ok dispatched rest'
    /\ fst dispatched = until_exit messages
    /\ snd dispatched = existsb exits messages
    /\ (existsb exits messages = false -> rest' = rest).
Proof.
  revert buffer messages0 rest0.
  induction chunks as [|chunk chunks IH]; intros buffer messages0 rest0 H0.
  - exists [], rest0, ([], false), rest0. cbn [map concat].
    rewrite !app_nil_r. repeat split; assumption.
  - cbn [Transport.on_chunks map concat].
    unfold bind at 1. unfold Transport.on_chunk.
    unfold bind at 1. unfold get. unfold bind at 1. unfold put.
    destruct (cut_messages_returns
                (S (length (rest0 ++ Transport.decode chunk)))
                (rest0 ++ Transport.decode chunk) ltac:(lia))
      as (messages1 & rest1 & H1 & _).
    destruct (drain_cut _ _ _ _ H1) as (rest1' & Hd & Hrest1).
    rewrite Hd. cbn [fst snd].
    pose proof (cut_messages_app (S (length buffer)) buffer
                  (Transport.decode chunk) _ _ _ _ ltac:(lia) H0 H1) as H01.
    destruct (IH _ _ _ H01) as (messages & rest & dispatched & rest' &
                                Hc & Ho & Hfst & Hsnd & Hrest).
    exists (messages1 ++ messages), rest.
    rewrite <- !app_assoc in Hc.
    destruct (existsb exits messages1) eqn:Ex.
    + exists (until_exit messages1, true), rest1'.
      split; [exact Hc|]. split; [reflexivity|]. cbn [fst snd].
      rewrite until_exit_app, existsb_app, Ex. repeat split. discriminate.
    + rewrite (Hrest1 eq_refl). unfold bind at 1. rewrite Ho. unfold ret.
      exists (until_exit messages1 ++ fst dispatched, snd dispatched), rest'.
      split; [exact Hc|]. split; [reflexivity|]. cbn [fst snd].
      rewrite until_exit_app, existsb_app, Ex, Hfst, Hsnd.
      rewrite (until_exit_none _ Ex). repeat split. exact Hrest.
Qed.

(** [runStdio] dispatches the messages that are cut off the decoded
    texts of the chunks, joined, up to the first exit message; without
    one it leaves the buffer they leave. *)
Lemma runStdio_joined (chunks : list (list N)) :
  exists messages rest rest',
    cut_messages (S (length (concat (map Transport.decode chunks))))
      (concat (map Transport.decode chunks))
    = Ok messages rest
    /\ Transport.runStdio chunks = Ok (until_exit messages) rest'
    /\ (existsb exits messages = false -> rest' = rest).
Proof.
  unfold Transport.runStdio.
  destruct (on_chunks_joined chunks [] [] [] eq_refl)
    as (messages & rest & dispatched & rest' & Hc & Ho & Hfst & _ & Hrest).
  cbn [app] in Hc. exists messages, rest, rest'.
  split; [exact Hc|]. split; [|exact Hrest].
  unfold bind. rewrite Ho. unfold ret. now rewrite Hfst.
Qed.

(** ** Decoding ASCII *)

Lemma utf8_decode_ascii (bytes : list N) :
  ascii_bytes bytes ->
  Transport.utf8_decode Transport.initial bytes = bytes.
Proof.
  induction 1 as [|b bytes Hb _ IH]; [reflexivity|]. cbv beta in Hb.
  cbn [Transport.utf8_decode Transport.initial Transport.bytes_needed].
  cbn [N.eqb]. unfold Transport.lead, Transport.in_range.
  destruct (N.leb_spec 0 b); [|lia].
  destruct (N.leb_spec b 127); [|lia].
  cbn [andb app]. now rewrite IH.
Qed.

Lemma decode_ascii (bytes : list N) :
  ascii_bytes bytes -> Transport.decode bytes = bytes.
Proof.
  intros H. unfold Transport.decode. rewrite utf8_decode_ascii by assumption.
  assert (Hbom : Transport.strip_bom bytes = bytes).
  { destruct H as [|b bytes Hb _]; [reflexivity|]. cbv beta in Hb.
    cbn [Transport.strip_bom].
    destruct (N.eqb_spec b 65279); [lia|reflexivity]. }
  rewrite Hbom. clear Hbom.
  induction H as [|b bytes Hb _ IH]; [reflexivity|]. cbv beta in Hb.
  cbn [flat_map]. rewrite IH. unfold Transport.utf16.
  destruct (N.ltb_spec b 65536); [reflexivity|lia].
Qed.

Lemma decode_chunks_ascii (chunks : list (list N)) :
  Forall ascii_bytes chunks ->
  concat (map Transport.decode chunks) = concat chunks.
Proof.
  induction 1 as [|chunk chunks Hc _ IH]; [reflexivity|].
  cbn [map concat]. now rewrite IH, decode_ascii.
Qed.


(** ** Frames *)

Lemma unit_digit_ascii (c : ascii) :
  Transport.unit_digit (N.of_nat (nat_of_ascii c)) = ascii_digit c.
Proof.
  unfold Transport.unit_digit, ascii_digit, Transport.in_range, Lexer.isDigit,
    Lexer.char_code.
  change (nat_of_ascii "0") with 48. change (nat_of_ascii "9") with 57.
  destruct (Nat.leb_spec 48 (nat_of_ascii c));
    destruct (N.leb_spec 48 (N.of_nat (nat_of_ascii c))); try lia;
    cbn [andb]; [|reflexivity].
  destruct (Nat.leb_spec (nat_of_ascii c) 57);
    destruct (N.leb_spec (N.of_nat (nat_of_ascii c)) 57); try lia;
    [|reflexivity].
  f_equal. lia.
Qed.

Lemma units_app (a b : string) :
  Transport.units (a +:+ b) = Transport.units a ++ Transport.units b.
Proof.
  unfold Transport.units. now rewrite list_ascii_of_string_app, map_app.
Qed.

Lemma take_digits_units (s : string) :
  take_digits ascii_digit (list_ascii_of_string s) = list_ascii_of_string s ->
  take_digits Transport.unit_digit (Transport.units s) = Transport.units s.
Proof.
  unfold Transport.units.
  induction (list_ascii_of_string s) as [|c cs IH]; [reflexivity|].
  cbn [take_digits map]. rewrite unit_digit_ascii.
  destruct (ascii_digit c); [|discriminate].
  intros [= H]. now rewrite IH.
Qed.

Lemma parseInt_units (s : string) :
  parseInt Transport.unit_digit (Transport.units s)
  = parseInt ascii_digit (list_ascii_of_string s).
Proof.
  unfold parseInt, Transport.units.
  assert (H : forall cs acc,
             fold_left
               (fun acc c => 10 * acc + default 0 (Transport.unit_digit c))%Z
               (map (fun c => N.of_nat (nat_of_ascii c)) cs) acc
             = fold_left
                 (fun acc c => 10 * acc + default 0 (ascii_digit c))%Z cs acc).
  { induction cs as [|c cs IH]; intros acc; [reflexivity|].
    cbn [map fold_left]. now rewrite unit_digit_ascii, IH. }
  apply H.
Qed.

Lemma digit_units_no_return (s : string) :
  take_digits Transport.unit_digit (Transport.units s) = Transport.units s ->
  Forall (fun c => c <> 13%N) (Transport.units s).
Proof.
  induction (Transport.units s) as [|c cs IH]; [constructor|].
  cbn [take_digits].
  destruct (Transport.unit_digit c) as [v|] eqn:E; [|discriminate].
  intros [= H]. constructor; [|now apply IH].
  intros ->. discriminate E.
Qed.

(** The separator is not found inside text without carriage
    return. *)
Lemma indexOf_separator (header rest : Transport.jsstring) :
  Forall (fun c => c <> 13%N) header ->
  Transport.indexOf Transport.header_separator
    (header ++ Transport.header_separator ++ rest)
  = Some (length header).
Proof.
  induction 1 as [|c header Hc _ IH].
  - cbn [app length]. unfold Transport.header_separator.
    destruct rest; reflexivity.
  - cbn [app length Transport.indexOf].
    unfold Transport.header_separator at 1. cbn [strip_prefix].
    unfold Transport.unit_eqb at 1.
    destruct (N.eqb_spec 13 c); [congruence|].
    now rewrite IH.
Qed.

(** A frame at the head of the buffer is cut off, whatever follows. *)
Lemma next_message_frame (payload rest : list N) :
  next_message (frame payload ++ rest) = Some (payload, rest).
Proof.
  unfold next_message, frame.
  set (n := Z.of_nat (length payload)).
  destruct (line_digits n ltac:(lia)) as (Hne & Htake & Hparse).
  cbv zeta in Hne, Htake, Hparse.
  apply take_digits_units in Htake.
  set (digits := Transport.units (string_of_Z n)) in *.
  assert (Hdigits : digits <> []).
  { subst digits. unfold Transport.units.
    destruct (list_ascii_of_string (string_of_Z n)); [congruence|discriminate]. }
  set (literal := Transport.units "Content-Length: ").
  assert (Hheader : Forall (fun c => c <> 13%N) (literal ++ digits)).
  { apply Forall_app. split; [|now apply digit_units_no_return].
    subst literal. vm_compute. repeat constructor; discriminate. }
  assert (Hbuffer :
            (literal ++ digits ++ Transport.header_separator ++ payload) ++ rest
            = (literal ++ digits) ++ Transport.header_separator
              ++ payload ++ rest)
    by now rewrite <- !app_assoc.
  unfold Transport.jsstring, Transport.code_unit in *.
  rewrite Hbuffer. clear Hbuffer.
  rewrite indexOf_separator by assumption.
  change (@firstn) with (@take). change (@skipn) with (@drop).
  rewrite take_app_length.
  rewrite regex_digits_unfold. unfold match_here.
  rewrite strip_prefix_app by (intros x; apply N.eqb_refl).
  rewrite Htake.
  destruct digits as [|d digits'] eqn:Ed; [congruence|]. rewrite <- Ed.
  assert (Hp : parseInt Transport.unit_digit digits = n)
    by (subst digits; now rewrite parseInt_units).
  unfold Transport.jsstring, Transport.code_unit in *.
  rewrite Hp. cbv zeta.
  assert (Hlen : length ((literal ++ digits) ++
                         Transport.header_separator ++ payload ++ rest)
                 = length (literal ++ digits) + 4 + length payload
                   + length rest).
  { rewrite !length_app. cbn [length Transport.header_separator]. lia. }
  unfold Transport.jsstring, Transport.code_unit in *.
  match goal with
  | |- context [(?a <? ?b)%Z] => destruct (Z.ltb_spec a b); [lia|]
  end.
  replace (Z.to_nat (Z.of_nat (length (literal ++ digits)) + 4 + n)
           - Z.to_nat (Z.of_nat (length (literal ++ digits)) + 4))
    with (length payload) by lia.
  replace (Z.to_nat (Z.of_nat (length (literal ++ digits)) + 4))
    with (length (literal ++ digits) + 4) by lia.
  replace (Z.to_nat (Z.of_nat (length (literal ++ digits)) + 4 + n))
    with (length (literal ++ digits) + 4 + length payload) by lia.
  f_equal. f_equal.
  - rewrite <- drop_drop. rewrite drop_app_length.
    change (drop 4 (Transport.header_separator ++ payload ++ rest))
      with (payload ++ rest).
    now rewrite take_app_length.
  - rewrite <- !drop_drop. rewrite drop_app_length.
    change (drop 4 (Transport.header_separator ++ payload ++ rest))
      with (payload ++ rest).
    now rewrite drop_app_length.
Qed.

(** The payloads of a sequence of frames are cut off, and nothing is
    left. *)
Lemma cut_messages_frames (payloads : list (list N)) (fuel : nat) :
  length (concat (map frame payloads)) < fuel ->
  cut_messages fuel (concat (map frame payloads)) = Ok payloads [].
Proof.
  revert fuel. induction payloads as [|payload payloads IH]; intros fuel Hfuel.
  - destruct fuel as [|fuel]; [cbn in Hfuel; lia|]. reflexivity.
  - destruct fuel as [|fuel]; [lia|].
    cbn [map concat] in *. cbn [cut_messages]. rewrite next_message_frame.
    rewrite IH; [reflexivity|]. rewrite length_app in Hfuel.
    assert (4 <= length (frame payload)).
    { unfold frame. rewrite !length_app.
      cbn [length Transport.header_separator]. lia. }
    lia.
Qed.

(** X13: Frames of ASCII bytes, in whatever chunks they arrive, are
    dispatched in order up to the first exit message, on which the
    process exits: [runStdio] hands over the payloads up to that one.
    When no payload is an exit message all of them are dispatched and
    the buffer is left empty. *)
Theorem runStdio_frames (payloads chunks : list (list N)) :
  Forall ascii_bytes chunks ->
  concat chunks = concat (map frame payloads) ->
  exists buffer,
    Transport.runStdio chunks = Ok (until_exit payloads) buffer
    /\ (existsb exits payloads = false ->
        Transport.runStdio chunks = Ok payloads []).
Proof.
  intros Hascii Hframes.
  destruct (runStdio_joined chunks) as (messages & rest & buffer & Hc & Hr & Hb).
  rewrite decode_chunks_ascii in Hc by assumption. rewrite Hframes in Hc.
  rewrite cut_messages_frames in Hc by apply Nat.lt_succ_diag_r.
  injection Hc as <- <-. exists buffer. split; [exact Hr|].
  intros Hno. now rewrite Hr, (Hb Hno), (until_exit_none _ Hno).
Qed.


(** Three frames, the second an exit message (34 is the double quote):
    the first two payloads are dispatched, the third is not. *)
Lemma runStdio_frames_witness :
  let exit :=
    [123; 34]%N ++ Transport.units "method" ++ [34; 58; 34]%N
    ++ Transport.units "exit" ++ [34; 125]%N in
  (exists buffer,
      Transport.runStdio
        [ Transport.units "Content-Length: 2" ++ Transport.header_separator
          ++ Transport.units "{}Content-Length: 17";
          Transport.header_separator ++ exit;
          Transport.units "Content-Length: 2" ++ Transport.header_separator
          ++ Transport.units "{}" ]
      = Ok [ Transport.units "{}"; exit ] buffer)
  /\ Transport.runStdio
       [ Transport.units "Content-Length: 2" ++ Transport.header_separator
         ++ Transport.units "{}Content-Length: 12";
         Transport.header_separator ++ Transport.units "{'id':";
         Transport.units " 1234}" ]
     = Ok [ Transport.units "{}"; Transport.units "{'id': 1234}" ] [].
Proof.
  intros exit. split.
  - destruct (runStdio_frames
                [ Transport.units "{}"; exit; Transport.units "{}" ]
                [ Transport.units "Content-Length: 2"
                  ++ Transport.header_separator
                  ++ Transport.units "{}Content-Length: 17";
                  Transport.header_separator ++ exit;
                  Transport.units "Content-Length: 2"
                  ++ Transport.header_separator ++ Transport.units "{}" ]
                ltac:(repeat constructor) eq_refl) as (buffer & Hr & _).
    exists buffer. rewrite Hr. vm_compute. reflexivity.
  - destruct (runStdio_frames
                [ Transport.units "{}"; Transport.units "{'id': 1234}" ]
                [ Transport.units "Content-Length: 2"
                  ++ Transport.header_separator
                  ++ Transport.units "{}Content-Length: 12";
                  Transport.header_separator ++ Transport.units "{'id':";
                  Transport.units " 1234}" ]
                ltac:(repeat constructor) eq_refl) as (buffer & _ & Hall).
    apply Hall. vm_compute. reflexivity.
Defined.

(** ** A header without a length *)

(** X14: Once the buffer starts with a header block in which no
    [Content-Length: n] is found, nothing is dispatched any more,
    whatever arrives: the loop breaks at that header every time. *)
Theorem runStdio_blocked (chunk : list N) (chunks : list (list N))
    (headerEnd : nat) :
  Transport.indexOf Transport.header_separator (Transport.decode chunk)
  = Some headerEnd ->
  regex_digits Transport.unit_eqb Transport.unit_digit
    (Transport.units "Content-Length: ")
    (firstn headerEnd (Transport.decode chunk)) = None ->
  Transport.runStdio (chunk :: chunks)
  = Ok [] (concat (map Transport.decode (chunk :: chunks))).
Proof.
  intros Hi Hregex.
  destruct (runStdio_joined (chunk :: chunks))
    as (messages & rest & buffer & Hc & Hr & Hb).
  cbn [map concat] in *. cbn [cut_messages] in Hc.
  unfold next_message in Hc.
  rewrite (indexOf_grow _ _ _ _ Hi) in Hc.
  pose proof (indexOf_bound _ _ _ Hi) as Hbound.
  change (@firstn) with (@take) in *.
  rewrite take_app_le in Hc by lia. rewrite Hregex in Hc.
  injection Hc as <- <-. now rewrite Hr, (Hb eq_refl).
Qed.

Lemma runStdio_blocked_witness :
  Transport.runStdio
    [ Transport.units "content-length: 2" ++ Transport.header_separator
      ++ Transport.units "{}";
      Transport.units "Content-Length: 2" ++ Transport.header_separator
      ++ Transport.units "{}" ]
  = Ok []
      (Transport.units "content-length: 2" ++ Transport.header_separator
       ++ Transport.units "{}Content-Length: 2" ++ Transport.header_separator
       ++ Transport.units "{}").
Proof.
  rewrite (runStdio_blocked _ _ 17); reflexivity.
Defined.

(** * What the scanner makes of the characters *)

(** ** The character at a position *)

Lemma string_app_cons (x : ascii) (a b : string) :
  String x a +:+ b = String x (a +:+ b).
Proof. reflexivity. Qed.

Lemma string_app_nil (b : string) : "" +:+ b = b.
Proof. reflexivity. Qed.

Lemma string_app_assoc (a b c : string) : (a +:+ b) +:+ c = a +:+ b +:+ c.
Proof.
  induction a as [|x a IH]; [reflexivity|].
  rewrite !string_app_cons. now f_equal.
Qed.

Lemma string_length_app (a b : string) :
  String.length (a +:+ b) = String.length a + String.length b.
Proof.
  induction a as [|x a IH]; [reflexivity|].
  rewrite string_app_cons. cbn [String.length]. now rewrite IH.
Qed.

Lemma string_app_empty (a : string) : a +:+ "" = a.
Proof.
  induction a as [|x a IH]; [reflexivity|].
  rewrite string_app_cons. now f_equal.
Qed.

Lemma string_get_app (pre rest : string) (i : nat) :
  String.get (String.length pre + i) (pre +:+ rest) = String.get i rest.
Proof.
  induction pre as [|x pre IH]; [reflexivity|].
  rewrite string_app_cons. cbn [String.length Nat.add String.get]. exact IH.
Qed.

Lemma string_get_here (pre rest : string) :
  String.get (String.length pre) (pre +:+ rest) = String.get 0 rest.
Proof. rewrite <- (string_get_app pre rest 0). f_equal. lia. Qed.

Lemma string_get_next (pre rest : string) :
  String.get (String.length pre + 1) (pre +:+ rest) = String.get 1 rest.
Proof. apply string_get_app. Qed.

(** Moving a character from what is ahead to what is behind. *)
Lemma string_step (pre : string) (c : ascii) (rest : string) :
  pre +:+ String c rest = (pre +:+ String c "") +:+ rest.
Proof. now rewrite string_app_assoc, string_app_cons, string_app_nil. Qed.

Lemma string_length_step (pre : string) (c : ascii) :
  String.length (pre +:+ String c "") = String.length pre + 1.
Proof. rewrite string_length_app. reflexivity. Qed.

(** ** Letters *)

Lemma alpha_not_char (c x : ascii) :
  Lexer.isAlpha c = true -> Lexer.isAlpha x = false ->
  Lexer.char_eqb c x = false.
Proof.
  intros Hc Hx. unfold Lexer.char_eqb.
  destruct (Ascii.eqb_spec c x) as [->|]; [congruence|reflexivity].
Qed.

Lemma alpha_not_digit (c : ascii) :
  Lexer.isAlpha c = true -> Lexer.isDigit c = false.
Proof.
  unfold Lexer.isAlpha, Lexer.isDigit, Lexer.char_code, Lexer.char_eqb.
  change (nat_of_ascii "0") with 48. change (nat_of_ascii "9") with 57.
  change (nat_of_ascii "a") with 97. change (nat_of_ascii "z") with 122.
  change (nat_of_ascii "A") with 65. change (nat_of_ascii "Z") with 90.
  destruct (Ascii.eqb_spec c "_") as [->|_]; [reflexivity|].
  rewrite orb_false_r.
  repeat match goal with
         | |- context [(?a <=? ?b)%nat] => destruct (Nat.leb_spec a b)
         end; cbn; try reflexivity; try discriminate; lia.
Qed.

Section Munch.
Variable P : ascii -> bool.

(** What is ahead in [source = pre ++ run ++ post]. *)
Lemma peek_run (pre : string) (c : ascii) (rest : string) (s : Lexer.state) :
  Lexer.pos s = String.length pre ->
  Lexer.peek (pre +:+ String c rest) s = Ok c s.
Proof.
  intros Hs. unfold Lexer.peek. rewrite Hs, string_get_here. reflexivity.
Qed.

Lemma peek_outside (pre post : string) (s : Lexer.state) :
  Lexer.pos s = String.length pre ->
  P Lexer.nul = false ->
  starts_outside P post ->
  exists c, Lexer.peek (pre +:+ post) s = Ok c s /\ P c = false.
Proof.
  intros Hs Hnul Hpost. unfold Lexer.peek. rewrite Hs, string_get_here.
  destruct post as [|d post]; cbn; eauto.
Qed.
End Munch.

(** ** Identifiers and keywords *)

Lemma identifier_loop_munch (run : string) :
  forall (pre post value : string) (s : Lexer.state) (fuel : nat),
    all_chars Lexer.isAlphaNumeric run = true ->
    starts_outside Lexer.isAlphaNumeric post ->
    Lexer.pos s = String.length pre ->
    String.length run < fuel ->
    Lexer.identifier_loop (pre +:+ run +:+ post) fuel value s
    = Ok (value +:+ run)
         (Lexer.mkState (String.length pre + String.length run) (Lexer.line s)
            (Lexer.column s + Z.of_nat (String.length run))).
Proof.
  induction run as [|c run IH]; intros pre post value s fuel Hrun Hpost Hs Hfuel;
    (destruct fuel as [|fuel]; [cbn in Hfuel; lia|]);
    cbn [Lexer.identifier_loop]; unfold bind at 1.
  - rewrite string_app_nil.
    destruct (peek_outside Lexer.isAlphaNumeric pre post s Hs eq_refl Hpost)
      as (d & -> & ->).
    unfold ret. rewrite string_app_empty. cbn [String.length].
    destruct s as [pos line column]. cbn in *. subst pos.
    f_equal. f_equal; lia.
  - unfold all_chars in Hrun. cbn [list_ascii_of_string forallb] in Hrun.
    apply andb_true_iff in Hrun as [Hc Hrun].
    rewrite string_app_cons. rewrite (peek_run pre c _ s Hs). rewrite Hc.
    unfold bind at 1. unfold Lexer.advance.
    rewrite Hs, string_get_here. cbn [String.get].
    rewrite string_step.
    rewrite (IH (pre +:+ String c "") post); cbn [Lexer.pos Lexer.line Lexer.column].
    + unfold Lexer.append_char.
      rewrite string_app_assoc, string_app_cons, string_app_nil.
      rewrite string_length_step. cbn [String.length]. f_equal. f_equal; lia.
    + exact Hrun.
    + exact Hpost.
    + now rewrite string_length_step.
    + cbn [String.length] in Hfuel. lia.
Qed.

(** X15: An identifier or a keyword is the longest run of letters, digits
    and underscores that starts with a letter or an underscore: its
    token carries the run, the type of the keyword if the run is one
    (else [IDENTIFIER]), and the line and column where it starts. *)
Theorem nextToken_identifier (pre : string) (c : ascii) (run post : string)
    (s : Lexer.state) (fuel : nat) :
  Lexer.isAlpha c = true ->
  all_chars Lexer.isAlphaNumeric run = true ->
  starts_outside Lexer.isAlphaNumeric post ->
  Lexer.pos s = String.length pre ->
  S (String.length run) < fuel ->
  Lexer.nextToken (pre +:+ String c run +:+ post) fuel s
  = Ok (Token.mk (word_type (String c run)) (String c run)
          (Lexer.line s) (Lexer.column s))
       (Lexer.mkState (String.length pre + S (String.length run))
          (Lexer.line s)
          (Lexer.column s + Z.of_nat (S (String.length run)))).
Proof.
  intros Hc Hrun Hpost Hs Hfuel.
  destruct fuel as [|[|fuel]]; [lia..|].
  rewrite string_app_cons.
  assert (Hend : forall rest,
             (String.length (pre +:+ String c rest) <=? String.length pre)%nat
             = false).
  { intros rest. apply Nat.leb_gt. rewrite string_length_app.
    cbn [String.length]. lia. }
  cbn [Lexer.nextToken Lexer.skipWhitespace].
  unfold bind at 1. unfold bind at 1. unfold Lexer.isAtEnd at 1.
  rewrite Hs, Hend.
  unfold bind at 1. rewrite (peek_run pre c _ s Hs).
  repeat match goal with
         | |- context [Lexer.char_eqb c ?x] =>
             rewrite (alpha_not_char c x Hc eq_refl)
         end.
  cbn [orb]. unfold ret at 1.
  unfold bind at 1. unfold Lexer.isAtEnd at 1. rewrite Hs, Hend.
  unfold bind at 1. unfold Lexer.advance at 1.
  rewrite Hs, string_get_here. cbn [String.get].
  unfold bind at 1. unfold Lexer.peek at 1.
  repeat match goal with
         | |- context [Lexer.char_eqb c ?x] =>
             rewrite (alpha_not_char c x Hc eq_refl)
         end.
  cbn [andb orb].
  rewrite (alpha_not_digit c Hc), Hc.
  unfold Lexer.identifier. unfold bind at 1.
  rewrite string_step.
  rewrite (identifier_loop_munch run (pre +:+ String c "") post);
    cbn [Lexer.pos Lexer.line Lexer.column];
    [|assumption|assumption|now rewrite string_length_step|lia].
  rewrite string_app_cons, string_app_nil.
  unfold Lexer.makeToken, word_type, strlen.
  cbn [Lexer.pos Lexer.line Lexer.column String.length].
  rewrite string_length_step.
  f_equal; [f_equal; lia|f_equal; lia].
Qed.

Lemma nextToken_identifier_witness :
  Lexer.nextToken "x = while1 + 2" 20 (Lexer.mkState 4 1 5)
  = Ok (Token.mk TokenType.IDENTIFIER "while1" 1 5) (Lexer.mkState 10 1 11).
Proof.
  apply (nextToken_identifier "x = " "w" "hile1" " + 2"); try reflexivity.
  cbn. lia.
Defined.

(** ** Strings *)

Lemma string_loop_plain (body : string) :
  forall (pre post value : string) (quote : ascii) (s : Lexer.state)
         (fuel : nat),
    all_chars (plain_char quote) body = true ->
    Lexer.pos s = String.length pre ->
    String.length body < fuel ->
    Lexer.string_loop (pre +:+ body +:+ String quote post) fuel quote value s
    = Ok (value +:+ body)
         (Lexer.mkState (String.length pre + String.length body) (Lexer.line s)
            (Lexer.column s + Z.of_nat (String.length body))).
Proof.
  induction body as [|c body IH];
    intros pre post value quote s fuel Hbody Hs Hfuel;
    (destruct fuel as [|fuel]; [cbn in Hfuel; lia|]);
    cbn [Lexer.string_loop]; unfold bind at 1; unfold Lexer.isAtEnd at 1;
    rewrite Hs.
  - rewrite string_app_nil.
    replace (String.length (pre +:+ String quote post) <=? String.length pre)%nat
      with false
      by (symmetry; apply Nat.leb_gt; rewrite string_length_app; cbn; lia).
    unfold bind at 1. rewrite (peek_run pre quote post s Hs).
    unfold Lexer.char_eqb. rewrite Ascii.eqb_refl. cbn [negb andb].
    unfold ret. rewrite string_app_empty. cbn [String.length].
    destruct s as [pos line column]. cbn in *. subst pos.
    f_equal. f_equal; lia.
  - unfold all_chars in Hbody. cbn [list_ascii_of_string forallb] in Hbody.
    apply andb_true_iff in Hbody as [Hc Hbody].
    unfold plain_char in Hc.
    apply andb_true_iff in Hc as [Hc Hnl].
    apply andb_true_iff in Hc as [Hq Hbs].
    apply negb_true_iff in Hq, Hbs, Hnl.
    rewrite string_app_cons.
    replace (String.length (pre +:+ String c (body +:+ String quote post))
             <=? String.length pre)%nat
      with false
      by (symmetry; apply Nat.leb_gt; rewrite string_length_app; cbn; lia).
    unfold bind at 1. rewrite (peek_run pre c _ s Hs).
    rewrite Hq, Hnl, Hbs. cbn [negb andb].
    unfold bind at 1. unfold ret at 1.
    unfold bind at 1. unfold Lexer.peekNext at 1.
    unfold bind at 1. unfold ret at 1.
    unfold bind at 1. unfold Lexer.advance at 1.
    rewrite Hs, string_get_here. cbn [String.get].
    rewrite string_step.
    rewrite (IH (pre +:+ String c "") post);
      cbn [Lexer.pos Lexer.line Lexer.column];
      [|assumption|now rewrite string_length_step|cbn in Hfuel; lia].
    unfold Lexer.append_char.
    rewrite string_app_assoc, string_app_cons, string_app_nil.
    rewrite string_length_step. cbn [String.length].
    f_equal. f_equal; lia.
Qed.

(** X16: A string without escapes on one line: the token carries the text
    between the quotes; its column is that of the first character of
    the text plus one, since the length of the text is subtracted from
    the column after the closing quote. *)
Theorem nextToken_string (pre body post : string) (quote : ascii)
    (s : Lexer.state) (fuel : nat) :
  is_quote quote ->
  all_chars (plain_char quote) body = true ->
  Lexer.pos s = String.length pre ->
  S (String.length body) < fuel ->
  Lexer.nextToken (pre +:+ String quote (body +:+ String quote post)) fuel s
  = Ok (Token.mk TokenType.STRING body (Lexer.line s) (Lexer.column s + 2))
       (Lexer.mkState (String.length pre + String.length body + 2)
          (Lexer.line s)
          (Lexer.column s + Z.of_nat (String.length body) + 2)).
Proof.
  intros Hquote Hbody Hs Hfuel.
  destruct fuel as [|[|fuel]]; [lia..|].
  assert (Hend : forall rest,
             (String.length (pre +:+ String quote rest)
              <=? String.length pre)%nat = false).
  { intros rest. apply Nat.leb_gt. rewrite string_length_app.
    cbn [String.length]. lia. }
  cbn [Lexer.nextToken Lexer.skipWhitespace].
  unfold bind at 1. unfold bind at 1. unfold Lexer.isAtEnd at 1.
  rewrite Hs, Hend.
  unfold bind at 1. rewrite (peek_run pre quote _ s Hs).
  assert (Hdispatch :
            forall A (k1 k2 : A),
              (if Lexer.char_eqb quote " " || Lexer.char_eqb quote Lexer.tab
                  || Lexer.char_eqb quote Lexer.carriage_return
               then k1 else k2) = k2).
  { intros A k1 k2. now destruct Hquote as [-> | ->]. }
  rewrite Hdispatch. unfold ret at 1.
  unfold bind at 1. unfold Lexer.isAtEnd at 1. rewrite Hs, Hend.
  unfold bind at 1. unfold Lexer.advance at 1.
  rewrite Hs, string_get_here. cbn [String.get].
  unfold bind at 1. unfold Lexer.peek at 1.
  cbn [Lexer.pos Lexer.line Lexer.column].
  set (s1 := Lexer.mkState (String.length pre + 1) (Lexer.line s)
               (Lexer.column s + 1)).
  set (next := default Lexer.nul (String.get _ _)).
  transitivity
    (Lexer.string_ (pre +:+ String quote (body +:+ String quote post))
       (S fuel) quote s1).
  { destruct Hquote as [-> | ->]; reflexivity. }
  unfold Lexer.string_. unfold bind at 1.
  rewrite string_step.
  rewrite (string_loop_plain body (pre +:+ String quote "") post);
    cbn [Lexer.pos Lexer.line Lexer.column];
    [|assumption|now rewrite string_length_step|lia].
  rewrite string_app_nil.
  unfold bind at 1. unfold Lexer.isAtEnd at 1. cbn [Lexer.pos].
  rewrite string_length_step.
  replace (String.length ((pre +:+ String quote "") +:+ body
                          +:+ String quote post)
           <=? String.length pre + 1 + String.length body)%nat
    with false.
  2:{ symmetry. apply Nat.leb_gt. rewrite !string_length_app.
      cbn [String.length]. lia. }
  unfold bind at 1. unfold Lexer.advance at 1.
  unfold Lexer.makeToken, strlen.
  subst s1. cbn [Lexer.pos Lexer.line Lexer.column].
  f_equal; [f_equal; lia|f_equal; lia].
Qed.

Lemma nextToken_string_witness :
  Lexer.nextToken "print('hi there')" 20 (Lexer.mkState 6 1 7)
  = Ok (Token.mk TokenType.STRING "hi there" 1 9) (Lexer.mkState 16 1 17).
Proof.
  apply (nextToken_string "print(" "hi there" ")" "'"); try reflexivity.
  - now right.
  - cbn. lia.
Defined.

(** ** Strings that are not closed *)

Lemma string_loop_open (body : string) :
  forall (pre value : string) (quote : ascii) (s : Lexer.state) (fuel : nat),
    is_quote quote ->
    all_chars (fun c => negb (Lexer.char_eqb c quote)) body = true ->
    Lexer.pos s = String.length pre ->
    String.length body < fuel ->
    exists s',
      Lexer.string_loop (pre +:+ body) fuel quote value s
      = Ok (value +:+ body) s'
      /\ Lexer.pos s' = String.length pre + String.length body
      /\ (Lexer.line s <= Lexer.line s')%Z.
Proof.
  induction body as [|c body IH];
    intros pre value quote s fuel Hquote Hbody Hs Hfuel;
    (destruct fuel as [|fuel]; [cbn in Hfuel; lia|]);
    cbn [Lexer.string_loop]; unfold bind at 1; unfold Lexer.isAtEnd at 1;
    rewrite Hs.
  - rewrite !string_app_empty, Nat.leb_refl.
    unfold bind at 1. unfold Lexer.peek at 1. cbn [negb andb]. unfold ret.
    exists s. cbn [String.length]. split; [reflexivity|]. split; lia.
  - unfold all_chars in Hbody. cbn [list_ascii_of_string forallb] in Hbody.
    apply andb_true_iff in Hbody as [Hc Hbody]. apply negb_true_iff in Hc.
    replace (String.length (pre +:+ String c body) <=? String.length pre)%nat
      with false
      by (symmetry; apply Nat.leb_gt; rewrite string_length_app; cbn; lia).
    unfold bind at 1. rewrite (peek_run pre c _ s Hs).
    rewrite Hc. cbn [negb andb].
    assert (Hnext : Lexer.char_eqb
                      (default Lexer.nul
                         (String.get (String.length pre + 1)
                            (pre +:+ String c body))) quote = false).
    { rewrite string_get_next. cbn [String.get].
      destruct body as [|d body]; cbn [String.get default from_option id].
      - destruct Hquote as [-> | ->]; reflexivity.
      - unfold all_chars in Hbody. cbn [list_ascii_of_string forallb] in Hbody.
        apply andb_true_iff in Hbody as [Hd _]. now apply negb_true_iff in Hd. }
    assert (Hstep : forall s1,
               Lexer.pos s1 = String.length pre ->
               (Lexer.line s <= Lexer.line s1)%Z ->
               exists s',
                 (let* next := Lexer.peekNext (pre +:+ String c body) in
                  let* _ :=
                    (if Lexer.char_eqb c "\" && Lexer.char_eqb next quote
                     then let* _ := Lexer.advance (pre +:+ String c body) in
                          ret tt
                     else ret tt) in
                  let* c0 := Lexer.advance (pre +:+ String c body) in
                  Lexer.string_loop (pre +:+ String c body) fuel quote
                    (Lexer.append_char value c0)) s1
                 = Ok (value +:+ String c body) s'
                 /\ Lexer.pos s' = String.length pre + String.length (String c body)
                 /\ (Lexer.line s <= Lexer.line s')%Z).
    { intros s1 Hs1 Hline.
      unfold bind at 1. unfold Lexer.peekNext at 1. rewrite Hs1, Hnext.
      rewrite andb_false_r. unfold bind at 1. unfold ret at 1.
      unfold bind at 1. unfold Lexer.advance at 1.
      rewrite Hs1, string_get_here. cbn [String.get].
      rewrite string_step.
      destruct (IH (pre +:+ String c "")
                  (Lexer.append_char value (Some c)) quote
                  (Lexer.mkState (String.length pre + 1) (Lexer.line s1)
                     (Lexer.column s1 + 1)) fuel)
        as (s' & -> & Hpos & Hl); cbn [Lexer.pos Lexer.line];
        [assumption|assumption|now rewrite string_length_step
        |cbn in Hfuel; lia|].
      exists s'. unfold Lexer.append_char.
      rewrite string_app_assoc, string_app_cons, string_app_nil.
      split; [reflexivity|]. rewrite string_length_step in Hpos.
      cbn [String.length Lexer.line] in *. split; lia. }
    destruct (Lexer.char_eqb c Lexer.newline).
    + unfold bind at 1. unfold Lexer.next_line at 1.
      apply Hstep; cbn [Lexer.pos Lexer.line]; [assumption|lia].
    + unfold bind at 1. unfold ret at 1. apply Hstep; [assumption|lia].
Qed.

(** X17: A quote that is never closed swallows the rest of the source: the
    scanner reaches the end of the text and returns the ERROR token
    [Unterminated string], whose column is the last column less the 19
    characters of that message. *)
Theorem nextToken_unterminated (pre body : string) (quote : ascii)
    (s : Lexer.state) (fuel : nat) :
  is_quote quote ->
  all_chars (fun c => negb (Lexer.char_eqb c quote)) body = true ->
  Lexer.pos s = String.length pre ->
  S (String.length body) < fuel ->
  exists s',
    Lexer.nextToken (pre +:+ String quote body) fuel s
    = Ok (Token.mk TokenType.ERROR "Unterminated string" (Lexer.line s')
            (Lexer.column s' - 19)) s'
    /\ Lexer.pos s' = String.length (pre +:+ String quote body)
    /\ (Lexer.line s <= Lexer.line s')%Z.
Proof.
  intros Hquote Hbody Hs Hfuel.
  destruct fuel as [|[|fuel]]; [lia..|].
  assert (Hend : forall rest,
             (String.length (pre +:+ String quote rest)
              <=? String.length pre)%nat = false).
  { intros rest. apply Nat.leb_gt. rewrite string_length_app.
    cbn [String.length]. lia. }
  cbn [Lexer.nextToken Lexer.skipWhitespace].
  unfold bind at 1. unfold bind at 1. unfold Lexer.isAtEnd at 1.
  rewrite Hs, Hend.
  unfold bind at 1. rewrite (peek_run pre quote _ s Hs).
  assert (Hdispatch :
            forall A (k1 k2 : A),
              (if Lexer.char_eqb quote " " || Lexer.char_eqb quote Lexer.tab
                  || Lexer.char_eqb quote Lexer.carriage_return
               then k1 else k2) = k2).
  { intros A k1 k2. now destruct Hquote as [-> | ->]. }
  rewrite Hdispatch. unfold ret at 1.
  unfold bind at 1. unfold Lexer.isAtEnd at 1. rewrite Hs, Hend.
  unfold bind at 1. unfold Lexer.advance at 1.
  rewrite Hs, string_get_here. cbn [String.get].
  unfold bind at 1. unfold Lexer.peek at 1.
  cbn [Lexer.pos Lexer.line Lexer.column].
  set (s1 := Lexer.mkState (String.length pre + 1) (Lexer.line s)
               (Lexer.column s + 1)).
  set (next := default Lexer.nul (String.get _ _)).
  match goal with
  | |- exists s', ?lhs = _ /\ _ =>
      assert (Hgo : lhs = Lexer.string_ (pre +:+ String quote body) (S fuel)
                            quote s1)
        by (destruct Hquote as [-> | ->]; reflexivity);
      rewrite Hgo; clear Hgo
  end.
  unfold Lexer.string_. unfold bind at 1.
  rewrite string_step.
  destruct (string_loop_open body (pre +:+ String quote "") "" quote s1
              (S fuel))
    as (s' & -> & Hpos & Hline);
    [assumption|assumption|subst s1; now rewrite string_length_step|lia|].
  rewrite string_length_step in Hpos.
  unfold bind at 1. unfold Lexer.isAtEnd at 1.
  replace (String.length ((pre +:+ String quote "") +:+ body)
           <=? Lexer.pos s')%nat
    with true.
  2:{ symmetry. apply Nat.leb_le. rewrite !string_length_app.
      cbn [String.length]. lia. }
  unfold Lexer.makeToken, strlen. cbn [String.length].
  exists s'. split; [reflexivity|]. split.
  - rewrite !string_length_app. cbn [String.length]. lia.
  - exact Hline.
Qed.

Lemma nextToken_unterminated_witness :
  exists s',
    Lexer.nextToken "let s = 'abc" 20 (Lexer.mkState 8 1 9)
    = Ok (Token.mk TokenType.ERROR "Unterminated string" (Lexer.line s')
            (Lexer.column s' - 19)) s'
    /\ Lexer.pos s' = 12
    /\ (1 <= Lexer.line s')%Z.
Proof.
  apply (nextToken_unterminated "let s = " "abc" "'"); try reflexivity.
  - now right.
  - cbn. lia.
Defined.

(** * The scanner counts the lines *)

Lemma newlines_step (s : string) (n : nat) :
  newlines s (S n)
  = (newlines s n
     + match String.get n s with
       | Some c => if Ascii.eqb c Lexer.newline then 1 else 0
       | None => 0
       end)%Z.
Proof.
  revert n. induction s as [|c s IH]; intros n.
  - destruct n; reflexivity.
  - destruct n as [|n].
    + cbn [newlines String.get]. destruct s; cbn [newlines]; lia.
    + change (newlines (String c s) (S (S n)))
        with ((if Ascii.eqb c Lexer.newline then 1 else 0)
              + newlines s (S n))%Z.
      rewrite IH. cbn [newlines String.get]. lia.
Qed.

Lemma newlines_beyond (s : string) (n : nat) :
  String.length s <= n -> newlines s n = newlines s (String.length s).
Proof.
  revert n. induction s as [|c s IH]; intros n Hn.
  - destruct n; reflexivity.
  - destruct n as [|n]; [cbn in Hn; lia|].
    cbn [newlines String.length]. rewrite (IH n); [reflexivity|].
    cbn in Hn. lia.
Qed.

Section LineCount.
Variable source : string.
#[local] Abbreviation counted := (line_counted source).
#[local] Abbreviation keeps := (keeps_count source).

Lemma advance_counted (s : Lexer.state) column :
  counted s -> ahead source s <> Lexer.newline ->
  counted (Lexer.mkState (Lexer.pos s + 1) (Lexer.line s) column).
Proof.
  unfold line_counted, ahead. cbn [Lexer.pos Lexer.line]. intros -> Hne.
  replace (Lexer.pos s + 1) with (S (Lexer.pos s)) by lia.
  rewrite newlines_step.
  destruct (String.get (Lexer.pos s) source) as [c|]; [|lia].
  cbn [default from_option id] in Hne.
  destruct (Ascii.eqb_spec c Lexer.newline); [congruence|lia].
Qed.

Lemma newline_counted (s : Lexer.state) column :
  counted s -> ahead source s = Lexer.newline ->
  counted (Lexer.mkState (Lexer.pos s + 1) (Lexer.line s + 1) column).
Proof.
  unfold line_counted, ahead. cbn [Lexer.pos Lexer.line]. intros -> He.
  replace (Lexer.pos s + 1) with (S (Lexer.pos s)) by lia.
  rewrite newlines_step.
  destruct (String.get (Lexer.pos s) source) as [c|];
    cbn [default from_option id] in He; [|discriminate].
  subst c. rewrite Ascii.eqb_refl. lia.
Qed.

Lemma char_eqb_true (a b : ascii) : Lexer.char_eqb a b = true -> a = b.
Proof. apply Ascii.eqb_eq. Qed.

Lemma char_eqb_false (a b : ascii) : Lexer.char_eqb a b = false -> a <> b.
Proof. apply Ascii.eqb_neq. Qed.

Ltac lex :=
  unfold keeps_count, bind, ret, out_of_fuel, Lexer.isAtEnd, Lexer.peek,
    Lexer.peekNext, Lexer.advance, Lexer.makeToken, Lexer.next_line in *;
  cbn [Lexer.pos Lexer.line Lexer.column] in *.

(** The condition [E] under which the character ahead is consumed
    does not hold of a newline. *)
Ltac not_newline E :=
  let H := fresh in
  unfold ahead; cbn [Lexer.pos]; intros H; rewrite H in E;
  discriminate E.

Lemma skipWhitespace_counts fuel s :
  counted s -> keeps (Lexer.skipWhitespace source fuel s).
Proof.
  revert s. induction fuel as [|fuel IH]; intros s Hs;
    cbn [Lexer.skipWhitespace]; lex; [exact I|].
  destruct (String.length source <=? Lexer.pos s)%nat; [exact Hs|].
  destruct (_ || _) eqn:E; [|exact Hs].
  apply IH. apply advance_counted; [assumption|]. not_newline E.
Qed.

Lemma skipLineComment_counts fuel s :
  counted s -> keeps (Lexer.skipLineComment source fuel s).
Proof.
  revert s. induction fuel as [|fuel IH]; intros s Hs;
    cbn [Lexer.skipLineComment]; lex; [exact I|].
  destruct (negb _ && negb _) eqn:E; [|exact Hs].
  apply andb_true_iff in E as [_ E].
  apply IH. apply advance_counted; [assumption|]. not_newline E.
Qed.

Lemma digits_loop_counts fuel value s :
  counted s -> keeps (Lexer.digits_loop source fuel value s).
Proof.
  revert value s. induction fuel as [|fuel IH]; intros value s Hs;
    cbn [Lexer.digits_loop]; lex; [exact I|].
  destruct (Lexer.isDigit _) eqn:E; [|exact Hs].
  apply IH. apply advance_counted; [assumption|]. not_newline E.
Qed.

Lemma identifier_loop_counts fuel value s :
  counted s -> keeps (Lexer.identifier_loop source fuel value s).
Proof.
  revert value s. induction fuel as [|fuel IH]; intros value s Hs;
    cbn [Lexer.identifier_loop]; lex; [exact I|].
  destruct (Lexer.isAlphaNumeric _) eqn:E; [|exact Hs].
  apply IH. apply advance_counted; [assumption|]. not_newline E.
Qed.

Lemma string_loop_counts fuel quote value s :
  quote <> Lexer.newline ->
  counted s ->
  match Lexer.string_loop source fuel quote value s with
  | Ok _ s' =>
      counted s'
      /\ (String.length source <= Lexer.pos s' \/ ahead source s' = quote)
  | _ => True
  end.
Proof.
  intros Hquote. revert value s.
  induction fuel as [|fuel IH]; intros value s Hs;
    cbn [Lexer.string_loop]; lex; [exact I|].
  destruct (String.length source <=? Lexer.pos s)%nat eqn:Ee;
    cbn [negb andb].
  { apply Nat.leb_le in Ee. auto. }
  destruct (Lexer.char_eqb _ quote) eqn:Eq; cbn [negb].
  { apply char_eqb_true in Eq. auto. }
  destruct (Lexer.char_eqb _ Lexer.newline) eqn:En.
  - pose proof (char_eqb_true _ _ En) as Hn. rewrite Hn.
    change (Lexer.char_eqb Lexer.newline "\") with false. cbn [andb]. lex.
    apply IH. now apply newline_counted.
  - assert (Hne : ahead source s <> Lexer.newline)
      by (now apply char_eqb_false).
    destruct (_ && _) eqn:Eesc; lex.
    + apply andb_true_iff in Eesc as [_ Eesc].
      apply char_eqb_true in Eesc.
      apply IH.
      apply (advance_counted
               (Lexer.mkState (Lexer.pos s + 1) (Lexer.line s)
                  (Lexer.column s + 1))).
      * now apply advance_counted.
      * unfold ahead. cbn [Lexer.pos]. congruence.
    + apply IH. now apply advance_counted.
Qed.

Lemma string_counts fuel quote s :
  quote <> Lexer.newline ->
  counted s -> keeps (Lexer.string_ source fuel quote s).
Proof.
  intros Hquote Hs. unfold Lexer.string_. unfold bind at 1.
  pose proof (string_loop_counts fuel quote "" s Hquote Hs) as X.
  destruct (Lexer.string_loop source fuel quote "" s) as [value s1| |];
    [|exact I..].
  destruct X as [Hs1 Hexit]. lex.
  destruct (String.length source <=? Lexer.pos s1)%nat eqn:Ee;
    [exact Hs1|].
  apply Nat.leb_gt in Ee. destruct Hexit as [?|Hq]; [lia|].
  apply advance_counted; [assumption|congruence].
Qed.

Lemma number_counts fuel first s :
  counted s -> keeps (Lexer.number source fuel first s).
Proof.
  intros Hs. unfold Lexer.number. unfold bind at 1.
  pose proof (digits_loop_counts fuel (String first EmptyString) s Hs) as X.
  destruct (Lexer.digits_loop source fuel _ s) as [value s1| |];
    [|exact I..].
  lex. destruct (_ && _) eqn:E; [|exact X].
  apply andb_true_iff in E as [E _].
  match goal with
  | |- context [Lexer.digits_loop ?src ?f ?v ?s'] =>
      pose proof (digits_loop_counts f v s') as Y;
      destruct (Lexer.digits_loop src f v s'); [|exact I..]
  end.
  apply Y. apply advance_counted; [assumption|]. not_newline E.
Qed.

Lemma identifier_counts fuel first s :
  counted s -> keeps (Lexer.identifier source fuel first s).
Proof.
  intros Hs. unfold Lexer.identifier. unfold bind at 1.
  pose proof (identifier_loop_counts fuel (String first EmptyString) s Hs)
    as X.
  destruct (Lexer.identifier_loop source fuel _ s) as [value s1| |];
    [|exact I..].
  lex. exact X.
Qed.

Lemma one_or_two_counts c two text2 one text1 s :
  c <> Lexer.newline ->
  counted s -> keeps (Lexer.one_or_two source c two text2 one text1 s).
Proof.
  intros Hc Hs. unfold Lexer.one_or_two. lex.
  destruct (Lexer.char_eqb _ c) eqn:E; [|exact Hs].
  apply char_eqb_true in E.
  apply advance_counted; [assumption|]. unfold ahead. congruence.
Qed.

Lemma nextToken_counts fuel s :
  counted s -> keeps (Lexer.nextToken source fuel s).
Proof.
  revert s. induction fuel as [|fuel IH]; intros s Hs;
    cbn [Lexer.nextToken]; [exact I|].
  unfold bind at 1.
  pose proof (skipWhitespace_counts fuel s Hs) as Hs1.
  destruct (Lexer.skipWhitespace source fuel s) as [[] s1| |]; [|exact I..].
  unfold keeps_count in Hs1.
  unfold bind at 1. unfold Lexer.isAtEnd at 1.
  destruct (String.length source <=? Lexer.pos s1)%nat.
  { exact Hs1. }
  unfold bind at 1. unfold Lexer.advance at 1.
  destruct (String.get (Lexer.pos s1) source) as [char|] eqn:Hchar;
    [|exact I].
  unfold bind at 1. unfold Lexer.peek at 1. cbn [Lexer.pos].
  assert (Hahead : ahead source s1 = char)
    by (unfold ahead; now rewrite Hchar).
  destruct (Ascii.eqb_spec char Lexer.newline) as [->|Hne].
  - repeat match goal with
           | |- context [Lexer.char_eqb Lexer.newline ?x] =>
               let v := eval vm_compute in (Lexer.char_eqb Lexer.newline x) in
               change (Lexer.char_eqb Lexer.newline x) with v
           end.
    cbn [andb orb]. cbv iota. lex. now apply newline_counted.
  - assert (Hs2 : counted (Lexer.mkState (Lexer.pos s1 + 1) (Lexer.line s1)
                             (Lexer.column s1 + 1))).
    { apply advance_counted; [assumption|congruence]. }
    repeat match goal with
           | |- context [if ?b then _ else _] => destruct b eqn:?
           end.
    all: try exact Hs2.
    all: try (apply one_or_two_counts; [discriminate|exact Hs2]).
    all: try (apply number_counts; exact Hs2).
    all: try (apply identifier_counts; exact Hs2).
    all: try (apply string_counts; [exact Hne|exact Hs2]).
    all: try (match goal with
              | E : Lexer.char_eqb _ Lexer.newline = true |- _ =>
                  apply char_eqb_true in E; congruence
              end).
    all: try (match goal with
              | E : _ && _ = true |- _ =>
                  let E' := fresh in
                  apply andb_true_iff in E; destruct E as [_ E']; lex;
                  apply (advance_counted _ _ Hs2); not_newline E'
              end).
    unfold bind at 1.
    match goal with
    | |- context [Lexer.skipLineComment _ ?f ?s'] =>
        pose proof (skipLineComment_counts f s' Hs2) as Hs3;
        destruct (Lexer.skipLineComment source f s') as [[] s3| |];
        [|exact I..]
    end.
    now apply IH.
Qed.

Lemma tokenize_loop_counts fuel tokens s :
  counted s ->
  match Lexer.tokenize_loop source fuel tokens s with
  | Ok tokens' s' =>
      Lexer.line s' = (1 + newlines source (String.length source))%Z
      /\ exists t,
           last tokens' = Some t
           /\ Token.type t = TokenType.EOF
           /\ Token.line t = Lexer.line s'
  | _ => True
  end.
Proof.
  revert tokens s. induction fuel as [|fuel IH]; intros tokens s Hs;
    cbn [Lexer.tokenize_loop]; [exact I|].
  unfold bind at 1. unfold Lexer.isAtEnd at 1.
  destruct (String.length source <=? Lexer.pos s)%nat eqn:E.
  - apply Nat.leb_le in E. unfold Lexer.makeToken, bind, ret. split.
    + rewrite Hs. now rewrite newlines_beyond.
    + eexists. rewrite last_snoc. repeat split; reflexivity.
  - unfold bind at 1.
    pose proof (nextToken_counts fuel s Hs) as Hs1.
    destruct (Lexer.nextToken source fuel s) as [token s1| |]; [|exact I..].
    destruct (TokenType.eqb _ _); now apply IH.
Qed.

End LineCount.

(** X18: The scanner's line count is right: [tokenize] ends on the line
    whose number is one more than the number of newline characters in
    the source, whether they stand between tokens, in strings or at
    the end of comments; the last token, the end of input, is on that
    line. *)
Theorem tokenize_line_count (source : string) (tokens : list Token.t)
    (s : Lexer.state) :
  Lexer.tokenize source = Ok tokens s ->
  Lexer.line s = (1 + newlines source (String.length source))%Z
  /\ exists t,
       last tokens = Some t
       /\ Token.type t = TokenType.EOF
       /\ Token.line t = Lexer.line s.
Proof.
  intros H. unfold Lexer.tokenize in H.
  assert (H0 : line_counted source (Lexer.mkState 0 1 1))
    by (destruct source; reflexivity).
  pose proof (tokenize_loop_counts source (Lexer.tokenize_fuel source) []
                (Lexer.mkState 0 1 1) H0) as X.
  now rewrite H in X.
Qed.

Lemma tokenize_line_count_witness :
  let source :=
    String.concat (String Lexer.newline EmptyString)
      ["let a = 'x"; "y' // c"; "a"] in
  exists tokens s,
    Lexer.tokenize source = Ok tokens s
    /\ Lexer.line s = (1 + newlines source (String.length source))%Z
    /\ exists t,
         last tokens = Some t
         /\ Token.type t = TokenType.EOF
         /\ Token.line t = Lexer.line s.
Proof.
  intros source.
  let r := eval vm_compute in (Lexer.tokenize source) in
  match r with
  | Ok ?tokens ?s =>
      exists tokens, s; split; [vm_compute; reflexivity|];
      exact (tokenize_line_count source tokens s
               ltac:(vm_compute; reflexivity))
  end.
Defined.

(** * The environments of the interpreter *)

Section Scopes.

Context {Value : Type}.

Implicit Types (h : Environment.heap Value) (this : ref) (l : list ref).

Lemma scopes_head h this l :
  scopes h this l -> exists l', l = this :: l' /\ is_Some (h !! this).
Proof. destruct 1; eauto. Qed.

Lemma scopes_det h this l l' :
  scopes h this l -> scopes h this l' -> l = l'.
Proof.
  intros H. revert l'.
  induction H as [this env Hthis Hp|this env p l Hthis Hp H IH];
    intros l' H'; inversion H'; simplify_eq; [reflexivity|].
  f_equal. now apply IH.
Qed.

Lemma scopes_allocated h this l this' :
  scopes h this l -> this' ∈ l -> is_Some (h !! this').
Proof.
  induction 1 as [this env Hthis Hp|this env p l Hthis Hp _ IH];
    intros Hin.
  - apply list_elem_of_singleton in Hin as ->. eauto.
  - apply elem_of_cons in Hin as [->|Hin]; eauto.
Qed.

Lemma scopes_from h this l this' :
  scopes h this l -> this' ∈ l ->
  exists l', scopes h this' l' /\ length l' <= length l.
Proof.
  induction 1 as [this env Hthis Hp|this env p l Hthis Hp H IH];
    intros Hin.
  - apply list_elem_of_singleton in Hin as ->.
    exists [this]. split; [eapply scopes_global; eassumption|reflexivity].
  - apply elem_of_cons in Hin as [->|Hin].
    + exists (this :: l).
      split; [eapply scopes_inner; eassumption|reflexivity].
    + destruct (IH Hin) as (l' & ? & ?). exists l'. cbn. split; [easy|lia].
Qed.

(** A chain of scopes never comes back to one of its environments. *)
Lemma scopes_NoDup h this l : scopes h this l -> NoDup l.
Proof.
  induction 1 as [this env Hthis Hp|this env p l Hthis Hp H IH].
  - apply NoDup_singleton.
  - apply NoDup_cons. split; [|assumption]. intros Hin.
    destruct (scopes_from _ _ _ _ H Hin) as (l' & H' & Hlen).
    pose proof (scopes_det _ _ _ _ H' (scopes_inner _ _ _ _ _ Hthis Hp H))
      as ->.
    cbn in Hlen. lia.
Qed.

Lemma scopes_length h this l : scopes h this l -> length l <= size h.
Proof.
  intros H. unfold Environment.heap in h.
  rewrite <- (size_dom (D := gset ref) h). unfold size, set_size. cbn.
  apply submseteq_length, NoDup_submseteq.
  - exact (scopes_NoDup _ _ _ H).
  - intros x Hx. apply elem_of_elements, elem_of_dom.
    exact (scopes_allocated _ _ _ _ H Hx).
Qed.

(** Chains depend on the [parent] fields only. *)
Lemma scopes_parents h h' this l :
  (forall this', this' ∈ l -> parent_at h' this' = parent_at h this') ->
  scopes h this l -> scopes h' this l.
Proof.
  intros Hsame H.
  induction H as [this env Hthis Hp|this env p l Hthis Hp H IH].
  - pose proof (Hsame this ltac:(set_solver)) as E.
    unfold parent_at in E. rewrite Hthis in E.
    destruct (h' !! this) as [env'|] eqn:E'; [|discriminate].
    injection E as E.
    eapply scopes_global; [eassumption|now rewrite E].
  - pose proof (Hsame this ltac:(set_solver)) as E.
    unfold parent_at in E. rewrite Hthis in E.
    destruct (h' !! this) as [env'|] eqn:E'; [|discriminate].
    injection E as E.
    eapply scopes_inner; [eassumption|rewrite E; exact Hp|].
    apply IH. intros. apply Hsame. set_solver.
Qed.

Lemma resolve_ext h h' name l :
  (forall this, this ∈ l -> defines h' name this = defines h name this) ->
  resolve h' name l = resolve h name l.
Proof.
  unfold resolve. induction l as [|x l IH]; intros Hsame; [reflexivity|].
  cbn [find]. rewrite (Hsame x ltac:(set_solver)).
  destruct (defines h name x); [reflexivity|].
  apply IH. intros. apply Hsame. set_solver.
Qed.

Lemma resolve_defines h name l this :
  resolve h name l = Some this -> this ∈ l /\ defines h name this = true.
Proof.
  unfold resolve. intros H. apply find_some in H as [Hin ?].
  split; [|assumption]. now apply list_elem_of_In.
Qed.

Lemma visible_ext h h' name l :
  (forall this, this ∈ l -> value_at h' name this = value_at h name this) ->
  visible h' name l = visible h name l.
Proof.
  intros Hsame. unfold visible.
  rewrite (resolve_ext h h' name l).
  - destruct (resolve h name l) as [this|] eqn:E; [|reflexivity].
    apply Hsame. now apply resolve_defines in E.
  - intros this Hin. unfold defines. now rewrite Hsame.
Qed.

Lemma deref_allocated h this env :
  h !! this = Some env -> Environment.deref this h = Ok env h.
Proof. unfold Environment.deref. now intros ->. Qed.

(** [get] finds the value visible along the chain. *)
Lemma get_visible h this l name fuel :
  scopes h this l -> length l <= fuel ->
  Environment.get fuel this name h
  = match visible h name l with
    | Some value => Ok value h
    | None => Throw (Environment.undefined_variable name)
    end.
Proof.
  intros H. revert fuel.
  induction H as [this env Hthis Hp|this env p l Hthis Hp H IH];
    intros [|fuel] Hfuel; cbn in Hfuel; try lia;
    cbn [Environment.get]; unfold bind;
    rewrite (deref_allocated _ _ _ Hthis);
    unfold visible, resolve; cbn [find];
    unfold defines at 1, value_at at 1; rewrite Hthis.
  - destruct (Environment.values env !! name) as [value|] eqn:E.
    + unfold value_at. now rewrite Hthis, E.
    + now rewrite Hp.
  - destruct (Environment.values env !! name) as [value|] eqn:E.
    + unfold value_at. now rewrite Hthis, E.
    + rewrite Hp. apply IH. lia.
Qed.

(** The heap in which the map of [this] holds [value] for [name]. *)
Lemma values_set_allocated h this env name value :
  h !! this = Some env ->
  Environment.values_set this name value h
  = Ok tt (<[this := Environment.mk (<[name := value]>
                                       (Environment.values env))
                       (Environment.parent env)]> h).
Proof.
  intros Hthis. unfold Environment.values_set, bind.
  now rewrite (deref_allocated _ _ _ Hthis).
Qed.

Lemma value_at_set h this env name value name' this' :
  h !! this = Some env ->
  value_at (<[this := Environment.mk (<[name := value]>
                                        (Environment.values env))
                        (Environment.parent env)]> h) name' this'
  = if bool_decide (this' = this /\ name' = name) then Some value
    else value_at h name' this'.
Proof.
  intros Hthis. unfold value_at, Environment.heap in *.
  destruct (decide (this' = this)) as [->|Hne].
  - rewrite lookup_insert_eq, Hthis. cbn [Environment.values].
    destruct (decide (name' = name)) as [->|Hn].
    + rewrite lookup_insert_eq. now rewrite bool_decide_eq_true_2.
    + rewrite lookup_insert_ne by congruence.
      rewrite bool_decide_eq_false_2; [reflexivity|]. now intros [].
  - rewrite lookup_insert_ne by congruence.
    rewrite bool_decide_eq_false_2; [reflexivity|]. now intros [].
Qed.

Lemma parent_at_set h this env values this' :
  h !! this = Some env ->
  parent_at (<[this := Environment.mk values (Environment.parent env)]> h)
    this'
  = parent_at h this'.
Proof.
  intros Hthis. unfold parent_at, Environment.heap in *.
  destruct (decide (this' = this)) as [->|Hne].
  - now rewrite lookup_insert_eq, Hthis.
  - now rewrite lookup_insert_ne by congruence.
Qed.

(** [assign] writes to the first environment of the chain that has
    the name. *)
Lemma assign_resolve h this l name value fuel :
  scopes h this l -> length l <= fuel ->
  Environment.assign fuel this name value h
  = match resolve h name l with
    | Some this' => Environment.values_set this' name value h
    | None => Throw (Environment.undefined_variable name)
    end.
Proof.
  intros H. revert fuel.
  induction H as [this env Hthis Hp|this env p l Hthis Hp H IH];
    intros [|fuel] Hfuel; cbn in Hfuel; try lia;
    cbn [Environment.assign]; unfold bind at 1;
    rewrite (deref_allocated _ _ _ Hthis);
    unfold resolve; cbn [find];
    unfold defines at 1, value_at at 1; rewrite Hthis.
  - destruct (Environment.values env !! name) as [value'|] eqn:E;
      [reflexivity|now rewrite Hp].
  - destruct (Environment.values env !! name) as [value'|] eqn:E;
      [reflexivity|].
    rewrite Hp. apply IH. lia.
Qed.

Lemma answer_get h h' this l name fuel :
  scopes h this l -> length l <= fuel ->
  (forall this', this' ∈ l -> parent_at h' this' = parent_at h this') ->
  (forall this', this' ∈ l ->
                 value_at h' name this' = value_at h name this') ->
  answer (Environment.get fuel this name h')
  = answer (Environment.get fuel this name h).
Proof.
  intros H Hfuel Hp Hv.
  rewrite (get_visible h this l name fuel H Hfuel).
  rewrite (get_visible h' this l name fuel
             (scopes_parents _ _ _ _ Hp H) Hfuel).
  rewrite (visible_ext h h' name l Hv).
  now destruct (visible h name l).
Qed.

(** What a successful [assign] does to the heap. *)
Lemma assign_effect h this l name value fuel h' :
  scopes h this l -> length l <= fuel ->
  Environment.assign fuel this name value h = Ok tt h' ->
  exists this',
    resolve h name l = Some this'
    /\ (forall name' this'',
           value_at h' name' this''
           = if bool_decide (this'' = this' /\ name' = name)
             then Some value else value_at h name' this'')
    /\ (forall this'', parent_at h' this'' = parent_at h this'').
Proof.
  intros H Hfuel Ha. rewrite (assign_resolve _ _ _ _ _ _ H Hfuel) in Ha.
  destruct (resolve h name l) as [this'|] eqn:E; [|discriminate].
  exists this'. split; [reflexivity|].
  destruct (resolve_defines _ _ _ _ E) as [_ Hd].
  unfold defines, value_at in Hd.
  destruct (h !! this') as [env'|] eqn:Hthis'; [|discriminate].
  rewrite (values_set_allocated _ _ _ _ _ Hthis') in Ha.
  injection Ha as <-. split.
  - intros. now apply value_at_set.
  - intros. now apply parent_at_set.
Qed.

Lemma defines_assigned h h' name value this' :
  defines h name this' = true ->
  (forall name' this'',
      value_at h' name' this''
      = if bool_decide (this'' = this' /\ name' = name)
        then Some value else value_at h name' this'') ->
  forall name' this'', defines h' name' this'' = defines h name' this''.
Proof.
  intros Hd Hv name' this''. unfold defines at 1. rewrite Hv.
  destruct (bool_decide_reflect (this'' = this' /\ name' = name))
    as [[-> ->]|_]; [now rewrite Hd|reflexivity].
Qed.

Lemma assign_Ok fuel this name value h h' :
  Environment.assign fuel this name value h = Ok tt h' ->
  exists this' env',
    h !! this' = Some env'
    /\ h' = <[this' := Environment.mk (<[name := value]>
                                         (Environment.values env'))
                         (Environment.parent env')]> h.
Proof.
  revert this. induction fuel as [|fuel IH]; intros this;
    cbn [Environment.assign]; [discriminate|].
  unfold bind at 1. unfold Environment.deref at 1.
  destruct (h !! this) as [env|] eqn:Hthis; [|discriminate].
  destruct (Environment.values env !! name).
  - rewrite (values_set_allocated _ _ _ _ _ Hthis). intros [= <-]. eauto.
  - destruct (Environment.parent env); [apply IH|discriminate].
Qed.

Lemma closed_values_set h this env values :
  closed h -> h !! this = Some env ->
  closed (<[this := Environment.mk values (Environment.parent env)]> h).
Proof.
  intros Hc Hthis this' env' H'.
  assert (exists env'', h !! this' = Some env'') as [env'' H''].
  { unfold Environment.heap in *.
    destruct (decide (this' = this)) as [->|Hne]; [eauto|].
    rewrite lookup_insert_ne in H' by congruence. eauto. }
  destruct (Hc _ _ H'') as [l Hl]. exists l.
  eapply scopes_parents; [|exact Hl].
  intros. now apply parent_at_set.
Qed.

Lemma value_at_new h this parent name this' :
  h !! this = None ->
  is_Some (h !! this') ->
  value_at (<[this := Environment.mk ∅ parent]> h) name this'
  = value_at h name this'
  /\ parent_at (<[this := Environment.mk ∅ parent]> h) this'
     = parent_at h this'.
Proof.
  intros Hfresh [env' H']. unfold value_at, parent_at, Environment.heap in *.
  rewrite lookup_insert_ne by congruence. now rewrite H'.
Qed.

Lemma scopes_new h this parent this' l :
  h !! this = None -> scopes h this' l ->
  scopes (<[this := Environment.mk ∅ parent]> h) this' l.
Proof.
  intros Hfresh H. eapply scopes_parents; [|exact H].
  intros x Hx.
  exact (proj2 (value_at_new h this parent EmptyString x Hfresh
                  (scopes_allocated _ _ _ _ H Hx))).
Qed.

Lemma new_fresh h parent this h' :
  Environment.new parent h = Ok this h' ->
  h !! this = None /\ h' = <[this := Environment.mk ∅ parent]> h.
Proof.
  unfold Environment.new. intros [= <- <-]. split; [|reflexivity].
  unfold Environment.heap in *.
  apply (not_elem_of_dom (D := gset ref)). apply is_fresh.
Qed.

End Scopes.

(** X19: Lexical scoping.  [get] returns the value of the innermost scope
    that has the name and leaves every environment as it was; when no
    scope of the chain has the name it throws "Undefined variable".
    A chain is never longer than the heap is large, so fuel of that
    size is enough. *)
Theorem get_innermost {Value} (h : Environment.heap Value) (this : ref)
    (l : list ref) (name : string) :
  scopes h this l ->
  length l <= size h
  /\ forall fuel,
       length l <= fuel ->
       Environment.get fuel this name h
       = match visible h name l with
         | Some value => Ok value h
         | None => Throw (Error ("Undefined variable: " +:+ name))
         end.
Proof.
  intros H. split.
  - exact (scopes_length h this l H).
  - intros fuel Hfuel. exact (get_visible h this l name fuel H Hfuel).
Qed.

(** An inner scope whose parent is the global scope: [y] is found in
    the inner scope, [x] in the global one, [z] nowhere. *)
Lemma get_innermost_witness :
  let global := Environment.mk {["x" := 1%Z; "y" := 5%Z]} None in
  let inner := Environment.mk {["y" := 2%Z]} (Some 1%positive) in
  let h : Environment.heap Z := {[1%positive := global; 2%positive := inner]} in
  Environment.get 2 2%positive "y" h = Ok 2%Z h
  /\ Environment.get 2 2%positive "x" h = Ok 1%Z h
  /\ Environment.get 2 2%positive "z" h
     = Throw (Error "Undefined variable: z").
Proof.
  intros global inner h.
  assert (H : scopes h 2%positive [2%positive; 1%positive]).
  { eapply scopes_inner; [reflexivity|reflexivity|].
    eapply scopes_global; reflexivity. }
  split; [|split].
  - exact (proj2 (get_innermost h 2%positive _ "y" H) 2 ltac:(cbn; lia)).
  - exact (proj2 (get_innermost h 2%positive _ "x" H) 2 ltac:(cbn; lia)).
  - exact (proj2 (get_innermost h 2%positive _ "z" H) 2 ltac:(cbn; lia)).
Defined.

(** X20: [assign] changes one binding, the one of the innermost scope that
    has the name: every other binding and every [parent] stay, and no
    scope gets a name it did not have.  When no scope of the chain has
    the name, [assign] throws the same error as [get]. *)
Theorem assign_innermost {Value} (h : Environment.heap Value) (this : ref)
    (l : list ref) (name : string) (value : Value) (fuel : nat) :
  scopes h this l ->
  length l <= fuel ->
  match resolve h name l with
  | Some this' =>
      exists h',
        Environment.assign fuel this name value h = Ok tt h'
        /\ value_at h' name this' = Some value
        /\ (forall name' this'',
               (this'', name') <> (this', name) ->
               value_at h' name' this'' = value_at h name' this'')
        /\ (forall this'', parent_at h' this'' = parent_at h this'')
        /\ (forall name' this'',
               defines h' name' this'' = defines h name' this'')
  | None =>
      Environment.assign fuel this name value h
      = Throw (Error ("Undefined variable: " +:+ name))
      /\ Environment.get fuel this name h
         = Throw (Error ("Undefined variable: " +:+ name))
  end.
Proof.
  intros H Hfuel.
  pose proof (assign_resolve h this l name value fuel H Hfuel) as Ha.
  pose proof (get_visible h this l name fuel H Hfuel) as Hg.
  unfold visible in Hg.
  destruct (resolve h name l) as [this'|] eqn:E; [|now split].
  destruct (resolve_defines _ _ _ _ E) as [_ Hd].
  destruct (Environment.values_set this' name value h) as [[] h'| |] eqn:Hs.
  - exists h'. split; [exact Ha|].
    destruct (assign_effect h this l name value fuel h' H Hfuel Ha)
      as (this2 & E2 & Hv & Hp).
    rewrite E in E2. injection E2 as <-.
    split; [|split; [|split]].
    + rewrite Hv. now rewrite bool_decide_eq_true_2.
    + intros name' this'' Hne. rewrite Hv.
      rewrite bool_decide_eq_false_2; [reflexivity|].
      intros [-> ->]. now apply Hne.
    + exact Hp.
    + exact (defines_assigned h h' name value this' Hd Hv).
  - unfold defines, value_at in Hd.
    destruct (h !! this') as [env'|] eqn:Hthis'; [|discriminate].
    now rewrite (values_set_allocated _ _ _ _ _ Hthis') in Hs.
  - unfold defines, value_at in Hd.
    destruct (h !! this') as [env'|] eqn:Hthis'; [|discriminate].
    now rewrite (values_set_allocated _ _ _ _ _ Hthis') in Hs.
Qed.

Lemma assign_innermost_witness :
  let global := Environment.mk {["x" := 1%Z]} None in
  let inner := Environment.mk {["y" := 2%Z]} (Some 1%positive) in
  let h : Environment.heap Z := {[1%positive := global; 2%positive := inner]} in
  (exists h',
      Environment.assign 2 2%positive "x" 7%Z h = Ok tt h'
      /\ value_at h' "x" 1%positive = Some 7%Z
      /\ value_at h' "x" 2%positive = None)
  /\ Environment.assign 2 2%positive "z" 7%Z h
     = Throw (Error "Undefined variable: z").
Proof.
  intros global inner h.
  assert (H : scopes h 2%positive [2%positive; 1%positive]).
  { eapply scopes_inner; [reflexivity|reflexivity|].
    eapply scopes_global; reflexivity. }
  split.
  - destruct (assign_innermost h 2%positive _ "x" 7%Z 2 H ltac:(cbn; lia))
      as (h' & Ha & Hv & Hother & _).
    exists h'. split; [exact Ha|]. split; [exact Hv|].
    now rewrite (Hother "x" 2%positive).
  - exact (proj1 (assign_innermost h 2%positive _ "z" 7%Z 2 H
                    ltac:(cbn; lia))).
Defined.

(** X21: Environments are shared.  After [assign] through one scope, [get]
    through any scope that resolves the name to the same environment
    returns the new value; through a scope that resolves it elsewhere,
    and for every other name, [get] answers as before. *)
Theorem assign_shared {Value} (h h' : Environment.heap Value)
    (this this2 : ref) (l l2 : list ref) (name : string) (value : Value)
    (fuel fuel2 : nat) :
  scopes h this l -> length l <= fuel ->
  scopes h this2 l2 -> length l2 <= fuel2 ->
  Environment.assign fuel this name value h = Ok tt h' ->
  (resolve h name l2 = resolve h name l ->
   Environment.get fuel2 this2 name h' = Ok value h')
  /\ (resolve h name l2 <> resolve h name l ->
      answer (Environment.get fuel2 this2 name h')
      = answer (Environment.get fuel2 this2 name h))
  /\ (forall name',
         name' <> name ->
         answer (Environment.get fuel2 this2 name' h')
         = answer (Environment.get fuel2 this2 name' h)).
Proof.
  intros H Hfuel H2 Hfuel2 Ha.
  destruct (assign_effect h this l name value fuel h' H Hfuel Ha)
    as (this' & E & Hv & Hp).
  destruct (resolve_defines _ _ _ _ E) as [_ Hd].
  pose proof (defines_assigned h h' name value this' Hd Hv) as Hdef.
  assert (H2' : scopes h' this2 l2).
  { eapply scopes_parents; [|exact H2]. intros. apply Hp. }
  rewrite E. split; [|split].
  - intros E2. rewrite (get_visible h' this2 l2 name fuel2 H2' Hfuel2).
    unfold visible. rewrite (resolve_ext h h' name l2) by (intros; apply Hdef).
    rewrite E2, Hv. now rewrite bool_decide_eq_true_2.
  - intros E2. rewrite (get_visible h' this2 l2 name fuel2 H2' Hfuel2).
    rewrite (get_visible h this2 l2 name fuel2 H2 Hfuel2).
    unfold visible. rewrite (resolve_ext h h' name l2) by (intros; apply Hdef).
    destruct (resolve h name l2) as [this3|]; [|reflexivity].
    rewrite Hv. rewrite bool_decide_eq_false_2.
    + now destruct (value_at h name this3).
    + intros [-> _]. now apply E2.
  - intros name' Hne.
    apply (answer_get h h' this2 l2 name' fuel2 H2 Hfuel2).
    + intros. apply Hp.
    + intros this3 _. rewrite Hv. rewrite bool_decide_eq_false_2; [easy|].
      now intros [_ ?].
Qed.

(** Two blocks of the global scope: an assignment to [x] through one
    is seen through the other. *)
Lemma assign_shared_witness :
  let global := Environment.mk {["x" := 1%Z]} None in
  let block := Environment.mk ∅ (Some 1%positive) in
  let h : Environment.heap Z :=
    {[1%positive := global; 2%positive := block; 3%positive := block]} in
  exists h',
    Environment.assign 2 2%positive "x" 7%Z h = Ok tt h'
    /\ Environment.get 2 3%positive "x" h' = Ok 7%Z h'.
Proof.
  intros global block h.
  assert (H1 : scopes h 1%positive [1%positive])
    by (eapply scopes_global; reflexivity).
  assert (H2 : scopes h 2%positive [2%positive; 1%positive])
    by (eapply scopes_inner; [reflexivity|reflexivity|exact H1]).
  assert (H3 : scopes h 3%positive [3%positive; 1%positive])
    by (eapply scopes_inner; [reflexivity|reflexivity|exact H1]).
  destruct (Environment.assign 2 2%positive "x" 7%Z h) as [[] h'| |] eqn:Ha;
    [|discriminate Ha..].
  exists h'. split; [reflexivity|].
  exact (proj1 (assign_shared h h' 2%positive 3%positive _ _ "x" 7%Z 2 2
                  H2 ltac:(cbn; lia) H3 ltac:(cbn; lia) Ha) eq_refl).
Defined.

(** X22: [define] binds the name in the environment it is called on,
    whatever the outer scopes hold: [get] there returns the value.  It
    leaves the other names alone, and is not seen from a scope whose
    chain does not pass through this environment; the enclosing scope
    is such a scope. *)
Theorem define_shadows {Value} (h : Environment.heap Value) (this : ref)
    (env : Environment.t Value) (name : string) (value : Value) :
  h !! this = Some env ->
  exists h',
    Environment.define this name value h = Ok tt h'
    /\ (forall fuel, Environment.get (S fuel) this name h' = Ok value h')
    /\ (forall this2 l2 fuel2 name2,
           scopes h this2 l2 -> length l2 <= fuel2 ->
           this ∉ l2 \/ name2 <> name ->
           answer (Environment.get fuel2 this2 name2 h')
           = answer (Environment.get fuel2 this2 name2 h))
    /\ (forall parent l fuel name2,
           Environment.parent env = Some parent ->
           scopes h parent l -> length l <= fuel ->
           answer (Environment.get fuel parent name2 h')
           = answer (Environment.get fuel parent name2 h)).
Proof.
  intros Hthis. eexists. split.
  { unfold Environment.define. exact (values_set_allocated _ _ _ _ _ Hthis). }
  set (h' := <[this := _]> h).
  assert (Hframe : forall this2 l2 fuel2 name2,
             scopes h this2 l2 -> length l2 <= fuel2 ->
             this ∉ l2 \/ name2 <> name ->
             answer (Environment.get fuel2 this2 name2 h')
             = answer (Environment.get fuel2 this2 name2 h)).
  { intros this2 l2 fuel2 name2 H2 Hfuel2 Hor.
    apply (answer_get h h' this2 l2 name2 fuel2 H2 Hfuel2).
    - intros. now apply parent_at_set.
    - intros this3 Hin. subst h'. rewrite (value_at_set _ _ _ _ _ _ _ Hthis).
      rewrite bool_decide_eq_false_2; [reflexivity|].
      intros [-> ->]. destruct Hor; contradiction. }
  split; [|split].
  - intros fuel. cbn [Environment.get]. unfold bind, Environment.deref.
    subst h'. unfold Environment.heap in *. rewrite lookup_insert_eq.
    cbn [Environment.values]. now rewrite lookup_insert_eq.
  - exact Hframe.
  - intros parent l fuel name2 Hp Hl Hfuel.
    apply (Hframe parent l fuel name2 Hl Hfuel). left.
    pose proof (scopes_NoDup h this (this :: l)
                  (scopes_inner h this env parent l Hthis Hp Hl)) as Hnd.
    now apply NoDup_cons in Hnd as [? _].
Qed.

(** A block of the global scope defines [x], which the global scope has
    too: the block sees its own [x], the global scope still its own. *)
Lemma define_shadows_witness :
  let global := Environment.mk {["x" := 1%Z]} None in
  let block := Environment.mk ∅ (Some 1%positive) in
  let h : Environment.heap Z := {[1%positive := global; 2%positive := block]} in
  exists h',
    Environment.define 2%positive "x" 7%Z h = Ok tt h'
    /\ Environment.get 2 2%positive "x" h' = Ok 7%Z h'
    /\ answer (Environment.get 1 1%positive "x" h') = Ok 1%Z tt.
Proof.
  intros global block h.
  destruct (define_shadows h 2%positive block "x" 7%Z eq_refl)
    as (h' & Hd & Hget & _ & Hparent).
  exists h'. split; [exact Hd|]. split; [exact (Hget 1)|].
  rewrite (Hparent 1%positive [1%positive] 1 "x" eq_refl);
    [reflexivity| |cbn; lia].
  eapply scopes_global; reflexivity.
Defined.

(** X23: [new Environment(parent)] is a fresh environment at the head of the
    parent's chain.  It has no names of its own, so every name means in
    it what it means in the parent, and nothing changes for the scopes
    there were. *)
Theorem new_scope {Value} (h h' : Environment.heap Value)
    (parent this : ref) (l : list ref) :
  scopes h parent l ->
  Environment.new (Some parent) h = Ok this h' ->
  h !! this = None
  /\ scopes h' this (this :: l)
  /\ (forall name fuel,
         length l <= fuel ->
         answer (Environment.get (S fuel) this name h')
         = answer (Environment.get fuel parent name h))
  /\ (forall this2 l2 name fuel,
         scopes h this2 l2 -> length l2 <= fuel ->
         scopes h' this2 l2
         /\ answer (Environment.get fuel this2 name h')
            = answer (Environment.get fuel this2 name h)).
Proof.
  intros H Hnew. destruct (new_fresh h _ this h' Hnew) as [Hfresh ->].
  assert (Hold : forall this2 l2 name fuel,
             scopes h this2 l2 -> length l2 <= fuel ->
             scopes (<[this := Environment.mk ∅ (Some parent)]> h) this2 l2
             /\ answer (Environment.get fuel this2 name
                          (<[this := Environment.mk ∅ (Some parent)]> h))
                = answer (Environment.get fuel this2 name h)).
  { intros this2 l2 name fuel H2 Hfuel. split.
    - now apply scopes_new.
    - apply (answer_get h _ this2 l2 name fuel H2 Hfuel).
      + intros x Hx. apply (value_at_new h this (Some parent) name x Hfresh).
        exact (scopes_allocated _ _ _ _ H2 Hx).
      + intros x Hx. apply (value_at_new h this (Some parent) name x Hfresh).
        exact (scopes_allocated _ _ _ _ H2 Hx). }
  split; [exact Hfresh|]. split; [|split].
  - eapply scopes_inner.
    + unfold Environment.heap in *. apply lookup_insert_eq.
    + reflexivity.
    + now apply scopes_new.
  - intros name fuel Hfuel. cbn [Environment.get].
    unfold bind at 1, Environment.deref at 1.
    unfold Environment.heap in *. rewrite lookup_insert_eq.
    cbn [Environment.values Environment.parent]. rewrite lookup_empty.
    exact (proj2 (Hold parent l name fuel H Hfuel)).
  - exact Hold.
Qed.

Lemma new_scope_witness :
  let global := Environment.mk {["x" := 1%Z]} None in
  let h : Environment.heap Z := {[1%positive := global]} in
  exists this h',
    Environment.new (Some 1%positive) h = Ok this h'
    /\ scopes h' this [this; 1%positive]
    /\ answer (Environment.get 2 this "x" h') = Ok 1%Z tt.
Proof.
  intros global h.
  assert (H1 : scopes h 1%positive [1%positive])
    by (eapply scopes_global; reflexivity).
  destruct (Environment.new (Some 1%positive) h) as [this h'| |] eqn:Hnew;
    [|discriminate Hnew..].
  destruct (new_scope h h' 1%positive this _ H1 Hnew)
    as (_ & Hs & Hget & _).
  exists this, h'. split; [reflexivity|]. split; [exact Hs|].
  now rewrite (Hget "x" 1 ltac:(cbn; lia)).
Defined.

(** X24: The interpreter's heaps are well formed: when every environment
    has a chain of scopes ending in one without a parent, this is still
    so after [new] on nothing or on one of the environments, after
    [define] and after [assign].  In such a heap [get] and [assign]
    return or throw with fuel of the size of the heap. *)
Theorem closed_preserved {Value} (h : Environment.heap Value) :
  closed h ->
  (forall parent this h',
      (forall p, parent = Some p -> is_Some (h !! p)) ->
      Environment.new parent h = Ok this h' -> closed h')
  /\ (forall this name value h',
         Environment.define this name value h = Ok tt h' -> closed h')
  /\ (forall fuel this name value h',
         Environment.assign fuel this name value h = Ok tt h' -> closed h')
  /\ (forall this name value,
         is_Some (h !! this) ->
         Environment.get (size h) this name h <> OutOfFuel
         /\ Environment.assign (size h) this name value h <> OutOfFuel).
Proof.
  intros Hc. split; [|split; [|split]].
  - intros parent this h' Hparent Hnew.
    destruct (new_fresh h _ this h' Hnew) as [Hfresh ->].
    intros this2 env2 H2.
    destruct (decide (this2 = this)) as [->|Hne].
    + destruct parent as [p|].
      * destruct (Hparent p eq_refl) as [envp Hp].
        destruct (Hc p envp Hp) as [l Hl]. exists (this :: l).
        eapply scopes_inner;
          [exact H2| |apply scopes_new; [exact Hfresh|exact Hl]].
        unfold Environment.heap in *. rewrite lookup_insert_eq in H2.
        now injection H2 as <-.
      * exists [this]. eapply scopes_global; [exact H2|].
        unfold Environment.heap in *. rewrite lookup_insert_eq in H2.
        now injection H2 as <-.
    + assert (H2' : h !! this2 = Some env2).
      { unfold Environment.heap in *.
        now rewrite lookup_insert_ne in H2 by congruence. }
      destruct (Hc this2 env2 H2') as [l Hl]. exists l. now apply scopes_new.
  - intros this name value h'. unfold Environment.define.
    unfold Environment.values_set, bind, Environment.deref.
    destruct (h !! this) as [env|] eqn:Hthis; [|discriminate].
    intros [= <-]. now apply closed_values_set.
  - intros fuel this name value h' Ha.
    destruct (assign_Ok fuel this name value h h' Ha)
      as (this' & env' & Hthis' & ->).
    now apply closed_values_set.
  - intros this name value [env Hthis]. destruct (Hc this env Hthis) as [l Hl].
    pose proof (scopes_length h this l Hl) as Hlen.
    rewrite (get_visible h this l name _ Hl Hlen).
    rewrite (assign_resolve h this l name value _ Hl Hlen).
    split.
    + now destruct (visible h name l).
    + destruct (resolve h name l) as [this'|] eqn:E; [|discriminate].
      destruct (resolve_defines _ _ _ _ E) as [_ Hd].
      unfold defines, value_at in Hd.
      destruct (h !! this') as [env'|] eqn:Hthis'; [|discriminate].
      now rewrite (values_set_allocated _ _ _ _ _ Hthis').
Qed.

(** The empty heap is closed, so the heap with a global scope is. *)
Lemma closed_preserved_witness :
  exists this h',
    Environment.new None (∅ : Environment.heap Z) = Ok this h' /\ closed h'.
Proof.
  assert (H0 : closed (∅ : Environment.heap Z)).
  { intros this env H. unfold Environment.heap in *.
    now rewrite lookup_empty in H. }
  destruct (Environment.new None (∅ : Environment.heap Z)) as [this h'| |]
    eqn:Hnew; [|discriminate Hnew..].
  exists this, h'. split; [reflexivity|].
  exact (proj1 (closed_preserved ∅ H0) None this h'
           ltac:(intros p [=]) Hnew).
Defined.

(** * Number literals *)

Lemma digit_not_char (c x : ascii) :
  Lexer.isDigit c = true -> Lexer.isDigit x = false ->
  Lexer.char_eqb c x = false.
Proof.
  intros Hc Hx. unfold Lexer.char_eqb.
  destruct (Ascii.eqb_spec c x) as [->|]; [congruence|reflexivity].
Qed.

Lemma digits_loop_munch (run : string) :
  forall (pre post value : string) (s : Lexer.state) (fuel : nat),
    all_chars Lexer.isDigit run = true ->
    starts_outside Lexer.isDigit post ->
    Lexer.pos s = String.length pre ->
    String.length run < fuel ->
    Lexer.digits_loop (pre +:+ run +:+ post) fuel value s
    = Ok (value +:+ run)
         (Lexer.mkState (String.length pre + String.length run) (Lexer.line s)
            (Lexer.column s + Z.of_nat (String.length run))).
Proof.
  induction run as [|c run IH]; intros pre post value s fuel Hrun Hpost Hs Hfuel;
    (destruct fuel as [|fuel]; [cbn in Hfuel; lia|]);
    cbn [Lexer.digits_loop]; unfold bind at 1.
  - rewrite string_app_nil.
    destruct (peek_outside Lexer.isDigit pre post s Hs eq_refl Hpost)
      as (d & -> & ->).
    unfold ret. rewrite string_app_empty. cbn [String.length].
    destruct s as [pos line column]. cbn in *. subst pos.
    f_equal. f_equal; lia.
  - unfold all_chars in Hrun. cbn [list_ascii_of_string forallb] in Hrun.
    apply andb_true_iff in Hrun as [Hc Hrun].
    rewrite string_app_cons. rewrite (peek_run pre c _ s Hs). rewrite Hc.
    unfold bind at 1. unfold Lexer.advance.
    rewrite Hs, string_get_here. cbn [String.get].
    rewrite string_step.
    rewrite (IH (pre +:+ String c "") post); cbn [Lexer.pos Lexer.line Lexer.column].
    + unfold Lexer.append_char.
      rewrite string_app_assoc, string_app_cons, string_app_nil.
      rewrite string_length_step. cbn [String.length]. f_equal. f_equal; lia.
    + exact Hrun.
    + exact Hpost.
    + now rewrite string_length_step.
    + cbn [String.length] in Hfuel. lia.
Qed.

(** The digits of a number literal, up to its fractional part: the
    scanner reads them and stops before what follows. *)
Lemma number_whole (pre : string) (c : ascii) (run rest : string)
    (s : Lexer.state) (fuel : nat) :
  Lexer.isDigit c = true ->
  all_chars Lexer.isDigit run = true ->
  starts_outside Lexer.isDigit rest ->
  Lexer.pos s = String.length pre ->
  S (String.length run) < fuel ->
  exists fuel',
    fuel = S (S fuel')
    /\ Lexer.nextToken (pre +:+ String c run +:+ rest) fuel s
       = (let* char := Lexer.peek (pre +:+ String c run +:+ rest) in
          let* next := Lexer.peekNext (pre +:+ String c run +:+ rest) in
          let* value :=
            if Lexer.char_eqb char "." && Lexer.isDigit next then
              let* dot := Lexer.advance (pre +:+ String c run +:+ rest) in
              Lexer.digits_loop (pre +:+ String c run +:+ rest) (S fuel')
                (Lexer.append_char (String c run) dot)
            else ret (String c run) in
          Lexer.makeToken TokenType.NUMBER value)
           (Lexer.mkState (String.length pre + S (String.length run))
              (Lexer.line s)
              (Lexer.column s + Z.of_nat (S (String.length run)))).
Proof.
  intros Hc Hrun Hrest Hs Hfuel.
  destruct fuel as [|[|fuel]]; [lia..|]. exists fuel. split; [reflexivity|].
  rewrite string_app_cons.
  assert (Hend : forall rest,
             (String.length (pre +:+ String c rest) <=? String.length pre)%nat
             = false).
  { intros rest'. apply Nat.leb_gt. rewrite string_length_app.
    cbn [String.length]. lia. }
  cbn [Lexer.nextToken Lexer.skipWhitespace].
  unfold bind at 1. unfold bind at 1. unfold Lexer.isAtEnd at 1.
  rewrite Hs, Hend.
  unfold bind at 1. rewrite (peek_run pre c _ s Hs).
  repeat match goal with
         | |- context [Lexer.char_eqb c ?x] =>
             rewrite (digit_not_char c x Hc eq_refl)
         end.
  cbn [orb]. unfold ret at 1.
  unfold bind at 1. unfold Lexer.isAtEnd at 1. rewrite Hs, Hend.
  unfold bind at 1. unfold Lexer.advance at 1.
  rewrite Hs, string_get_here. cbn [String.get].
  unfold bind at 1. unfold Lexer.peek at 1.
  repeat match goal with
         | |- context [Lexer.char_eqb c ?x] =>
             rewrite (digit_not_char c x Hc eq_refl)
         end.
  cbn [andb orb]. rewrite Hc.
  unfold Lexer.number. unfold bind at 1.
  rewrite string_step.
  rewrite (digits_loop_munch run (pre +:+ String c "") rest);
    cbn [Lexer.pos Lexer.line Lexer.column];
    [|assumption|assumption|now rewrite string_length_step|lia].
  rewrite string_app_cons, string_app_nil, string_length_step.
  replace (String.length pre + 1 + String.length run)
    with (String.length pre + S (String.length run)) by lia.
  replace (Lexer.column s + 1 + Z.of_nat (String.length run))%Z
    with (Lexer.column s + Z.of_nat (S (String.length run)))%Z by lia.
  reflexivity.
Qed.

Lemma string_get_after (pre run rest : string) (i : nat) :
  String.get (String.length pre + String.length run + i)
    (pre +:+ run +:+ rest)
  = String.get i rest.
Proof.
  rewrite <- (string_app_assoc pre run rest).
  rewrite <- (string_length_app pre run). apply string_get_app.
Qed.

(** X25: A number literal is the longest run of digits, with a dot and the
    digits after it when at least one digit follows the dot: its token
    is a [NUMBER] with that text, at the line and column where the
    literal starts, and the scanner stops right after it.  A dot that no
    digit follows is not part of the number. *)
Theorem nextToken_number (pre : string) (c : ascii) (run frac post : string)
    (s : Lexer.state) (fuel : nat) :
  Lexer.isDigit c = true ->
  all_chars Lexer.isDigit run = true ->
  fraction frac post ->
  starts_outside Lexer.isDigit post ->
  Lexer.pos s = String.length pre ->
  S (String.length run + String.length frac) < fuel ->
  Lexer.nextToken (pre +:+ String c run +:+ frac +:+ post) fuel s
  = Ok (Token.mk TokenType.NUMBER (String c run +:+ frac)
          (Lexer.line s) (Lexer.column s))
       (Lexer.mkState
          (String.length pre + S (String.length run) + String.length frac)
          (Lexer.line s)
          (Lexer.column s
           + Z.of_nat (S (String.length run) + String.length frac))).
Proof.
  intros Hc Hrun Hfrac Hpost Hs Hfuel.
  assert (Hrest : starts_outside Lexer.isDigit (frac +:+ post)).
  { destruct frac as [|dot [|d frac]]; cbn in Hfrac.
    - now rewrite string_app_nil.
    - contradiction.
    - destruct Hfrac as (Hdot & _ & _). rewrite string_app_cons. cbn.
      apply Ascii.eqb_eq in Hdot as ->. reflexivity. }
  destruct (number_whole pre c run (frac +:+ post) s fuel Hc Hrun Hrest Hs
              ltac:(lia)) as (fuel' & -> & ->).
  set (source := pre +:+ String c run +:+ frac +:+ post).
  assert (Hget : forall i,
             String.get (String.length pre + S (String.length run) + i) source
             = String.get i (frac +:+ post)).
  { intros i. exact (string_get_after pre (String c run) (frac +:+ post) i). }
  unfold bind at 1. unfold Lexer.peek at 1. cbn [Lexer.pos].
  unfold bind at 1. unfold Lexer.peekNext at 1. cbn [Lexer.pos].
  rewrite (Hget 1).
  replace (String.length pre + S (String.length run))
    with (String.length pre + S (String.length run) + 0) at 1 by lia.
  rewrite (Hget 0).
  destruct frac as [|dot [|d frac]]; cbn in Hfrac.
  - rewrite string_app_nil. rewrite string_app_empty.
    assert (Lexer.char_eqb (default Lexer.nul (String.get 0 post)) "."
            && Lexer.isDigit (default Lexer.nul (String.get 1 post)) = false)
      as ->.
    { destruct post as [|p0 [|p1 post]]; cbn.
      - reflexivity.
      - apply andb_false_r.
      - destruct (Lexer.char_eqb p0 ".") eqn:E; [|reflexivity].
        now rewrite (Hfrac eq_refl). }
    unfold bind, ret, Lexer.makeToken, strlen.
    cbn [Lexer.pos Lexer.line Lexer.column String.length].
    f_equal; [f_equal; lia|f_equal; lia].
  - contradiction.
  - destruct Hfrac as (Hdot & Hd & Hfrac).
    apply Ascii.eqb_eq in Hdot as ->.
    rewrite !string_app_cons. cbn [String.get default from_option id].
    change (Lexer.char_eqb "." ".") with true. rewrite Hd. cbn [andb].
    unfold bind at 1. unfold bind at 1. unfold Lexer.advance at 1.
    cbn [Lexer.pos Lexer.line Lexer.column].
    replace (String.length pre + S (String.length run))
      with (String.length pre + S (String.length run) + 0) at 1 by lia.
    rewrite (Hget 0). rewrite !string_app_cons. cbn [String.get].
    unfold Lexer.append_char. subst source.
    assert (Hsource :
             pre +:+ String c run +:+ String "." (String d frac) +:+ post
             = (pre +:+ String c run +:+ ".") +:+ String d frac +:+ post).
    { rewrite !string_app_assoc. rewrite !string_app_cons, string_app_nil.
      reflexivity. }
    rewrite Hsource.
    rewrite (digits_loop_munch (String d frac) (pre +:+ String c run +:+ ".")
               post).
    + unfold Lexer.makeToken, strlen.
      cbn [Lexer.pos Lexer.line Lexer.column].
      rewrite !string_app_assoc, !string_app_cons, !string_app_nil.
      rewrite !string_length_app. cbn [String.length].
      rewrite !string_length_app. cbn [String.length].
      f_equal; [f_equal; lia|f_equal; lia].
    + unfold all_chars. cbn [list_ascii_of_string forallb].
      unfold all_chars in Hfrac. now rewrite Hd, Hfrac.
    + exact Hpost.
    + cbn [Lexer.pos]. rewrite !string_length_app. cbn [String.length]. lia.
    + cbn [String.length] in *. lia.
Qed.

Lemma nextToken_number_witness :
  Lexer.nextToken "x = 12.50.y" 20 (Lexer.mkState 4 1 5)
  = Ok (Token.mk TokenType.NUMBER "12.50" 1 5) (Lexer.mkState 9 1 10)
  /\ Lexer.nextToken "[1.]" 20 (Lexer.mkState 1 1 2)
     = Ok (Token.mk TokenType.NUMBER "1" 1 2) (Lexer.mkState 2 1 3).
Proof.
  split.
  - apply (nextToken_number "x = " "1" "2" ".50" ".y"); try reflexivity.
    + repeat split.
    + cbn. lia.
  - apply (nextToken_number "[" "1" "" "" ".]"); try reflexivity.
    + intros _. reflexivity.
    + cbn. lia.
Defined.
